(** * Lattice-polytope normal forms (PALP, [Polynf.c]): a shallow embedding

    The development follows [src/build/pkgs/palp/patches/Polynf.c]:

    - [GL_Egcd], [GL_RoundQ], [GL_W_to_GLZ], [GLZ_Make_Trian_NF]: the
      integer lattice reduction;
    - [SL_Egcd], [SL2Z_Make_Poly_NF]: the older variant of the reduction;
    - [Aux_vNF_Init], [Aux_vNF_Line], [Make_VPM_NF]: the normal form of the
      vertex pairing matrix under row and column permutations;
    - [New_pNF_Order], [Aux_Make_Triang], [Aux_pNF_from_vNF],
      [Eval_Poly_NF], [Make_Poly_NF], [Make_Poly_Sym_NF]: the polytope
      normal form and its symmetries;
    - [XmY_vecdiff], [Remove_Identical_Points], [PermChar], [Perm_String],
      [Improve_Coords], [Aux_NF_Coord], [Make_Poly_UTriang],
      [INV_GLZmatrix]: lists of points, their coordinates, permutations as
      text and inverse matrices.

    Conventions of the embedding.

    - [Long], [GL_Long] and [SL_Long] values are integers of [Z]; signed
      overflow is undefined in C and is not modelled, so the results hold
      for runs in which no intermediate value leaves the machine range.
      C's [/] and [%] truncate toward zero: [Z.quot] and [Z.rem].
    - A C array is a total function from indices to values ([nat -> A]),
      an assignment [a[i] = v] is [upd a i v].  The capacities
      [VERT_Nmax] and [POLY_Dmax] of the arrays are not modelled.
    - [int] loop counters and indices are natural numbers.
    - A call either returns, or ends the process through [exit(0)], or
      leaves the part of memory the model describes: see [result]. *)

From Stdlib Require Import ZArith List Lia Bool Arith Znumtheory Permutation
  Ascii.
From HB Require Import structures.
From mathcomp Require ssreflect ssrfun ssrbool eqtype ssrnat seq choice.
From mathcomp Require fintype bigop ssralg matrix.
Import ListNotations.

Local Open Scope Z_scope.

(** ** Arrays, loops and results *)

Definition vec := nat -> Z.
Definition mat := nat -> nat -> Z.

Definition upd {A : Type} (a : nat -> A) (i : nat) (v : A) : nat -> A :=
  fun k => if Nat.eqb k i then v else a k.

Definition upd2 {A : Type} (m : nat -> nat -> A) (i j : nat) (v : A)
  : nat -> nat -> A :=
  upd m i (upd (m i) j v).

(** [for (i = lo; i < lo + cnt; i++) s = body i s]. *)
Fixpoint for_up {S : Type} (lo cnt : nat) (body : nat -> S -> S) (s : S) : S :=
  match cnt with
  | O => s
  | Datatypes.S k => for_up (Datatypes.S lo) k body (body lo s)
  end.

(** [for (j = cnt; 0 < j; j--) s = body j s]. *)
Fixpoint for_down {S : Type} (cnt : nat) (body : nat -> S -> S) (s : S) : S :=
  match cnt with
  | O => s
  | Datatypes.S k => for_down k body (body (Datatypes.S k) s)
  end.

(** The sum [a 0 * b 0 + ... + a (n-1) * b (n-1)], accumulated from [acc]
    in increasing order of the index, as the [+=] loops of the source do. *)
Definition dot_from (acc : Z) (n : nat) (a b : vec) : Z :=
  for_up 0 n (fun j s => s + a j * b j) acc.

Definition col (X : mat) (c : nat) : vec := fun j => X j c.

(** How a call ends. [Exited] is [exit(0)]: the process stops and the
    caller gets nothing back. [OutOfRange] is a run that reads a matrix
    column past the [nv] columns the caller filled in. *)
Inductive result (A : Type) : Type :=
| Returned (a : A)
| Exited
| OutOfRange.
Arguments Returned {A} a.
Arguments Exited {A}.
Arguments OutOfRange {A}.

Definition bind {A B : Type} (r : result A) (k : A -> result B) : result B :=
  match r with
  | Returned a => k a
  | Exited => Exited
  | OutOfRange => OutOfRange
  end.

Notation "'do' x <- r ; k" := (bind r (fun x => k))
  (at level 200, x pattern, r at level 100, k at level 200, right associativity).

(** ** Compile-time configuration

    [POLY_Dmax], [VERT_Nmax] and [SYM_Nmax] come from [Global.h], which is
    not part of the sources at hand: they are parameters.  The three limits
    are defined from [POLY_Dmax] as in the source. *)
Record config : Type := Config {
  POLY_Dmax : Z;
  SYM_Nmax : Z
}.

Definition NFX_Limit (cfg : config) : Z :=
  if POLY_Dmax cfg <? 5 then 903 else 1631721.
Definition X_Limit (cfg : config) : Z :=
  if POLY_Dmax cfg <? 5 then 9999 else 3263441.
Definition VPM_Limit (cfg : config) : Z :=
  if POLY_Dmax cfg <? 5 then 9999 else 3263442.

(** ** The extended Euclidean algorithm and the rounded quotient *)

(** The [while] loop of [GL_Egcd]: [A2 = A0 % A1] and the cofactor update.
    Returns the final [A1] and [X1]. *)
Fixpoint GL_Egcd_loop (fuel : nat) (A0 A1 X0 X1 : Z) : Z * Z :=
  match fuel with
  | O => (A1, X1)
  | Datatypes.S k =>
      let A2 := Z.rem A0 A1 in
      if A2 =? 0 then (A1, X1)
      else GL_Egcd_loop k A1 A2 X1 (X0 - X1 * Z.quot A0 A1)
  end.

(** The absolute value of [A1] at least halves every two rounds of the loop,
    so twice its binary logarithm plus two bounds the number of rounds
    (lemma [GL_Egcd_loop_spec] below). *)
Definition Egcd_fuel (A1 : Z) : nat :=
  (2 * Z.to_nat (Z.log2 (Z.abs A1)) + 2)%nat.

(** [GL_Egcd A0 A1 = (g, Vout0, Vout1)]. *)
Definition GL_Egcd (A0 A1 : Z) : Z * Z * Z :=
  let '(g, X1) := GL_Egcd_loop (Egcd_fuel A1) A0 A1 1 0 in
  (g, X1, Z.quot (g - A0 * X1) A1).

Definition GL_RoundQ (N D : Z) : Z :=
  let '(D, N) := if D <? 0 then (- D, - N) else (D, N) in
  let F := Z.quot N D in
  F + Z.quot (2 * (N - F * D)) D.

(** ** [GL_W_to_GLZ]: a unimodular matrix for a vector of non-zero numbers *)

(** [for (n = 0; n <= j; n++) B[n] -= r * Y[n]]. *)
Definition row_sub_upto (B Y : vec) (r : Z) (j : nat) : vec :=
  for_up 0 (Datatypes.S j) (fun n B => upd B n (B n - r * Y n)) B.

(** One round of the improvement loop, for the line [Y = GLZ[j]]. *)
Definition GLZ_improve (GLZ : nat -> vec) (j : nat) (BE : vec * vec)
  : vec * vec :=
  let '(B, E) := BE in
  let Y := GLZ j in
  let rB := GL_RoundQ (B j) (Y j) in
  let rE := GL_RoundQ (E j) (Y j) in
  (row_sub_upto B Y rB j, row_sub_upto E Y rE j).

(** The body of [for (i = 2; i < d; i++)]; the state is [(G, GLZ)]. *)
Definition GLZ_round (W : vec) (i : nat) (st : Z * (nat -> vec))
  : Z * (nat -> vec) :=
  let '(G, GLZ) := st in
  let E := GLZ 0%nat in
  let '(g, a, b) := GL_Egcd G (W i) in
  let B := upd (GLZ i) i (Z.quot G g) in
  let G := Z.quot (W i) g in
  let B := for_up 0 i (fun j B => upd B j (- E j * G)) B in
  let E := for_up 0 i (fun j E => upd E j (E j * a)) E in
  let E := upd E i b in
  let '(B, E) := for_down (i - 1) (GLZ_improve GLZ) (B, E) in
  (g, upd (upd GLZ i B) 0%nat E).

(** [for (i = 1; i < d; i++) for (j = 0; j < d; j++) GLZ[i][j] = 0]. *)
Definition GLZ_clear (d : nat) (GLZ : nat -> vec) : nat -> vec :=
  for_up 1 (d - 1) (fun i GLZ =>
    upd GLZ i (for_up 0 d (fun j r => upd r j 0) (GLZ i))) GLZ.

(** The part of [GL_W_to_GLZ] before the loop: the lines 0 and 1. *)
Definition GLZ_first (W : vec) (d : nat) (GLZ : nat -> vec)
  : Z * (nat -> vec) :=
  let GLZ := GLZ_clear d GLZ in
  let '(G, e0, e1) := GL_Egcd (W 0%nat) (W 1%nat) in
  let E := upd (upd (GLZ 0%nat) 0%nat e0) 1%nat e1 in
  let B := upd (upd (GLZ 1%nat) 0%nat (Z.quot (- W 1%nat) G)) 1%nat
               (Z.quot (W 0%nat) G) in
  (G, upd (upd GLZ 0%nat E) 1%nat B).

Definition GL_W_to_GLZ (W : vec) (d : nat) (GLZ : nat -> vec)
  : Z * (nat -> vec) :=
  for_up 2 (d - 2) (GLZ_round W) (GLZ_first W d GLZ).

(** ** [GLZ_Make_Trian_NF]: the echelon normal form under GL(n,Z) *)

(** Loops that can leave early: [inl] goes on, [inr] is the early exit. *)
Fixpoint for_up_brk {S R : Type} (lo cnt : nat) (body : nat -> S -> S + R)
  (s : S) : S + R :=
  match cnt with
  | O => inl s
  | Datatypes.S k =>
      match body lo s with
      | inl s' => for_up_brk (Datatypes.S lo) k body s'
      | inr r => inr r
      end
  end.

(** Loops whose body can end the process. *)
Fixpoint for_upR {S : Type} (lo cnt : nat) (body : nat -> S -> result S)
  (s : S) : result S :=
  match cnt with
  | O => Returned s
  | Datatypes.S k => bind (body lo s) (for_upR (Datatypes.S lo) k body)
  end.

(** [for (i) for (j) NF[i][C] += G[i][j] * X[j][C]]. *)
Definition NF_add_col (n : nat) (G X : mat) (C : nat) (NF : mat) : mat :=
  for_up 0 n (fun i NF => upd2 NF i C (dot_from (NF i C) n (G i) (col X C))) NF.

(** [for (i = L; i < n; i++) if (NF[i][C]) { W[N] = NF[i][C]; p[N++] = i; }],
    entered with [N = 0]. *)
Definition scan_col (n L C : nat) (NF : mat) (W : vec) (p : nat -> nat)
  : nat * vec * (nat -> nat) :=
  for_up L (n - L) (fun i '(N, W, p) =>
    if NF i C =? 0 then (N, W, p)
    else (Datatypes.S N, upd W N (NF i C), upd p N i)) (0%nat, W, p).

(** The loop [while (N == 0)], entered with the column [C] that [++C] reaches
    first. It stops at the first column with a non-zero entry in the lines
    [L..n-1]; [fuel] is the number of columns left before [nv]. *)
Fixpoint find_col (fuel n L : nat) (X G : mat) (C : nat) (NF : mat) (W : vec)
  (p : nat -> nat) : option (nat * mat * nat * vec * (nat -> nat)) :=
  match fuel with
  | O => None
  | Datatypes.S k =>
      let NF := NF_add_col n G X C NF in
      let '(N, W, p) := scan_col n L C NF W p in
      if Nat.eqb N 0 then find_col k n L X G (Datatypes.S C) NF W p
      else Some (C, NF, N, W, p)
  end.

(** The lines [p[0..N-1]] of [G] are replaced by their combinations with
    the coefficients [_G], column by column, through the copy [Cp]. *)
Definition apply_block (n N : nat) (p : nat -> nat) (_G : nat -> vec) (G : mat)
  : mat :=
  for_up 0 n (fun i G =>
    let Cp := for_up 0 N (fun j Cp => upd Cp j (G (p j) i)) (fun _ => 0) in
    for_up 0 N (fun j G => upd2 G (p j) i (dot_from 0 N (_G j) Cp)) G) G.

Definition swap_lines (n a b : nat) (G : mat) : mat :=
  for_up 0 n (fun i G =>
    let A := G a i in
    let G := upd2 G a i (G b i) in
    upd2 G b i A) G.

(** [for (i = 0; i < L; i++)]: make the entries above the pivot minimal and
    non-negative. *)
Definition reduce_above (n L C : nat) (st : mat * mat) : mat * mat :=
  for_up 0 L (fun i '(NF, G) =>
    let R := Z.quot (NF i C) (NF L C) in
    let R := if NF i C - R * NF L C <? 0 then R - 1 else R in
    let NF := upd2 NF i C (NF i C - R * NF L C) in
    (NF, for_up 0 n (fun j G => upd2 G i j (G i j - R * G L j)) G)) st.

Record GLZ_state : Type := GLZ_State {
  gl_C : nat;            (* the column that the next [++C] reaches *)
  gl_G : mat;
  gl_NF : mat;
  gl_W : vec;
  gl_NG : nat -> vec     (* the lines [_G[i] = NG[i]] *)
}.

(** [if (N == 1) { g = W[0]; _G[0][0] = 1; } else g = GL_W_to_GLZ(W, N, _G);]
    and then the sign: [if (g < 0) { g *= -1; _G[0][i] *= -1 for i < N }]. *)
Definition GLZ_combine (W : vec) (N : nat) (NG : nat -> vec)
  : Z * (nat -> vec) :=
  let '(g, NG) :=
    if Nat.eqb N 1 then (W 0%nat, upd2 NG 0 0 1)
    else GL_W_to_GLZ W N NG in
  if g <? 0
  then (g * -1,
        upd NG 0%nat (for_up 0 N (fun i r => upd r i (r i * -1)) (NG 0%nat)))
  else (g, NG).

(** [NF[L][C] = g; for (i = L+1; i < n; i++) NF[i][C] = 0;] *)
Definition NF_set_pivot (n L C : nat) (g : Z) (NF : mat) : mat :=
  let NF := upd2 NF L C g in
  for_up (L + 1) (n - (L + 1)) (fun i NF => upd2 NF i C 0) NF.

(** The body of [for (L = 0; L < n; L++)]. *)
Definition GLZ_line (n nv : nat) (X : mat) (L : nat) (st : GLZ_state)
  : result GLZ_state :=
  match find_col (nv - gl_C st) n L X (gl_G st) (gl_C st) (gl_NF st)
                 (gl_W st) (fun _ => 0%nat) with
  | None => OutOfRange
  | Some (C, NF, N, W, p) =>
      let '(g, NG) := GLZ_combine W N (gl_NG st) in
      let NF := NF_set_pivot n L C g NF in
      let G := apply_block n N p NG (gl_G st) in
      let G := if Nat.eqb L (p 0%nat) then G else swap_lines n L (p 0%nat) G in
      let '(NF, G) := reduce_above n L C (NF, G) in
      Returned (GLZ_State (Datatypes.S C) G NF W NG)
  end.

(** The last double loop: copy [NF] to [X] until an entry exceeds the limit.
    [inr X] is the [return 0], with the entries written so far. *)
Definition GLZ_write_back_line (lim : Z) (nv : nat) (NF : mat) (i : nat)
  (X : mat) : mat + mat :=
  for_up_brk 0 nv (fun j X =>
    let g := NF i j in
    let g := if g <? 0 then - g else g in
    if g >? lim then inr X else inl (upd2 X i j (NF i j))) X.

Definition GLZ_write_back (lim : Z) (n nv : nat) (NF X : mat) : mat + mat :=
  for_up_brk 0 n (GLZ_write_back_line lim nv NF) X.

Definition identity_mat : mat :=
  fun i j => if Nat.eqb i j then 1 else 0.

(** The part of [GLZ_Make_Trian_NF] before the last double loop: it returns
    the matrices [NF] and [G].  The local arrays [W] and [NG] are not
    initialised in the source; [W0] and [NG0] are their contents at entry. *)
Definition GLZ_reduce_from (W0 : vec) (NG0 : nat -> vec) (X : mat) (n nv : nat)
  : result (mat * mat) :=
  let G := for_up 0 n (fun i G =>
             for_up 0 n (fun j G => upd2 G i j (if Nat.eqb i j then 1 else 0)) G)
             (fun _ _ => 0) in
  let NF := for_up 0 n (fun i NF =>
              for_up 0 nv (fun j NF => upd2 NF i j 0) NF) (fun _ _ => 0) in
  do st <- for_upR 0 n (GLZ_line n nv X) (GLZ_State 0 G NF W0 NG0);
  let NF := for_up (gl_C st) (nv - gl_C st)
              (fun C NF => NF_add_col n (gl_G st) X C NF) (gl_NF st) in
  Returned (NF, gl_G st).

Definition GLZ_reduce := GLZ_reduce_from (fun _ => 0) (fun _ _ => 0).

(** [GLZ_Make_Trian_NF X n nv] returns [(r, X', G)]: the value [r] of the
    call, the matrix [X] and the transformation [G] it leaves. *)
Definition GLZ_Make_Trian_NF (cfg : config) (X : mat) (n nv : nat)
  : result (Z * mat * mat) :=
  do (NF, G) <- GLZ_reduce X n nv;
  match GLZ_write_back (NFX_Limit cfg) n nv NF X with
  | inr X' => Returned (0, X', G)
  | inl X' => Returned (1, X', G)
  end.

(** [Aux_Make_Poly_NF] with [TEST_GLZ_VS_SL] set to 0, as in the source. *)
Definition Aux_Make_Poly_NF (cfg : config) (X : mat) (n nv : nat)
  : result (Z * mat) :=
  do (r, X', _) <- GLZ_Make_Trian_NF cfg X n nv; Returned (r, X').

(** Reading a matrix as a list of lines. *)
Definition mat_to_list (n nv : nat) (M : mat) : list (list Z) :=
  map (fun i => map (fun j => M i j) (seq 0 nv)) (seq 0 n).
Definition mat_of_list (l : list (list Z)) : mat :=
  fun i j => nth j (nth i l nil) 0.

(** ** Permutations of lines and columns: [PERM] and the VPM normal form *)

(** [typedef struct {int C[VERT_Nmax], L[VERT_Nmax], s;} PERM;] *)
Record PERM : Type := Build_PERM {
  PERM_C : nat -> nat;
  PERM_L : nat -> nat;
  PERM_s : Z
}.

Definition set_C (P : PERM) (C : nat -> nat) : PERM :=
  Build_PERM C (PERM_L P) (PERM_s P).
Definition set_L (P : PERM) (L : nat -> nat) : PERM :=
  Build_PERM (PERM_C P) L (PERM_s P).
Definition set_s (P : PERM) (s : Z) : PERM :=
  Build_PERM (PERM_C P) (PERM_L P) s.

(** Modelled from the spec: [swap], which takes two pointers to [int], is
    declared in [Global.h], outside the sources at hand; it exchanges the two
    integers. Here they are the cells [i] and [j] of one array. *)
Definition swap (a : nat -> nat) (i j : nat) : nat -> nat :=
  upd (upd a i (a j)) j (a i).

(** [while (++j <= s) if (y[C[c]] < y[C[j]]) swap(&C[c], &C[j]);]
    entered with [j = c]. *)
Definition swap_max (y : vec) (c s : nat) (C : nat -> nat) : nat -> nat :=
  for_up (c + 1) (s - c) (fun j C =>
    if y (C c) <? y (C j) then swap C c j else C) C.

(** [m = i; for (j = i+1; j < nv; j++) if (y[C[m]] < y[C[j]]) m = j;] *)
Definition arg_max (y : vec) (nv i : nat) (C : nat -> nat) : nat :=
  for_up (i + 1) (nv - (i + 1)) (fun j m =>
    if y (C m) <? y (C j) then j else m) i.

(** The block structure [S] of the columns after a line [y] in the column
    order [C]: [S[i] = l] and [S[j] = i] for [i < j <= l] when the columns
    [i..l] are equivalent. *)
Definition S_cell (y : vec) (C : nat -> nat) (c : nat) (S : nat -> nat)
  : nat -> nat :=
  if y (C c) =? y (C (c - 1)%nat)
  then let S := upd S c (S (c - 1)%nat) in upd S (S c) (S (S c) + 1)%nat
  else upd S c c.

(** The state of [Aux_vNF_Init] in its loop over the lines [nn]:
    [nb] is the line [b] points to ([b = x[nb]]). *)
Record Init_state : Type := Build_Init_state {
  in_CL : nat -> PERM;
  in_ns : nat;
  in_nb : nat
}.

(** [swap(&p->C[i], &p->C[j])] for [p = &CL[k]]. *)
Definition CL_swap_C (CL : nat -> PERM) (k i j : nat) : nat -> PERM :=
  upd CL k (set_C (CL k) (swap (PERM_C (CL k)) i j)).
Definition CL_swap_L (CL : nat -> PERM) (k i j : nat) : nat -> PERM :=
  upd CL k (set_L (CL k) (swap (PERM_L (CL k)) i j)).

(** [C = p->C] for [p = &CL[k]], followed by the loop [swap_max] on [C]. *)
Definition CL_swap_C_max (CL : nat -> PERM) (k : nat) (y : vec) (c s : nat)
  : nat -> PERM :=
  upd CL k (set_C (CL k) (swap_max y c s (PERM_C (CL k)))).

(** The loop [for (i = 1; i < nv; i++)] on the candidate [p = &CL[ns]] of
    [Aux_vNF_Init], with its [break]: the state is [(CL, d)], and [inr] is
    the state at the [break]. [q] is [&CL[0]]. *)
Definition Init_sort_cmp (nv ns : nat) (y b : vec)
  (st : (nat -> PERM) * Z) : (nat -> PERM) * Z + (nat -> PERM) * Z :=
  for_up_brk 1 (nv - 1) (fun i '(CL, d) =>
    let m := arg_max y nv i (PERM_C (CL ns)) in
    let CL := if (i <? m)%nat then CL_swap_C CL ns i m else CL in
    if d =? 0 then
      let d := y (PERM_C (CL ns) i) - b (PERM_C (CL 0%nat) i) in
      if d <? 0 then inr (CL, d) else inl (CL, d)
    else inl (CL, d)) st.

(** The body of [for (nn = 1; nn < nf; nn++)]. *)
Definition Init_line (x : nat -> vec) (nv : nat) (P : PERM) (nn : nat)
  (st : Init_state) : Init_state :=
  let ns := in_ns st in
  let b := x (in_nb st) in
  let y := x nn in
  let CL := upd (in_CL st) ns P in
  let m := arg_max y nv 0 (PERM_C (CL ns)) in
  let CL := if (0 <? m)%nat then CL_swap_C CL ns 0 m else CL in
  let d := y (PERM_C (CL ns) 0%nat) - b (PERM_C (CL 0%nat) 0%nat) in
  if d <? 0 then Build_Init_state CL ns (in_nb st)
  else
    let '(CL, d) :=
      match Init_sort_cmp nv ns y b (CL, d) with
      | inl r => r
      | inr r => r
      end in
    if d <? 0 then Build_Init_state CL ns (in_nb st)
    else
      let CL := CL_swap_L CL ns 0 nn in
      if d =? 0 then Build_Init_state CL (ns + 1) (in_nb st)
      else Build_Init_state (upd CL 0%nat (CL ns)) 1 nn.

(** [Aux_vNF_Init]: returns [CL], [S] and [*_ns]. [s0] is the content of the
    field [s] of the local [P], which the source does not initialise. *)
Definition Aux_vNF_Init (nv nf : nat) (x : nat -> vec) (CL : nat -> PERM)
  (S : nat -> nat) (ns : nat) (s0 : Z) : (nat -> PERM) * (nat -> nat) * nat :=
  let P := Build_PERM (for_up 0 nv (fun j C => upd C j j) (fun _ => 0%nat))
                      (for_up 0 nf (fun i L => upd L i i) (fun _ => 0%nat))
                      s0 in
  let b := x 0%nat in
  let qC := for_up 1 (nv - 1) (fun j C =>
              if b (C 0%nat) <? b (C j) then swap C 0 j else C) (PERM_C P) in
  let qC := for_up 1 (nv - 1) (fun i C =>
              for_up (i + 1) (nv - (i + 1)) (fun j C =>
                if b (C i) <? b (C j) then swap C i j else C) C) qC in
  let CL := upd CL 0%nat (set_C P qC) in
  let st := for_up 1 (nf - 1) (Init_line x nv P) (Build_Init_state CL ns 0) in
  let CL := in_CL st in
  let y := x (PERM_L (CL 0%nat) 0%nat) in
  let S := upd S 0%nat 0%nat in
  let S := for_up 1 (nv - 1) (S_cell y (PERM_C (CL 0%nat))) S in
  (CL, S, in_ns st).

(** The state of [Aux_vNF_Line] while it works on one candidate [CL[n]]:
    the new candidates [nP[0..np-1]] (and the scratch copy [nP[np]]), the
    reference line [r], the flags [cf] and [ccf], and [*_ns]. *)
Record Line_state : Type := Build_Line_state {
  ln_nP : nat -> PERM;
  ln_np : nat;
  ln_r : vec;
  ln_cf : Z;
  ln_ccf : Z;
  ln_ns : nat
}.

(** The body of [while (++L < _X->nf)]: the line [L] of the candidate is
    tried as the line [l] of the normal form, on the first column. *)
Definition Line_first (l n : nat) (x : nat -> vec) (S : nat -> nat)
  (CL : nat -> PERM) (L : nat) (st : Line_state) : Line_state :=
  let np := ln_np st in
  let nP := ln_nP st in
  let r := ln_r st in
  let y := x (PERM_L (nP np) L) in
  let nP := CL_swap_C_max nP np y 0 (S 0%nat) in
  let C := PERM_C (nP np) in
  if negb (ln_ccf st =? 0) then
    let d := y (C 0%nat) - r 0%nat in
    if d <? 0 then                                           (* BAD line *)
      Build_Line_state nP np r (ln_cf st) (ln_ccf st) (ln_ns st)
    else if negb (d =? 0) then                            (* BETTER line *)
      let r := upd r 0%nat (y (C 0%nat)) in
      let nP := upd nP 0%nat (nP np) in
      let nP := upd nP 1%nat (CL n) in
      let nP := CL_swap_L nP 0 l L in
      Build_Line_state nP 1 r 0 (ln_ccf st) (n + 1)
    else                                                   (* EQUAL line *)
      let nP := CL_swap_L nP np l L in
      let nP := upd nP (np + 1)%nat (CL n) in
      Build_Line_state nP (np + 1) r (ln_cf st) (ln_ccf st) (ln_ns st)
  else                                                       (* NEW line *)
    let r := upd r 0%nat (y (C 0%nat)) in
    let nP := CL_swap_L nP np l L in
    let nP := upd nP (np + 1)%nat (CL n) in
    Build_Line_state nP (np + 1) r (ln_cf st) 1 (ln_ns st).

(** The body of [while (L--)] for the column [c] and its block end [s]. *)
Definition Line_cell (l n : nat) (x : nat -> vec) (c s : nat) (L : nat)
  (st : Line_state) : Line_state :=
  let np := ln_np st in
  let nP := ln_nP st in
  let r := ln_r st in
  let y := x (PERM_L (nP L) l) in
  let nP := CL_swap_C_max nP L y c s in
  let C := PERM_C (nP L) in
  if negb (ln_ccf st =? 0) then
    let d := y (C c) - r c in
    if d <? 0 then                                           (* BAD line *)
      let np := (np - 1)%nat in
      let nP := if (L <? np)%nat then upd nP L (nP np) else nP in
      Build_Line_state nP np r (ln_cf st) (ln_ccf st) (ln_ns st)
    else if negb (d =? 0) then                            (* BETTER line *)
      Build_Line_state nP (L + 1) (upd r c (y (C c))) 0 (ln_ccf st) (n + 1)
    else                                                   (* EQUAL line *)
      Build_Line_state nP np r (ln_cf st) (ln_ccf st) (ln_ns st)
  else
    Build_Line_state nP np (upd r c (y (C c))) (ln_cf st) 1 (ln_ns st).

(** The body of [while (++c < _X->nv)]. *)
Definition Line_col (l n : nat) (x : nat -> vec) (S : nat -> nat) (c : nat)
  (st : Line_state) : Line_state :=
  let s := S c in
  let s := if (s <? c)%nat then S s else s in
  let st := Build_Line_state (ln_nP st) (ln_np st) (ln_r st) (ln_cf st)
                             (ln_cf st) (ln_ns st) in
  for_down (ln_np st) (fun k st => Line_cell l n x c s (k - 1) st) st.

(** The state of [Aux_vNF_Line] between two candidates. *)
Record vNF_state : Type := Build_vNF_state {
  vn_CL : nat -> PERM;
  vn_ns : nat;
  vn_r : vec;
  vn_cf : Z
}.

(** The two inner loops of the body of [while (n--)], for the candidate
    [CL[n]]. Of the local array [nP] the source initialises [nP[0] = CL[n]]
    only; the other cells are written before they are read, and start here
    with the same content. *)
Definition Line_work (l nv nf : nat) (x : nat -> vec) (S : nat -> nat)
  (n : nat) (st : vNF_state) : Line_state :=
  let CL := vn_CL st in
  let st1 := Build_Line_state (fun _ => CL n) 0 (vn_r st)
                              (vn_cf st) (vn_cf st) (vn_ns st) in
  let st1 := for_up l (nf - l) (Line_first l n x S CL) st1 in
  for_up 1 (nv - 1) (Line_col l n x S) st1.

(** The count [cf = *_ns + np] that is compared with [SYM_Nmax], after
    [*_ns] was decremented. *)
Definition Line_count (st2 : Line_state) : Z :=
  Z.of_nat (ln_ns st2 - 1) + Z.of_nat (ln_np st2).

(** The body of [while (n--)]: the new candidates are written to [CL], or
    [exit(0)] when they no longer fit into [SYM_Nmax]. *)
Definition Line_cand (cfg : config) (l nv nf : nat) (x : nat -> vec)
  (S : nat -> nat) (n : nat) (st : vNF_state) : result vNF_state :=
  let CL := vn_CL st in
  let st2 := Line_work l nv nf x S n st in
  let np := ln_np st2 in
  let ns := (ln_ns st2 - 1)%nat in
  let CL := if (n <? ns)%nat then upd CL n (CL ns) else CL in
  let cf := Line_count st2 in
  if SYM_Nmax cfg <? cf then Exited
  else
    let '(CL, ns) := for_up 0 np (fun L '(CL, ns) =>
                       (upd CL ns (ln_nP st2 L), Datatypes.S ns)) (CL, ns) in
    Returned (Build_vNF_state CL ns (ln_r st2) cf).

(** Loops downward whose body can end the process:
    [for (j = cnt; 0 < j; j--)]. *)
Fixpoint for_downR {S : Type} (cnt : nat) (body : nat -> S -> result S)
  (s : S) : result S :=
  match cnt with
  | O => Returned s
  | Datatypes.S k => bind (body (Datatypes.S k) s) (for_downR k body)
  end.

(** The last block of [Aux_vNF_Line]: the block structure [S] is refined by
    the line [y] in the column order [C]; one round of the outer [while]
    per old block. *)
Fixpoint refine_S (fuel nv : nat) (y : vec) (C : nat -> nat) (c : nat)
  (S : nat -> nat) : nat -> nat :=
  match fuel with
  | O => S
  | Datatypes.S k =>
      if (c <? nv)%nat then
        let s := (S c + 1)%nat in
        let S := upd S c c in
        let S := for_up (c + 1) (s - (c + 1)) (S_cell y C) S in
        refine_S k nv y C (Nat.max s (c + 1)) S
      else S
  end.

(** [Aux_vNF_Line]: returns [CL], [S] and [*_ns]. [r0] is the content of the
    local array [r] at entry, which the source does not initialise. *)
Definition Aux_vNF_Line (cfg : config) (l nv nf : nat) (x : nat -> vec)
  (CL : nat -> PERM) (S : nat -> nat) (ns : nat) (r0 : vec)
  : result ((nat -> PERM) * (nat -> nat) * nat) :=
  do st <- for_downR ns (fun k st => Line_cand cfg l nv nf x S (k - 1) st)
                     (Build_vNF_state CL ns r0 0);
  let CL := vn_CL st in
  let y := x (PERM_L (CL 0%nat) l) in
  Returned (CL, refine_S nv nv y (PERM_C (CL 0%nat)) 0 S, vn_ns st).

(** [Make_VPM_NF]: returns [CL], [*ns] and [VPM_NF]. *)
Definition Make_VPM_NF (cfg : config) (v f : nat) (x : nat -> vec)
  (CL : nat -> PERM) : result ((nat -> PERM) * nat * mat) :=
  do (CL, _, ns) <-
     for_upR 1 (f - 1 - 1) (fun i '(CL, S_, ns) =>
       Aux_vNF_Line cfg i v f x CL S_ ns (fun _ => 0))
       (Aux_vNF_Init v f x CL (fun _ => 0%nat) 1 0);
  let VPM_NF := for_up 0 v (fun i M =>
                  for_up 0 f (fun j M =>
                    upd2 M j i (x (PERM_L (CL 0%nat) j) (PERM_C (CL 0%nat) i))) M)
                  (fun _ _ => 0) in
  Returned (CL, ns, VPM_NF).

(** ** The order of the vertices and the polytope normal form *)

(** The selection sort of [New_pNF_Order] on [(maxP, sumP)], with the
    permutation [pi] it builds. *)
Definition pNF_pick (v i : nat) (maxP sumP : vec) : nat :=
  for_up (i + 1) (v - (i + 1)) (fun j n =>
    if maxP j <? maxP n then j
    else if maxP j =? maxP n then (if sumP j <? sumP n then j else n)
    else n) i.

Definition swapZ (a : vec) (i j : nat) : vec :=
  upd (upd a i (a j)) j (a i).

Definition pNF_sort (v : nat) (st : vec * vec * (nat -> nat))
  : vec * vec * (nat -> nat) :=
  for_up 0 (v - 1) (fun i '(maxP, sumP, pi) =>
    let n := pNF_pick v i maxP sumP in
    if Nat.eqb n i then (maxP, sumP, pi)
    else (swapZ maxP i n, swapZ sumP i n, swap pi i n)) st.

Definition New_pNF_Order (v f : nat) (CL : nat -> PERM) (ns : nat)
  (VPM_NF : mat) : nat -> PERM :=
  let '(maxP, sumP, pi) :=
    for_up 0 v (fun i '(maxP, sumP, pi) =>
      let pi := upd pi i i in
      let sumP := upd sumP i 0 in
      let maxP := upd maxP i 0 in
      let '(maxP, sumP) :=
        for_up 0 f (fun j '(maxP, sumP) =>
          let sumP := upd sumP i (sumP i + VPM_NF j i) in
          let maxP := if VPM_NF j i >? maxP i then upd maxP i (VPM_NF j i)
                      else maxP in
          (maxP, sumP)) (maxP, sumP) in
      (maxP, sumP, pi)) (fun _ => 0, fun _ => 0, fun _ => 0%nat) in
  let '(_, _, pi) := pNF_sort v (maxP, sumP, pi) in
  for_up 0 ns (fun i CL =>
    let C := PERM_C (CL i) in
    let c := for_up 0 v (fun j c => upd c j (C (pi j))) (fun _ => 0%nat) in
    upd CL i (set_C (CL i) (for_up 0 v (fun j C => upd C j (c j)) C))) CL.

(** [Aux_XltY_Poly_NF]: the value of [X < Y], lines read one after the other.
    [inr] is a [return] inside the loops. *)
Definition XltY_line (X Y : mat) (nv i : nat) (u : unit) : unit + Z :=
  for_up_brk 0 nv (fun j (u : unit) =>
    let d := X i j - Y i j in
    if negb (d =? 0) then (if d <? 0 then inr 1 else inr 0)
    else inl u) u.

Definition Aux_XltY_Poly_NF (X Y : mat) (n nv : nat) : Z :=
  match for_up_brk 0 n (XltY_line X Y nv) tt with
  | inr r => r
  | inl _ => 0
  end.

(** [for (i) for (j) X[i][j] = V[i][C[j]]]. *)
Definition permuted_cols (n nv : nat) (V : mat) (C : nat -> nat) (X : mat)
  : mat :=
  for_up 0 n (fun i X => for_up 0 nv (fun j X => upd2 X i j (V i (C j))) X) X.

Definition copy_mat (n nv : nat) (src dst : mat) : mat :=
  for_up 0 n (fun i M => for_up 0 nv (fun j M => upd2 M i j (src i j)) M) dst.

(** The state of [Aux_Make_Triang] in its loop over the candidates: the two
    buffers [X] and [Y], the flag [x] ([Y] holds the best matrix when [x] is
    not 0), the index [g] of the best candidate, the count [ps], the
    mode and counter [t], and the list [CL] with its marks [s]. *)
Record Triang_state : Type := Build_Triang_state {
  tr_X : mat;
  tr_Y : mat;
  tr_x : Z;
  tr_g : nat;
  tr_ps : Z;
  tr_t : Z;
  tr_CL : nat -> PERM
}.

Definition CL_set_s (CL : nat -> PERM) (k : nat) (s : Z) : nat -> PERM :=
  upd CL k (set_s (CL k) s).

(** The bookkeeping under [if] of [*t] after the candidate [s] was reduced:
    [better] says that it became the best one, [cmp] is the value of the
    second call of [Aux_XltY_Poly_NF], made only when it did not. *)
Definition Triang_mark (s : nat) (better : bool) (cmp : Z)
  (st : Triang_state) : Triang_state :=
  if negb (tr_t st =? 0) then
    if better then
      let '(CL, t) :=
        if tr_t st <? 0
        then (CL_set_s (for_up (tr_g st) (s - tr_g st)
                          (fun k CL => CL_set_s CL k 0) (tr_CL st)) s 1, -1)
        else (tr_CL st, tr_t st) in
      Build_Triang_state (tr_X st) (tr_Y st) (tr_x st) s 1 t CL
    else if cmp =? 0 then
      let '(CL, t) :=
        if tr_t st <? 0 then (CL_set_s (tr_CL st) s 1, tr_t st - 1)
        else (tr_CL st, tr_t st) in
      Build_Triang_state (tr_X st) (tr_Y st) (tr_x st) (tr_g st)
                         (tr_ps st + 1) t CL
    else st
  else st.

(** The body of [for (s = 1; s < ns; s++)]. *)
Definition Triang_cand (cfg : config) (V : mat) (n nv : nat) (s : nat)
  (st : Triang_state) : result Triang_state :=
  if negb (tr_x st =? 0) then
    let X := permuted_cols n nv V (PERM_C (tr_CL st s)) (tr_X st) in
    do (r, X) <- Aux_Make_Poly_NF cfg X n nv;
    if r =? 0 then Exited
    else
      let x := if negb (Aux_XltY_Poly_NF X (tr_Y st) n nv =? 0) then 0
               else tr_x st in
      let st := Build_Triang_state X (tr_Y st) x (tr_g st) (tr_ps st)
                                   (tr_t st) (tr_CL st) in
      Returned (Triang_mark s (x =? 0)
                  (if x =? 0 then 0 else Aux_XltY_Poly_NF (tr_Y st) X n nv) st)
  else
    let Y := permuted_cols n nv V (PERM_C (tr_CL st s)) (tr_Y st) in
    do (r, Y) <- Aux_Make_Poly_NF cfg Y n nv;
    if r =? 0 then Exited
    else
      let x := if negb (Aux_XltY_Poly_NF Y (tr_X st) n nv =? 0) then 1
               else tr_x st in
      let st := Build_Triang_state (tr_X st) Y x (tr_g st) (tr_ps st)
                                   (tr_t st) (tr_CL st) in
      Returned (Triang_mark s (x =? 1)
                  (if x =? 1 then 0 else Aux_XltY_Poly_NF (tr_X st) Y n nv) st).

(** [Aux_Make_Triang]: returns [CL] (with the marks [s]), [V] and [*t].
    The traces printed when [*t > 0] are not modelled. *)
Definition Aux_Make_Triang (cfg : config) (CL : nat -> PERM) (ns : nat)
  (V : mat) (n nv : nat) (t : Z) : result ((nat -> PERM) * mat * Z) :=
  let X := permuted_cols n nv V (PERM_C (CL 0%nat)) (fun _ _ => 0) in
  do (r, X) <- Aux_Make_Poly_NF cfg X n nv;
  if r =? 0 then Exited
  else
    do CL <- (if negb (t =? 0) then
                if t >? 0 then Returned CL
                else if negb (t + 1 =? 0) then Exited
                     else Returned (CL_set_s CL 0 1)
              else Returned CL);
    let CL := for_up 1 (ns - 1) (fun s CL => CL_set_s CL s 0) CL in
    do st <- for_upR 1 (ns - 1) (Triang_cand cfg V n nv)
               (Build_Triang_state X (fun _ _ => 0) 0 0 1 t CL);
    let V := if negb (tr_x st =? 0) then copy_mat n nv (tr_Y st) V
             else copy_mat n nv (tr_X st) V in
    Returned (tr_CL st, V, tr_t st).

Definition Aux_pNF_from_vNF (cfg : config) (CL : nat -> PERM) (ns v d : nat)
  (VM pNF : mat) (t : Z) : result ((nat -> PERM) * mat * Z) :=
  let pNF := copy_mat d v VM pNF in
  Aux_Make_Triang cfg CL ns pNF d v t.

(** [Eval_Poly_NF]: returns [pNF]. The list [CL] is allocated and freed
    inside; [CL0] is its content after [malloc]. *)
Definition Eval_Poly_NF (cfg : config) (CL0 : nat -> PERM) (d v f : nat)
  (VM : mat) (VPM : nat -> vec) (pNF : mat) (t : Z) : result mat :=
  do (CL, ns, VPM_NF) <- Make_VPM_NF cfg v f VPM CL0;
  let CL := New_pNF_Order v f CL ns VPM_NF in
  do (_, pNF, _) <- Aux_pNF_from_vNF cfg CL ns v d VM pNF t;
  Returned pNF.

(** ** The inputs and the entry points *)

(** The three input structures are declared in [Global.h], outside the
    sources at hand; their fields are those [Polynf.c] reads: [_P->n],
    [_P->np], [_P->x[i][j]], [_V->nv], [_V->v[i]], [_F->ne], [_F->e[j].c],
    and the normal [a] of an equation. *)
Record Equation : Type := Build_Equation {
  Eq_a : vec;
  Eq_c : Z
}.

Record PolyPointList : Type := Build_PolyPointList {
  PPL_n : nat;
  PPL_np : nat;
  PPL_x : nat -> vec
}.

Record VertexNumList : Type := Build_VertexNumList {
  VNL_nv : nat;
  VNL_v : nat -> nat
}.

Record EqList : Type := Build_EqList {
  EqL_ne : nat;
  EqL_e : nat -> Equation
}.

(** Modelled from the spec: [Eval_Eq_on_V] is defined outside the sources at
    hand. An entry of the vertex pairing matrix is the "evaluation of a facet
    equation on a vertex": the constant [c] of the equation plus the product
    of its normal with the point, over the [n] coordinates. *)
Definition Eval_Eq_on_V (E : Equation) (V : vec) (n : nat) : Z :=
  for_down n (fun i p => p + V (i - 1)%nat * Eq_a E (i - 1)%nat) (Eq_c E).

(** The memory the entry points work on: the three structures the caller
    passes by address, and the [int] locals of the running function. An
    [int_ptr] is the address of an [int]: a local, or one of the counters
    inside the caller's structures. *)
Record memory : Type := Build_memory {
  m_P : PolyPointList;
  m_V : VertexNumList;
  m_F : EqList;
  m_local : nat -> nat
}.

Inductive int_ptr : Type :=
| Ptr_local (k : nat)
| Ptr_P_n
| Ptr_V_nv
| Ptr_F_ne.

Definition load (p : int_ptr) (m : memory) : nat :=
  match p with
  | Ptr_local k => m_local m k
  | Ptr_P_n => PPL_n (m_P m)
  | Ptr_V_nv => VNL_nv (m_V m)
  | Ptr_F_ne => EqL_ne (m_F m)
  end.

Definition store (p : int_ptr) (a : nat) (m : memory) : memory :=
  match p with
  | Ptr_local k => Build_memory (m_P m) (m_V m) (m_F m) (upd (m_local m) k a)
  | Ptr_P_n =>
      Build_memory (Build_PolyPointList a (PPL_np (m_P m)) (PPL_x (m_P m)))
                   (m_V m) (m_F m) (m_local m)
  | Ptr_V_nv =>
      Build_memory (m_P m) (Build_VertexNumList a (VNL_v (m_V m)))
                   (m_F m) (m_local m)
  | Ptr_F_ne =>
      Build_memory (m_P m) (m_V m) (Build_EqList a (EqL_e (m_F m)))
                   (m_local m)
  end.

(** [TEST_rVM_VPM]: [exit(0)] when an entry of [X] or of [x] exceeds its
    limit. The state of the loops is [err]. *)
Definition TEST_rVM_VPM (cfg : config) (d v f : nat) (X : mat) (x : nat -> vec)
  : result unit :=
  let err := for_up 0 v (fun i err =>
    let err := for_up 0 d (fun j err =>
                 if Z.abs (X j i) >? X_Limit cfg then X j i else err) err in
    for_up 0 f (fun j err =>
      if Z.abs (x j i) >? VPM_Limit cfg then x j i else err) err) 0 in
  if negb (err =? 0) then Exited else Returned tt.

(** [Init_rVM_VPM]: returns [ref], the memory after the stores through
    [d], [v] and [f], and the matrices [X] and [x]. *)
Definition Init_rVM_VPM (cfg : config) (m : memory) (d v f : int_ptr)
  (X : mat) (x : nat -> vec) : result (Z * memory * mat * (nat -> vec)) :=
  let m := store v (VNL_nv (m_V m)) m in
  let m := store f (EqL_ne (m_F m)) m in
  let m := store d (PPL_n (m_P m)) m in
  let '(ref, x) :=
    for_up 0 (EqL_ne (m_F m)) (fun j '(ref, x) =>
      let ref := if negb (Eq_c (EqL_e (m_F m) j) =? 1) then 0 else ref in
      (ref,
       for_up 0 (VNL_nv (m_V m)) (fun i x =>
         upd2 x j i (Eval_Eq_on_V (EqL_e (m_F m) j)
                       (PPL_x (m_P m) (VNL_v (m_V m) i)) (PPL_n (m_P m)))) x))
      (1, x) in
  let X :=
    for_up 0 (VNL_nv (m_V m)) (fun i X =>
      let pv := PPL_x (m_P m) (VNL_v (m_V m) i) in
      for_up 0 (PPL_n (m_P m)) (fun j X => upd2 X j i (pv j)) X) X in
  do _ <- TEST_rVM_VPM cfg (load d m) (load v m) (load f m) X x;
  Returned (ref, m, X, x).

(** [Make_Poly_NF]: returns its value ([ref]), the memory it leaves and
    [pNF]. [d], [v] and [f] are its locals 0, 1 and 2. *)
Definition Make_Poly_NF (cfg : config) (CL0 : nat -> PERM) (m : memory)
  (pNF : mat) : result (Z * memory * mat) :=
  let d := Ptr_local 0 in
  let v := Ptr_local 1 in
  let f := Ptr_local 2 in
  do (ref, m, VM, VPM) <-
     Init_rVM_VPM cfg m d v f (fun _ _ => 0) (fun _ _ => 0);
  do pNF <- Eval_Poly_NF cfg CL0 (load d m) (load v m) (load f m) VM VPM pNF 0;
  Returned (ref, m, pNF).

(** [while (0 == CL[i].s) i++;], within the [ns] candidates. *)
Fixpoint first_marked (fuel : nat) (CL : nat -> PERM) (i : nat) : option nat :=
  match fuel with
  | O => None
  | Datatypes.S k =>
      if PERM_s (CL i) =? 0 then first_marked k CL (Datatypes.S i) else Some i
  end.

(** [Make_Poly_Sym_NF]: returns its value ([ns]), the memory it leaves,
    [*SymNum], [V_perm] and [NF]. Here [d], [v] and [f] point into the
    caller's structures. *)
Definition Make_Poly_Sym_NF (cfg : config) (CL0 : nat -> PERM) (m : memory)
  (V_perm : nat -> nat -> nat) (NF : mat) (traced : Z)
  : result (Z * memory * Z * (nat -> nat -> nat) * mat) :=
  let d := Ptr_P_n in
  let v := Ptr_V_nv in
  let f := Ptr_F_ne in
  do (_, m, VM, VPM) <-
     Init_rVM_VPM cfg m d v f (fun _ _ => 0) (fun _ _ => 0);
  do NF <- (if negb (traced =? 0)
            then Eval_Poly_NF cfg CL0 (load Ptr_P_n m) (load Ptr_V_nv m)
                              (load Ptr_F_ne m) VM VPM NF 1
            else Returned NF);
  do (CL, ns, VPM_NF) <- Make_VPM_NF cfg (load v m) (load f m) VPM CL0;
  let CL := New_pNF_Order (load v m) (load f m) CL ns VPM_NF in
  do (CL, NF, t) <- Aux_pNF_from_vNF cfg CL ns (load v m) (load d m) VM NF (-1);
  let SymNum := - t in
  match first_marked ns CL 0 with
  | None => OutOfRange
  | Some i =>
      let C := PERM_C (CL i) in
      let '(V_perm, t) :=
        for_up i (ns - i) (fun i '(V_perm, t) =>
          if negb (PERM_s (CL i) =? 0) then
            (for_up 0 (load v m) (fun j V_perm =>
               upd2 V_perm (Z.to_nat t) (C j) (PERM_C (CL i) j)) V_perm,
             t + 1)
          else (V_perm, t)) (V_perm, 0) in
      let V_perm :=
        if SymNum <? SYM_Nmax cfg
        then for_up 0 (load v m) (fun i V_perm =>
               upd2 V_perm (Z.to_nat SymNum) i (C i)) V_perm
        else V_perm in
      if negb (t =? SymNum) then Exited
      else Returned (Z.of_nat ns, m, SymNum, V_perm, NF)
  end.

(** ** [SL2Z_Make_Poly_NF]: the older variant of the reduction

    The matrix [S] of the source is [Sm] here. *)

(** [SL_Egcd] has the text of [GL_Egcd], on [SL_Long]. *)
Definition SL_Egcd (A0 A1 : Z) : Z * Z * Z :=
  let '(g, X1) := GL_Egcd_loop (Egcd_fuel A1) A0 A1 1 0 in
  (g, X1, Z.quot (g - A0 * X1) A1).

(** The body of [while (++i < n) if (NF[i][C]) { ... }]: the entry [NF[i][C]]
    is made 0 against the line [L]. The state is [(N, Sm, NF)]. *)
Definition SL_clear (n L C : nat) (i : nat) (st : nat * mat * mat)
  : nat * mat * mat :=
  let '(N, Sm, NF) := st in
  if negb (NF i C =? 0) then
    let N := Datatypes.S N in
    if negb (NF L C =? 0) then
      let '(g, a, b) := SL_Egcd (NF L C) (NF i C) in
      let Sm := for_up 0 n (fun j Sm =>
                 let A := a * Sm L j + b * Sm i j in
                 let Sm := upd2 Sm i j (Z.quot (NF L C) g * Sm i j
                                      - Z.quot (NF i C) g * Sm L j) in
                 upd2 Sm L j A) Sm in
      let NF := upd2 NF L C g in
      let NF := upd2 NF i C 0 in
      (N, Sm, NF)
    else
      let NF := upd2 (upd2 NF L C (NF i C)) i C (NF L C) in
      let Sm := swap_lines n L i Sm in
      (N, Sm, NF)
  else (N, Sm, NF).

Definition negate_line (n L : nat) (Sm : mat) : mat :=
  for_up 0 n (fun j Sm => upd2 Sm L j (Sm L j * -1)) Sm.

(** The loop [while (!N)] for the line [L], entered with the column [C] that
    [++C] reaches first; [fuel] is the number of columns left before [nv].
    Returns the column it stopped at, [S] and [NF]. *)
Fixpoint SL_find_col (fuel n L : nat) (X : mat) (C : nat) (Sm NF : mat)
  : option (nat * mat * mat) :=
  match fuel with
  | O => None
  | Datatypes.S k =>
      let NF := NF_add_col n Sm X C NF in
      let N := if negb (NF L C =? 0) then 1%nat else 0%nat in
      let '(N, Sm, NF) :=
        for_up (L + 1) (n - (L + 1)) (SL_clear n L C) (N, Sm, NF) in
      let '(Sm, NF) :=
        if NF L C <? 0
        then (negate_line n L Sm, upd2 NF L C (NF L C * -1))
        else (Sm, NF) in
      let '(NF, Sm) :=
        if negb (Nat.eqb N 0) then reduce_above n L C (NF, Sm) else (NF, Sm) in
      if Nat.eqb N 0 then SL_find_col k n L X (Datatypes.S C) Sm NF
      else Some (C, Sm, NF)
  end.

(** The state of [SL2Z_Make_Poly_NF] between two lines: the column that the
    next [++C] reaches, [S] and [NF]. *)
Definition SL_line (n nv : nat) (X : mat) (L : nat) (st : nat * mat * mat)
  : result (nat * mat * mat) :=
  let '(C, Sm, NF) := st in
  match SL_find_col (nv - C) n L X C Sm NF with
  | None => OutOfRange
  | Some (C, Sm, NF) => Returned (Datatypes.S C, Sm, NF)
  end.

(** The body of [while (++C < nv)] after the lines: the state is
    [(L, Sm, NF)]. *)
Definition SL_rest (n : nat) (X : mat) (C : nat) (st : nat * mat * mat)
  : nat * mat * mat :=
  let '(L, Sm, NF) := st in
  let NF := NF_add_col n Sm X C NF in
  if negb (Nat.eqb L 0) && negb (NF L C =? 0) then
    let '(Sm, NF) :=
      if NF L C <? 0
      then (negate_line n L Sm, upd2 NF (n - 1) C (NF (n - 1)%nat C * -1))
      else (Sm, NF) in
    let '(NF, Sm) := reduce_above n L C (NF, Sm) in
    (0%nat, Sm, NF)
  else (L, Sm, NF).

(** The last double loop: [X[i][j] = NF[i][j]] and then the test. *)
Definition SL_write_back_line (lim : Z) (nv : nat) (NF : mat) (i : nat)
  (X : mat) : mat + mat :=
  for_up_brk 0 nv (fun j X =>
    let X := upd2 X i j (NF i j) in
    if Z.abs (X i j) >? lim then inr X else inl X) X.

Definition SL_write_back (lim : Z) (n nv : nat) (NF X : mat) : mat + mat :=
  for_up_brk 0 n (SL_write_back_line lim nv NF) X.

(** The part of [SL2Z_Make_Poly_NF] before the last double loop: it returns
    [NF] and [Sm]. *)
Definition SL2Z_reduce (X : mat) (n nv : nat) : result (mat * mat) :=
  let Sm := for_up 0 n (fun i Sm =>
             for_up 0 n (fun j Sm => upd2 Sm i j (if Nat.eqb i j then 1 else 0)) Sm)
             (fun _ _ => 0) in
  let NF := for_up 0 n (fun i NF =>
              for_up 0 nv (fun j NF => upd2 NF i j 0) NF) (fun _ _ => 0) in
  do (C, Sm, NF) <- for_upR 0 (n - 1) (SL_line n nv X) (0%nat, Sm, NF);
  let '(_, Sm, NF) :=
    for_up C (nv - C) (SL_rest n X) ((n - 1)%nat, Sm, NF) in
  Returned (NF, Sm).

(** [SL2Z_Make_Poly_NF X n nv] returns [(r, X', Sm)]. *)
Definition SL2Z_Make_Poly_NF (cfg : config) (X : mat) (n nv : nat)
  : result (Z * mat * mat) :=
  do (NF, Sm) <- SL2Z_reduce X n nv;
  match SL_write_back (NFX_Limit cfg) n nv NF X with
  | inr X' => Returned (0, X', Sm)
  | inl X' => Returned (1, X', Sm)
  end.

(** ** Points and permutations as text *)

(** [XmY_vecdiff]: [while (n--) if ((d = X[n] - Y[n])) return d; return 0;] *)
Fixpoint XmY_vecdiff (X Y : vec) (n : nat) : Z :=
  match n with
  | O => 0
  | Datatypes.S k =>
      let d := X k - Y k in
      if negb (d =? 0) then d else XmY_vecdiff X Y k
  end.

(** [for (s = 0; s < r; s++) if (0 == XmY_vecdiff(x[p], x[s], n)) break;]
    followed by the test [s == r]: [true] when the loop ran to its end. *)
Definition not_seen (x : nat -> vec) (n p r : nat) : bool :=
  match for_up_brk 0 r (fun s (u : unit) =>
          if 0 =? XmY_vecdiff (x p) (x s) n then inr s else inl u) tt with
  | inl _ => true
  | inr _ => false
  end.

(** [Remove_Identical_Points]: the state of the loop is [(x, r)]. *)
Definition Remove_Identical_Points (P : PolyPointList) : PolyPointList :=
  let n := PPL_n P in
  let '(x, r) :=
    for_up 0 (PPL_np P) (fun p '(x, r) =>
      if not_seen x n p r then
        let x := if (r <? p)%nat
                 then for_up 0 n (fun i x => upd2 x r i (x p i)) x
                 else x in
        (x, Datatypes.S r)
      else (x, r)) (PPL_x P, 0%nat) in
  Build_PolyPointList n r x.

(** The value of a character constant: its ASCII code. *)
Definition char_code (c : ascii) : Z := Z.of_nat (nat_of_ascii c).

(** [PermChar]: the character for the number [n]; [exit(0)] from 62 on. *)
Definition PermChar (n : Z) : result Z :=
  if n <? 10 then Returned (char_code "0" + n)
  else if n <? 36 then Returned (char_code "a" + n - 10)
  else if n <? 62 then Returned (char_code "A" + n - 36)
  else Exited.

(** [Perm_String]: returns [i] and the string [s]. An element of [s] holds
    the value assigned to it; the values [PermChar] returns for the numbers
    from 0 to 61 are character codes between 48 and 122. *)
Definition Perm_String (p : nat -> Z) (v : Z) (s : nat -> Z)
  : result (Z * (nat -> Z)) :=
  do (i, s) <-
    (if v <? 62
     then do s <- for_upR 0 (Z.to_nat v) (fun i s =>
                    do c <- PermChar (p i); Returned (upd s i c)) s;
          Returned (Z.to_nat v, s)
     else Returned (0%nat, s));
  Returned (Z.of_nat i, upd s i 0).

(** ** New coordinates for the points *)

(** The loop that [Improve_Coords] and [Aux_NF_Coord] end with: every point
    [x[j]] is replaced by [S x[j]], through the buffer [X]:
    [X[i] = 0; k = n; while (k--) X[i] += x[j][k] * S[i][k];] for every [i],
    and then [x[j][i] = X[i]]. *)
Definition transform_points (n np : nat) (Sm : mat) (x : nat -> vec) (X : vec)
  : nat -> vec :=
  fst (for_up 0 np (fun j '(x, X) =>
         let X := for_up 0 n (fun i X =>
                    let X := upd X i 0 in
                    for_down n (fun k X =>
                      upd X i (X i + x j (k - 1)%nat * Sm i (k - 1)%nat)) X) X in
         (for_up 0 n (fun i x => upd2 x j i (X i)) x, X)) (x, X)).

(** [Improve_Coords]: returns its value and the list of points. The local
    arrays [V] and [X] are not initialised in the source; [V0] and [X0] are
    their contents at entry. *)
Definition Improve_Coords (cfg : config) (P : PolyPointList) (V : VertexNumList)
  (V0 : mat) (X0 : vec) : result (Z * PolyPointList) :=
  let n := PPL_n P in
  let nv := VNL_nv V in
  let Vm := for_up 0 n (fun i Vm =>
              for_up 0 nv (fun j Vm => upd2 Vm i j (PPL_x P (VNL_v V j) i)) Vm)
              V0 in
  do (r, _, Sm) <- SL2Z_Make_Poly_NF cfg Vm n nv;
  if r =? 0 then Returned (0, P)
  else Returned (1, Build_PolyPointList n (PPL_np P)
                      (transform_points n (PPL_np P) Sm (PPL_x P) X0)).

(** [Aux_NF_Coord]: the same with the columns [C[j]] of the vertex matrix
    [VM], and [exit(0)] where [Improve_Coords] returns 0. *)
Definition Aux_NF_Coord (cfg : config) (P : PolyPointList) (VM : mat)
  (C : nat -> nat) (n np v : nat) (V0 : mat) (X0 : vec)
  : result PolyPointList :=
  let Vm := for_up 0 n (fun i Vm =>
              for_up 0 v (fun j Vm => upd2 Vm i j (VM i (C j))) Vm) V0 in
  do (r, _, Sm) <- SL2Z_Make_Poly_NF cfg Vm n v;
  if r =? 0 then Exited
  else Returned (Build_PolyPointList (PPL_n P) (PPL_np P)
                   (transform_points n np Sm (PPL_x P) X0)).

(** ** The triangular form of a list of points, and inverse matrices *)

(** [Make_Poly_UTriang]: the points are the columns of [UTF]; the value of
    [Aux_Make_Poly_NF] is not looked at. [VERT_Nmax] comes from [Global.h];
    [UTF0] is the content of the local array [UTF] at entry. *)
Definition Make_Poly_UTriang (cfg : config) (VERT_Nmax : Z) (P : PolyPointList)
  (UTF0 : mat) : result PolyPointList :=
  let n := PPL_n P in
  let np := PPL_np P in
  if VERT_Nmax <? Z.of_nat np then Returned P
  else
    let UTF := for_up 0 np (fun i UTF =>
                 for_up 0 n (fun j UTF => upd2 UTF j i (PPL_x P i j)) UTF)
                 UTF0 in
    do (_, UTF) <- Aux_Make_Poly_NF cfg UTF n np;
    Returned (Build_PolyPointList n np
                (for_up 0 np (fun i x =>
                   for_up 0 n (fun j x => upd2 x i j (UTF j i)) x) (PPL_x P))).

(** The test of [INV_GLZmatrix]:
    [for (x) for (y) if (X[x][y] != (x == y)) goto NoGLZ;]
    [inr] is the jump. *)
Definition is_identity (d : nat) (X : mat) : unit + unit :=
  for_up_brk 0 d (fun x u =>
    for_up_brk 0 d (fun y u =>
      if negb (X x y =? (if Nat.eqb x y then 1 else 0)) then inr tt else inl u)
      u) tt.

(** [INV_GLZmatrix]: [Some Ginv] when it returns; [None] when it reaches
    the label [NoGLZ], where it prints [G] and stops at [assert(0)]. [X0]
    is the content of the local array [X] at entry. *)
Definition INV_GLZmatrix (cfg : config) (G : mat) (d : nat) (X0 : mat)
  : result (option mat) :=
  let X := for_up 0 d (fun x X =>
             for_up 0 d (fun y X => upd2 X x y (G x y)) X) X0 in
  do (_, X, Ginv) <- GLZ_Make_Trian_NF cfg X d d;
  match is_identity d X with
  | inl _ => Returned (Some Ginv)
  | inr _ => Returned None
  end.

(** ** Concrete inputs

    The square diamond of the specification, with its four facet equations
    [a . x + 1 >= 0], and a configuration with the limits of
    [POLY_Dmax = 6]. *)

Definition vec_of_list (l : list Z) : vec := fun i => nth i l 0.

Definition idx_of_list (l : list nat) : nat -> nat := fun i => nth i l 0%nat.

Definition points_of_list (n : nat) (pts : list (list Z)) : PolyPointList :=
  Build_PolyPointList n (length pts) (fun i => vec_of_list (nth i pts nil)).

Definition vertices_of_list (l : list nat) : VertexNumList :=
  Build_VertexNumList (length l) (idx_of_list l).

Definition equations_of_list (l : list (list Z * Z)) : EqList :=
  Build_EqList (length l)
    (fun j => let e := nth j l (nil, 0) in
              Build_Equation (vec_of_list (fst e)) (snd e)).

Definition memory_of (P : PolyPointList) (V : VertexNumList) (F : EqList)
  : memory :=
  Build_memory P V F (fun _ => 0%nat).

Definition palp_cfg : config := Config 6 46656.

(** The content of a list [CL] fresh from [malloc]. *)
Definition CL_fresh : nat -> PERM :=
  fun _ => Build_PERM (fun _ => 0%nat) (fun _ => 0%nat) 0.

Definition diamond_points : list (list Z) :=
  [[1; 0]; [0; 1]; [-1; 0]; [0; -1]].

Definition diamond_equations : list (list Z * Z) :=
  [([-1; -1], 1); ([1; -1], 1); ([-1; 1], 1); ([1; 1], 1)].

Definition diamond (order : list nat) : memory :=
  memory_of (points_of_list 2 diamond_points) (vertices_of_list order)
            (equations_of_list diamond_equations).

(** * Properties *)

(** ** Loops *)

Lemma upd_same {A : Type} (a : nat -> A) (i : nat) (v : A) : upd a i v i = v.
Proof. unfold upd. now rewrite Nat.eqb_refl. Qed.

Lemma upd_other {A : Type} (a : nat -> A) (i k : nat) (v : A) :
  k <> i -> upd a i v k = a k.
Proof. intros H. unfold upd. now apply Nat.eqb_neq in H as ->. Qed.

Lemma upd2_same {A : Type} (m : nat -> nat -> A) i j v : upd2 m i j v i j = v.
Proof. unfold upd2. now rewrite !upd_same. Qed.

Lemma upd2_other {A : Type} (m : nat -> nat -> A) i j v a b :
  (a <> i \/ b <> j) -> upd2 m i j v a b = m a b.
Proof.
  intros H. unfold upd2, upd.
  destruct (Nat.eqb_spec a i) as [->|]; [|reflexivity].
  destruct (Nat.eqb_spec b j) as [->|]; [|reflexivity].
  now destruct H.
Qed.

Lemma for_up_last {S : Type} (body : nat -> S -> S) cnt : forall lo s,
  for_up lo (Datatypes.S cnt) body s = body (lo + cnt)%nat (for_up lo cnt body s).
Proof.
  induction cnt as [|k IH]; intros lo s.
  - simpl. now rewrite Nat.add_0_r.
  - change (for_up lo (Datatypes.S (Datatypes.S k)) body s)
      with (for_up (Datatypes.S lo) (Datatypes.S k) body (body lo s)).
    rewrite IH. simpl. now rewrite Nat.add_succ_r.
Qed.

(** An invariant [P i s] ("before the round [i]") goes through a loop. *)
Lemma for_up_inv {S : Type} (P : nat -> S -> Prop) (body : nat -> S -> S) cnt :
  forall lo s,
  P lo s ->
  (forall i s, (lo <= i < lo + cnt)%nat -> P i s -> P (Datatypes.S i) (body i s)) ->
  P (lo + cnt)%nat (for_up lo cnt body s).
Proof.
  induction cnt as [|k IH]; intros lo s H0 Hstep.
  - now rewrite Nat.add_0_r.
  - simpl. rewrite <- Nat.add_succ_comm. apply IH.
    + apply Hstep; [lia|assumption].
    + intros i s' Hi. apply Hstep. lia.
Qed.

Lemma for_up_ext {S : Type} (f g : nat -> S -> S) cnt : forall lo s,
  (forall i s, (lo <= i < lo + cnt)%nat -> f i s = g i s) ->
  for_up lo cnt f s = for_up lo cnt g s.
Proof.
  induction cnt as [|k IH]; intros lo s H; [reflexivity|].
  simpl. rewrite H by lia. apply IH. intros i s' Hi. apply H. lia.
Qed.

Lemma for_down_inv {S : Type} (P : nat -> S -> Prop) (body : nat -> S -> S) cnt :
  forall s,
  P cnt s ->
  (forall j s, (0 < j <= cnt)%nat -> P j s -> P (j - 1)%nat (body j s)) ->
  P 0%nat (for_down cnt body s).
Proof.
  induction cnt as [|k IH]; intros s H0 Hstep; [assumption|].
  simpl. apply IH.
  - specialize (Hstep (Datatypes.S k) s). simpl in Hstep.
    rewrite Nat.sub_0_r in Hstep. apply Hstep; [lia|assumption].
  - intros j s' Hj. apply Hstep. lia.
Qed.

Lemma for_up_brk_inv {S R : Type} (P : nat -> S -> Prop) (Q : R -> Prop)
  (body : nat -> S -> S + R) cnt : forall lo s,
  P lo s ->
  (forall i s, (lo <= i < lo + cnt)%nat -> P i s ->
     match body i s with inl s' => P (Datatypes.S i) s' | inr r => Q r end) ->
  match for_up_brk lo cnt body s with
  | inl s' => P (lo + cnt)%nat s'
  | inr r => Q r
  end.
Proof.
  induction cnt as [|k IH]; intros lo s H0 Hstep.
  - simpl. now rewrite Nat.add_0_r.
  - simpl. pose proof (Hstep lo s ltac:(lia) H0) as H1.
    destruct (body lo s) as [s'|r]; [|assumption].
    rewrite <- Nat.add_succ_comm. apply IH; [assumption|].
    intros i s'' Hi. apply Hstep. lia.
Qed.

Lemma for_upR_inv {S : Type} (P : nat -> S -> Prop) (body : nat -> S -> result S)
  cnt : forall lo s,
  P lo s ->
  (forall i s, (lo <= i < lo + cnt)%nat -> P i s ->
     match body i s with Returned s' => P (Datatypes.S i) s' | _ => True end) ->
  match for_upR lo cnt body s with
  | Returned s' => P (lo + cnt)%nat s'
  | _ => True
  end.
Proof.
  induction cnt as [|k IH]; intros lo s H0 Hstep.
  - simpl. now rewrite Nat.add_0_r.
  - simpl. pose proof (Hstep lo s ltac:(lia) H0) as H1.
    destruct (body lo s) as [s'| |]; simpl; try exact I.
    rewrite <- Nat.add_succ_comm. apply IH; [assumption|].
    intros i s'' Hi. apply Hstep. lia.
Qed.

Lemma for_downR_inv {S : Type} (P : nat -> S -> Prop)
  (body : nat -> S -> result S) cnt : forall s,
  P cnt s ->
  (forall j s, (0 < j <= cnt)%nat -> P j s ->
     match body j s with Returned s' => P (j - 1)%nat s' | _ => True end) ->
  match for_downR cnt body s with
  | Returned s' => P 0%nat s'
  | _ => True
  end.
Proof.
  induction cnt as [|k IH]; intros s H0 Hstep; [assumption|].
  simpl. pose proof (Hstep (Datatypes.S k) s ltac:(lia) H0) as H1.
  destruct (body (Datatypes.S k) s) as [s'| |]; simpl; try exact I.
  apply IH.
  - simpl in H1. now rewrite Nat.sub_0_r in H1.
  - intros j s'' Hj. apply Hstep. lia.
Qed.

(** ** C5: the rounded quotient *)

(** [Q] is a quotient of [N] by [D] closest to the exact ratio: no integer
    is closer, that is [|N - Q D| <= |D| / 2]. *)
Definition nearest_quotient (N D Q : Z) : Prop :=
  2 * Z.abs (N - Q * D) <= Z.abs D.

(** When [N / D] is halfway between [k] and [k + 1], the lower one is [k]. *)
Definition tie_to_lower (N D Q : Z) : Prop :=
  forall k, 2 * N = (2 * k + 1) * D -> Q = k.

(** At a tie the quotient taken is the one away from zero: [k + 1] for a
    positive ratio, [k] for a negative one. *)
Definition tie_away_from_zero (N D Q : Z) : Prop :=
  forall k, 2 * N = (2 * k + 1) * D -> Q = if 0 <=? k then k + 1 else k.

Lemma quot_double_rem (r D : Z) :
  0 < D -> Z.abs r < D ->
  Z.quot (2 * r) D =
    if 2 * Z.abs r <? D then 0 else Z.sgn r.
Proof.
  intros HD Hr.
  destruct (Z.ltb_spec (2 * Z.abs r) D) as [Hs|Hs].
  - destruct (Z_le_gt_dec 0 r) as [H0|H0].
    + apply Z.quot_small. lia.
    + replace (2 * r) with (- (2 * - r)) by lia.
      rewrite Z.quot_opp_l by lia. rewrite Z.quot_small by lia. reflexivity.
  - destruct (Z_le_gt_dec 0 r) as [H0|H0].
    + assert (Hq : Z.quot (2 * r) D = 1).
      { rewrite Z.quot_div_nonneg by lia.
        symmetry. apply (Z.div_unique_pos _ _ 1 (2 * r - D)); lia. }
      rewrite Hq. lia.
    + replace (2 * r) with (- (2 * - r)) by lia.
      rewrite Z.quot_opp_l by lia.
      assert (Hq : Z.quot (2 * - r) D = 1).
      { rewrite Z.quot_div_nonneg by lia.
        symmetry. apply (Z.div_unique_pos _ _ 1 (2 * - r - D)); lia. }
      rewrite Hq. lia.
Qed.

Lemma GL_RoundQ_pos (N D : Z) :
  0 < D ->
  let r := Z.rem N D in
  GL_RoundQ N D = Z.quot N D + (if 2 * Z.abs r <? D then 0 else Z.sgn r).
Proof.
  intros HD r. unfold GL_RoundQ.
  destruct (Z.ltb_spec D 0) as [H|H]; [lia|].
  assert (Hr : N - Z.quot N D * D = r).
  { unfold r. pose proof (Z.quot_rem' N D). lia. }
  rewrite Hr. rewrite quot_double_rem; [reflexivity|assumption|].
  unfold r. pose proof (Z.rem_bound_abs N D ltac:(lia)). lia.
Qed.

Lemma GL_RoundQ_neg (N D : Z) : D < 0 -> GL_RoundQ N D = GL_RoundQ (- N) (- D).
Proof.
  intros HD. unfold GL_RoundQ.
  destruct (Z.ltb_spec D 0) as [H|H]; [|lia].
  destruct (Z.ltb_spec (- D) 0) as [H'|H']; [lia|]. reflexivity.
Qed.

Lemma half_odd_multiple (r D m : Z) :
  0 < D -> 2 * r = (2 * m + 1) * D -> D <= 2 * Z.abs r /\
  (0 < r -> 0 <= m) /\ (r < 0 -> m < 0).
Proof.
  intros HD H.
  destruct (Z_le_gt_dec 0 m).
  - assert (D <= (2 * m + 1) * D) by nia. lia.
  - assert ((2 * m + 1) * D <= - D) by nia. lia.
Qed.

Lemma GL_RoundQ_spec_pos (N D : Z) :
  0 < D ->
  nearest_quotient N D (GL_RoundQ N D) /\
  tie_away_from_zero N D (GL_RoundQ N D).
Proof.
  intros HD. rewrite GL_RoundQ_pos by assumption. cbv zeta.
  pose proof (Z.quot_rem' N D) as Hqr.
  pose proof (Z.rem_bound_abs N D ltac:(lia)) as Hb.
  assert (Hsgn : 0 <= Z.rem N D * N) by (apply Z.rem_sign_mul; lia).
  set (r := Z.rem N D) in *. set (q := Z.quot N D) in *.
  assert (Htie : forall k, 2 * N = (2 * k + 1) * D ->
            2 * r = (2 * (k - q) + 1) * D) by (intros; nia).
  unfold nearest_quotient, tie_away_from_zero.
  destruct (Z.ltb_spec (2 * Z.abs r) D) as [Hs|Hs].
  - split; [replace (N - (q + 0) * D) with r by lia; lia|].
    intros k Hk. apply Htie in Hk.
    apply half_odd_multiple in Hk; lia.
  - split.
    + destruct (Z.sgn_spec r) as [[? ->]|[[? ->]|[? ->]]].
      * replace (N - (q + 1) * D) with (r - D) by lia. lia.
      * lia.
      * replace (N - (q + -1) * D) with (r + D) by lia. lia.
    + intros k Hk. pose proof (Htie k Hk) as Hk'.
      pose proof (half_odd_multiple _ _ _ HD Hk') as (_ & Hp & Hn).
      assert (Hm : k - q = 0 \/ k - q = -1).
      { destruct (Z_le_gt_dec 1 (k - q)).
        - assert (3 * D <= (2 * (k - q) + 1) * D) by nia. lia.
        - destruct (Z_le_gt_dec (k - q) (-2)).
          + assert ((2 * (k - q) + 1) * D <= -3 * D) by nia. lia.
          + lia. }
      destruct (Z.sgn_spec r) as [[Hr Hsg]|[[Hr Hsg]|[Hr Hsg]]]; rewrite Hsg.
      * assert (k = q) by (specialize (Hp Hr); lia). subst k.
        assert (0 <= N) by nia.
        assert (0 <= q) by (apply Z.quot_pos; lia).
        destruct (Z.leb_spec 0 q); lia.
      * lia.
      * assert (k = q - 1) by (specialize (Hn Hr); lia). subst k.
        assert (N <= 0) by nia.
        assert (q <= 0).
        { unfold q. replace N with (- - N) by lia.
          rewrite Z.quot_opp_l by lia.
          pose proof (Z.quot_pos (- N) D ltac:(lia) ltac:(lia)). lia. }
        destruct (Z.leb_spec 0 (q - 1)); lia.
Qed.

Lemma nearest_quotient_opp (N D Q : Z) :
  nearest_quotient (- N) (- D) Q -> nearest_quotient N D Q.
Proof.
  unfold nearest_quotient. intros H.
  replace (N - Q * D) with (- (- N - Q * - D)) by lia.
  rewrite Z.abs_opp. now rewrite Z.abs_opp in H.
Qed.

Lemma tie_away_from_zero_opp (N D Q : Z) :
  tie_away_from_zero (- N) (- D) Q -> tie_away_from_zero N D Q.
Proof.
  unfold tie_away_from_zero. intros H k Hk. apply H. lia.
Qed.

(** C5 (as amended): for every [N] and every non-zero [D], [GL_RoundQ N D]
    is a quotient closest to the exact ratio [N / D], and when the ratio is
    halfway between two consecutive integers it is the one away from zero
    (the upper one for a positive ratio, the lower one for a negative
    ratio). *)
Theorem GL_RoundQ_nearest_ties_away (N D : Z) :
  D <> 0 ->
  nearest_quotient N D (GL_RoundQ N D) /\
  tie_away_from_zero N D (GL_RoundQ N D).
Proof.
  intros HD. destruct (Z_lt_le_dec D 0) as [H|H].
  - rewrite GL_RoundQ_neg by assumption.
    destruct (GL_RoundQ_spec_pos (- N) (- D) ltac:(lia)) as [H1 H2].
    split; [now apply nearest_quotient_opp|now apply tie_away_from_zero_opp].
  - apply GL_RoundQ_spec_pos. lia.
Qed.

Lemma GL_RoundQ_nearest_ties_away_witness :
  7 <> 0 /\ nearest_quotient 10 7 (GL_RoundQ 10 7) /\
  tie_away_from_zero 10 7 (GL_RoundQ 10 7).
Proof.
  split; [lia|]. apply (GL_RoundQ_nearest_ties_away 10 7). lia.
Defined.

(** C5 (as stated) fails: [1 / 2] is halfway between 0 and 1, and
    [GL_RoundQ 1 2] is 1, the upper of the two. *)
Lemma GL_RoundQ_tie_not_lower :
  2 <> 0 /\ GL_RoundQ 1 2 = 1 /\
  ~ (nearest_quotient 1 2 (GL_RoundQ 1 2) /\ tie_to_lower 1 2 (GL_RoundQ 1 2)).
Proof.
  split; [lia|]. split; [reflexivity|].
  intros [_ H]. specialize (H 0 eq_refl). discriminate H.
Qed.

(** ** C7: the guard on the entries of the normal form *)

(** The position [(a, b)] comes before [(i, j)] when the matrix is read line
    by line. *)
Definition before (a b i j : nat) : Prop := (a < i \/ (a = i /\ b < j))%nat.

Lemma GLZ_write_back_row lim nv NF i X0 :
  match GLZ_write_back_line lim nv NF i X0 with
  | inl X' =>
      (forall j, (j < nv)%nat -> Z.abs (NF i j) <= lim /\ X' i j = NF i j) /\
      (forall a b, (a <> i \/ nv <= b)%nat -> X' a b = X0 a b)
  | inr X' =>
      exists j, (j < nv)%nat /\ lim < Z.abs (NF i j) /\
        (forall b, (b < j)%nat -> Z.abs (NF i b) <= lim /\ X' i b = NF i b) /\
        (forall a b, (a <> i \/ j <= b)%nat -> X' a b = X0 a b)
  end.
Proof.
  pose (P := fun (j : nat) (X : mat) =>
    (forall b, (b < j)%nat -> Z.abs (NF i b) <= lim /\ X i b = NF i b) /\
    (forall a b, (a <> i \/ j <= b)%nat -> X a b = X0 a b)).
  pose (Q := fun (X' : mat) =>
    exists j, (j < nv)%nat /\ lim < Z.abs (NF i j) /\
      (forall b, (b < j)%nat -> Z.abs (NF i b) <= lim /\ X' i b = NF i b) /\
      (forall a b, (a <> i \/ j <= b)%nat -> X' a b = X0 a b)).
  unfold GLZ_write_back_line.
  apply (for_up_brk_inv P Q); unfold P, Q; clear P Q.
  - split; [intros b Hb; lia|reflexivity].
  - intros j X Hj [H1 H2]. cbv zeta.
    assert (Habs : (if NF i j <? 0 then - NF i j else NF i j) = Z.abs (NF i j)).
    { destruct (Z.ltb_spec (NF i j) 0); lia. }
    rewrite Habs.
    destruct (Z.gtb_spec (Z.abs (NF i j)) lim) as [Hg|Hg].
    + exists j. split; [lia|]. split; [lia|]. split; [exact H1|].
      intros a b Hab. apply H2. lia.
    + split.
      * intros b Hb. destruct (Nat.eq_dec b j) as [->|Hne].
        -- rewrite upd2_same. lia.
        -- rewrite upd2_other by lia. apply H1. lia.
      * intros a b Hab. rewrite upd2_other by lia. apply H2. lia.
Qed.

Lemma GLZ_write_back_spec lim n nv NF X0 :
  match GLZ_write_back lim n nv NF X0 with
  | inl X' =>
      (forall i j, (i < n)%nat -> (j < nv)%nat ->
         Z.abs (NF i j) <= lim /\ X' i j = NF i j) /\
      (forall a b, (n <= a \/ nv <= b)%nat -> X' a b = X0 a b)
  | inr X' =>
      exists i j, (i < n)%nat /\ (j < nv)%nat /\ lim < Z.abs (NF i j) /\
        (forall a b, before a b i j -> (b < nv)%nat ->
           Z.abs (NF a b) <= lim /\ X' a b = NF a b) /\
        (forall a b, ~ before a b i j \/ (nv <= b)%nat -> X' a b = X0 a b)
  end.
Proof.
  unfold GLZ_write_back.
  pose (P := fun (i : nat) (X : mat) =>
    (forall a b, (a < i)%nat -> (b < nv)%nat ->
       Z.abs (NF a b) <= lim /\ X a b = NF a b) /\
    (forall a b, (i <= a \/ nv <= b)%nat -> X a b = X0 a b)).
  pose (Q := fun (X' : mat) =>
    exists i j, (i < n)%nat /\ (j < nv)%nat /\ lim < Z.abs (NF i j) /\
      (forall a b, before a b i j -> (b < nv)%nat ->
         Z.abs (NF a b) <= lim /\ X' a b = NF a b) /\
      (forall a b, ~ before a b i j \/ (nv <= b)%nat -> X' a b = X0 a b)).
  apply (for_up_brk_inv P Q); unfold P, Q; clear P Q.
  - split; [intros; lia|reflexivity].
  - intros i X Hi [H1 H2].
    pose proof (GLZ_write_back_row lim nv NF i X) as Hrow.
    destruct (GLZ_write_back_line lim nv NF i X) as [X'|X'].
    + destruct Hrow as [R1 R2]. split.
      * intros a b Ha Hb. destruct (Nat.eq_dec a i) as [->|Hne].
        -- now apply R1.
        -- rewrite R2 by lia. apply H1; lia.
      * intros a b Hab. rewrite R2 by lia. apply H2. lia.
    + destruct Hrow as (j & Hj & Hlim & R1 & R2).
      exists i, j. split; [lia|]. split; [lia|]. split; [lia|]. split.
      * intros a b [H|[-> H]] Hb; [|now apply R1].
        rewrite R2 by lia. apply H1; lia.
      * intros a b Hab. unfold before in Hab.
        rewrite R2 by lia. apply H2. lia.
Qed.

Lemma SL_write_back_row lim nv NF i X0 :
  match SL_write_back_line lim nv NF i X0 with
  | inl X' =>
      (forall j, (j < nv)%nat -> Z.abs (NF i j) <= lim /\ X' i j = NF i j) /\
      (forall a b, (a <> i \/ nv <= b)%nat -> X' a b = X0 a b)
  | inr X' =>
      exists j, (j < nv)%nat /\ lim < Z.abs (NF i j) /\
        (forall b, (b < j)%nat -> Z.abs (NF i b) <= lim) /\
        (forall b, (b <= j)%nat -> X' i b = NF i b) /\
        (forall a b, (a <> i \/ j < b)%nat -> X' a b = X0 a b)
  end.
Proof.
  pose (P := fun (j : nat) (X : mat) =>
    (forall b, (b < j)%nat -> Z.abs (NF i b) <= lim /\ X i b = NF i b) /\
    (forall a b, (a <> i \/ j <= b)%nat -> X a b = X0 a b)).
  pose (Q := fun (X' : mat) =>
    exists j, (j < nv)%nat /\ lim < Z.abs (NF i j) /\
      (forall b, (b < j)%nat -> Z.abs (NF i b) <= lim) /\
      (forall b, (b <= j)%nat -> X' i b = NF i b) /\
      (forall a b, (a <> i \/ j < b)%nat -> X' a b = X0 a b)).
  unfold SL_write_back_line.
  apply (for_up_brk_inv P Q); unfold P, Q; clear P Q.
  - split; [intros b Hb; lia|reflexivity].
  - intros j X Hj [H1 H2]. cbv zeta. rewrite upd2_same.
    destruct (Z.gtb_spec (Z.abs (NF i j)) lim) as [Hg|Hg].
    + exists j. split; [lia|]. split; [lia|]. split; [|split].
      * intros b Hb. apply H1. assumption.
      * intros b Hb. destruct (Nat.eq_dec b j) as [->|Hne].
        -- now rewrite upd2_same.
        -- rewrite upd2_other by lia. apply H1. lia.
      * intros a b Hab. rewrite upd2_other by lia. apply H2. lia.
    + split.
      * intros b Hb. destruct (Nat.eq_dec b j) as [->|Hne].
        -- rewrite upd2_same. lia.
        -- rewrite upd2_other by lia. apply H1. lia.
      * intros a b Hab. rewrite upd2_other by lia. apply H2. lia.
Qed.

Lemma SL_write_back_spec lim n nv NF X0 :
  match SL_write_back lim n nv NF X0 with
  | inl X' =>
      (forall i j, (i < n)%nat -> (j < nv)%nat ->
         Z.abs (NF i j) <= lim /\ X' i j = NF i j) /\
      (forall a b, (n <= a \/ nv <= b)%nat -> X' a b = X0 a b)
  | inr X' =>
      exists i j, (i < n)%nat /\ (j < nv)%nat /\ lim < Z.abs (NF i j) /\
        (forall a b, before a b i j -> (b < nv)%nat -> Z.abs (NF a b) <= lim) /\
        X' i j = NF i j
  end.
Proof.
  unfold SL_write_back.
  pose (P := fun (i : nat) (X : mat) =>
    (forall a b, (a < i)%nat -> (b < nv)%nat ->
       Z.abs (NF a b) <= lim /\ X a b = NF a b) /\
    (forall a b, (i <= a \/ nv <= b)%nat -> X a b = X0 a b)).
  pose (Q := fun (X' : mat) =>
    exists i j, (i < n)%nat /\ (j < nv)%nat /\ lim < Z.abs (NF i j) /\
      (forall a b, before a b i j -> (b < nv)%nat -> Z.abs (NF a b) <= lim) /\
      X' i j = NF i j).
  apply (for_up_brk_inv P Q); unfold P, Q; clear P Q.
  - split; [intros; lia|reflexivity].
  - intros i X Hi [H1 H2].
    pose proof (SL_write_back_row lim nv NF i X) as Hrow.
    destruct (SL_write_back_line lim nv NF i X) as [X'|X'].
    + destruct Hrow as [R1 R2]. split.
      * intros a b Ha Hb. destruct (Nat.eq_dec a i) as [->|Hne].
        -- now apply R1.
        -- rewrite R2 by lia. apply H1; lia.
      * intros a b Hab. rewrite R2 by lia. apply H2. lia.
    + destruct Hrow as (j & Hj & Hlim & R1 & R2 & R3).
      exists i, j. split; [lia|]. split; [lia|]. split; [lia|]. split.
      * intros a b [H|[-> H]] Hb; [apply H1; lia|now apply R1].
      * apply R2. lia.
Qed.

(** What the two reductions promise about the limit: the value [r] of the
    call is 0 exactly when an entry of the normal form [NF] exceeds the
    limit, 1 exactly when none does, and after a call that returns 1 the
    matrix [X'] holds [NF], with every entry within the limit. *)
Definition limit_guarded (lim : Z) (n nv : nat) (NF : mat) (r : Z) (X' : mat)
  : Prop :=
  (r = 0 \/ r = 1) /\
  (r = 0 <-> exists i j, (i < n)%nat /\ (j < nv)%nat /\ lim < Z.abs (NF i j)) /\
  (r = 1 <-> forall i j, (i < n)%nat -> (j < nv)%nat -> Z.abs (NF i j) <= lim) /\
  (r = 1 -> forall i j, (i < n)%nat -> (j < nv)%nat ->
     X' i j = NF i j /\ Z.abs (X' i j) <= lim).


(** ** C9 and C10: the inputs of the entry points and the value of
    [Make_Poly_NF] *)

Lemma bind_Returned {A B : Type} (r : result A) (k : A -> result B) (b : B) :
  bind r k = Returned b -> exists a, r = Returned a /\ k a = Returned b.
Proof. destruct r as [a| |]; simpl; intros H; try discriminate. now exists a. Qed.

(** The three structures of the caller, as a memory holds them. *)
Definition same_inputs (m m' : memory) : Prop :=
  m_P m' = m_P m /\ m_V m' = m_V m /\ m_F m' = m_F m.

Lemma same_inputs_refl m : same_inputs m m.
Proof. now repeat split. Qed.

Lemma same_inputs_trans m1 m2 m3 :
  same_inputs m1 m2 -> same_inputs m2 m3 -> same_inputs m1 m3.
Proof. unfold same_inputs. intros (-> & -> & ->) (-> & -> & ->). auto. Qed.

(** A store through [d], [v] or [f] of the value the cell already holds
    changes none of the three structures. *)
Lemma store_load_same_inputs (p : int_ptr) (m : memory) (a : nat) :
  (match p with Ptr_local _ => True | _ => a = load p m end) ->
  same_inputs m (store p a m).
Proof.
  destruct m as [[n np x] [nv v] [ne e] loc].
  destruct p; simpl; intros H; subst; now repeat split.
Qed.

Lemma store_local_same_inputs (k a : nat) (m : memory) :
  same_inputs m (store (Ptr_local k) a m).
Proof. now apply store_load_same_inputs. Qed.

(** The flag [ref] of [Init_rVM_VPM]: 1 when every equation has [c = 1]. *)
Definition all_c_one (F : EqList) : Prop :=
  forall j, (j < EqL_ne F)%nat -> Eq_c (EqL_e F j) = 1.

Lemma Init_ref_loop {T : Type} (F : EqList) (body : nat -> Z * T -> Z * T)
  (x0 : T) :
  (forall j ref x,
     fst (body j (ref, x)) = if negb (Eq_c (EqL_e F j) =? 1) then 0 else ref) ->
  let r := fst (for_up 0 (EqL_ne F) body (1, x0)) in
  (r = 0 \/ r = 1) /\ (r = 1 <-> all_c_one F).
Proof.
  intros Hbody. cbv zeta.
  pose (P := fun (j : nat) (st : Z * T) =>
    (fst st = 1 /\ forall k, (k < j)%nat -> Eq_c (EqL_e F k) = 1) \/
    (fst st = 0 /\ exists k, (k < j)%nat /\ Eq_c (EqL_e F k) <> 1)).
  assert (H : P (0 + EqL_ne F)%nat (for_up 0 (EqL_ne F) body (1, x0))).
  { apply (for_up_inv P); unfold P; clear P.
    - left. split; [reflexivity|]. intros k Hk. lia.
    - intros j [ref x] Hj H. rewrite Hbody. simpl in H.
      destruct (Z.eqb_spec (Eq_c (EqL_e F j)) 1) as [Hc|Hc]; simpl.
      + destruct H as [[-> H]|[-> (k & Hk & Hk')]].
        * left. split; [reflexivity|]. intros k Hk.
          destruct (Nat.eq_dec k j) as [->|]; [assumption|apply H; lia].
        * right. split; [reflexivity|]. exists k. split; [lia|assumption].
      + right. split; [reflexivity|]. exists j. split; [lia|assumption]. }
  unfold P in H; clear P. simpl in H.
  destruct H as [[-> H]|[-> (k & Hk & Hk')]].
  - split; [now right|]. split; [intros _; exact H|reflexivity].
  - split; [now left|]. split; [discriminate|].
    intros Hall. exfalso. apply Hk'. now apply Hall.
Qed.

Lemma Init_rVM_VPM_spec cfg m d v f X x r m' X' x' :
  Init_rVM_VPM cfg m d v f X x = Returned (r, m', X', x') ->
  m' = store d (PPL_n (m_P (store f (EqL_ne (m_F (store v (VNL_nv (m_V m)) m)))
                                 (store v (VNL_nv (m_V m)) m))))
         (store f (EqL_ne (m_F (store v (VNL_nv (m_V m)) m)))
                (store v (VNL_nv (m_V m)) m)) /\
  (r = 0 \/ r = 1) /\ (r = 1 <-> all_c_one (m_F m')).
Proof.
  unfold Init_rVM_VPM.
  set (m1 := store v _ m). set (m2 := store f _ m1). set (m3 := store d _ m2).
  match goal with
  | |- context [match ?t with pair _ _ => _ end] => set (loop := t)
  end.
  assert (Href : (fst loop = 0 \/ fst loop = 1) /\
                 (fst loop = 1 <-> all_c_one (m_F m3))).
  { unfold loop. apply (Init_ref_loop (m_F m3)). intros; reflexivity. }
  clearbody loop. destruct loop as [ref xx].
  simpl in Href. intros H. apply bind_Returned in H as (u & _ & H).
  injection H as <- <- <- <-.
  split; [reflexivity|]. exact Href.
Qed.

Lemma Make_Poly_NF_inv cfg CL0 m pNF r m' pNF' :
  Make_Poly_NF cfg CL0 m pNF = Returned (r, m', pNF') ->
  exists VM VPM,
    Init_rVM_VPM cfg m (Ptr_local 0) (Ptr_local 1) (Ptr_local 2)
                 (fun _ _ => 0) (fun _ _ => 0) = Returned (r, m', VM, VPM).
Proof.
  unfold Make_Poly_NF. intros H.
  apply bind_Returned in H as ([[[ref m1] VM] VPM] & H1 & H).
  apply bind_Returned in H as (p & _ & H).
  injection H as <- <- <-. now exists VM, VPM.
Qed.

(** C10: the value [Make_Poly_NF] returns is 1 if and only if every equation
    of the [EqList] it is given has the constant [c = 1], and 0 otherwise; it
    is fixed by the [EqList] alone, whatever the normal form computed and
    whatever the other inputs. *)
Theorem Make_Poly_NF_reflexive cfg CL0 m pNF r m' pNF' :
  Make_Poly_NF cfg CL0 m pNF = Returned (r, m', pNF') ->
  (r = 1 <-> all_c_one (m_F m)) /\ (r = 0 \/ r = 1) /\
  (forall cfg2 CL2 m2 pNF2 r2 m2' pNF2',
     m_F m2 = m_F m ->
     Make_Poly_NF cfg2 CL2 m2 pNF2 = Returned (r2, m2', pNF2') -> r2 = r).
Proof.
  assert (Hmain : forall cfg CL0 m pNF r m' pNF',
            Make_Poly_NF cfg CL0 m pNF = Returned (r, m', pNF') ->
            (r = 1 <-> all_c_one (m_F m)) /\ (r = 0 \/ r = 1)).
  { clear. intros cfg CL0 m pNF r m' pNF' H.
    apply Make_Poly_NF_inv in H as (VM & VPM & H).
    apply Init_rVM_VPM_spec in H as (Hm & H01 & Hiff).
    assert (HF : m_F m' = m_F m) by (subst m'; reflexivity).
    rewrite HF in Hiff. auto. }
  intros H. destruct (Hmain _ _ _ _ _ _ _ H) as [Hiff H01].
  split; [assumption|]. split; [assumption|].
  intros cfg2 CL2 m2 pNF2 r2 m2' pNF2' HF H2.
  destruct (Hmain _ _ _ _ _ _ _ H2) as [Hiff2 H012].
  rewrite HF in Hiff2.
  destruct H01 as [->| ->], H012 as [->| ->]; try reflexivity; exfalso.
  - assert (0 = 1) by (apply Hiff, Hiff2; reflexivity). discriminate.
  - assert (0 = 1) by (apply Hiff2, Hiff; reflexivity). discriminate.
Qed.

Lemma Make_Poly_Sym_NF_inv cfg CL0 m V_perm NF traced ns m' SymNum V_perm' NF' :
  Make_Poly_Sym_NF cfg CL0 m V_perm NF traced
    = Returned (ns, m', SymNum, V_perm', NF') ->
  exists r VM VPM,
    Init_rVM_VPM cfg m Ptr_P_n Ptr_V_nv Ptr_F_ne
                 (fun _ _ => 0) (fun _ _ => 0) = Returned (r, m', VM, VPM).
Proof.
  unfold Make_Poly_Sym_NF. intros H.
  apply bind_Returned in H as ([[[ref m1] VM] VPM] & H1 & H).
  apply bind_Returned in H as (NF1 & _ & H).
  apply bind_Returned in H as ([[CL ns1] VPM_NF] & _ & H).
  apply bind_Returned in H as ([[CL1 NF2] t] & _ & H).
  destruct (first_marked ns1 _ 0) as [i|]; [|discriminate].
  destruct (for_up i (ns1 - i) _ (V_perm, 0)) as [Vp t'].
  destruct (negb (t' =? - t)); [discriminate|].
  injection H as <- <- <- <- <-. now exists ref, VM, VPM.
Qed.

(** C9: when [Make_Poly_NF] or [Make_Poly_Sym_NF] returns, the
    [PolyPointList], the [VertexNumList] and the [EqList] of the caller hold
    the values they held at the call. *)
Theorem entry_points_keep_inputs cfg CL0 m :
  (forall pNF r m' pNF',
     Make_Poly_NF cfg CL0 m pNF = Returned (r, m', pNF') -> same_inputs m m') /\
  (forall V_perm NF traced ns m' SymNum V_perm' NF',
     Make_Poly_Sym_NF cfg CL0 m V_perm NF traced
       = Returned (ns, m', SymNum, V_perm', NF') -> same_inputs m m').
Proof.
  split.
  - intros pNF r m' pNF' H.
    apply Make_Poly_NF_inv in H as (VM & VPM & H).
    apply Init_rVM_VPM_spec in H as (-> & _).
    repeat (eapply same_inputs_trans; [|apply store_local_same_inputs]).
    apply same_inputs_refl.
  - intros V_perm NF traced ns m' SymNum V_perm' NF' H.
    apply Make_Poly_Sym_NF_inv in H as (r & VM & VPM & H).
    apply Init_rVM_VPM_spec in H as (-> & _).
    repeat (eapply same_inputs_trans;
            [|apply store_load_same_inputs; reflexivity]).
    apply same_inputs_refl.
Qed.

(** ** C6: the guard on the number of candidates *)

Lemma for_upR_split {S : Type} (body : nat -> S -> result S) k : forall lo cnt s,
  (k <= cnt)%nat ->
  for_upR lo cnt body s =
  bind (for_upR lo k body s) (for_upR (lo + k) (cnt - k) body).
Proof.
  induction k as [|k IH]; intros lo cnt s Hk.
  - simpl. now rewrite Nat.add_0_r, Nat.sub_0_r.
  - destruct cnt as [|cnt]; [lia|]. simpl.
    destruct (body lo s) as [s'| |]; simpl; try reflexivity.
    rewrite (IH (Datatypes.S lo) cnt s') by lia.
    now rewrite Nat.add_succ_comm.
Qed.

Lemma for_downR_split {S : Type} (body : nat -> S -> result S) j : forall cnt s,
  (j <= cnt)%nat ->
  for_downR cnt body s =
  bind (for_downR (cnt - j) (fun k s => body (k + j)%nat s) s) (for_downR j body).
Proof.
  intros cnt. remember (cnt - j)%nat as d eqn:Hd. revert cnt Hd.
  induction d as [|d IH]; intros cnt Hd s Hj.
  - assert (cnt = j) by lia. subst cnt. reflexivity.
  - destruct cnt as [|cnt]; [lia|].
    simpl. replace (Datatypes.S (d + j)) with (Datatypes.S cnt) by lia.
    destruct (body (Datatypes.S cnt) s) as [s'| |]; simpl; try reflexivity.
    apply IH; lia.
Qed.

Lemma Line_cand_Exited cfg l nv nf x S n st :
  SYM_Nmax cfg < Line_count (Line_work l nv nf x S n st) <->
  Line_cand cfg l nv nf x S n st = Exited.
Proof.
  unfold Line_cand.
  destruct (Z.ltb_spec (SYM_Nmax cfg) (Line_count (Line_work l nv nf x S n st)))
    as [H|H].
  - split; [reflexivity|intros _; assumption].
  - split; [lia|].
    destruct (for_up 0 _ _ _) as [CL' ns']. discriminate.
Qed.

Lemma Line_cand_Returned cfg l nv nf x S n st :
  Line_count (Line_work l nv nf x S n st) <= SYM_Nmax cfg ->
  exists st', Line_cand cfg l nv nf x S n st = Returned st' /\
              Z.of_nat (vn_ns st') = Line_count (Line_work l nv nf x S n st).
Proof.
  intros H. unfold Line_cand.
  destruct (Z.ltb_spec (SYM_Nmax cfg) (Line_count (Line_work l nv nf x S n st)))
    as [H'|H']; [lia|].
  set (st2 := Line_work l nv nf x S n st).
  set (CL1 := if (n <? ln_ns st2 - 1)%nat then _ else _).
  pose (P := fun (L : nat) (p : (nat -> PERM) * nat) =>
               snd p = (ln_ns st2 - 1 + L)%nat).
  assert (HP : P (0 + ln_np st2)%nat
                 (for_up 0 (ln_np st2) (fun L '(CL, ns) =>
                    (upd CL ns (ln_nP st2 L), Datatypes.S ns))
                    (CL1, (ln_ns st2 - 1)%nat))).
  { apply (for_up_inv P); unfold P.
    - simpl. lia.
    - intros i [CL ns] _ Hi. simpl in *. lia. }
  unfold P in HP.
  destruct (for_up 0 (ln_np st2) _ _) as [CL' ns']. simpl in HP.
  eexists. split; [reflexivity|]. simpl. unfold Line_count. fold st2. lia.
Qed.

(** C6 (as amended): when the count [*_ns + np] of retained candidates
    exceeds [SYM_Nmax] while [Aux_vNF_Line] works on a candidate, the code
    calls [exit(0)]: the call of [Aux_vNF_Line] ends with the exit of the
    process, and so do the calls of [Make_VPM_NF], [Eval_Poly_NF] and
    [Make_Poly_NF] around it; nothing is returned to a caller and nothing is
    tried again. While the count stays within [SYM_Nmax] the candidates are
    kept and the work goes on. *)
Theorem SYM_Nmax_exceeded_exits (cfg : config) :
  (forall l nv nf x S n st,
     (SYM_Nmax cfg < Line_count (Line_work l nv nf x S n st) <->
      Line_cand cfg l nv nf x S n st = Exited) /\
     (Line_count (Line_work l nv nf x S n st) <= SYM_Nmax cfg ->
      exists st', Line_cand cfg l nv nf x S n st = Returned st' /\
        Z.of_nat (vn_ns st') = Line_count (Line_work l nv nf x S n st))) /\
  (forall l nv nf x CL S ns r0 j st,
     (0 < j <= ns)%nat ->
     for_downR (ns - j)
       (fun k st => Line_cand cfg l nv nf x S (k + j - 1) st)
       (Build_vNF_state CL ns r0 0) = Returned st ->
     SYM_Nmax cfg < Line_count (Line_work l nv nf x S (j - 1) st) ->
     Aux_vNF_Line cfg l nv nf x CL S ns r0 = Exited) /\
  (forall v f x CL0 i CL S ns,
     (1 <= i < f - 1)%nat ->
     for_upR 1 (i - 1) (fun i '(CL, S_, ns) =>
         Aux_vNF_Line cfg i v f x CL S_ ns (fun _ => 0))
       (Aux_vNF_Init v f x CL0 (fun _ => 0%nat) 1 0) = Returned (CL, S, ns) ->
     Aux_vNF_Line cfg i v f x CL S ns (fun _ => 0) = Exited ->
     Make_VPM_NF cfg v f x CL0 = Exited) /\
  (forall v f x CL0 d VM pNF t,
     Make_VPM_NF cfg v f x CL0 = Exited ->
     Eval_Poly_NF cfg CL0 d v f VM x pNF t = Exited) /\
  (forall CL0 m pNF ref m' VM VPM,
     Init_rVM_VPM cfg m (Ptr_local 0) (Ptr_local 1) (Ptr_local 2)
                  (fun _ _ => 0) (fun _ _ => 0) = Returned (ref, m', VM, VPM) ->
     Eval_Poly_NF cfg CL0 (load (Ptr_local 0) m') (load (Ptr_local 1) m')
                  (load (Ptr_local 2) m') VM VPM pNF 0 = Exited ->
     Make_Poly_NF cfg CL0 m pNF = Exited).
Proof.
  split; [|split; [|split; [|split]]].
  - intros. split; [apply Line_cand_Exited|apply Line_cand_Returned].
  - intros l nv nf x CL S ns r0 j st Hj Hpre Hcnt.
    unfold Aux_vNF_Line.
    rewrite (for_downR_split _ j ns) by lia.
    assert (Hb : forall k st, (fun k st => Line_cand cfg l nv nf x S (k + j - 1) st) k st
               = (fun k st => Line_cand cfg l nv nf x S (k - 1) st) (k + j)%nat st)
      by reflexivity.
    change (for_downR (ns - j)
              (fun k s => (fun k st => Line_cand cfg l nv nf x S (k - 1) st) (k + j)%nat s)
              (Build_vNF_state CL ns r0 0))
      with (for_downR (ns - j)
              (fun k st => Line_cand cfg l nv nf x S (k + j - 1) st)
              (Build_vNF_state CL ns r0 0)).
    rewrite Hpre. simpl.
    destruct j as [|j]; [lia|]. simpl.
    replace (j - 0)%nat with (Datatypes.S j - 1)%nat by lia.
    apply Line_cand_Exited in Hcnt. rewrite Hcnt. reflexivity.
  - intros v f x CL0 i CL S ns Hi Hpre Hline.
    unfold Make_VPM_NF.
    rewrite (for_upR_split _ (i - 1) 1 (f - 1 - 1)) by lia.
    rewrite Hpre. simpl.
    replace (f - 1 - 1 - (i - 1))%nat
      with (Datatypes.S (f - 1 - 1 - i))%nat by lia.
    simpl. replace (Datatypes.S (i - 1)) with i by lia.
    rewrite Hline. reflexivity.
  - intros v f x CL0 d VM pNF t H. unfold Eval_Poly_NF. rewrite H. reflexivity.
  - intros CL0 m pNF ref m' VM VPM Hinit Heval.
    unfold Make_Poly_NF. rewrite Hinit. unfold bind at 1.
    cbv beta iota. rewrite Heval. reflexivity.
Qed.

(** ** C2: the best reduced matrix and its symmetries *)

(** Two matrices with the same entries in the lines [0..n-1] and the columns
    [0..nv-1]. *)
Definition mat_eq (n nv : nat) (X Y : mat) : Prop :=
  forall i j, (i < n)%nat -> (j < nv)%nat -> X i j = Y i j.

Lemma mat_eq_refl n nv X : mat_eq n nv X X.
Proof. intros i j _ _. reflexivity. Qed.

Lemma mat_eq_sym n nv X Y : mat_eq n nv X Y -> mat_eq n nv Y X.
Proof. intros H i j Hi Hj. symmetry. now apply H. Qed.

Lemma mat_eq_trans n nv X Y Z :
  mat_eq n nv X Y -> mat_eq n nv Y Z -> mat_eq n nv X Z.
Proof. intros H1 H2 i j Hi Hj. rewrite H1, H2; auto. Qed.

(** *** The reduction reads its argument inside [n x nv] only *)

Lemma for_upR_ext {S : Type} (f g : nat -> S -> result S) cnt : forall lo s,
  (forall i s, (lo <= i < lo + cnt)%nat -> f i s = g i s) ->
  for_upR lo cnt f s = for_upR lo cnt g s.
Proof.
  induction cnt as [|k IH]; intros lo s H; [reflexivity|].
  simpl. rewrite H by lia. destruct (g lo s); simpl; try reflexivity.
  apply IH. intros i s' Hi. apply H. lia.
Qed.

Lemma NF_add_col_ext n G X X' C NF :
  (forall j, (j < n)%nat -> X j C = X' j C) ->
  NF_add_col n G X C NF = NF_add_col n G X' C NF.
Proof.
  intros H. unfold NF_add_col. apply for_up_ext. intros i NF' _.
  f_equal. unfold dot_from. apply for_up_ext. intros j s Hj.
  unfold col. rewrite H by lia. reflexivity.
Qed.

Lemma find_col_ext n L X X' G fuel : forall C NF W p,
  (forall j c, (j < n)%nat -> (C <= c < C + fuel)%nat -> X j c = X' j c) ->
  find_col fuel n L X G C NF W p = find_col fuel n L X' G C NF W p.
Proof.
  induction fuel as [|k IH]; intros C NF W p H; [reflexivity|].
  simpl. rewrite (NF_add_col_ext n G X X' C NF) by (intros; apply H; lia).
  destruct (scan_col n L C _ W p) as [[N W'] p'].
  destruct (Nat.eqb N 0); [|reflexivity].
  apply IH. intros j c Hj Hc. apply H; lia.
Qed.

Lemma GLZ_reduce_from_ext W0 NG0 n nv X X' :
  mat_eq n nv X X' ->
  GLZ_reduce_from W0 NG0 X n nv = GLZ_reduce_from W0 NG0 X' n nv.
Proof.
  intros H. unfold GLZ_reduce_from.
  rewrite (for_upR_ext (GLZ_line n nv X) (GLZ_line n nv X')).
  - destruct (for_upR 0 n (GLZ_line n nv X') _) as [st| |]; simpl; try reflexivity.
    f_equal. f_equal. apply for_up_ext. intros C NF HC.
    apply NF_add_col_ext. intros j Hj. apply H; lia.
  - intros L st _. unfold GLZ_line.
    rewrite (find_col_ext n L X X') by (intros; apply H; lia).
    reflexivity.
Qed.

Lemma GLZ_write_back_Returned_1 lim n nv NF X X' :
  GLZ_write_back lim n nv NF X = inl X' -> mat_eq n nv X' NF.
Proof.
  intros H. pose proof (GLZ_write_back_spec lim n nv NF X) as Hs.
  rewrite H in Hs. destruct Hs as [Hs _]. intros i j Hi Hj. now apply Hs.
Qed.

Lemma GLZ_write_back_ext lim n nv NF X X' :
  match GLZ_write_back lim n nv NF X, GLZ_write_back lim n nv NF X' with
  | inl _, inl _ => True
  | inr _, inr _ => True
  | _, _ => False
  end.
Proof.
  pose proof (GLZ_write_back_spec lim n nv NF X) as H1.
  pose proof (GLZ_write_back_spec lim n nv NF X') as H2.
  destruct (GLZ_write_back lim n nv NF X), (GLZ_write_back lim n nv NF X');
    try exact I.
  - destruct H1 as [H1 _], H2 as (i & j & Hi & Hj & Hl & _).
    specialize (H1 i j Hi Hj). lia.
  - destruct H2 as [H2 _], H1 as (i & j & Hi & Hj & Hl & _).
    specialize (H2 i j Hi Hj). lia.
Qed.

(** The reduced matrix depends on the entries of [X] inside [n x nv] only. *)
Lemma Aux_Make_Poly_NF_ext cfg n nv X X' r X1 :
  mat_eq n nv X X' ->
  Aux_Make_Poly_NF cfg X n nv = Returned (r, X1) ->
  exists X1', Aux_Make_Poly_NF cfg X' n nv = Returned (r, X1') /\
              (r <> 0 -> mat_eq n nv X1 X1').
Proof.
  intros HX. unfold Aux_Make_Poly_NF, GLZ_Make_Trian_NF, GLZ_reduce.
  rewrite (GLZ_reduce_from_ext _ _ n nv X X' HX).
  destruct (GLZ_reduce_from _ _ X' n nv) as [[NF G]| |]; simpl; try discriminate.
  pose proof (GLZ_write_back_ext (NFX_Limit cfg) n nv NF X X') as He.
  destruct (GLZ_write_back (NFX_Limit cfg) n nv NF X) as [Xa|Xa] eqn:Ea;
  destruct (GLZ_write_back (NFX_Limit cfg) n nv NF X') as [Xb|Xb] eqn:Eb;
    try contradiction; simpl; intros H; injection H as <- <-.
  - exists Xb. split; [reflexivity|]. intros _.
    apply GLZ_write_back_Returned_1 in Ea, Eb.
    eapply mat_eq_trans; [exact Ea|apply mat_eq_sym; exact Eb].
  - exists Xb. split; [reflexivity|]. intros H. now contradiction H.
Qed.

(** *** The order of [Aux_XltY_Poly_NF] *)

(** [X] comes before [Y] when the matrices are read line by line: at the
    first entry where they differ, [X] has the smaller one. *)
Definition lex_lt (n nv : nat) (X Y : mat) : Prop :=
  exists i j, (i < n)%nat /\ (j < nv)%nat /\ X i j < Y i j /\
    forall a b, before a b i j -> (b < nv)%nat -> X a b = Y a b.

Lemma XltY_line_spec X Y nv i :
  match XltY_line X Y nv i tt with
  | inl _ => forall j, (j < nv)%nat -> X i j = Y i j
  | inr r =>
      exists j, (j < nv)%nat /\ X i j <> Y i j /\
        (forall b, (b < j)%nat -> X i b = Y i b) /\
        r = if X i j <? Y i j then 1 else 0
  end.
Proof.
  unfold XltY_line.
  apply (for_up_brk_inv
           (fun j (_ : unit) => forall b, (b < j)%nat -> X i b = Y i b)
           (fun r => exists j, (j < nv)%nat /\ X i j <> Y i j /\
              (forall b, (b < j)%nat -> X i b = Y i b) /\
              r = if X i j <? Y i j then 1 else 0)).
  - intros b Hb. lia.
  - intros j u Hj H. cbv zeta.
    destruct (Z.eqb_spec (X i j - Y i j) 0) as [Hd|Hd]; simpl.
    + intros b Hb. destruct (Nat.eq_dec b j) as [->|]; [lia|apply H; lia].
    + destruct (Z.ltb_spec (X i j - Y i j) 0) as [Hl|Hl].
      * exists j. split; [lia|]. split; [lia|]. split; [assumption|].
        destruct (Z.ltb_spec (X i j) (Y i j)); [reflexivity|lia].
      * exists j. split; [lia|]. split; [lia|]. split; [assumption|].
        destruct (Z.ltb_spec (X i j) (Y i j)); [lia|reflexivity].
Qed.

Lemma Aux_XltY_Poly_NF_spec X Y n nv :
  (Aux_XltY_Poly_NF X Y n nv = 1 /\ lex_lt n nv X Y) \/
  (Aux_XltY_Poly_NF X Y n nv = 0 /\ (mat_eq n nv X Y \/ lex_lt n nv Y X)).
Proof.
  unfold Aux_XltY_Poly_NF.
  pose proof (for_up_brk_inv
    (fun i (_ : unit) => forall a b, (a < i)%nat -> (b < nv)%nat -> X a b = Y a b)
    (fun r => (r = 1 /\ lex_lt n nv X Y) \/ (r = 0 /\ lex_lt n nv Y X))
    (XltY_line X Y nv) n 0 tt) as H.
  simpl in H.
  assert (H' := H (fun a b Ha => ltac:(lia))). clear H.
  assert (Hres : match for_up_brk 0 n (XltY_line X Y nv) tt with
    | inl _ => forall a b, (a < n)%nat -> (b < nv)%nat -> X a b = Y a b
    | inr r => (r = 1 /\ lex_lt n nv X Y) \/ (r = 0 /\ lex_lt n nv Y X)
    end).
  { apply H'. intros i0 [] Hi0 Hinv.
    pose proof (XltY_line_spec X Y nv i0) as Hl.
    destruct (XltY_line X Y nv i0 tt) as [u'|r'].
    + intros a b Ha Hb. destruct (Nat.eq_dec a i0) as [->|];
        [now apply Hl|apply Hinv; lia].
    + destruct Hl as (j & Hj & Hne & Heq & ->).
      destruct (Z.ltb_spec (X i0 j) (Y i0 j)) as [Hlt|Hge].
      * left. split; [reflexivity|]. exists i0, j.
        split; [lia|]. split; [lia|]. split; [lia|].
        intros a b [Ha|[-> Hb]] Hb'; [apply Hinv; lia|now apply Heq].
      * right. split; [reflexivity|]. exists i0, j.
        split; [lia|]. split; [lia|]. split; [lia|].
        intros a b [Ha|[-> Hb]] Hb'; symmetry;
          [apply Hinv; lia|now apply Heq]. }
  destruct (for_up_brk 0 n (XltY_line X Y nv) tt) as [u|r].
  - right. split; [reflexivity|]. left. exact Hres.
  - destruct Hres as [Hr|[Hr Hl]]; [now left|right; auto].
Qed.

Lemma before_trichotomy a b i j :
  before a b i j \/ (a = i /\ b = j) \/ before i j a b.
Proof. unfold before. lia. Qed.

Lemma lex_lt_not_eq n nv X Y : lex_lt n nv X Y -> ~ mat_eq n nv X Y.
Proof. intros (i & j & Hi & Hj & Hlt & _) He. specialize (He i j Hi Hj). lia. Qed.

Lemma lex_lt_trans n nv X Y Z :
  lex_lt n nv X Y -> lex_lt n nv Y Z -> lex_lt n nv X Z.
Proof.
  intros (i & j & Hi & Hj & Hlt & Heq) (i' & j' & Hi' & Hj' & Hlt' & Heq').
  destruct (before_trichotomy i j i' j') as [Hb|[[-> ->]|Hb]].
  - exists i, j. split; [lia|]. split; [lia|]. split.
    + rewrite <- Heq' by assumption. assumption.
    + intros a b Hab Hb'. rewrite Heq by assumption. apply Heq'; [|assumption].
      unfold before in *. lia.
  - exists i', j'. split; [lia|]. split; [lia|]. split; [lia|].
    intros a b Hab Hb'. rewrite Heq by assumption. now apply Heq'.
  - exists i', j'. split; [lia|]. split; [lia|]. split.
    + rewrite Heq by assumption. assumption.
    + intros a b Hab Hb'. rewrite Heq; [now apply Heq'| |assumption].
      unfold before in *. lia.
Qed.

Lemma lex_lt_asym n nv X Y : lex_lt n nv X Y -> ~ lex_lt n nv Y X.
Proof.
  intros H1 H2. pose proof (lex_lt_trans _ _ _ _ _ H1 H2) as H.
  apply lex_lt_not_eq in H. apply H, mat_eq_refl.
Qed.

Lemma lex_lt_compat n nv X Y X' Y' :
  mat_eq n nv X X' -> mat_eq n nv Y Y' -> lex_lt n nv X Y -> lex_lt n nv X' Y'.
Proof.
  intros HX HY (i & j & Hi & Hj & Hlt & Heq).
  exists i, j. split; [lia|]. split; [lia|]. split.
  - rewrite <- HX, <- HY by assumption. assumption.
  - intros a b Hab Hb.
    assert (a < n)%nat by (unfold before in Hab; lia).
    rewrite <- HX, <- HY by assumption. now apply Heq.
Qed.

(** *** Filling a matrix *)

Lemma for_up_inv0 {S : Type} (P : nat -> S -> Prop) (body : nat -> S -> S) cnt s :
  P 0%nat s ->
  (forall i s, (i < cnt)%nat -> P i s -> P (Datatypes.S i) (body i s)) ->
  P cnt (for_up 0 cnt body s).
Proof.
  intros H0 Hstep. apply (for_up_inv P body cnt 0 s H0).
  intros i s' Hi. apply Hstep. lia.
Qed.

Lemma fill_spec (n nv : nat) (f : nat -> nat -> Z) (B : mat) :
  let M := for_up 0 n (fun i X =>
             for_up 0 nv (fun j X => upd2 X i j (f i j)) X) B in
  (forall i j, (i < n)%nat -> (j < nv)%nat -> M i j = f i j) /\
  (forall i j, (n <= i \/ nv <= j)%nat -> M i j = B i j).
Proof.
  cbv zeta.
  apply (for_up_inv0 (fun i (X : mat) =>
    (forall a b, (a < i)%nat -> (b < nv)%nat -> X a b = f a b) /\
    (forall a b, (i <= a \/ nv <= b)%nat -> X a b = B a b))).
  - split; [intros; lia|reflexivity].
  - intros i X Hi [H1 H2].
    assert (Hrow :
      (forall b, (b < nv)%nat ->
         for_up 0 nv (fun j X => upd2 X i j (f i j)) X i b = f i b) /\
      (forall a b, (a <> i \/ nv <= b)%nat ->
         for_up 0 nv (fun j X => upd2 X i j (f i j)) X a b = X a b)).
    { apply (for_up_inv0 (fun j (X' : mat) =>
        (forall b, (b < j)%nat -> X' i b = f i b) /\
        (forall a b, (a <> i \/ j <= b)%nat -> X' a b = X a b))).
      - split; [intros; lia|reflexivity].
      - intros j X' Hj [R1 R2]. split.
        + intros b Hb. destruct (Nat.eq_dec b j) as [->|].
          * now rewrite upd2_same.
          * rewrite upd2_other by lia. apply R1. lia.
        + intros a b Hab. rewrite upd2_other by lia. apply R2. lia. }
    destruct Hrow as [R1 R2]. split.
    + intros a b Ha Hb. destruct (Nat.eq_dec a i) as [->|].
      * now apply R1.
      * rewrite R2 by lia. apply H1; lia.
    + intros a b Hab. rewrite R2 by lia. apply H2. lia.
Qed.

Lemma permuted_cols_spec n nv V C B :
  mat_eq n nv (permuted_cols n nv V C B) (fun i j => V i (C j)).
Proof.
  intros i j Hi Hj. unfold permuted_cols.
  now apply (fill_spec n nv (fun i j => V i (C j)) B).
Qed.

Lemma copy_mat_spec n nv src dst : mat_eq n nv (copy_mat n nv src dst) src.
Proof.
  intros i j Hi Hj. unfold copy_mat. now apply (fill_spec n nv src dst).
Qed.

(** *** The candidates of [Aux_Make_Triang] and their reduced matrices *)

(** The coordinates in the column order [C], and their reduction. *)
Definition cand_mat (V : mat) (C : nat -> nat) : mat := fun i j => V i (C j).

Definition reduced (cfg : config) (V : mat) (n nv : nat) (C : nat -> nat)
  : result (Z * mat) :=
  Aux_Make_Poly_NF cfg (cand_mat V C) n nv.

Definition reduced_mat (cfg : config) (V : mat) (n nv : nat) (C : nat -> nat)
  : mat :=
  match reduced cfg V n nv C with
  | Returned (_, X') => X'
  | _ => fun _ _ => 0
  end.

Lemma Aux_Make_Poly_NF_value cfg X n nv r X1 :
  Aux_Make_Poly_NF cfg X n nv = Returned (r, X1) -> r = 0 \/ r = 1.
Proof.
  unfold Aux_Make_Poly_NF, GLZ_Make_Trian_NF.
  destruct (GLZ_reduce X n nv) as [[NF G]| |]; simpl; try discriminate.
  destruct (GLZ_write_back _ _ _ _ _); simpl; intros H; injection H as <- <-; auto.
Qed.

Lemma reduce_buffer cfg V n nv C B r X1 :
  Aux_Make_Poly_NF cfg (permuted_cols n nv V C B) n nv = Returned (r, X1) ->
  r <> 0 ->
  reduced cfg V n nv C = Returned (1, reduced_mat cfg V n nv C) /\
  mat_eq n nv X1 (reduced_mat cfg V n nv C).
Proof.
  intros H Hr.
  destruct (Aux_Make_Poly_NF_value _ _ _ _ _ _ H) as [->| ->]; [now contradiction Hr|].
  destruct (Aux_Make_Poly_NF_ext cfg n nv _ (cand_mat V C) 1 X1
              (permuted_cols_spec n nv V C B) H) as (X1' & H' & He).
  unfold reduced_mat, reduced. rewrite H'. split; [reflexivity|].
  apply He. discriminate.
Qed.

Lemma lex_trichotomy n nv X Y :
  lex_lt n nv X Y \/ mat_eq n nv X Y \/ lex_lt n nv Y X.
Proof.
  destruct (Aux_XltY_Poly_NF_spec X Y n nv) as [[_ H]|[_ [H|H]]]; auto.
Qed.

Lemma Aux_XltY_1 X Y n nv : lex_lt n nv X Y -> Aux_XltY_Poly_NF X Y n nv = 1.
Proof.
  intros H. destruct (Aux_XltY_Poly_NF_spec X Y n nv) as [[E _]|[_ [H'|H']]].
  - assumption.
  - now apply lex_lt_not_eq in H.
  - now apply lex_lt_asym in H.
Qed.

Lemma Aux_XltY_0 X Y n nv : ~ lex_lt n nv X Y -> Aux_XltY_Poly_NF X Y n nv = 0.
Proof.
  intros H. destruct (Aux_XltY_Poly_NF_spec X Y n nv) as [[_ H']|[E _]].
  - contradiction.
  - assumption.
Qed.

Lemma CL_set_s_C CL k s j : PERM_C (CL_set_s CL k s j) = PERM_C (CL j).
Proof.
  unfold CL_set_s, upd. destruct (Nat.eqb j k) eqn:E; [|reflexivity].
  apply Nat.eqb_eq in E. now subst.
Qed.

Lemma CL_set_s_same CL k s : PERM_s (CL_set_s CL k s k) = s.
Proof. unfold CL_set_s. now rewrite upd_same. Qed.

Lemma CL_set_s_other CL k s j : j <> k -> PERM_s (CL_set_s CL k s j) = PERM_s (CL j).
Proof. intros H. unfold CL_set_s. now rewrite upd_other. Qed.

(** [for (k = lo; k < lo + cnt; k++) CL[k].s = 0]. *)
Lemma clear_marks_spec lo cnt CL :
  let CL' := for_up lo cnt (fun k CL => CL_set_s CL k 0) CL in
  (forall j, PERM_C (CL' j) = PERM_C (CL j)) /\
  (forall j, (lo <= j < lo + cnt)%nat -> PERM_s (CL' j) = 0) /\
  (forall j, (j < lo \/ lo + cnt <= j)%nat -> PERM_s (CL' j) = PERM_s (CL j)).
Proof.
  cbv zeta.
  apply (for_up_inv (fun i (CL' : nat -> PERM) =>
    (forall j, PERM_C (CL' j) = PERM_C (CL j)) /\
    (forall j, (lo <= j < i)%nat -> PERM_s (CL' j) = 0) /\
    (forall j, (j < lo \/ i <= j)%nat -> PERM_s (CL' j) = PERM_s (CL j)))).
  - split; [reflexivity|]. split; [intros; lia|reflexivity].
  - intros i CL' Hi (H1 & H2 & H3). split; [|split].
    + intros j. rewrite CL_set_s_C. apply H1.
    + intros j Hj. destruct (Nat.eq_dec j i) as [->|].
      * apply CL_set_s_same.
      * rewrite CL_set_s_other by assumption. apply H2. lia.
    + intros j Hj. rewrite CL_set_s_other by lia. apply H3. lia.
Qed.

Section Triang.

Variables (cfg : config) (CL : nat -> PERM) (ns : nat) (V : mat) (n nv : nat).
Variable t0 : Z.

Let M (k : nat) : mat := reduced_mat cfg V n nv (PERM_C (CL k)).

Definition tr_best (st : Triang_state) : mat :=
  if tr_x st =? 0 then tr_X st else tr_Y st.

(** The marks [s] single out the candidates whose reduced matrix is the
    best one, [M b], among the first [s] candidates. *)
Definition marks_ok (CL' : nat -> PERM) (s b : nat) : Prop :=
  forall k, (k < ns)%nat ->
    (PERM_s (CL' k) = 1 /\ (k < s)%nat /\ mat_eq n nv (M k) (M b)) \/
    (PERM_s (CL' k) = 0 /\ ((s <= k)%nat \/ ~ mat_eq n nv (M k) (M b))).

(** What is known of the first [s] candidates: each one reduces, and [b] is
    the first one with the best reduced matrix. *)
Definition order_ok (s b : nat) : Prop :=
  (forall k, (k < b)%nat -> lex_lt n nv (M b) (M k)) /\
  (forall k, (b <= k < s)%nat -> ~ lex_lt n nv (M k) (M b)) /\
  (forall k, (k < s)%nat ->
     reduced cfg V n nv (PERM_C (CL k)) = Returned (1, M k)).

Definition state_ok (s b : nat) (st : Triang_state) : Prop :=
  (forall k, PERM_C (tr_CL st k) = PERM_C (CL k)) /\
  (tr_x st = 0 \/ tr_x st = 1) /\
  (t0 = 0 -> tr_t st = 0) /\ (t0 < 0 -> tr_t st < 0) /\
  (0 < t0 -> 0 < tr_t st) /\
  (t0 < 0 -> tr_g st = b /\ marks_ok (tr_CL st) s b).

(** The invariant of the loop over the candidates, before the candidate
    [s]. *)
Definition Triang_inv (s : nat) (st : Triang_state) : Prop :=
  exists b, (b < s)%nat /\ order_ok s b /\
    mat_eq n nv (tr_best st) (M b) /\ state_ok s b st.

Lemma order_better s b :
  order_ok s b ->
  reduced cfg V n nv (PERM_C (CL s)) = Returned (1, M s) ->
  lex_lt n nv (M s) (M b) ->
  order_ok (Datatypes.S s) s /\ (forall k, (k < s)%nat -> lex_lt n nv (M s) (M k)).
Proof.
  intros (O1 & O2 & O3) Hred Hlt.
  assert (Hall : forall k, (k < s)%nat -> lex_lt n nv (M s) (M k)).
  { intros k Hk. destruct (Nat.lt_ge_cases k b) as [Hkb|Hkb].
    - eapply lex_lt_trans; [exact Hlt|now apply O1].
    - destruct (lex_trichotomy n nv (M k) (M b)) as [H|[H|H]].
      + exfalso. apply (O2 k); [lia|assumption].
      + eapply lex_lt_compat; [apply mat_eq_refl|apply mat_eq_sym; exact H|exact Hlt].
      + eapply lex_lt_trans; eassumption. }
  split; [|exact Hall]. split; [exact Hall|]. split.
  - intros k Hk. assert (k = s) by lia. subst k.
    intros H. apply lex_lt_not_eq in H. apply H, mat_eq_refl.
  - intros k Hk. destruct (Nat.eq_dec k s) as [->|]; [assumption|apply O3; lia].
Qed.

Lemma order_not_better s b :
  order_ok s b ->
  reduced cfg V n nv (PERM_C (CL s)) = Returned (1, M s) ->
  ~ lex_lt n nv (M s) (M b) ->
  order_ok (Datatypes.S s) b.
Proof.
  intros (O1 & O2 & O3) Hred Hlt. split; [exact O1|]. split.
  - intros k Hk. destruct (Nat.eq_dec k s) as [->|]; [assumption|apply O2; lia].
  - intros k Hk. destruct (Nat.eq_dec k s) as [->|]; [assumption|apply O3; lia].
Qed.

Lemma new_best_marks st s b :
  (s < ns)%nat -> (b < s)%nat ->
  marks_ok (tr_CL st) s b ->
  (forall k, (k < s)%nat -> lex_lt n nv (M s) (M k)) ->
  (forall k, (k < b)%nat -> lex_lt n nv (M b) (M k)) ->
  marks_ok (CL_set_s (for_up b (s - b) (fun k CL => CL_set_s CL k 0) (tr_CL st)) s 1)
           (Datatypes.S s) s.
Proof.
  intros Hs Hb Hm Hlt Hltb k Hk.
  destruct (clear_marks_spec b (s - b) (tr_CL st)) as (_ & C2 & C3).
  destruct (Nat.eq_dec k s) as [->|Hne].
  - left. rewrite CL_set_s_same. split; [reflexivity|]. split; [lia|apply mat_eq_refl].
  - right. rewrite CL_set_s_other by assumption.
    destruct (Nat.lt_ge_cases k s) as [Hlt'|Hge].
    + split.
      * destruct (Nat.lt_ge_cases k b) as [Hkb|Hkb].
        -- rewrite C3 by lia. destruct (Hm k Hk) as [(_ & _ & He)|[H0 _]];
             [|assumption].
           exfalso. apply (lex_lt_not_eq _ _ _ _ (Hltb k Hkb)).
           now apply mat_eq_sym.
        -- apply C2. lia.
      * right. intros He. apply (lex_lt_not_eq _ _ _ _ (Hlt k Hlt')).
        now apply mat_eq_sym.
    + split; [|left; lia]. rewrite C3 by lia.
      destruct (Hm k Hk) as [(_ & Hks & _)|[H0 _]]; [lia|assumption].
Qed.

Lemma equal_marks st s b :
  (s < ns)%nat -> (b < s)%nat ->
  marks_ok (tr_CL st) s b -> mat_eq n nv (M s) (M b) ->
  marks_ok (CL_set_s (tr_CL st) s 1) (Datatypes.S s) b.
Proof.
  intros Hs Hb Hm He k Hk. destruct (Nat.eq_dec k s) as [->|Hne].
  - left. rewrite CL_set_s_same. split; [reflexivity|]. split; [lia|assumption].
  - rewrite CL_set_s_other by assumption.
    destruct (Hm k Hk) as [(H1 & Hks & Hke)|[H0 [Hks|Hke]]].
    + left. split; [assumption|]. split; [lia|assumption].
    + right. split; [assumption|]. left. lia.
    + right. split; [assumption|]. now right.
Qed.

Lemma worse_marks st s b :
  (s < ns)%nat -> (b < s)%nat ->
  marks_ok (tr_CL st) s b -> ~ mat_eq n nv (M s) (M b) ->
  marks_ok (tr_CL st) (Datatypes.S s) b.
Proof.
  intros Hs Hb Hm He k Hk. destruct (Nat.eq_dec k s) as [->|Hne].
  - right. destruct (Hm s Hk) as [(_ & Hks & _)|[H0 _]]; [lia|].
    split; [assumption|now right].
  - destruct (Hm k Hk) as [(H1 & Hks & Hke)|[H0 [Hks|Hke]]].
    + left. split; [assumption|]. split; [lia|assumption].
    + right. split; [assumption|]. left. lia.
    + right. split; [assumption|]. now right.
Qed.

Lemma tr_best_mark s better cmp st :
  tr_best (Triang_mark s better cmp st) = tr_best st.
Proof.
  unfold Triang_mark, tr_best.
  destruct (negb (tr_t st =? 0)); [|reflexivity].
  destruct better.
  - destruct (tr_t st <? 0); reflexivity.
  - destruct (cmp =? 0); [|reflexivity]. destruct (tr_t st <? 0); reflexivity.
Qed.

(** The three outcomes of the comparison of the candidate [s] with the
    best matrix so far. *)
Lemma Triang_mark_better s b st c :
  (s < ns)%nat -> (b < s)%nat -> order_ok s b -> state_ok s b st ->
  reduced cfg V n nv (PERM_C (CL s)) = Returned (1, M s) ->
  lex_lt n nv (M s) (M b) ->
  mat_eq n nv (tr_best st) (M s) ->
  Triang_inv (Datatypes.S s) (Triang_mark s true c st).
Proof.
  intros Hs Hb Ho (S1 & S2 & S3 & S4 & S5 & S6) Hred Hlt Hbest.
  destruct (order_better s b Ho Hred Hlt) as [Ho' Hall].
  exists s. split; [lia|]. split; [exact Ho'|].
  split; [now rewrite tr_best_mark|].
  unfold Triang_mark.
  destruct (Z.eqb_spec (tr_t st) 0) as [Ht|Ht]; simpl.
  - assert (Ht0 : t0 = 0) by lia.
    unfold state_ok; simpl. repeat split; try assumption; try lia.
  - destruct (Z.ltb_spec (tr_t st) 0) as [Hlt0|Hge0]; simpl.
    + assert (Ht0 : t0 < 0) by lia. destruct (S6 Ht0) as [Hg Hm].
      rewrite Hg.
      destruct (clear_marks_spec b (s - b) (tr_CL st)) as (C1 & _).
      unfold state_ok; simpl.
      split; [|repeat split; try assumption; try lia].
      * intros k. rewrite CL_set_s_C, C1. apply S1.
      * apply new_best_marks; try assumption. apply Ho.
    + assert (Ht0 : 0 < t0) by lia.
      unfold state_ok; simpl. repeat split; try assumption; try lia.
Qed.

Lemma Triang_mark_equal s b st :
  (s < ns)%nat -> (b < s)%nat -> order_ok s b -> state_ok s b st ->
  reduced cfg V n nv (PERM_C (CL s)) = Returned (1, M s) ->
  mat_eq n nv (M s) (M b) ->
  mat_eq n nv (tr_best st) (M b) ->
  Triang_inv (Datatypes.S s) (Triang_mark s false 0 st).
Proof.
  intros Hs Hb Ho (S1 & S2 & S3 & S4 & S5 & S6) Hred He Hbest.
  assert (Ho' : order_ok (Datatypes.S s) b).
  { apply order_not_better; try assumption.
    intros H. apply lex_lt_not_eq in H. contradiction. }
  exists b. split; [lia|]. split; [exact Ho'|].
  split; [now rewrite tr_best_mark|].
  unfold Triang_mark.
  destruct (Z.eqb_spec (tr_t st) 0) as [Ht|Ht]; simpl.
  - assert (Ht0 : t0 = 0) by lia.
    unfold state_ok; simpl. repeat split; try assumption; try lia.
  - destruct (Z.ltb_spec (tr_t st) 0) as [Hlt0|Hge0]; simpl.
    + assert (Ht0 : t0 < 0) by lia. destruct (S6 Ht0) as [Hg Hm].
      unfold state_ok; simpl.
      split; [|repeat split; try assumption; try lia].
      * intros k. rewrite CL_set_s_C. apply S1.
      * apply equal_marks; assumption.
    + assert (Ht0 : 0 < t0) by lia.
      unfold state_ok; simpl. repeat split; try assumption; try lia.
Qed.

Lemma Triang_mark_worse s b st :
  (s < ns)%nat -> (b < s)%nat -> order_ok s b -> state_ok s b st ->
  reduced cfg V n nv (PERM_C (CL s)) = Returned (1, M s) ->
  lex_lt n nv (M b) (M s) ->
  mat_eq n nv (tr_best st) (M b) ->
  Triang_inv (Datatypes.S s) (Triang_mark s false 1 st).
Proof.
  intros Hs Hb Ho (S1 & S2 & S3 & S4 & S5 & S6) Hred Hlt Hbest.
  assert (Ho' : order_ok (Datatypes.S s) b).
  { apply order_not_better; try assumption. now apply lex_lt_asym. }
  exists b. split; [lia|]. split; [exact Ho'|].
  split; [now rewrite tr_best_mark|].
  assert (Hst : Triang_mark s false 1 st = st).
  { unfold Triang_mark. now destruct (negb (tr_t st =? 0)). }
  rewrite Hst. unfold state_ok.
  split; [exact S1|]. split; [exact S2|]. split; [exact S3|].
  split; [exact S4|]. split; [exact S5|].
  intros Ht0. destruct (S6 Ht0) as [Hg Hm]. split; [exact Hg|].
  apply worse_marks; try assumption.
  intros He. apply lex_lt_not_eq in Hlt. apply Hlt. now apply mat_eq_sym.
Qed.

Lemma state_ok_buffers s b st X Y x :
  state_ok s b st -> x = 0 \/ x = 1 ->
  state_ok s b (Build_Triang_state X Y x (tr_g st) (tr_ps st) (tr_t st)
                                   (tr_CL st)).
Proof.
  intros (S1 & S2 & S3 & S4 & S5 & S6) Hx. unfold state_ok. simpl. auto 10.
Qed.

Lemma Triang_cand_inv s st st' :
  (1 <= s < ns)%nat ->
  Triang_inv s st ->
  Triang_cand cfg V n nv s st = Returned st' ->
  Triang_inv (Datatypes.S s) st'.
Proof.
  intros Hs (b & Hb & Ho & Hbest & Hst) H.
  assert (HC : PERM_C (tr_CL st s) = PERM_C (CL s)) by apply Hst.
  assert (Hx : tr_x st = 0 \/ tr_x st = 1) by apply Hst.
  unfold Triang_cand in H. rewrite HC in H.
  destruct Hx as [Hx|Hx]; rewrite Hx in H; simpl in H;
    apply bind_Returned in H as ([r N] & Hr & H);
    (destruct (Z.eqb_spec r 0) as [Hr0|Hr0]; [discriminate|]);
    destruct (reduce_buffer _ _ _ _ _ _ _ _ Hr Hr0) as [Hred HN];
    fold (M s) in Hred, HN;
    unfold tr_best in Hbest; rewrite Hx in Hbest; simpl in Hbest;
    injection H as <-.
  - (* the best matrix is in [X]; the candidate is reduced in [Y] *)
    destruct (lex_trichotomy n nv N (tr_X st)) as [Hlt|[Heq|Hgt]].
    + rewrite (Aux_XltY_1 _ _ _ _ Hlt). simpl.
      apply (Triang_mark_better s b); try assumption; try lia.
      * apply state_ok_buffers; auto.
      * eapply lex_lt_compat; eassumption.
    + rewrite (Aux_XltY_0 N (tr_X st))
        by (intros Hc; now apply lex_lt_not_eq in Hc).
      simpl. rewrite (Aux_XltY_0 (tr_X st) N)
        by (intros Hc; apply lex_lt_not_eq in Hc; apply Hc; now apply mat_eq_sym).
      apply (Triang_mark_equal s b); try assumption; try lia.
      * apply state_ok_buffers; auto.
      * eapply mat_eq_trans; [apply mat_eq_sym; exact HN|].
        eapply mat_eq_trans; eassumption.
    + rewrite (Aux_XltY_0 N (tr_X st)) by (now apply lex_lt_asym).
      simpl. rewrite (Aux_XltY_1 _ _ _ _ Hgt).
      apply (Triang_mark_worse s b); try assumption; try lia.
      * apply state_ok_buffers; auto.
      * eapply lex_lt_compat; eassumption.
  - (* the best matrix is in [Y]; the candidate is reduced in [X] *)
    destruct (lex_trichotomy n nv N (tr_Y st)) as [Hlt|[Heq|Hgt]].
    + rewrite (Aux_XltY_1 _ _ _ _ Hlt). simpl.
      apply (Triang_mark_better s b); try assumption; try lia.
      * apply state_ok_buffers; auto.
      * eapply lex_lt_compat; eassumption.
    + rewrite (Aux_XltY_0 N (tr_Y st))
        by (intros Hc; now apply lex_lt_not_eq in Hc).
      simpl. rewrite (Aux_XltY_0 (tr_Y st) N)
        by (intros Hc; apply lex_lt_not_eq in Hc; apply Hc; now apply mat_eq_sym).
      apply (Triang_mark_equal s b); try assumption; try lia.
      * apply state_ok_buffers; auto.
      * eapply mat_eq_trans; [apply mat_eq_sym; exact HN|].
        eapply mat_eq_trans; eassumption.
    + rewrite (Aux_XltY_0 N (tr_Y st)) by (now apply lex_lt_asym).
      simpl. rewrite (Aux_XltY_1 _ _ _ _ Hgt).
      apply (Triang_mark_worse s b); try assumption; try lia.
      * apply state_ok_buffers; auto.
      * eapply lex_lt_compat; eassumption.
Qed.


End Triang.

(** ** The extended Euclidean algorithm *)

Lemma rem_abs_lt (a b : Z) : b <> 0 -> Z.abs (Z.rem a b) < Z.abs b.
Proof. intros H. apply Z.rem_bound_abs. assumption. Qed.

Lemma rem_abs_le_sub (a b : Z) :
  b <> 0 -> Z.abs b <= Z.abs a -> Z.abs (Z.rem a b) <= Z.abs a - Z.abs b.
Proof.
  intros Hb Hab.
  pose proof (Z.quot_rem' a b) as Hqr.
  pose proof (Z.rem_sign_mul a b Hb) as Hs.
  pose proof (Z.rem_bound_abs a b Hb) as Hlt.
  assert (Hq : Z.quot a b <> 0).
  { intros Hq. rewrite Hq in Hqr. assert (a = Z.rem a b) by lia. lia. }
  assert (Hqs : 0 <= Z.quot a b * b * a).
  { pose proof (Z.quot_rem' a b).
    destruct (Z.eq_dec (Z.rem a b) 0) as [E|E]; [rewrite E in *; nia|].
    (* the quotient times the divisor has the sign of the dividend *)
    pose proof (Z.rem_sign_nz a b Hb E) as Hsg.
    assert (Z.abs (Z.rem a b) < Z.abs a) by lia.
    destruct (Z.sgn_spec a) as [[Ha Ea]|[[Ha Ea]|[Ha Ea]]];
    destruct (Z.sgn_spec (Z.rem a b)) as [[Hr Er]|[[Hr Er]|[Hr Er]]];
      rewrite Ea, Er in Hsg; try discriminate; try lia; nia. }
  (* |a| = |q b| + |r| with |q| >= 1 *)
  assert (Hab' : Z.abs a = Z.abs (Z.quot a b * b) + Z.abs (Z.rem a b)).
  { destruct (Z.eq_dec (Z.rem a b) 0) as [E|E].
    - rewrite E in *. rewrite Z.abs_0. f_equal. lia.
    - assert (0 <= Z.rem a b * (Z.quot a b * b)) by nia.
      replace a with (Z.quot a b * b + Z.rem a b) at 1 by lia.
      lia. }
  assert (Z.abs b <= Z.abs (Z.quot a b * b)).
  { rewrite Z.abs_mul. assert (1 <= Z.abs (Z.quot a b)) by lia. nia. }
  lia.
Qed.

(** The loop keeps [A0 = X0 V0 + Y0 V1] and [A1 = X1 V0 + Y1 V1], and ends
    with a divisor of [V0] and [V1]. *)
Definition egcd_ok (V0 V1 g X : Z) : Prop :=
  g <> 0 /\ (exists Y, g = X * V0 + Y * V1) /\ (g | V0) /\ (g | V1).

Lemma GL_Egcd_loop_spec (V0 V1 : Z) : forall k fuel A0 A1 X0 X1,
  A1 <> 0 -> Z.abs A1 < 2 ^ Z.of_nat k -> (2 * k <= fuel)%nat ->
  (exists Y0, A0 = X0 * V0 + Y0 * V1) ->
  (exists Y1, A1 = X1 * V0 + Y1 * V1) ->
  (forall d, (d | A0) -> (d | A1) -> (d | V0) /\ (d | V1)) ->
  egcd_ok V0 V1 (fst (GL_Egcd_loop fuel A0 A1 X0 X1))
                (snd (GL_Egcd_loop fuel A0 A1 X0 X1)).
Proof.
  assert (Hstep : forall A0 A1 X0 X1,
    A1 <> 0 ->
    (exists Y0, A0 = X0 * V0 + Y0 * V1) ->
    (exists Y1, A1 = X1 * V0 + Y1 * V1) ->
    (forall d, (d | A0) -> (d | A1) -> (d | V0) /\ (d | V1)) ->
    (exists Y2, Z.rem A0 A1 = (X0 - X1 * Z.quot A0 A1) * V0 + Y2 * V1) /\
    (forall d, (d | A1) -> (d | Z.rem A0 A1) -> (d | V0) /\ (d | V1)) /\
    (Z.rem A0 A1 = 0 -> egcd_ok V0 V1 A1 X1)).
  { intros A0 A1 X0 X1 HA1 [Y0 H0] [Y1 H1] Hd.
    pose proof (Z.quot_rem' A0 A1) as Hqr.
    split; [|split].
    - exists (Y0 - Y1 * Z.quot A0 A1). nia.
    - intros d D1 D2. apply Hd; [|assumption].
      rewrite Hqr. apply Z.divide_add_r; [|assumption].
      now apply Z.divide_mul_l.
    - intros Hr. split; [assumption|]. split; [now exists Y1|].
      apply Hd; [|apply Z.divide_refl].
      exists (Z.quot A0 A1). lia. }
  induction k as [|k IH]; intros fuel A0 A1 X0 X1 HA1 Hlt Hfuel H0 H1 Hd.
  - simpl in Hlt. lia.
  - destruct (Hstep A0 A1 X0 X1 HA1 H0 H1 Hd) as (H2 & Hd2 & Hend).
    destruct fuel as [|fuel]; [simpl; apply Hend|].
    { (* no fuel: impossible *) lia. }
    simpl. destruct (Z.eqb_spec (Z.rem A0 A1) 0) as [E|E]; [now apply Hend|].
    set (A2 := Z.rem A0 A1) in *.
    destruct (Hstep A1 A2 X1 (X0 - X1 * Z.quot A0 A1) E H1 H2 Hd2)
      as (H3 & Hd3 & Hend2).
    destruct fuel as [|fuel]; [lia|].
    simpl. destruct (Z.eqb_spec (Z.rem A1 A2) 0) as [E2|E2]; [now apply Hend2|].
    apply IH; try assumption; try lia.
    pose proof (rem_abs_lt A0 A1 HA1). fold A2 in H.
    pose proof (rem_abs_lt A1 A2 E).
    pose proof (rem_abs_le_sub A1 A2 E ltac:(lia)).
    rewrite Nat2Z.inj_succ, Z.pow_succ_r in Hlt by lia. lia.
Qed.

Lemma log2_abs_bound (b : Z) :
  b <> 0 -> Z.abs b < 2 ^ Z.of_nat (Z.to_nat (Z.log2 (Z.abs b)) + 1).
Proof.
  intros Hb. rewrite Nat2Z.inj_add, Z2Nat.id by apply Z.log2_nonneg.
  replace (Z.log2 (Z.abs b) + Z.of_nat 1)
    with (Z.succ (Z.log2 (Z.abs b))) by lia.
  apply Z.log2_spec. lia.
Qed.

(** [GL_Egcd A0 A1], for [A1] not 0: the value is a common divisor [g] of
    [A0] and [A1], not 0, with [Vout0 * A0 + Vout1 * A1 = g]. *)
Lemma GL_Egcd_spec (A0 A1 : Z) :
  A1 <> 0 ->
  let '(g, a, b) := GL_Egcd A0 A1 in
  g <> 0 /\ a * A0 + b * A1 = g /\ (g | A0) /\ (g | A1).
Proof.
  intros HA1. unfold GL_Egcd.
  assert (H : egcd_ok A0 A1 (fst (GL_Egcd_loop (Egcd_fuel A1) A0 A1 1 0))
                          (snd (GL_Egcd_loop (Egcd_fuel A1) A0 A1 1 0))).
  { apply (GL_Egcd_loop_spec A0 A1 (Z.to_nat (Z.log2 (Z.abs A1)) + 1)).
    - assumption.
    - now apply log2_abs_bound.
    - unfold Egcd_fuel. lia.
    - exists 0. lia.
    - exists 1. lia.
    - auto. }
  destruct (GL_Egcd_loop (Egcd_fuel A1) A0 A1 1 0) as [g X1]. simpl in H.
  destruct H as (Hg & [Y Hb] & D0 & D1).
  split; [assumption|]. split; [|auto].
  replace (g - A0 * X1) with (Y * A1) by lia.
  rewrite Z.quot_mul by assumption. lia.
Qed.

Lemma SL_Egcd_eq (A0 A1 : Z) : SL_Egcd A0 A1 = GL_Egcd A0 A1.
Proof. reflexivity. Qed.

Lemma quot_exact_l (a g : Z) : g <> 0 -> (g | a) -> Z.quot a g * g = a.
Proof.
  intros Hg [q ->]. rewrite Z.quot_mul by assumption. reflexivity.
Qed.

(** ** Sums of products *)

(** [dot n a b = a 0 * b 0 + ... + a (n-1) * b (n-1)]. *)
Definition dot (n : nat) (a b : vec) : Z := dot_from 0 n a b.

Lemma dot_from_S acc n a b :
  dot_from acc (Datatypes.S n) a b = dot_from acc n a b + a n * b n.
Proof. unfold dot_from. rewrite for_up_last. reflexivity. Qed.

Lemma dot_from_acc acc n a b : dot_from acc n a b = acc + dot n a b.
Proof.
  unfold dot. induction n as [|n IH]; [unfold dot_from; simpl; lia|].
  rewrite !dot_from_S, IH. lia.
Qed.

Lemma dot_0 a b : dot 0 a b = 0.
Proof. reflexivity. Qed.

Lemma dot_S n a b : dot (Datatypes.S n) a b = dot n a b + a n * b n.
Proof. apply dot_from_S. Qed.

Lemma dot_ext n a a' b b' :
  (forall k, (k < n)%nat -> a k = a' k) ->
  (forall k, (k < n)%nat -> b k = b' k) ->
  dot n a b = dot n a' b'.
Proof.
  induction n as [|n IH]; intros Ha Hb; [reflexivity|].
  rewrite !dot_S, IH, Ha, Hb by (intros; auto with arith). reflexivity.
Qed.

Lemma dot_lin n (x y : Z) a c b :
  dot n (fun k => x * a k + y * c k) b = x * dot n a b + y * dot n c b.
Proof.
  induction n as [|n IH]; [rewrite !dot_0; lia|].
  rewrite !dot_S, IH. lia.
Qed.

Lemma dot_lin_r n (x y : Z) a b c :
  dot n a (fun k => x * b k + y * c k) = x * dot n a b + y * dot n a c.
Proof.
  induction n as [|n IH]; [rewrite !dot_0; lia|].
  rewrite !dot_S, IH. lia.
Qed.

Lemma dot_zero_l n a b : (forall k, (k < n)%nat -> a k = 0) -> dot n a b = 0.
Proof.
  induction n as [|n IH]; intros H; [reflexivity|].
  rewrite dot_S, IH, H by (intros; auto with arith). lia.
Qed.

Lemma dot_zero_r n a b : (forall k, (k < n)%nat -> b k = 0) -> dot n a b = 0.
Proof.
  induction n as [|n IH]; intros H; [reflexivity|].
  rewrite dot_S, IH, H by (intros; auto with arith). lia.
Qed.

(** A vector that is 0 from [m] on. *)
Lemma dot_trunc m n a b :
  (m <= n)%nat -> (forall k, (m <= k < n)%nat -> a k = 0) ->
  dot n a b = dot m a b.
Proof.
  induction n as [|n IH]; intros Hm H.
  - assert (m = 0)%nat by lia. now subst.
  - destruct (Nat.eq_dec m (Datatypes.S n)) as [->|Hne]; [reflexivity|].
    rewrite dot_S, IH, H by (try lia; intros; apply H; lia). lia.
Qed.

(** The unit vector [i]. *)
Lemma dot_unit_l n i a b :
  (i < n)%nat -> (forall k, (k < n)%nat -> a k = if Nat.eqb k i then 1 else 0) ->
  dot n a b = b i.
Proof.
  intros Hi Ha. induction n as [|n IH]; [lia|].
  rewrite dot_S. destruct (Nat.eq_dec i n) as [->|Hne].
  - rewrite (Ha n) by lia. rewrite Nat.eqb_refl.
    rewrite dot_zero_l; [lia|]. intros k Hk. rewrite Ha by lia.
    destruct (Nat.eqb_spec k n); [lia|reflexivity].
  - rewrite IH by (try lia; intros; apply Ha; lia).
    rewrite (Ha n) by lia. destruct (Nat.eqb_spec n i); [lia|]. lia.
Qed.

(** ** The loops of [GLZ_Make_Trian_NF] one by one *)

Lemma NF_add_col_spec n G X C NF :
  (forall i, (i < n)%nat ->
     NF_add_col n G X C NF i C = NF i C + dot n (G i) (col X C)) /\
  (forall i c, (n <= i)%nat \/ c <> C -> NF_add_col n G X C NF i c = NF i c).
Proof.
  unfold NF_add_col.
  apply (for_up_inv0 (fun i (M : mat) =>
    (forall a, (a < i)%nat -> M a C = NF a C + dot n (G a) (col X C)) /\
    (forall a c, (i <= a)%nat \/ c <> C -> M a c = NF a c))).
  - split; [intros; lia|reflexivity].
  - intros i M Hi [H1 H2]. split.
    + intros a Ha. destruct (Nat.eq_dec a i) as [->|Hne].
      * rewrite upd2_same, dot_from_acc, H2 by lia. reflexivity.
      * rewrite upd2_other by lia. apply H1. lia.
    + intros a c Hac. rewrite upd2_other by lia. apply H2. lia.
Qed.

(** The lines [L <= i < n] with a non-zero entry in the column [C], as
    [scan_col] lists them. *)
Definition scanned (n L C : nat) (NF : mat) (N : nat) (W : vec) (p : nat -> nat)
  : Prop :=
  (forall j, (j < N)%nat -> (L <= p j < n)%nat /\ W j = NF (p j) C /\ W j <> 0) /\
  (forall j k, (j < k < N)%nat -> (p j < p k)%nat) /\
  (forall i, (L <= i < n)%nat -> NF i C <> 0 -> exists j, (j < N)%nat /\ p j = i).

Lemma scan_col_spec n L C NF W0 p0 :
  let '(N, W, p) := scan_col n L C NF W0 p0 in
  scanned n L C NF N W p /\ (N <= n - L)%nat.
Proof.
  unfold scan_col.
  pose (P := fun (i : nat) (st : nat * vec * (nat -> nat)) =>
    let '(N, W, p) := st in
    (forall j, (j < N)%nat -> (L <= p j < i)%nat /\ W j = NF (p j) C /\ W j <> 0) /\
    (forall j k, (j < k < N)%nat -> (p j < p k)%nat) /\
    (forall r, (L <= r < i)%nat -> NF r C <> 0 -> exists j, (j < N)%nat /\ p j = r) /\
    (N <= i - L)%nat).
  assert (H : P (L + (n - L))%nat
    (for_up L (n - L) (fun i '(N, W, p) =>
       if NF i C =? 0 then (N, W, p)
       else (Datatypes.S N, upd W N (NF i C), upd p N i)) (0%nat, W0, p0))).
  { apply (for_up_inv P); unfold P; clear P.
    - split; [intros; lia|]. split; [intros; lia|]. split; [intros; lia|lia].
    - intros i [[N W] p] Hi (H1 & H2 & H3 & H4).
      destruct (Z.eqb_spec (NF i C) 0) as [E|E].
      + split; [|split; [|split]].
        * intros j Hj. destruct (H1 j Hj) as (? & ? & ?). repeat split; auto; lia.
        * exact H2.
        * intros r Hr Hnz. destruct (Nat.eq_dec r i) as [->|]; [contradiction|].
          apply H3; [lia|assumption].
        * lia.
      + split; [|split; [|split]].
        * intros j Hj. destruct (Nat.eq_dec j N) as [->|Hne].
          -- rewrite !upd_same. repeat split; auto; lia.
          -- rewrite !upd_other by assumption.
             destruct (H1 j ltac:(lia)) as (? & ? & ?). repeat split; auto; lia.
        * intros j k Hjk. destruct (Nat.eq_dec k N) as [->|Hne].
          -- rewrite upd_same, upd_other by lia.
             destruct (H1 j ltac:(lia)) as (? & _). lia.
          -- rewrite !upd_other by lia. apply H2. lia.
        * intros r Hr Hnz. destruct (Nat.eq_dec r i) as [->|Hne].
          -- exists N. split; [lia|apply upd_same].
          -- destruct (H3 r ltac:(lia) Hnz) as (j & Hj & Hpj).
             exists j. split; [lia|]. now rewrite upd_other by lia.
        * lia. }
  unfold P in H; clear P.
  destruct (for_up L (n - L) _ _) as [[N W] p].
  destruct H as (H1 & H2 & H3 & H4).
  destruct (Nat.le_gt_cases L n) as [HL|HL].
  - replace (L + (n - L))%nat with n in * by lia. repeat split; auto.
    + apply H1. assumption.
    + apply H1. assumption.
    + apply H1. assumption.
    + apply H1. assumption.
  - assert (N = 0)%nat by lia. subst N.
    split; [|lia]. split; [intros; lia|]. split; [intros; lia|]. intros; lia.
Qed.

(** [find_col] stops at the first column [C'] from [C] on in which a line
    [L <= i < n] of [G X] is not 0; the columns it went through were added
    to [NF]. *)
Lemma find_col_spec n L X G fuel : forall C NF W0 p0 C' NF' N W p,
  find_col fuel n L X G C NF W0 p0 = Some (C', NF', N, W, p) ->
  (C <= C' < C + fuel)%nat /\ (0 < N)%nat /\
  scanned n L C' NF' N W p /\
  (forall i c, (i < n)%nat -> (C <= c <= C')%nat ->
     NF' i c = NF i c + dot n (G i) (col X c)) /\
  (forall i c, (n <= i)%nat \/ (c < C \/ C' < c)%nat -> NF' i c = NF i c) /\
  (forall i c, (L <= i < n)%nat -> (C <= c < C')%nat -> NF' i c = 0).
Proof.
  induction fuel as [|k IH]; intros C NF W0 p0 C' NF' N W p H; [discriminate|].
  simpl in H.
  destruct (NF_add_col_spec n G X C NF) as [A1 A2].
  pose proof (scan_col_spec n L C (NF_add_col n G X C NF) W0 p0) as Hs.
  destruct (scan_col n L C (NF_add_col n G X C NF) W0 p0) as [[N1 W1] p1].
  destruct Hs as [Hs HN1].
  destruct (Nat.eqb_spec N1 0) as [E|E].
  - subst N1. apply IH in H as (B1 & B2 & B3 & B4 & B5 & B6).
    split; [lia|]. split; [assumption|]. split; [assumption|].
    split; [|split].
    + intros i c Hi Hc. destruct (Nat.eq_dec c C) as [->|Hne].
      * rewrite B5 by lia. now apply A1.
      * rewrite B4 by lia. rewrite A2 by lia. reflexivity.
    + intros i c Hic. rewrite B5 by lia. apply A2. lia.
    + intros i c Hi Hc. destruct (Nat.eq_dec c C) as [->|Hne].
      * rewrite B5 by lia.
        destruct (Z.eq_dec (NF_add_col n G X C NF i C) 0) as [Hz|Hz];
          [assumption|].
        destruct Hs as (_ & _ & Hs3). destruct (Hs3 i Hi Hz) as (j & Hj & _). lia.
      * apply B6; lia.
  - injection H as <- <- <- <- <-.
    split; [lia|]. split; [lia|]. split; [assumption|]. split; [|split].
    + intros i c Hi Hc. assert (c = C) by lia. subst c. now apply A1.
    + intros i c Hic. apply A2. lia.
    + intros; lia.
Qed.

Lemma swap_lines_spec n a b G :
  (forall j, (j < n)%nat -> swap_lines n a b G a j = G b j) /\
  (forall j, (j < n)%nat -> swap_lines n a b G b j = G a j) /\
  (forall i j, (i <> a /\ i <> b) \/ (n <= j)%nat -> swap_lines n a b G i j = G i j).
Proof.
  unfold swap_lines.
  apply (for_up_inv0 (fun k (M : mat) =>
    (forall j, (j < k)%nat -> M a j = G b j) /\
    (forall j, (j < k)%nat -> M b j = G a j) /\
    (forall i j, (i <> a /\ i <> b) \/ (k <= j)%nat -> M i j = G i j))).
  - split; [intros; lia|]. split; [intros; lia|reflexivity].
  - intros k M Hk (H1 & H2 & H3). split; [|split].
    + intros j Hj. destruct (Nat.eq_dec a b) as [->|Hab].
      * destruct (Nat.eq_dec j k) as [->|Hne].
        -- rewrite upd2_same. apply H3. lia.
        -- rewrite !upd2_other by lia. apply H1. lia.
      * rewrite (upd2_other _ b) by lia.
        destruct (Nat.eq_dec j k) as [->|Hne].
        -- rewrite upd2_same. apply H3. lia.
        -- rewrite upd2_other by lia. apply H1. lia.
    + intros j Hj. destruct (Nat.eq_dec j k) as [->|Hne].
      * rewrite upd2_same. apply H3. lia.
      * rewrite !upd2_other by lia. apply H2. lia.
    + intros i j Hij. rewrite !upd2_other by lia. apply H3. lia.
Qed.

(** The quotient taken by [reduce_above]: the floor of [a / g]. *)
Lemma floor_quot (a g : Z) :
  0 < g ->
  let R := Z.quot a g in
  let R := if a - R * g <? 0 then R - 1 else R in
  R = a / g /\ a - R * g = a mod g.
Proof.
  intros Hg. cbv zeta.
  pose proof (Z.quot_rem' a g) as Hqr.
  pose proof (Z.rem_bound_abs a g ltac:(lia)) as Hb.
  assert (Hr : a - Z.quot a g * g = Z.rem a g) by lia.
  rewrite Hr.
  destruct (Z.ltb_spec (Z.rem a g) 0) as [Hn|Hn].
  - assert (E : Z.quot a g - 1 = a / g).
    { apply (Z.div_unique_pos a g (Z.quot a g - 1) (Z.rem a g + g)); lia. }
    split; [assumption|]. rewrite E.
    pose proof (Z.div_mod a g ltac:(lia)). lia.
  - assert (E : Z.quot a g = a / g).
    { apply (Z.div_unique_pos a g (Z.quot a g) (Z.rem a g)); lia. }
    split; [assumption|]. rewrite E.
    pose proof (Z.div_mod a g ltac:(lia)). lia.
Qed.

Lemma reduce_above_spec n L C (NF G : mat) :
  0 < NF L C ->
  let '(NF', G') := reduce_above n L C (NF, G) in
  (forall i, (i < L)%nat -> NF' i C = NF i C mod NF L C) /\
  (forall i c, (L <= i)%nat \/ c <> C -> NF' i c = NF i c) /\
  (forall i j, (i < L)%nat -> (j < n)%nat ->
     G' i j = G i j - (NF i C / NF L C) * G L j) /\
  (forall i j, (L <= i)%nat \/ (n <= j)%nat -> G' i j = G i j).
Proof.
  intros Hg. unfold reduce_above.
  pose (P := fun (k : nat) (st : mat * mat) =>
    let '(NF', G') := st in
    (forall i, (i < k)%nat -> NF' i C = NF i C mod NF L C) /\
    (forall i c, (k <= i)%nat \/ c <> C -> NF' i c = NF i c) /\
    (forall i j, (i < k)%nat -> (j < n)%nat ->
       G' i j = G i j - (NF i C / NF L C) * G L j) /\
    (forall i j, (k <= i)%nat \/ (n <= j)%nat -> G' i j = G i j)).
  assert (H : P L (for_up 0 L (fun i '(NF0, G0) =>
    let R := Z.quot (NF0 i C) (NF0 L C) in
    let R := if NF0 i C - R * NF0 L C <? 0 then R - 1 else R in
    let NF1 := upd2 NF0 i C (NF0 i C - R * NF0 L C) in
    (NF1, for_up 0 n (fun j G1 => upd2 G1 i j (G1 i j - R * G1 L j)) G0))
    (NF, G))).
  { apply (for_up_inv0 P); unfold P; clear P.
    - split; [intros; lia|]. split; [reflexivity|]. split; [intros; lia|reflexivity].
    - intros i [NF0 G0] Hi (H1 & H2 & H3 & H4). cbv zeta.
      rewrite !(H2 i C), !(H2 L C) by lia.
      destruct (floor_quot (NF i C) (NF L C) Hg) as [HR Hm]. cbv zeta in HR, Hm.
      rewrite HR. rewrite HR in Hm.
      assert (Hrow :
        (forall j, (j < n)%nat ->
           for_up 0 n (fun j G1 => upd2 G1 i j (G1 i j - NF i C / NF L C * G1 L j))
                  G0 i j = G0 i j - NF i C / NF L C * G0 L j) /\
        (forall a j, a <> i \/ (n <= j)%nat ->
           for_up 0 n (fun j G1 => upd2 G1 i j (G1 i j - NF i C / NF L C * G1 L j))
                  G0 a j = G0 a j)).
      { apply (for_up_inv0 (fun k (M : mat) =>
          (forall j, (j < k)%nat -> M i j = G0 i j - NF i C / NF L C * G0 L j) /\
          (forall a j, a <> i \/ (k <= j)%nat -> M a j = G0 a j))).
        - split; [intros; lia|reflexivity].
        - intros k M Hk [R1 R2]. split.
          + intros j Hj. destruct (Nat.eq_dec j k) as [->|Hne].
            * rewrite upd2_same, !R2 by lia. reflexivity.
            * rewrite upd2_other by lia. apply R1. lia.
          + intros a j Haj. rewrite upd2_other by lia. apply R2. lia. }
      destruct Hrow as [R1 R2].
      split; [|split; [|split]].
      + intros a Ha. destruct (Nat.eq_dec a i) as [->|Hne].
        * rewrite upd2_same. exact Hm.
        * rewrite upd2_other by lia. apply H1. lia.
      + intros a c Hac. rewrite upd2_other by lia. apply H2. lia.
      + intros a j Ha Hj. destruct (Nat.eq_dec a i) as [->|Hne].
        * rewrite R1 by assumption. rewrite !H4 by lia. reflexivity.
        * rewrite R2 by lia. apply H3; lia.
      + intros a j Haj. rewrite R2 by lia. apply H4. lia. }
  exact H.
Qed.

Lemma apply_block_spec n N p (_G : nat -> vec) G :
  (forall j k, (j < k < N)%nat -> p j <> p k) ->
  (forall j i, (j < N)%nat -> (i < n)%nat ->
     apply_block n N p _G G (p j) i = dot N (_G j) (fun k => G (p k) i)) /\
  (forall r i, (forall j, (j < N)%nat -> p j <> r) \/ (n <= i)%nat ->
     apply_block n N p _G G r i = G r i).
Proof.
  intros Hinj. unfold apply_block.
  apply (for_up_inv0 (fun c (M : mat) =>
    (forall j i, (j < N)%nat -> (i < c)%nat ->
       M (p j) i = dot N (_G j) (fun k => G (p k) i)) /\
    (forall r i, (forall j, (j < N)%nat -> p j <> r) \/ (c <= i)%nat ->
       M r i = G r i))).
  - split; [intros; lia|reflexivity].
  - intros c M Hc [H1 H2].
    set (Cp := for_up 0 N (fun j Cp => upd Cp j (M (p j) c)) (fun _ => 0)).
    assert (HCp : forall k, (k < N)%nat -> Cp k = G (p k) c).
    { assert (Hcp : forall k, (k < N)%nat -> Cp k = M (p k) c).
      { unfold Cp.
        apply (for_up_inv0 (fun m (a : vec) =>
          forall k, (k < m)%nat -> a k = M (p k) c)).
        - intros; lia.
        - intros m a Hm Ha k Hk. destruct (Nat.eq_dec k m) as [->|Hne].
          + apply upd_same.
          + rewrite upd_other by assumption. apply Ha. lia. }
      intros k Hk. rewrite Hcp by assumption. apply H2. lia. }
    assert (Hcol :
      (forall j, (j < N)%nat ->
         for_up 0 N (fun j G0 => upd2 G0 (p j) c (dot_from 0 N (_G j) Cp)) M (p j) c
         = dot N (_G j) Cp) /\
      (forall r i, (forall j, (j < N)%nat -> p j <> r) \/ i <> c ->
         for_up 0 N (fun j G0 => upd2 G0 (p j) c (dot_from 0 N (_G j) Cp)) M r i
         = M r i)).
    { apply (for_up_inv0 (fun m (M' : mat) =>
        (forall j, (j < m)%nat -> M' (p j) c = dot N (_G j) Cp) /\
        (forall r i, (forall j, (j < m)%nat -> p j <> r) \/ i <> c ->
           M' r i = M r i))).
      - split; [intros; lia|reflexivity].
      - intros m M' Hm [R1 R2]. split.
        + intros j Hj. destruct (Nat.eq_dec j m) as [->|Hne].
          * apply upd2_same.
          * rewrite upd2_other.
            -- apply R1. lia.
            -- left. destruct (Nat.lt_ge_cases j m);
                 [apply Hinj; lia|apply not_eq_sym, Hinj; lia].
        + intros r i Hri. rewrite upd2_other.
          * apply R2. destruct Hri as [Hr|Hi]; [left|now right].
            intros j Hj. apply Hr. lia.
          * destruct Hri as [Hr|Hi]; [left|now right].
            apply not_eq_sym, Hr. lia. }
    destruct Hcol as [R1 R2]. split.
    + intros j i Hj Hi. destruct (Nat.eq_dec i c) as [->|Hne].
      * rewrite R1 by assumption. apply dot_ext; [reflexivity|assumption].
      * rewrite R2 by (right; assumption). apply H1; lia.
    + intros r i Hri. destruct Hri as [Hr|Hi].
      * rewrite R2 by (left; assumption). apply H2. now left.
      * rewrite R2 by (right; lia). apply H2. right. lia.
Qed.

(** ** [GL_W_to_GLZ]: the combination of [W] and the lines orthogonal to it *)

Lemma row_sub_upto_spec B Y r j k :
  row_sub_upto B Y r j k = if (k <=? j)%nat then B k - r * Y k else B k.
Proof.
  unfold row_sub_upto.
  assert (H : forall m, for_up 0 m (fun n B0 => upd B0 n (B0 n - r * Y n)) B k
                        = if (k <? m)%nat then B k - r * Y k else B k).
  { intros m. apply (for_up_inv0 (fun m (B' : vec) =>
      forall k, B' k = if (k <? m)%nat then B k - r * Y k else B k)).
    - intros k'. reflexivity.
    - intros i B' Hi HB k'. destruct (Nat.eq_dec k' i) as [->|Hne].
      + rewrite upd_same, HB.
        destruct (Nat.ltb_spec i i); [lia|].
        destruct (Nat.ltb_spec i (Datatypes.S i)); [reflexivity|lia].
      + rewrite upd_other by assumption. rewrite HB.
        destruct (Nat.ltb_spec k' i), (Nat.ltb_spec k' (Datatypes.S i));
          try reflexivity; lia. }
  rewrite H. destruct (Nat.ltb_spec k (Datatypes.S j)), (Nat.leb_spec k j);
    try reflexivity; lia.
Qed.

(** What is kept of the lines built so far, before the round [i]: the line
    0 combines [W 0 .. W (i-1)] into [G], the lines [1 .. i-1] are
    orthogonal to [W], each with a non-zero last entry [GLZ j j] and zeros
    after it. *)
Definition GLZ_inv (W : vec) (d i : nat) (G : Z) (GLZ : nat -> vec) : Prop :=
  G <> 0 /\ dot i (GLZ 0%nat) W = G /\
  (forall k, (k < i)%nat -> (G | W k)) /\
  (forall j, (1 <= j < i)%nat ->
     dot (j + 1) (GLZ j) W = 0 /\ GLZ j j <> 0) /\
  (forall j k, (1 <= j < d)%nat -> (j < k < d)%nat -> GLZ j k = 0).

Lemma GLZ_improve_inv (W : vec) (d i : nat) (GLZ : nat -> vec) (B E B' E' : vec) :
  (i < d)%nat ->
  (forall j, (1 <= j < i)%nat -> dot (j + 1) (GLZ j) W = 0) ->
  (forall j k, (1 <= j < d)%nat -> (j < k < d)%nat -> GLZ j k = 0) ->
  for_down (i - 1) (GLZ_improve GLZ) (B, E) = (B', E') ->
  dot (i + 1) B' W = dot (i + 1) B W /\
  dot (i + 1) E' W = dot (i + 1) E W /\
  (forall k, (i <= k)%nat -> B' k = B k /\ E' k = E k).
Proof.
  intros Hi Horth Hsup Hres.
  pose (P := fun (j : nat) (st : vec * vec) =>
    (j <= i - 1)%nat ->
    dot (i + 1) (fst st) W = dot (i + 1) B W /\
    dot (i + 1) (snd st) W = dot (i + 1) E W /\
    (forall k, (i <= k)%nat -> fst st k = B k /\ snd st k = E k)).
  assert (H : P 0%nat (for_down (i - 1) (GLZ_improve GLZ) (B, E))).
  { apply (for_down_inv P); unfold P; clear P.
    - intros _. simpl. auto.
    - intros j [B0 E0] Hj IH _. specialize (IH ltac:(lia)). simpl in IH.
      destruct IH as (I1 & I2 & I3). unfold GLZ_improve. simpl.
      assert (Hsub : forall (A : vec) r,
        dot (i + 1) (row_sub_upto A (GLZ j) r j) W = dot (i + 1) A W).
      { intros A r.
        rewrite (dot_ext (i + 1) _ (fun k => 1 * A k + (- r) * GLZ j k) W W).
        - rewrite dot_lin.
          rewrite (dot_trunc (j + 1) (i + 1) (GLZ j)) by
            (try lia; intros; apply Hsup; lia).
          rewrite Horth by lia. lia.
        - intros k Hk. rewrite row_sub_upto_spec.
          destruct (Nat.leb_spec k j); [lia|].
          rewrite (Hsup j k) by lia. lia.
        - reflexivity. }
      rewrite !Hsub. split; [assumption|]. split; [assumption|].
      intros k Hk. rewrite !row_sub_upto_spec.
      destruct (Nat.leb_spec k j); [lia|]. now apply I3. }
  unfold P in H; clear P. rewrite Hres in H. apply H. lia.
Qed.

Lemma fill_prefix_spec {A : Type} (f : nat -> A -> A) (m : nat) (a : nat -> A) k :
  for_up 0 m (fun j r => upd r j (f j (r j))) a k
  = if (k <? m)%nat then f k (a k) else a k.
Proof.
  revert k. apply (for_up_inv0 (fun m (r : nat -> A) =>
    forall k, r k = if (k <? m)%nat then f k (a k) else a k)).
  - intros k. reflexivity.
  - intros i r Hi Hr k. destruct (Nat.eq_dec k i) as [->|Hne].
    + rewrite upd_same, Hr.
      destruct (Nat.ltb_spec i i); [lia|].
      destruct (Nat.ltb_spec i (Datatypes.S i)); [reflexivity|lia].
    + rewrite upd_other by assumption. rewrite Hr.
      destruct (Nat.ltb_spec k i), (Nat.ltb_spec k (Datatypes.S i));
        try reflexivity; lia.
Qed.

Lemma GLZ_round_inv (W : vec) (d i : nat) (G : Z) (GLZ : nat -> vec) :
  (2 <= i < d)%nat -> W i <> 0 ->
  GLZ_inv W d i G GLZ ->
  GLZ_inv W d (Datatypes.S i) (fst (GLZ_round W i (G, GLZ)))
                              (snd (GLZ_round W i (G, GLZ))).
Proof.
  intros Hi HWi (HG & HE & Hdiv & Hrows & Hsup).
  unfold GLZ_round.
  pose proof (GL_Egcd_spec G (W i) HWi) as Hegcd.
  destruct (GL_Egcd G (W i)) as [[g a] b].
  destruct Hegcd as (Hg & Hbez & DG & DW).
  cbv beta iota zeta.
  set (E := GLZ 0%nat) in *.
  set (B1 := for_up 0 i (fun j B => upd B j (- E j * Z.quot (W i) g))
                    (upd (GLZ i) i (Z.quot G g))).
  set (E2 := upd (for_up 0 i (fun j E0 => upd E0 j (E0 j * a)) E) i b).
  assert (HB1 : forall k, B1 k = if (k <? i)%nat then - E k * Z.quot (W i) g
                                 else upd (GLZ i) i (Z.quot G g) k).
  { intros k. unfold B1.
    apply (fill_prefix_spec (fun j _ => - E j * Z.quot (W i) g)). }
  assert (HE2 : forall k, E2 k = if (k <? i)%nat then E k * a
                                 else if Nat.eqb k i then b else E k).
  { intros k. unfold E2, upd at 1.
    destruct (Nat.eqb_spec k i) as [->|Hne].
    - destruct (Nat.ltb_spec i i); [lia|reflexivity].
    - rewrite (fill_prefix_spec (fun j e => e * a)). reflexivity. }
  assert (HdB : dot (i + 1) B1 W = 0).
  { rewrite Nat.add_1_r, dot_S.
    rewrite (dot_ext i B1 (fun k => (- Z.quot (W i) g) * E k + 0 * 0) W W).
    - rewrite dot_lin, HE, HB1.
      destruct (Nat.ltb_spec i i); [lia|]. rewrite upd_same.
      pose proof (quot_exact_l G g Hg DG). pose proof (quot_exact_l (W i) g Hg DW).
      nia.
    - intros k Hk. rewrite HB1. destruct (Nat.ltb_spec k i); [lia|lia].
    - reflexivity. }
  assert (HdE : dot (i + 1) E2 W = g).
  { rewrite Nat.add_1_r, dot_S.
    rewrite (dot_ext i E2 (fun k => a * E k + 0 * 0) W W).
    - rewrite dot_lin, HE, HE2.
      destruct (Nat.ltb_spec i i); [lia|]. rewrite Nat.eqb_refl. lia.
    - intros k Hk. rewrite HE2. destruct (Nat.ltb_spec k i); [lia|lia].
    - reflexivity. }
  assert (Horth : forall j, (1 <= j < i)%nat -> dot (j + 1) (GLZ j) W = 0)
    by (intros j Hj; apply Hrows; lia).
  destruct (for_down (i - 1) (GLZ_improve GLZ) (B1, E2)) as [B' E'] eqn:Ef.
  destruct (GLZ_improve_inv W d i GLZ B1 E2 B' E' ltac:(lia) Horth Hsup Ef)
    as (I1 & I2 & I3).
  simpl. split; [assumption|]. split; [|split; [|split]].
  - rewrite upd_same. rewrite <- Nat.add_1_r, I2. exact HdE.
  - intros k Hk. destruct (Nat.eq_dec k i) as [->|Hne]; [assumption|].
    eapply Z.divide_trans; [exact DG|]. apply Hdiv. lia.
  - intros j Hj. rewrite upd_other by lia.
    destruct (Nat.eq_dec j i) as [->|Hne].
    + rewrite upd_same. split; [rewrite I1; exact HdB|].
      destruct (I3 i ltac:(lia)) as [-> _]. rewrite HB1.
      destruct (Nat.ltb_spec i i); [lia|]. rewrite upd_same.
      intros Hq. pose proof (quot_exact_l G g Hg DG) as Hx.
      rewrite Hq in Hx. lia.
    + rewrite upd_other by assumption. apply Hrows. lia.
  - intros j k Hj Hk. rewrite upd_other by lia.
    destruct (Nat.eq_dec j i) as [->|Hne].
    + rewrite upd_same. destruct (I3 k ltac:(lia)) as [-> _]. rewrite HB1.
      destruct (Nat.ltb_spec k i); [lia|]. rewrite upd_other by lia.
      apply Hsup; lia.
    + rewrite upd_other by assumption. apply Hsup; lia.
Qed.

Lemma GLZ_zeroed (d : nat) (GLZ : nat -> vec) :
  (forall j k, (1 <= j < d)%nat -> (k < d)%nat -> GLZ_clear d GLZ j k = 0) /\
  GLZ_clear d GLZ 0%nat = GLZ 0%nat.
Proof.
  unfold GLZ_clear.
  pose (P := fun (i : nat) (M : nat -> vec) =>
    (forall j k, (1 <= j < i)%nat -> (k < d)%nat -> M j k = 0) /\
    (forall j, (j < 1 \/ i <= j)%nat -> M j = GLZ j)).
  assert (H : P (1 + (d - 1))%nat
                (for_up 1 (d - 1) (fun i GLZ =>
                   upd GLZ i (for_up 0 d (fun j r => upd r j 0) (GLZ i))) GLZ)).
  { apply (for_up_inv P); unfold P; clear P.
    - split; [intros; lia|reflexivity].
    - intros i M Hi [H1 H2]. split.
      + intros j k Hj Hk. destruct (Nat.eq_dec j i) as [->|Hne].
        * rewrite upd_same.
          rewrite (fill_prefix_spec (fun _ _ => 0)).
          destruct (Nat.ltb_spec k d); [reflexivity|lia].
        * rewrite upd_other by assumption. apply H1; lia.
      + intros j Hj. rewrite upd_other by lia. apply H2. lia. }
  unfold P in H; clear P. destruct H as [H1 H2]. split.
  - intros j k Hj Hk. apply H1; lia.
  - apply H2. lia.
Qed.

(** [GL_W_to_GLZ W d], for [d >= 2] and a vector [W] without a 0: the value
    [G] is not 0 and divides every [W k]; the line 0 of [GLZ] combines [W]
    into [G] and the other lines are orthogonal to [W]. *)
Lemma GLZ_first_inv (W : vec) (d : nat) (GLZ0 : nat -> vec) :
  (2 <= d)%nat -> (forall k, (k < d)%nat -> W k <> 0) ->
  GLZ_inv W d 2 (fst (GLZ_first W d GLZ0)) (snd (GLZ_first W d GLZ0)).
Proof.
  intros Hd HW. unfold GLZ_first.
  destruct (GLZ_zeroed d GLZ0) as [Z1 Z2].
  set (Z0 := GLZ_clear d GLZ0) in *. cbv zeta.
  pose proof (GL_Egcd_spec (W 0%nat) (W 1%nat) (HW 1%nat ltac:(lia))) as Hegcd.
  destruct (GL_Egcd (W 0%nat) (W 1%nat)) as [[G e0] e1].
  destruct Hegcd as (HG & Hbez & D0 & D1).
  simpl. set (M := upd (upd Z0 0%nat _) 1%nat _).
  split; [assumption|]. split; [|split; [|split]].
  - unfold M. rewrite upd_other, upd_same by lia.
    unfold dot, dot_from. simpl. rewrite upd_other, !upd_same by lia. lia.
  - intros k Hk. destruct k as [|[|k]]; [assumption|assumption|lia].
  - intros j Hj. assert (j = 1)%nat by lia. subst j.
    unfold M. rewrite upd_same. split.
    + unfold dot, dot_from. simpl. rewrite upd_other, !upd_same by lia.
      rewrite Z.quot_opp_l by assumption.
      pose proof (quot_exact_l (W 0%nat) G HG D0).
      pose proof (quot_exact_l (W 1%nat) G HG D1). nia.
    + rewrite upd_same.
      intros Hq. pose proof (quot_exact_l (W 0%nat) G HG D0) as Hx.
      rewrite Hq in Hx. specialize (HW 0%nat ltac:(lia)). lia.
  - intros j k Hj Hk. unfold M.
    destruct (Nat.eq_dec j 1) as [->|Hne].
    + rewrite upd_same, !upd_other by lia. apply Z1; lia.
    + rewrite !upd_other by lia. apply Z1; lia.
Qed.

Lemma GL_W_to_GLZ_spec (W : vec) (d : nat) (GLZ0 : nat -> vec) :
  (2 <= d)%nat -> (forall k, (k < d)%nat -> W k <> 0) ->
  GLZ_inv W d d (fst (GL_W_to_GLZ W d GLZ0)) (snd (GL_W_to_GLZ W d GLZ0)).
Proof.
  intros Hd HW. unfold GL_W_to_GLZ.
  pose (P := fun (i : nat) (st : Z * (nat -> vec)) =>
               GLZ_inv W d i (fst st) (snd st)).
  assert (H : P (2 + (d - 2))%nat
                (for_up 2 (d - 2) (GLZ_round W) (GLZ_first W d GLZ0))).
  { apply (for_up_inv P); unfold P.
    - apply GLZ_first_inv; assumption.
    - intros i [G' M'] Hi Hinv. apply GLZ_round_inv; try lia.
      + apply HW. lia.
      + exact Hinv. }
  unfold P in H. replace (2 + (d - 2))%nat with d in H by lia. exact H.
Qed.

(** ** The product [G X] and the operations on the lines of [G] *)

(** Sums can be exchanged. *)
Lemma dot_exchange (n N : nat) (a : vec) (R : nat -> vec) (x : vec) :
  dot n (fun i => dot N a (fun k => R k i)) x
  = dot N a (fun k => dot n (R k) x).
Proof.
  induction N as [|N IH].
  - rewrite dot_0. apply dot_zero_l. intros; apply dot_0.
  - rewrite dot_S, <- IH.
    rewrite (dot_ext n _ (fun i => 1 * dot N a (fun k => R k i) + a N * R N i) x x).
    + rewrite dot_lin. lia.
    + intros k Hk. rewrite dot_S. lia.
    + reflexivity.
Qed.

Section Product.

Variables (n : nat) (X : mat).

(** The entry [(i, c)] of the product of [G] (its [n] first columns) with
    [X] (its [n] first lines). *)
Definition GX (G : mat) (i c : nat) : Z := dot n (G i) (col X c).

Lemma GX_ext G G' i i' c :
  (forall j, (j < n)%nat -> G i j = G' i' j) -> GX G i c = GX G' i' c.
Proof. intros H. unfold GX. apply dot_ext; [assumption|reflexivity]. Qed.

Lemma GX_apply_block N p (M : nat -> vec) G c :
  (forall j k, (j < k < N)%nat -> p j <> p k) ->
  (forall j, (j < N)%nat ->
     GX (apply_block n N p M G) (p j) c = dot N (M j) (fun k => GX G (p k) c)) /\
  (forall r, (forall j, (j < N)%nat -> p j <> r) ->
     GX (apply_block n N p M G) r c = GX G r c).
Proof.
  intros Hinj. destruct (apply_block_spec n N p M G Hinj) as [A1 A2]. split.
  - intros j Hj. unfold GX.
    rewrite (dot_ext n _ (fun i => dot N (M j) (fun k => G (p k) i))
                     (col X c) (col X c)).
    + apply dot_exchange.
    + intros i Hi. now apply A1.
    + reflexivity.
  - intros r Hr. apply GX_ext. intros j Hj. apply A2. now left.
Qed.

Lemma GX_swap_lines a b G c :
  GX (swap_lines n a b G) a c = GX G b c /\
  GX (swap_lines n a b G) b c = GX G a c /\
  (forall r, r <> a -> r <> b -> GX (swap_lines n a b G) r c = GX G r c).
Proof.
  destruct (swap_lines_spec n a b G) as (S1 & S2 & S3). split; [|split].
  - apply GX_ext. assumption.
  - apply GX_ext. assumption.
  - intros r Ha Hb. apply GX_ext. intros j Hj. apply S3. now left.
Qed.

Lemma GX_sub_line G G' i L q c :
  (forall j, (j < n)%nat -> G' i j = G i j - q * G L j) ->
  GX G' i c = GX G i c - q * GX G L c.
Proof.
  intros H. unfold GX.
  rewrite (dot_ext n (G' i) (fun j => 1 * G i j + (- q) * G L j)
                   (col X c) (col X c)).
  - rewrite dot_lin. lia.
  - intros j Hj. rewrite H by assumption. lia.
  - reflexivity.
Qed.

End Product.

(** ** One line of [GLZ_Make_Trian_NF] *)

(** The coefficients [_G] after [GLZ_combine]: the line 0 combines [W] into
    [g > 0], the other lines are orthogonal to [W]. *)
Lemma GLZ_combine_spec (W : vec) (N : nat) (NG : nat -> vec) :
  (0 < N)%nat -> (forall k, (k < N)%nat -> W k <> 0) ->
  let '(g, M) := GLZ_combine W N NG in
  0 < g /\ dot N (M 0%nat) W = g /\
  (forall j, (1 <= j < N)%nat -> dot N (M j) W = 0).
Proof.
  intros HN HW. unfold GLZ_combine.
  assert (H1 : let '(g, M) := if Nat.eqb N 1 then (W 0%nat, upd2 NG 0 0 1)
                              else GL_W_to_GLZ W N NG in
               g <> 0 /\ dot N (M 0%nat) W = g /\
               (forall j, (1 <= j < N)%nat -> dot N (M j) W = 0)).
  { destruct (Nat.eqb_spec N 1) as [->|HN1].
    - split; [apply HW; lia|]. split; [|intros; lia].
      rewrite dot_S, dot_0, upd2_same. lia.
    - pose proof (GL_W_to_GLZ_spec W N NG ltac:(lia) HW) as Hs.
      destruct (GL_W_to_GLZ W N NG) as [g M]. simpl in Hs.
      destruct Hs as (Hg & HE & _ & Hrows & Hsup).
      split; [assumption|]. split; [assumption|].
      intros j Hj. rewrite (dot_trunc (j + 1) N) by
        (try lia; intros; apply Hsup; lia).
      apply Hrows. lia. }
  destruct (if Nat.eqb N 1 then _ else _) as [g M].
  destruct H1 as (Hg & HE & Hrows).
  destruct (Z.ltb_spec g 0) as [Hneg|Hpos].
  - split; [lia|]. split.
    + rewrite upd_same.
      rewrite (dot_ext N _ (fun k => (-1) * M 0%nat k + 0 * 0) W W).
      * rewrite dot_lin, HE. lia.
      * intros k Hk. rewrite (fill_prefix_spec (fun _ x => x * -1)).
        destruct (Nat.ltb_spec k N); lia.
      * reflexivity.
    + intros j Hj. rewrite upd_other by lia. now apply Hrows.
  - split; [lia|]. split; assumption.
Qed.

Lemma NF_set_pivot_spec n L C g NF :
  (L < n)%nat ->
  NF_set_pivot n L C g NF L C = g /\
  (forall i, (L < i < n)%nat -> NF_set_pivot n L C g NF i C = 0) /\
  (forall i c, (i < L \/ n <= i)%nat \/ c <> C ->
     NF_set_pivot n L C g NF i c = NF i c).
Proof.
  intros HL. unfold NF_set_pivot.
  pose (P := fun (k : nat) (M : mat) =>
    M L C = g /\ (forall i, (L < i < k)%nat -> M i C = 0) /\
    (forall i c, (i < L \/ k <= i)%nat \/ c <> C -> M i c = NF i c)).
  assert (H : P (L + 1 + (n - (L + 1)))%nat
                (for_up (L + 1) (n - (L + 1)) (fun i NF0 => upd2 NF0 i C 0)
                        (upd2 NF L C g))).
  { apply (for_up_inv P); unfold P; clear P.
    - split; [apply upd2_same|]. split; [intros; lia|].
      intros i c Hic. apply upd2_other. lia.
    - intros k M Hk (H1 & H2 & H3). split; [|split].
      + rewrite upd2_other by lia. assumption.
      + intros i Hi. destruct (Nat.eq_dec i k) as [->|Hne].
        * apply upd2_same.
        * rewrite upd2_other by lia. apply H2. lia.
      + intros i c Hic. rewrite upd2_other by lia. apply H3. lia. }
  unfold P in H; clear P.
  replace (L + 1 + (n - (L + 1)))%nat with n in H by lia. exact H.
Qed.

Lemma in_range_dec (N : nat) (p : nat -> nat) (r : nat) :
  (exists j, (j < N)%nat /\ p j = r) \/ (forall j, (j < N)%nat -> p j <> r).
Proof.
  induction N as [|N [(j & Hj & E)|IH]].
  - right. intros; lia.
  - left. exists j. split; [lia|assumption].
  - destruct (Nat.eq_dec (p N) r) as [E|E].
    + left. exists N. split; [lia|assumption].
    + right. intros j Hj. destruct (Nat.eq_dec j N) as [->|]; [assumption|].
      apply IH. lia.
Qed.

(** The pivots of the lines [0 .. L-1], in the columns [piv 0 < piv 1 < ...]
    before the column [C]: a pivot is positive, its line is 0 before it, its
    column is 0 below it and reduced modulo the pivot above it. *)
Definition echelon_upto (n L C : nat) (NF : mat) (piv : nat -> nat) : Prop :=
  (forall k, (k < L)%nat -> (piv k < C)%nat) /\
  (forall j k, (j < k < L)%nat -> (piv j < piv k)%nat) /\
  (forall k, (k < L)%nat ->
     0 < NF k (piv k) /\
     (forall c, (c < piv k)%nat -> NF k c = 0) /\
     (forall i, (k < i < n)%nat -> NF i (piv k) = 0) /\
     (forall i, (i < k)%nat -> 0 <= NF i (piv k) < NF k (piv k))).

Section Line.

Variables (n nv : nat) (X : mat).

(** The invariant of [for (L = 0; L < n; L++)], before the line [L]. *)
Definition line_inv (L : nat) (st : GLZ_state) (piv : nat -> nat) : Prop :=
  (L <= n)%nat /\ (gl_C st <= nv)%nat /\
  (forall i c, (i < n)%nat -> (c < gl_C st)%nat ->
     gl_NF st i c = GX n X (gl_G st) i c) /\
  (forall i c, (gl_C st <= c)%nat -> gl_NF st i c = 0) /\
  (forall i c, (L <= i < n)%nat -> (c < gl_C st)%nat -> gl_NF st i c = 0) /\
  echelon_upto n L (gl_C st) (gl_NF st) piv.

Lemma GLZ_line_inv L st st' piv :
  (L < n)%nat -> line_inv L st piv ->
  GLZ_line n nv X L st = Returned st' ->
  (gl_C st <= gl_C st' - 1 < nv)%nat /\
  line_inv (Datatypes.S L) st' (upd piv L (gl_C st' - 1)%nat).
Proof.
  intros HL (I0 & I1 & I2 & I3 & I5 & (E1 & E2 & E3)) H.
  unfold GLZ_line in H.
  destruct (find_col (nv - gl_C st) n L X (gl_G st) (gl_C st) (gl_NF st)
                     (gl_W st) (fun _ => 0%nat))
    as [[[[[C' NF1] N] W1] p]|] eqn:Ef; [|discriminate].
  apply find_col_spec in Ef as (F1 & F2 & (S1 & S2 & S3) & F4 & F5 & F6).
  set (G := gl_G st) in *. set (NF := gl_NF st) in *. set (C := gl_C st) in *.
  assert (HW : forall k, (k < N)%nat -> W1 k <> 0) by (intros k Hk; apply S1, Hk).
  pose proof (GLZ_combine_spec W1 N (gl_NG st) F2 HW) as Hcomb.
  revert Hcomb H. destruct (GLZ_combine W1 N (gl_NG st)) as [g M].
  intros (Hg & HM0 & HMj) H.
  destruct (NF_set_pivot_spec n L C' g NF1 HL) as (P1 & P2 & P3).
  set (NF3 := NF_set_pivot n L C' g NF1) in *.
  set (G1 := apply_block n N p M G) in *.
  set (G2 := if Nat.eqb L (p 0%nat) then G1 else swap_lines n L (p 0%nat) G1) in *.
  assert (Hpiv : 0 < NF3 L C') by (rewrite P1; assumption).
  pose proof (reduce_above_spec n L C' NF3 G2 Hpiv) as Hred.
  match type of H with context [reduce_above ?a ?b ?c ?d] =>
    destruct (reduce_above a b c d) as [NF4 G3] eqn:Ered end.
  destruct Hred as (R1 & R2 & R3 & R4).
  injection H as H. subst st'. unfold line_inv. simpl. rewrite Nat.sub_0_r.
  (* the columns up to [C'] of [NF1] are those of [G X] *)
  assert (K0 : forall i c, (i < n)%nat -> (c <= C')%nat -> NF1 i c = GX n X G i c).
  { intros i c Hi Hc. destruct (Nat.lt_ge_cases c C) as [Hlt|Hge].
    - rewrite F5 by lia. apply I2; assumption.
    - rewrite F4 by lia. rewrite I3 by lia. unfold GX. lia. }
  assert (K1 : forall i c, (L <= i < n)%nat -> (c < C')%nat -> NF1 i c = 0).
  { intros i c Hi Hc. destruct (Nat.lt_ge_cases c C) as [Hlt|Hge].
    - rewrite F5 by lia. apply I5; assumption.
    - apply F6; lia. }
  assert (Hinj : forall j k, (j < k < N)%nat -> p j <> p k).
  { intros j k Hjk. specialize (S2 j k Hjk). lia. }
  assert (Hout : forall r, (r < n)%nat -> (forall j, (j < N)%nat -> p j <> r) ->
                 (L <= r)%nat -> NF1 r C' = 0).
  { intros r Hr Hnot HLr. destruct (Z.eq_dec (NF1 r C') 0) as [|Hnz]; [assumption|].
    destruct (S3 r ltac:(lia) Hnz) as (j & Hj & Hpj). now apply Hnot in Hpj. }
  (* the product after [apply_block] *)
  assert (K2a : forall j c, (j < N)%nat -> (c < C')%nat -> GX n X G1 (p j) c = 0).
  { intros j c Hj Hc. unfold G1.
    rewrite (proj1 (GX_apply_block n X N p M G c Hinj)) by assumption.
    apply dot_zero_r. intros k Hk.
    rewrite <- K0 by (try apply S1; try lia; assumption).
    apply K1; [apply S1; assumption|assumption]. }
  assert (K2b : forall j, (j < N)%nat -> GX n X G1 (p j) C' = dot N (M j) W1).
  { intros j Hj. unfold G1.
    rewrite (proj1 (GX_apply_block n X N p M G C' Hinj)) by assumption.
    apply dot_ext; [reflexivity|]. intros k Hk.
    rewrite <- K0 by (try apply S1; try lia; assumption).
    symmetry. apply S1. assumption. }
  assert (K2c : forall r c, (forall j, (j < N)%nat -> p j <> r) ->
                GX n X G1 r c = GX n X G r c).
  { intros r c Hr. unfold G1.
    apply (proj2 (GX_apply_block n X N p M G c Hinj)). assumption. }
  assert (G1ok : forall r c, (r < n)%nat -> (c <= C')%nat ->
    GX n X G1 r c =
      if Nat.eqb c C' then
        (if Nat.eqb r (p 0%nat) then g
         else if (r <? L)%nat then NF1 r C' else 0)
      else NF1 r c).
  { intros r c Hr Hc. destruct (Nat.eqb_spec c C') as [->|Hne].
    - destruct (in_range_dec N p r) as [(j & Hj & <-)|Hnot].
      + rewrite K2b by assumption.
        destruct (Nat.eqb_spec (p j) (p 0%nat)) as [E|E].
        * assert (j = 0)%nat.
          { destruct (Nat.eq_dec j 0) as [|Hj0]; [assumption|].
            exfalso. apply (Hinj 0%nat j); [lia|auto]. }
          subst j. assumption.
        * destruct (Nat.ltb_spec (p j) L) as [Hlt|_].
          -- destruct (S1 j Hj) as [? _]. lia.
          -- apply HMj. destruct (Nat.eq_dec j 0) as [->|]; [now contradiction E|lia].
      + rewrite K2c by assumption. rewrite <- K0 by lia.
        destruct (Nat.eqb_spec r (p 0%nat)) as [E|E].
        * exfalso. apply (Hnot 0%nat); [lia|auto].
        * destruct (Nat.ltb_spec r L) as [Hlt|Hge]; [reflexivity|].
          apply Hout; assumption.
    - destruct (in_range_dec N p r) as [(j & Hj & <-)|Hnot].
      + rewrite K2a by (try assumption; lia). symmetry.
        apply K1; [apply S1; assumption|lia].
      + rewrite K2c by assumption. symmetry. apply K0; lia. }
  assert (Hp0 : (L <= p 0%nat < n)%nat) by (apply S1; lia).
  (* the product after the exchange of the lines [L] and [p 0] *)
  assert (G2ok : forall r c, (r < n)%nat -> (c <= C')%nat ->
                 GX n X G2 r c = NF3 r c).
  { intros r c Hr Hc. unfold G2.
    destruct (Nat.eqb_spec L (p 0%nat)) as [E|E].
    - rewrite G1ok by assumption.
      destruct (Nat.eqb_spec c C') as [->|Hne].
      + destruct (Nat.eqb_spec r (p 0%nat)) as [Er|Er].
        * subst r. rewrite <- E. now rewrite P1.
        * destruct (Nat.ltb_spec r L) as [Hlt|Hge].
          -- symmetry. apply P3. lia.
          -- symmetry. apply P2. lia.
      + symmetry. apply P3. now right.
    - destruct (GX_swap_lines n X L (p 0%nat) G1 c) as (W1' & W2' & W3').
      destruct (Nat.eq_dec r L) as [->|HrL];
        [|destruct (Nat.eq_dec r (p 0%nat)) as [->|Hrp]].
      + rewrite W1', G1ok by lia. rewrite Nat.eqb_refl.
        destruct (Nat.eqb_spec c C') as [->|Hne].
        * now rewrite P1.
        * rewrite P3 by (now right). rewrite !K1 by lia. reflexivity.
      + rewrite W2', G1ok by lia.
        destruct (Nat.eqb_spec c C') as [->|Hne].
        * destruct (Nat.eqb_spec L (p 0%nat)); [contradiction|].
          destruct (Nat.ltb_spec L L); [lia|]. symmetry. apply P2. lia.
        * rewrite P3 by (now right). rewrite !K1 by lia. reflexivity.
      + rewrite W3', G1ok by assumption.
        destruct (Nat.eqb_spec c C') as [->|Hne].
        * destruct (Nat.eqb_spec r (p 0%nat)); [contradiction|].
          destruct (Nat.ltb_spec r L) as [Hlt|Hge].
          -- symmetry. apply P3. lia.
          -- symmetry. apply P2. lia.
        * symmetry. apply P3. now right. }
  (* the product after the reduction of the lines above [L] *)
  assert (G3ok : forall r c, (r < n)%nat -> (c <= C')%nat ->
                 NF4 r c = GX n X G3 r c).
  { intros r c Hr Hc. destruct (Nat.lt_ge_cases r L) as [Hlt|Hge].
    - rewrite (GX_sub_line n X G2 G3 r L (NF3 r C' / NF3 L C') c)
        by (intros j Hj; apply R3; assumption).
      rewrite !G2ok by lia.
      destruct (Nat.eq_dec c C') as [->|Hne].
      + rewrite R1 by assumption. rewrite Z.mod_eq by lia. lia.
      + rewrite R2 by (now right).
        assert (NF3 L c = 0).
        { rewrite P3 by (now right). apply K1; lia. }
        lia.
    - rewrite R2 by (now left). rewrite <- G2ok by assumption.
      apply GX_ext. intros j Hj. symmetry. apply R4. now left. }
  assert (Hold : forall i c, (c < C')%nat -> NF4 i c = NF1 i c).
  { intros i c Hc. rewrite R2 by (right; lia). apply P3. right. lia. }
  split; [lia|].
  split; [lia|]. split; [lia|]. split; [|split; [|split]].
  - intros i c Hi Hc. apply G3ok; [assumption|lia].
  - intros i c Hc. rewrite R2 by (right; lia). rewrite P3 by (right; lia).
    rewrite F5 by lia. apply I3. lia.
  - intros i c Hi Hc. rewrite R2 by (left; lia).
    destruct (Nat.eq_dec c C') as [->|Hne].
    + apply P2. lia.
    + rewrite P3 by (now right). apply K1; lia.
  - split; [|split].
    + intros k Hk. destruct (Nat.eq_dec k L) as [->|Hne].
      * rewrite upd_same. lia.
      * rewrite upd_other by assumption. specialize (E1 k ltac:(lia)). lia.
    + intros j k Hjk. destruct (Nat.eq_dec k L) as [->|Hne].
      * rewrite upd_same, upd_other by lia. specialize (E1 j ltac:(lia)). lia.
      * rewrite !upd_other by lia. apply E2. lia.
    + intros k Hk. destruct (Nat.eq_dec k L) as [->|Hne].
      * rewrite upd_same. split; [|split; [|split]].
        -- rewrite R2 by (now left). assumption.
        -- intros c Hc. rewrite Hold by assumption. apply K1; lia.
        -- intros i Hi. rewrite R2 by (left; lia). apply P2. lia.
        -- intros i Hi. rewrite R1 by assumption.
           rewrite (R2 L C') by (now left).
           apply Z.mod_pos_bound. assumption.
      * rewrite upd_other by assumption.
        assert (HkL : (k < L)%nat) by lia.
        destruct (E3 k HkL) as (Q1 & Q2 & Q3 & Q4).
        specialize (E1 k HkL).
        assert (Hsame : forall i c, (c < C)%nat -> NF4 i c = NF i c).
        { intros i c Hc. rewrite Hold by lia. apply F5. lia. }
        split; [|split; [|split]].
        -- rewrite Hsame by assumption. assumption.
        -- intros c Hc. rewrite Hsame by lia. now apply Q2.
        -- intros i Hi. rewrite Hsame by assumption. now apply Q3.
        -- intros i Hi. rewrite !Hsame by assumption. now apply Q4.
Qed.

End Line.

(** The columns after the last pivot: [for (C++; C < nv; C++) ...]. *)
Lemma add_cols_spec n G X C cnt (NF : mat) :
  let NF' := for_up C cnt (fun c NF => NF_add_col n G X c NF) NF in
  (forall i c, (i < n)%nat -> (C <= c < C + cnt)%nat ->
     NF' i c = NF i c + dot n (G i) (col X c)) /\
  (forall i c, (n <= i)%nat \/ (c < C \/ C + cnt <= c)%nat -> NF' i c = NF i c).
Proof.
  cbv zeta.
  apply (for_up_inv (fun k (NF' : mat) =>
    (forall i c, (i < n)%nat -> (C <= c < k)%nat ->
       NF' i c = NF i c + dot n (G i) (col X c)) /\
    (forall i c, (n <= i)%nat \/ (c < C \/ k <= c)%nat -> NF' i c = NF i c))).
  - split; [intros; lia|reflexivity].
  - intros k NF' Hk [H1 H2].
    destruct (NF_add_col_spec n G X k NF') as [A1 A2].
    split.
    + intros i c Hi Hc. destruct (Nat.eq_dec c k) as [->|Hne].
      * rewrite A1 by assumption. rewrite H2 by lia. reflexivity.
      * rewrite A2 by (now right). apply H1; lia.
    + intros i c Hc. rewrite A2 by lia. apply H2. lia.
Qed.

Lemma GLZ_reduce_from_spec W0 NG0 X n nv NF G :
  GLZ_reduce_from W0 NG0 X n nv = Returned (NF, G) ->
  (forall i c, (i < n)%nat -> (c < nv)%nat -> NF i c = GX n X G i c) /\
  exists piv, echelon_upto n n nv NF piv.
Proof.
  unfold GLZ_reduce_from.
  destruct (fill_spec n n (fun i j => if Nat.eqb i j then 1 else 0)
              (fun _ _ => 0)) as [_ _].
  destruct (fill_spec n nv (fun _ _ => 0) (fun _ _ => 0)) as [Z1 Z2].
  cbv zeta in Z1, Z2.
  set (G0 := for_up 0 n _ _). set (NF0 := for_up 0 n _ _) in *.
  pose proof (for_upR_inv (fun L st => exists piv, line_inv n nv X L st piv)
                (GLZ_line n nv X) n 0 (GLZ_State 0 G0 NF0 W0 NG0)) as Hloop.
  destruct (for_upR 0 n (GLZ_line n nv X) (GLZ_State 0 G0 NF0 W0 NG0))
    as [st| |]; [|discriminate|discriminate].
  simpl. intros H. injection H as <- <-.
  destruct Hloop as (piv & I0 & I1 & I2 & I3 & I5 & (E1 & E2 & E3)).
  { exists (fun _ => 0%nat). unfold line_inv, echelon_upto. simpl.
    split; [lia|]. split; [lia|]. split; [intros; lia|].
    split; [|split; [intros; lia|]].
    - intros i c _.
      destruct (Nat.lt_ge_cases i n) as [Hi|Hi];
        [destruct (Nat.lt_ge_cases c nv) as [Hc|Hc]|].
      + apply Z1; assumption.
      + rewrite Z2 by lia. reflexivity.
      + rewrite Z2 by lia. reflexivity.
    - split; [intros; lia|]. split; intros; lia. }
  { intros L st0 HL0 [piv Hinv].
    destruct (GLZ_line n nv X L st0) as [st1| |] eqn:El; [|exact I|exact I].
    destruct (GLZ_line_inv n nv X L st0 st1 piv ltac:(lia) Hinv El) as [_ Hnext].
    eexists. exact Hnext. }
  simpl in *.
  destruct (add_cols_spec n (gl_G st) X (gl_C st) (nv - gl_C st) (gl_NF st))
    as [A1 A2].
  cbv zeta in A1, A2.
  set (NFf := for_up (gl_C st) (nv - gl_C st) _ (gl_NF st)) in *.
  assert (Hsame : forall i c, (c < gl_C st)%nat -> NFf i c = gl_NF st i c).
  { intros i c Hc. apply A2. lia. }
  split.
  - intros i c Hi Hc. destruct (Nat.lt_ge_cases c (gl_C st)) as [Hlt|Hge].
    + rewrite Hsame by assumption. apply I2; assumption.
    + rewrite A1 by lia. rewrite I3 by assumption. unfold GX. lia.
  - exists piv. split; [|split].
    + intros k Hk. specialize (E1 k Hk). lia.
    + exact E2.
    + intros k Hk. destruct (E3 k Hk) as (Q1 & Q2 & Q3 & Q4).
      specialize (E1 k Hk).
      split; [|split; [|split]].
      * rewrite Hsame by assumption. assumption.
      * intros c Hc. rewrite Hsame by lia. now apply Q2.
      * intros i Hi. rewrite Hsame by assumption. now apply Q3.
      * intros i Hi. rewrite !Hsame by assumption. now apply Q4.
Qed.


(** ** Operations on the lines of a square matrix *)

(** [row_ops n e A B]: the [n] x [n] matrix [B] is obtained from [A] by
    replacing two lines by two combinations of them, with the coefficients
    [a b] and [c d], or by multiplying a line by [s]; [e] is the product of
    the numbers [a * d - b * c] and [s] of the steps. *)
Inductive row_ops (n : nat) : Z -> mat -> mat -> Prop :=
| row_ops_refl (A B : mat) : mat_eq n n A B -> row_ops n 1 A B
| row_ops_pair (e : Z) (A B C : mat) (i k : nat) (a b c d : Z) :
    row_ops n e A B -> (i < n)%nat -> (k < n)%nat -> i <> k ->
    (forall j, (j < n)%nat -> C i j = a * B i j + b * B k j) ->
    (forall j, (j < n)%nat -> C k j = c * B i j + d * B k j) ->
    (forall r j, (r < n)%nat -> (j < n)%nat -> r <> i -> r <> k ->
       C r j = B r j) ->
    row_ops n (e * (a * d - b * c)) A C
| row_ops_scale (e : Z) (A B C : mat) (i : nat) (s : Z) :
    row_ops n e A B -> (i < n)%nat ->
    (forall j, (j < n)%nat -> C i j = s * B i j) ->
    (forall r j, (r < n)%nat -> (j < n)%nat -> r <> i -> C r j = B r j) ->
    row_ops n (e * s) A C.

(** The steps of the reductions have [a * d - b * c = 1] or are exchanges
    or changes of sign of lines. *)
Definition unimodular_ops (n : nat) (A B : mat) : Prop :=
  exists e, (e = 1 \/ e = -1) /\ row_ops n e A B.

Lemma row_ops_cast n e e' A B : e = e' -> row_ops n e A B -> row_ops n e' A B.
Proof. intros ->. exact (fun H => H). Qed.

Lemma row_ops_eq_r n e A B B' :
  row_ops n e A B -> mat_eq n n B B' -> row_ops n e A B'.
Proof.
  intros H Heq. destruct H as [A B H|e A B C i k a b c d H Hi Hk Hik Ci Ck Co
                              |e A B C i s H Hi Ci Co].
  - apply row_ops_refl. eapply mat_eq_trans; eassumption.
  - apply (row_ops_pair n e A B B' i k a b c d); try assumption.
    + intros j Hj. rewrite <- Heq by assumption. now apply Ci.
    + intros j Hj. rewrite <- Heq by assumption. now apply Ck.
    + intros r j Hr Hj H1 H2. rewrite <- Heq by assumption. now apply Co.
  - apply (row_ops_scale n e A B B' i s); try assumption.
    + intros j Hj. rewrite <- Heq by assumption. now apply Ci.
    + intros r j Hr Hj H1. rewrite <- Heq by assumption. now apply Co.
Qed.

Lemma row_ops_eq_l n e A A' B :
  mat_eq n n A' A -> row_ops n e A B -> row_ops n e A' B.
Proof.
  intros Heq H. induction H as [A B H|e A B C i k a b c d H IH Hi Hk Hik Ci Ck Co
                               |e A B C i s H IH Hi Ci Co].
  - apply row_ops_refl. eapply mat_eq_trans; eassumption.
  - apply (row_ops_pair n e A' B C i k a b c d); auto.
  - apply (row_ops_scale n e A' B C i s); auto.
Qed.

Lemma row_ops_trans n e1 e2 A B C :
  row_ops n e1 A B -> row_ops n e2 B C -> row_ops n (e1 * e2) A C.
Proof.
  intros H1 H2. induction H2 as [B C H|e B C D i k a b c d H IH Hi Hk Hik Ci Ck Co
                                |e B C D i s H IH Hi Ci Co].
  - rewrite Z.mul_1_r. eapply row_ops_eq_r; eassumption.
  - apply (row_ops_cast n (e1 * e * (a * d - b * c))); [ring|].
    apply (row_ops_pair n (e1 * e) A C D i k a b c d); auto.
  - apply (row_ops_cast n (e1 * e * s)); [ring|].
    apply (row_ops_scale n (e1 * e) A C D i s); auto.
Qed.

Lemma unimodular_ops_refl n A B : mat_eq n n A B -> unimodular_ops n A B.
Proof. intros H. exists 1. split; [now left|]. now apply row_ops_refl. Qed.

Lemma unimodular_ops_trans n A B C :
  unimodular_ops n A B -> unimodular_ops n B C -> unimodular_ops n A C.
Proof.
  intros (e1 & H1 & R1) (e2 & H2 & R2). exists (e1 * e2). split; [lia|].
  eapply row_ops_trans; eassumption.
Qed.

(** Two lines replaced by combinations with [a * d - b * c = 1]. *)
Lemma unimodular_ops_pair n (A B : mat) i k a b c d :
  (i < n)%nat -> (k < n)%nat -> i <> k -> a * d - b * c = 1 ->
  (forall j, (j < n)%nat -> B i j = a * A i j + b * A k j) ->
  (forall j, (j < n)%nat -> B k j = c * A i j + d * A k j) ->
  (forall r j, (r < n)%nat -> (j < n)%nat -> r <> i -> r <> k -> B r j = A r j) ->
  unimodular_ops n A B.
Proof.
  intros Hi Hk Hik Hdet Bi Bk Bo. exists 1. split; [now left|].
  apply (row_ops_cast n (1 * (a * d - b * c))); [lia|].
  apply (row_ops_pair n 1 A A B i k a b c d); auto.
  apply row_ops_refl, mat_eq_refl.
Qed.

(** A multiple of the line [k] subtracted from the line [i]. *)
Lemma unimodular_ops_sub n (A B : mat) i k q :
  (i < n)%nat -> (k < n)%nat -> i <> k ->
  (forall j, (j < n)%nat -> B i j = A i j - q * A k j) ->
  (forall r j, (r < n)%nat -> (j < n)%nat -> r <> i -> B r j = A r j) ->
  unimodular_ops n A B.
Proof.
  intros Hi Hk Hik Bi Bo.
  apply (unimodular_ops_pair n A B i k 1 (- q) 0 1); auto; try lia.
  - intros j Hj. rewrite Bi by assumption. ring.
  - intros j Hj. rewrite Bo by auto. ring.
Qed.

(** Two lines exchanged. *)
Lemma unimodular_ops_swap n (A B : mat) i k :
  (i < n)%nat -> (k < n)%nat -> i <> k ->
  (forall j, (j < n)%nat -> B i j = A k j) ->
  (forall j, (j < n)%nat -> B k j = A i j) ->
  (forall r j, (r < n)%nat -> (j < n)%nat -> r <> i -> r <> k -> B r j = A r j) ->
  unimodular_ops n A B.
Proof.
  intros Hi Hk Hik Bi Bk Bo. exists (-1). split; [now right|].
  apply (row_ops_cast n (1 * (0 * 0 - 1 * 1))); [lia|].
  apply (row_ops_pair n 1 A A B i k 0 1 1 0); auto.
  - apply row_ops_refl, mat_eq_refl.
  - intros j Hj. rewrite Bi by assumption. ring.
  - intros j Hj. rewrite Bk by assumption. ring.
Qed.

(** The sign of a line changed. *)
Lemma unimodular_ops_neg n (A B : mat) i :
  (i < n)%nat ->
  (forall j, (j < n)%nat -> B i j = - A i j) ->
  (forall r j, (r < n)%nat -> (j < n)%nat -> r <> i -> B r j = A r j) ->
  unimodular_ops n A B.
Proof.
  intros Hi Bi Bo. exists (-1). split; [now right|].
  apply (row_ops_cast n (1 * -1)); [lia|].
  apply (row_ops_scale n 1 A A B i (-1)); auto.
  apply row_ops_refl, mat_eq_refl.
Qed.

(** Multiples of the line [L] subtracted from the lines before [m]. *)
Lemma unimodular_ops_subs n (A B : mat) L (q : nat -> Z) :
  (L < n)%nat ->
  (forall i j, (i < L)%nat -> (j < n)%nat -> B i j = A i j - q i * A L j) ->
  (forall i j, (L <= i < n)%nat -> (j < n)%nat -> B i j = A i j) ->
  unimodular_ops n A B.
Proof.
  intros HL Bi Bo.
  assert (H : forall m, (m <= L)%nat ->
            unimodular_ops n A (fun r j => if (r <? m)%nat then B r j else A r j)).
  { induction m as [|m IH]; intros Hm.
    - apply unimodular_ops_refl, mat_eq_refl.
    - eapply unimodular_ops_trans; [apply IH; lia|].
      apply (unimodular_ops_sub n _ _ m L (q m)); try lia.
      + intros j Hj. destruct (Nat.ltb_spec m (Datatypes.S m)); [|lia].
        destruct (Nat.ltb_spec m m); [lia|].
        destruct (Nat.ltb_spec L m); [lia|]. apply Bi; lia.
      + intros r j Hr Hj Hne.
        destruct (Nat.ltb_spec r (Datatypes.S m)), (Nat.ltb_spec r m);
          try reflexivity; lia. }
  destruct (H L (Nat.le_refl L)) as (e & He & Hops).
  exists e. split; [assumption|].
  eapply row_ops_eq_r; [exact Hops|].
  intros r j Hr Hj. destruct (Nat.ltb_spec r L); [reflexivity|].
  symmetry. apply Bo; lia.
Qed.

(** *** The loops on the lines of [G] and [S] *)

Lemma sub_line_spec n i L (R : Z) (G0 : mat) :
  i <> L ->
  let G' := for_up 0 n (fun j G1 => upd2 G1 i j (G1 i j - R * G1 L j)) G0 in
  (forall j, (j < n)%nat -> G' i j = G0 i j - R * G0 L j) /\
  (forall a j, a <> i \/ (n <= j)%nat -> G' a j = G0 a j).
Proof.
  intros HiL. cbv zeta.
  apply (for_up_inv0 (fun k (M : mat) =>
    (forall j, (j < k)%nat -> M i j = G0 i j - R * G0 L j) /\
    (forall a j, a <> i \/ (k <= j)%nat -> M a j = G0 a j))).
  - split; [intros; lia|reflexivity].
  - intros k M Hk [R1 R2]. split.
    + intros j Hj. destruct (Nat.eq_dec j k) as [->|Hne].
      * rewrite upd2_same, !R2 by lia. reflexivity.
      * rewrite upd2_other by lia. apply R1. lia.
    + intros a j Haj. rewrite upd2_other by lia. apply R2. lia.
Qed.

Lemma reduce_above_ops n L C (NF G : mat) :
  (L < n)%nat -> unimodular_ops n G (snd (reduce_above n L C (NF, G))).
Proof.
  intros HL. unfold reduce_above.
  apply (for_up_inv0 (fun (k : nat) (st : mat * mat) =>
           (k <= L)%nat -> unimodular_ops n G (snd st))); [| |lia].
  - intros _. apply unimodular_ops_refl, mat_eq_refl.
  - intros i [NF0 G0] Hi IH _. cbv zeta. simpl.
    eapply unimodular_ops_trans; [apply IH; lia|].
    set (R := if NF0 i C - Z.quot (NF0 i C) (NF0 L C) * NF0 L C <? 0
              then Z.quot (NF0 i C) (NF0 L C) - 1
              else Z.quot (NF0 i C) (NF0 L C)).
    destruct (sub_line_spec n i L R G0 ltac:(lia)) as [R1 R2].
    apply (unimodular_ops_sub n _ _ i L R); try lia.
    + exact R1.
    + intros r j Hr Hj Hne. apply R2. now left.
Qed.

Lemma swap_lines_ops n a b (G : mat) :
  (a < n)%nat -> (b < n)%nat -> a <> b ->
  unimodular_ops n G (swap_lines n a b G).
Proof.
  intros Ha Hb Hab. destruct (swap_lines_spec n a b G) as (S1 & S2 & S3).
  apply (unimodular_ops_swap n _ _ a b); auto.
Qed.

Lemma negate_line_spec n L (Sm : mat) :
  (forall j, (j < n)%nat -> negate_line n L Sm L j = - Sm L j) /\
  (forall a j, a <> L \/ (n <= j)%nat -> negate_line n L Sm a j = Sm a j).
Proof.
  unfold negate_line.
  apply (for_up_inv0 (fun k (M : mat) =>
    (forall j, (j < k)%nat -> M L j = - Sm L j) /\
    (forall a j, a <> L \/ (k <= j)%nat -> M a j = Sm a j))).
  - split; [intros; lia|reflexivity].
  - intros k M Hk [R1 R2]. split.
    + intros j Hj. destruct (Nat.eq_dec j k) as [->|Hne].
      * rewrite upd2_same, R2 by lia. lia.
      * rewrite upd2_other by lia. apply R1. lia.
    + intros a j Haj. rewrite upd2_other by lia. apply R2. lia.
Qed.

Lemma negate_line_ops n L (Sm : mat) :
  (L < n)%nat -> unimodular_ops n Sm (negate_line n L Sm).
Proof.
  intros HL. destruct (negate_line_spec n L Sm) as [N1 N2].
  apply (unimodular_ops_neg n _ _ L); auto.
Qed.

(** *** The lines [p[0..N-1]] combined by a matrix *)

Lemma apply_block_identity n N p (G : mat) :
  (forall j k, (j < k < N)%nat -> p j <> p k) ->
  mat_eq n n (apply_block n N p identity_mat G) G.
Proof.
  intros Hinj r c Hr Hc.
  destruct (apply_block_spec n N p identity_mat G Hinj) as [A1 A2].
  destruct (in_range_dec N p r) as [(j & Hj & <-)|Hnot].
  - rewrite A1 by assumption.
    rewrite (dot_unit_l N j); [reflexivity|assumption|].
    intros k Hk. unfold identity_mat. now rewrite Nat.eqb_sym.
  - apply A2. now left.
Qed.

Lemma apply_block_row_ops n N p (G : mat) :
  (forall j, (j < N)%nat -> (p j < n)%nat) ->
  (forall j k, (j < k < N)%nat -> p j <> p k) ->
  forall e A M, row_ops N e A M ->
  row_ops n e (apply_block n N p A G) (apply_block n N p M G).
Proof.
  intros Hp Hinj.
  assert (Hne : forall j k, (j < N)%nat -> (k < N)%nat -> j <> k -> p j <> p k).
  { intros j k Hj Hk Hjk. destruct (Nat.lt_ge_cases j k).
    - apply Hinj. lia.
    - intros E. apply (Hinj k j); [lia|auto]. }
  assert (Hrow : forall (M M' : mat) j, (j < N)%nat ->
            (forall k, (k < N)%nat -> M j k = M' j k) ->
            forall c, (c < n)%nat ->
            apply_block n N p M G (p j) c = apply_block n N p M' G (p j) c).
  { intros M M' j Hj HM c Hc.
    rewrite (proj1 (apply_block_spec n N p M G Hinj)) by assumption.
    rewrite (proj1 (apply_block_spec n N p M' G Hinj)) by assumption.
    apply dot_ext; [assumption|reflexivity]. }
  assert (Hout : forall (M M' : mat) r c,
            (forall j, (j < N)%nat -> p j <> r) ->
            apply_block n N p M G r c = apply_block n N p M' G r c).
  { intros M M' r c Hr.
    rewrite (proj2 (apply_block_spec n N p M G Hinj)) by (now left).
    rewrite (proj2 (apply_block_spec n N p M' G Hinj)) by (now left).
    reflexivity. }
  intros e A M H.
  induction H as [A B H|e A B C i k a b c d H IH Hi Hk Hik Ci Ck Co
                 |e A B C i s H IH Hi Ci Co].
  - apply row_ops_refl. intros r c Hr Hc.
    destruct (in_range_dec N p r) as [(j & Hj & <-)|Hnot].
    + apply Hrow; [assumption| |assumption]. intros k Hk. now apply H.
    + now apply Hout.
  - apply (row_ops_pair n e _ (apply_block n N p B G) _ (p i) (p k) a b c d);
      auto.
    + intros j Hj.
      rewrite !(proj1 (apply_block_spec n N p _ G Hinj)) by assumption.
      rewrite <- dot_lin. apply dot_ext; [|reflexivity].
      intros k' Hk'. now apply Ci.
    + intros j Hj.
      rewrite !(proj1 (apply_block_spec n N p _ G Hinj)) by assumption.
      rewrite <- dot_lin. apply dot_ext; [|reflexivity].
      intros k' Hk'. now apply Ck.
    + intros r j Hr Hj Hri Hrk.
      destruct (in_range_dec N p r) as [(j' & Hj' & <-)|Hnot].
      * apply Hrow; [assumption| |assumption]. intros k' Hk'.
        apply Co; try assumption; congruence.
      * now apply Hout.
  - apply (row_ops_scale n e _ (apply_block n N p B G) _ (p i) s); auto.
    + intros j Hj.
      rewrite !(proj1 (apply_block_spec n N p _ G Hinj)) by assumption.
      replace (s * dot N (B i) (fun k => G (p k) j))
        with (s * dot N (B i) (fun k => G (p k) j)
              + 0 * dot N (B i) (fun k => G (p k) j)) by ring.
      rewrite <- dot_lin. apply dot_ext; [|reflexivity].
      intros k' Hk'. rewrite Ci by assumption. ring.
    + intros r j Hr Hj Hri.
      destruct (in_range_dec N p r) as [(j' & Hj' & <-)|Hnot].
      * apply Hrow; [assumption| |assumption]. intros k' Hk'.
        apply Co; try assumption; congruence.
      * now apply Hout.
Qed.

Lemma apply_block_ops n N p (M G : mat) :
  (forall j, (j < N)%nat -> (p j < n)%nat) ->
  (forall j k, (j < k < N)%nat -> p j <> p k) ->
  unimodular_ops N identity_mat M ->
  unimodular_ops n G (apply_block n N p M G).
Proof.
  intros Hp Hinj (e & He & Hops). exists e. split; [assumption|].
  apply (row_ops_eq_l n e (apply_block n N p identity_mat G)).
  - apply mat_eq_sym, apply_block_identity. assumption.
  - apply apply_block_row_ops; assumption.
Qed.

(** *** The matrix that [GL_W_to_GLZ] builds *)

(** The first [i] lines and columns of [GLZ], completed by the identity:
    the lines that the loop has not reached yet do not count. *)
Definition virt (i : nat) (GLZ : nat -> vec) : mat :=
  fun r c => if (r <? i)%nat && (c <? i)%nat then GLZ r c else identity_mat r c.

Lemma virt_in i GLZ r c : (r < i)%nat -> (c < i)%nat -> virt i GLZ r c = GLZ r c.
Proof.
  intros Hr Hc. unfold virt.
  destruct (Nat.ltb_spec r i); [|lia]. destruct (Nat.ltb_spec c i); [|lia].
  reflexivity.
Qed.

Lemma virt_out i GLZ r c :
  (i <= r)%nat \/ (i <= c)%nat -> virt i GLZ r c = identity_mat r c.
Proof.
  intros H. unfold virt.
  destruct (Nat.ltb_spec r i); [|reflexivity].
  destruct (Nat.ltb_spec c i); [lia|reflexivity].
Qed.

Lemma identity_same i : identity_mat i i = 1.
Proof. unfold identity_mat. now rewrite Nat.eqb_refl. Qed.

Lemma identity_other i j : i <> j -> identity_mat i j = 0.
Proof. intros H. unfold identity_mat. now destruct (Nat.eqb_spec i j). Qed.

Lemma GLZ_improve_ops (d i : nat) (GLZ : nat -> vec) (B E B' E' : vec) :
  (2 <= i < d)%nat ->
  (forall j k, (1 <= j < d)%nat -> (j < k < d)%nat -> GLZ j k = 0) ->
  for_down (i - 1) (GLZ_improve GLZ) (B, E) = (B', E') ->
  unimodular_ops d (virt (i + 1) (upd (upd GLZ i B) 0%nat E))
                   (virt (i + 1) (upd (upd GLZ i B') 0%nat E')).
Proof.
  intros Hi Hsup Hloop.
  pose (P := fun (j : nat) (BE : vec * vec) =>
    unimodular_ops d (virt (i + 1) (upd (upd GLZ i B) 0%nat E))
                     (virt (i + 1) (upd (upd GLZ i (fst BE)) 0%nat (snd BE)))).
  assert (H : P 0%nat (for_down (i - 1) (GLZ_improve GLZ) (B, E))).
  { apply (for_down_inv P); unfold P; clear P.
    - apply unimodular_ops_refl, mat_eq_refl.
    - intros j [B0 E0] Hj IH. simpl in IH. unfold GLZ_improve. simpl.
      set (Y := GLZ j).
      set (rB := GL_RoundQ (B0 j) (Y j)). set (rE := GL_RoundQ (E0 j) (Y j)).
      assert (Hsub : forall (V : vec) r k, (k < d)%nat ->
                row_sub_upto V Y r j k = V k - r * Y k).
      { intros V r k Hk. rewrite row_sub_upto_spec.
        destruct (Nat.leb_spec k j) as [|Hgt]; [reflexivity|].
        unfold Y. rewrite Hsup by lia. lia. }
      eapply unimodular_ops_trans; [exact IH|].
      (* first the line [i], then the line 0 *)
      apply (unimodular_ops_trans d _
               (virt (i + 1) (upd (upd GLZ i (row_sub_upto B0 Y rB j)) 0%nat E0))).
      + apply (unimodular_ops_sub d _ _ i j rB); try lia.
        * intros c Hc. destruct (Nat.lt_ge_cases c (i + 1)) as [Hlt|Hge].
          -- rewrite !virt_in by lia.
             rewrite !(upd_other _ 0%nat) by lia. rewrite !upd_same.
             rewrite upd_other by lia. apply Hsub. assumption.
          -- rewrite !virt_out by lia. rewrite (identity_other j c) by lia. lia.
        * intros r c Hr Hc Hne. unfold virt.
          destruct ((r <? i + 1)%nat && (c <? i + 1)%nat); [|reflexivity].
          destruct (Nat.eq_dec r 0) as [->|Hr0].
          -- now rewrite !upd_same.
          -- rewrite !(upd_other _ 0%nat) by assumption.
             now rewrite !upd_other by assumption.
      + apply (unimodular_ops_sub d _ _ 0%nat j rE); try lia.
        * intros c Hc. destruct (Nat.lt_ge_cases c (i + 1)) as [Hlt|Hge].
          -- rewrite !virt_in by lia. rewrite !upd_same.
             rewrite !upd_other by lia. apply Hsub. assumption.
          -- rewrite !virt_out by lia. rewrite (identity_other j c) by lia. lia.
        * intros r c Hr Hc Hne. unfold virt.
          destruct ((r <? i + 1)%nat && (c <? i + 1)%nat); [|reflexivity].
          now rewrite !(upd_other _ 0%nat) by assumption. }
  unfold P in H. rewrite Hloop in H. exact H.
Qed.

Lemma GLZ_round_ops (W : vec) (d i : nat) (G : Z) (GLZ : nat -> vec) :
  (2 <= i < d)%nat -> W i <> 0 ->
  GLZ_inv W d i G GLZ ->
  unimodular_ops d (virt i GLZ) (virt (i + 1) (snd (GLZ_round W i (G, GLZ)))).
Proof.
  intros Hi HWi (HG & HE & Hdiv & Hrows & Hsup).
  unfold GLZ_round.
  pose proof (GL_Egcd_spec G (W i) HWi) as Hegcd.
  destruct (GL_Egcd G (W i)) as [[g a] b].
  destruct Hegcd as (Hg & Hbez & DG & DW).
  cbv beta iota zeta.
  set (E := GLZ 0%nat) in *.
  set (B1 := for_up 0 i (fun j B => upd B j (- E j * Z.quot (W i) g))
                    (upd (GLZ i) i (Z.quot G g))).
  set (E2 := upd (for_up 0 i (fun j E0 => upd E0 j (E0 j * a)) E) i b).
  assert (HB1 : forall k, B1 k = if (k <? i)%nat then - E k * Z.quot (W i) g
                                 else upd (GLZ i) i (Z.quot G g) k).
  { intros k. unfold B1.
    apply (fill_prefix_spec (fun j _ => - E j * Z.quot (W i) g)). }
  assert (HE2 : forall k, E2 k = if (k <? i)%nat then E k * a
                                 else if Nat.eqb k i then b else E k).
  { intros k. unfold E2, upd at 1.
    destruct (Nat.eqb_spec k i) as [->|Hne].
    - destruct (Nat.ltb_spec i i); [lia|reflexivity].
    - rewrite (fill_prefix_spec (fun j e => e * a)). reflexivity. }
  destruct (for_down (i - 1) (GLZ_improve GLZ) (B1, E2)) as [B' E'] eqn:Ef.
  simpl.
  apply (unimodular_ops_trans d _ (virt (i + 1) (upd (upd GLZ i B1) 0%nat E2)));
    [|apply (GLZ_improve_ops d i GLZ B1 E2 B' E' Hi Hsup Ef)].
  apply (unimodular_ops_pair d _ _ 0%nat i a b (- Z.quot (W i) g) (Z.quot G g));
    try lia.
  - pose proof (quot_exact_l G g Hg DG). pose proof (quot_exact_l (W i) g Hg DW).
    nia.
  - intros c Hc. destruct (Nat.lt_ge_cases c (i + 1)) as [Hlt|Hge].
    + rewrite virt_in by lia. rewrite upd_same, HE2.
      destruct (Nat.ltb_spec c i) as [Hci|Hci].
      * rewrite virt_in by lia. rewrite virt_out by lia.
        rewrite (identity_other i c) by lia. fold E. lia.
      * assert (c = i) by lia. subst c. rewrite Nat.eqb_refl.
        rewrite !virt_out by lia.
        rewrite identity_same, identity_other by lia. lia.
    + rewrite !virt_out by lia. rewrite !identity_other by lia. lia.
  - intros c Hc. destruct (Nat.lt_ge_cases c (i + 1)) as [Hlt|Hge].
    + rewrite virt_in by lia. rewrite upd_other, upd_same, HB1 by lia.
      destruct (Nat.ltb_spec c i) as [Hci|Hci].
      * rewrite virt_in by lia. rewrite virt_out by lia.
        rewrite (identity_other i c) by lia. fold E. lia.
      * assert (c = i) by lia. subst c. rewrite upd_same.
        rewrite !virt_out by lia.
        rewrite identity_same, identity_other by lia. lia.
    + rewrite !virt_out by lia. rewrite !identity_other by lia. lia.
  - intros r c Hr Hc Hr0 Hri.
    destruct (Nat.lt_ge_cases r i) as [Hlt|Hge].
    + destruct (Nat.lt_ge_cases c (i + 1)) as [Hc1|Hc1].
      * rewrite virt_in by lia. rewrite !upd_other by lia.
        destruct (Nat.lt_ge_cases c i) as [Hci|Hci].
        -- now rewrite virt_in by lia.
        -- rewrite virt_out by lia. rewrite identity_other by lia.
           apply Hsup; lia.
      * now rewrite !virt_out by lia.
    + now rewrite !virt_out by lia.
Qed.

Lemma GLZ_first_ops (W : vec) (d : nat) (GLZ0 : nat -> vec) :
  (2 <= d)%nat -> (forall k, (k < d)%nat -> W k <> 0) ->
  unimodular_ops d identity_mat (virt 2 (snd (GLZ_first W d GLZ0))).
Proof.
  intros Hd HW. unfold GLZ_first.
  set (Z0 := GLZ_clear d GLZ0) in *. cbv zeta.
  pose proof (GL_Egcd_spec (W 0%nat) (W 1%nat) (HW 1%nat ltac:(lia))) as Hegcd.
  destruct (GL_Egcd (W 0%nat) (W 1%nat)) as [[G e0] e1].
  destruct Hegcd as (HG & Hbez & D0 & D1).
  simpl.
  apply (unimodular_ops_pair d _ _ 0%nat 1%nat e0 e1
           (Z.quot (- W 1%nat) G) (Z.quot (W 0%nat) G)); try lia.
  - rewrite Z.quot_opp_l by assumption.
    pose proof (quot_exact_l (W 0%nat) G HG D0) as Q0.
    pose proof (quot_exact_l (W 1%nat) G HG D1) as Q1.
    assert (Hx : (e0 * Z.quot (W 0%nat) G + e1 * Z.quot (W 1%nat) G) * G = 1 * G).
    { rewrite Z.mul_add_distr_r, <- !Z.mul_assoc, Q0, Q1. lia. }
    apply Z.mul_reg_r in Hx; [lia|assumption].
  - intros c Hc. destruct c as [|[|c]].
    + rewrite virt_in by lia. rewrite upd_other, upd_same by lia.
      rewrite upd_other, upd_same by lia.
      rewrite identity_same, identity_other by lia. lia.
    + rewrite virt_in by lia. rewrite upd_other, upd_same by lia.
      rewrite upd_same.
      rewrite identity_same, identity_other by lia. lia.
    + rewrite virt_out by lia. rewrite !identity_other by lia. lia.
  - intros c Hc. destruct c as [|[|c]].
    + rewrite virt_in by lia. rewrite upd_same.
      rewrite upd_other, upd_same by lia.
      rewrite identity_same, identity_other by lia. lia.
    + rewrite virt_in by lia. rewrite !upd_same.
      rewrite identity_same, identity_other by lia. lia.
    + rewrite virt_out by lia. rewrite !identity_other by lia. lia.
  - intros r c Hr Hc Hr0 Hr1. apply virt_out. lia.
Qed.

Lemma GL_W_to_GLZ_ops (W : vec) (d : nat) (GLZ0 : nat -> vec) :
  (2 <= d)%nat -> (forall k, (k < d)%nat -> W k <> 0) ->
  unimodular_ops d identity_mat (snd (GL_W_to_GLZ W d GLZ0)).
Proof.
  intros Hd HW. unfold GL_W_to_GLZ.
  pose (P := fun (i : nat) (st : Z * (nat -> vec)) =>
               GLZ_inv W d i (fst st) (snd st) /\
               unimodular_ops d identity_mat (virt i (snd st))).
  assert (H : P (2 + (d - 2))%nat
                (for_up 2 (d - 2) (GLZ_round W) (GLZ_first W d GLZ0))).
  { apply (for_up_inv P); unfold P.
    - split; [apply GLZ_first_inv|apply GLZ_first_ops]; assumption.
    - intros i [G' M'] Hi [Hinv Hops]. simpl in Hinv, Hops. split.
      + apply GLZ_round_inv; try lia; [apply HW; lia|exact Hinv].
      + eapply unimodular_ops_trans; [exact Hops|].
        rewrite <- Nat.add_1_r.
        apply (GLZ_round_ops W d i G' M'); try lia; [apply HW; lia|exact Hinv]. }
  destruct H as [_ (e & He & Hops)].
  replace (2 + (d - 2))%nat with d in Hops by lia.
  exists e. split; [assumption|].
  eapply row_ops_eq_r; [exact Hops|].
  intros r c Hr Hc. now apply virt_in.
Qed.

Lemma GLZ_combine_ops (W : vec) (N : nat) (NG : nat -> vec) :
  (0 < N)%nat -> (forall k, (k < N)%nat -> W k <> 0) ->
  unimodular_ops N identity_mat (snd (GLZ_combine W N NG)).
Proof.
  intros HN HW. unfold GLZ_combine.
  assert (H : unimodular_ops N identity_mat
                (snd (if Nat.eqb N 1 then (W 0%nat, upd2 NG 0 0 1)
                      else GL_W_to_GLZ W N NG))).
  { destruct (Nat.eqb_spec N 1) as [->|Hne].
    - simpl. apply unimodular_ops_refl. intros r c Hr Hc.
      assert (r = 0)%nat by lia. assert (c = 0)%nat by lia. subst r c.
      now rewrite upd2_same.
    - apply GL_W_to_GLZ_ops; [lia|assumption]. }
  destruct (if Nat.eqb N 1 then (W 0%nat, upd2 NG 0 0 1)
            else GL_W_to_GLZ W N NG) as [g M].
  simpl in H. destruct (g <? 0); [|exact H]. simpl.
  eapply unimodular_ops_trans; [exact H|].
  apply (unimodular_ops_neg N _ _ 0%nat); [assumption| |].
  - intros j Hj. rewrite upd_same.
    rewrite (fill_prefix_spec (fun _ x => x * -1)).
    destruct (Nat.ltb_spec j N); lia.
  - intros r j Hr Hj Hne. now rewrite upd_other by assumption.
Qed.

(** *** The transformation [G] of [GLZ_Make_Trian_NF] *)

Lemma GLZ_line_ops n nv X L st st' :
  (L < n)%nat -> GLZ_line n nv X L st = Returned st' ->
  unimodular_ops n (gl_G st) (gl_G st').
Proof.
  intros HL H. unfold GLZ_line in H.
  destruct (find_col (nv - gl_C st) n L X (gl_G st) (gl_C st) (gl_NF st)
                     (gl_W st) (fun _ => 0%nat))
    as [[[[[C' NF1] N] W1] p]|] eqn:Ef; [|discriminate].
  apply find_col_spec in Ef as (F1 & F2 & (S1 & S2 & S3) & F4 & F5 & F6).
  assert (HW : forall k, (k < N)%nat -> W1 k <> 0) by (intros k Hk; apply S1, Hk).
  pose proof (GLZ_combine_ops W1 N (gl_NG st) F2 HW) as Hcomb.
  destruct (GLZ_combine W1 N (gl_NG st)) as [g M]. simpl in Hcomb.
  assert (Hinj : forall j k, (j < k < N)%nat -> p j <> p k).
  { intros j k Hjk. specialize (S2 j k Hjk). lia. }
  assert (Hp : forall j, (j < N)%nat -> (p j < n)%nat).
  { intros j Hj. destruct (S1 j Hj) as [? _]. lia. }
  pose proof (apply_block_ops n N p M (gl_G st) Hp Hinj Hcomb) as H1.
  set (G1 := apply_block n N p M (gl_G st)) in *.
  set (G2 := if Nat.eqb L (p 0%nat) then G1 else swap_lines n L (p 0%nat) G1) in *.
  assert (H2 : unimodular_ops n G1 G2).
  { unfold G2. destruct (Nat.eqb_spec L (p 0%nat)) as [E|E].
    - apply unimodular_ops_refl, mat_eq_refl.
    - apply swap_lines_ops; [assumption|apply Hp; lia|assumption]. }
  set (NF3 := NF_set_pivot n L C' g NF1) in *.
  pose proof (reduce_above_ops n L C' NF3 G2 HL) as H3.
  match type of H with context [reduce_above ?a ?b ?c ?d] =>
    destruct (reduce_above a b c d) as [NF4 G3] end.
  simpl in H3. injection H as <-. simpl.
  eapply unimodular_ops_trans; [exact H1|].
  eapply unimodular_ops_trans; [exact H2|exact H3].
Qed.

Lemma GLZ_reduce_from_ops W0 NG0 X n nv NF G :
  GLZ_reduce_from W0 NG0 X n nv = Returned (NF, G) ->
  unimodular_ops n identity_mat G.
Proof.
  unfold GLZ_reduce_from.
  destruct (fill_spec n n (fun i j => if Nat.eqb i j then 1 else 0)
              (fun _ _ => 0)) as [I1 _].
  cbv zeta in I1.
  set (G0 := for_up 0 n _ _) in *. set (NF0 := for_up 0 n _ _).
  pose proof (for_upR_inv (fun (L : nat) st => unimodular_ops n identity_mat (gl_G st))
                (GLZ_line n nv X) n 0 (GLZ_State 0 G0 NF0 W0 NG0)) as Hloop.
  destruct (for_upR 0 n (GLZ_line n nv X) (GLZ_State 0 G0 NF0 W0 NG0))
    as [st| |]; [|discriminate|discriminate].
  simpl. intros H. injection H as _ <-.
  apply Hloop.
  - simpl. apply unimodular_ops_refl. intros r c Hr Hc. symmetry. now apply I1.
  - intros L st0 HL0 IH.
    destruct (GLZ_line n nv X L st0) as [st1| |] eqn:El; [|exact I|exact I].
    eapply unimodular_ops_trans; [exact IH|].
    apply (GLZ_line_ops n nv X L st0 st1); [lia|exact El].
Qed.



(** *** The transformation [S] of [SL2Z_Make_Poly_NF] *)

Lemma SL_pair_spec n L i (a b x y : Z) (Sm : mat) :
  i <> L ->
  let Sm' := for_up 0 n (fun j Sm =>
               let A := a * Sm L j + b * Sm i j in
               let Sm := upd2 Sm i j (x * Sm i j - y * Sm L j) in
               upd2 Sm L j A) Sm in
  (forall j, (j < n)%nat -> Sm' L j = a * Sm L j + b * Sm i j) /\
  (forall j, (j < n)%nat -> Sm' i j = x * Sm i j - y * Sm L j) /\
  (forall r j, (r <> L /\ r <> i) \/ (n <= j)%nat -> Sm' r j = Sm r j).
Proof.
  intros HiL. cbv zeta.
  apply (for_up_inv0 (fun k (M : mat) =>
    (forall j, (j < k)%nat -> M L j = a * Sm L j + b * Sm i j) /\
    (forall j, (j < k)%nat -> M i j = x * Sm i j - y * Sm L j) /\
    (forall r j, (r <> L /\ r <> i) \/ (k <= j)%nat -> M r j = Sm r j))).
  - split; [intros; lia|]. split; [intros; lia|reflexivity].
  - intros k M Hk (R1 & R2 & R3). split; [|split].
    + intros j Hj. destruct (Nat.eq_dec j k) as [->|Hne].
      * rewrite upd2_same, !R3 by lia. reflexivity.
      * rewrite !upd2_other by lia. apply R1. lia.
    + intros j Hj. rewrite (upd2_other _ L) by lia.
      destruct (Nat.eq_dec j k) as [->|Hne].
      * rewrite upd2_same, !R3 by lia. reflexivity.
      * rewrite upd2_other by lia. apply R2. lia.
    + intros r j Hrj. rewrite !upd2_other by lia. apply R3. lia.
Qed.

Lemma SL_clear_ops n L C i (st : nat * mat * mat) :
  (L < i < n)%nat ->
  unimodular_ops n (snd (fst st)) (snd (fst (SL_clear n L C i st))).
Proof.
  intros Hi. destruct st as [[N Sm] NF]. unfold SL_clear.
  destruct (Z.eqb_spec (NF i C) 0) as [E|E]; simpl;
    [apply unimodular_ops_refl, mat_eq_refl|].
  destruct (Z.eqb_spec (NF L C) 0) as [EL|EL]; simpl.
  - apply swap_lines_ops; lia.
  - rewrite SL_Egcd_eq.
    pose proof (GL_Egcd_spec (NF L C) (NF i C) E) as Hegcd.
    destruct (GL_Egcd (NF L C) (NF i C)) as [[g a] b].
    destruct Hegcd as (Hg & Hbez & DL & Di). simpl.
    destruct (SL_pair_spec n L i a b (Z.quot (NF L C) g) (Z.quot (NF i C) g) Sm
                ltac:(lia)) as (P1 & P2 & P3).
    apply (unimodular_ops_pair n _ _ L i a b (- Z.quot (NF i C) g)
             (Z.quot (NF L C) g)); try lia.
    + pose proof (quot_exact_l (NF L C) g Hg DL) as Q0.
      pose proof (quot_exact_l (NF i C) g Hg Di) as Q1.
      assert (Hx : (a * Z.quot (NF L C) g + b * Z.quot (NF i C) g) * g = 1 * g).
      { rewrite Z.mul_add_distr_r, <- !Z.mul_assoc, Q0, Q1. lia. }
      apply Z.mul_reg_r in Hx; [lia|assumption].
    + exact P1.
    + intros j Hj. rewrite P2 by assumption. ring.
    + intros r j Hr Hj H1 H2. apply P3. now left.
Qed.

Lemma SL_find_col_ops n L X : forall fuel C (Sm NF : mat) C' Sm' NF',
  (L < n)%nat ->
  SL_find_col fuel n L X C Sm NF = Some (C', Sm', NF') ->
  unimodular_ops n Sm Sm'.
Proof.
  induction fuel as [|k IH]; intros C Sm NF C' Sm' NF' HL H; [discriminate|].
  simpl in H.
  set (NF1 := NF_add_col n Sm X C NF) in H.
  set (N1 := if negb (NF1 L C =? 0) then 1%nat else 0%nat) in H.
  pose proof (for_up_inv (fun (i : nat) (st : nat * mat * mat) =>
                 unimodular_ops n Sm (snd (fst st)))
                (SL_clear n L C) (n - (L + 1)) (L + 1) (N1, Sm, NF1)) as Hloop.
  destruct (for_up (L + 1) (n - (L + 1)) (SL_clear n L C) (N1, Sm, NF1))
    as [[N2 Sm2] NF2].
  simpl in Hloop.
  assert (H2 : unimodular_ops n Sm Sm2).
  { apply Hloop.
    - apply unimodular_ops_refl, mat_eq_refl.
    - intros i st Hi IHst. eapply unimodular_ops_trans; [exact IHst|].
      apply SL_clear_ops. lia. }
  clear Hloop.
  assert (H3 : unimodular_ops n Sm
                 (fst (if NF2 L C <? 0
                       then (negate_line n L Sm2, upd2 NF2 L C (NF2 L C * -1))
                       else (Sm2, NF2)))).
  { destruct (NF2 L C <? 0); simpl; [|exact H2].
    eapply unimodular_ops_trans; [exact H2|]. now apply negate_line_ops. }
  destruct (if NF2 L C <? 0
            then (negate_line n L Sm2, upd2 NF2 L C (NF2 L C * -1))
            else (Sm2, NF2)) as [Sm3 NF3].
  simpl in H3.
  assert (H4 : unimodular_ops n Sm
                 (snd (if negb (Nat.eqb N2 0) then reduce_above n L C (NF3, Sm3)
                       else (NF3, Sm3)))).
  { destruct (negb (Nat.eqb N2 0)); simpl; [|exact H3].
    eapply unimodular_ops_trans; [exact H3|]. now apply reduce_above_ops. }
  destruct (if negb (Nat.eqb N2 0) then reduce_above n L C (NF3, Sm3)
            else (NF3, Sm3)) as [NF4 Sm4].
  simpl in H4.
  destruct (Nat.eqb N2 0).
  - eapply unimodular_ops_trans; [exact H4|]. eapply IH; eassumption.
  - injection H as _ <- _. exact H4.
Qed.

Lemma SL_rest_ops n X C (st : nat * mat * mat) :
  (fst (fst st) = (n - 1)%nat \/ fst (fst st) = 0%nat) ->
  (fst (fst (SL_rest n X C st)) = (n - 1)%nat \/
   fst (fst (SL_rest n X C st)) = 0%nat) /\
  unimodular_ops n (snd (fst st)) (snd (fst (SL_rest n X C st))).
Proof.
  destruct st as [[L Sm] NF]. simpl. intros HL. unfold SL_rest.
  set (NF1 := NF_add_col n Sm X C NF).
  destruct (Nat.eqb_spec L 0) as [E0|E0]; simpl.
  { split; [assumption|apply unimodular_ops_refl, mat_eq_refl]. }
  destruct (Z.eqb_spec (NF1 L C) 0) as [E1|E1]; simpl.
  { split; [assumption|apply unimodular_ops_refl, mat_eq_refl]. }
  assert (Hn : (L < n)%nat) by lia.
  assert (H3 : unimodular_ops n Sm
                 (fst (if NF1 L C <? 0
                       then (negate_line n L Sm,
                             upd2 NF1 (n - 1) C (NF1 (n - 1)%nat C * -1))
                       else (Sm, NF1)))).
  { destruct (NF1 L C <? 0); simpl;
      [now apply negate_line_ops|apply unimodular_ops_refl, mat_eq_refl]. }
  destruct (if NF1 L C <? 0
            then (negate_line n L Sm, upd2 NF1 (n - 1) C (NF1 (n - 1)%nat C * -1))
            else (Sm, NF1)) as [Sm3 NF3].
  simpl in H3.
  destruct (reduce_above n L C (NF3, Sm3)) as [NF4 Sm4] eqn:Er. simpl.
  split; [now right|]. eapply unimodular_ops_trans; [exact H3|].
  change Sm4 with (snd (NF4, Sm4)). rewrite <- Er.
  now apply reduce_above_ops.
Qed.

Lemma SL2Z_reduce_ops X n nv NF Sm :
  SL2Z_reduce X n nv = Returned (NF, Sm) -> unimodular_ops n identity_mat Sm.
Proof.
  unfold SL2Z_reduce.
  destruct (fill_spec n n (fun i j => if Nat.eqb i j then 1 else 0)
              (fun _ _ => 0)) as [I1 _].
  cbv zeta in I1.
  set (S0 := for_up 0 n _ _) in *. set (NF0 := for_up 0 n _ _).
  pose proof (for_upR_inv (fun (L : nat) (st : nat * mat * mat) =>
                 unimodular_ops n identity_mat (snd (fst st)))
                (SL_line n nv X) (n - 1) 0 (0%nat, S0, NF0)) as Hloop.
  destruct (for_upR 0 (n - 1) (SL_line n nv X) (0%nat, S0, NF0))
    as [[[C1 S1] NF1]| |]; [|discriminate|discriminate].
  simpl in Hloop. simpl.
  assert (H1 : unimodular_ops n identity_mat S1).
  { apply Hloop.
    - apply unimodular_ops_refl. intros r c Hr Hc. symmetry. now apply I1.
    - intros L [[C2 S2] NF2] HL IH. simpl in IH. unfold SL_line.
      destruct (SL_find_col (nv - C2) n L X C2 S2 NF2)
        as [[[C3 S3] NF3]|] eqn:Ef; [|exact I].
      simpl. eapply unimodular_ops_trans; [exact IH|].
      eapply (SL_find_col_ops n L X); [|exact Ef]. lia. }
  clear Hloop.
  pose proof (for_up_inv (fun (C : nat) (st : nat * mat * mat) =>
                 (fst (fst st) = (n - 1)%nat \/ fst (fst st) = 0%nat) /\
                 unimodular_ops n identity_mat (snd (fst st)))
                (SL_rest n X) (nv - C1) C1 ((n - 1)%nat, S1, NF1)) as Hrest.
  destruct (for_up C1 (nv - C1) (SL_rest n X) ((n - 1)%nat, S1, NF1))
    as [[L2 S2] NF2].
  simpl in Hrest. intros H. injection H as _ <-.
  apply Hrest.
  - split; [now left|exact H1].
  - intros C st _ [HL IH]. destruct (SL_rest_ops n X C st HL) as [HL' Hops].
    split; [exact HL'|]. eapply unimodular_ops_trans; eassumption.
Qed.

(** ** Determinants *)

Module DetZ.
Import ssreflect ssrfun ssrbool eqtype ssrnat seq choice fintype bigop ssralg matrix.
Import GRing.Theory.
Local Open Scope ring_scope.

Definition code_Z (z : Z) : nat + nat :=
  match z with
  | Z0 => inl 0%N
  | Zpos p => inl (Pos.to_nat p)
  | Zneg p => inr (Pos.to_nat p)
  end.

Definition decode_Z (c : nat + nat) : Z :=
  match c with
  | inl m => Z.of_nat m
  | inr m => Z.opp (Z.of_nat m)
  end.

Lemma code_ZK : cancel code_Z decode_Z.
Proof. by case=> [|p|p] //=; rewrite positive_nat_Z. Qed.

HB.instance Definition _ := Countable.copy Z (can_type code_ZK).
HB.instance Definition _ :=
  GRing.isZmodule.Build Z Z.add_assoc Z.add_comm Z.add_0_l Z.add_opp_diag_l.
HB.instance Definition _ :=
  GRing.Zmodule_isComNzRing.Build Z
    Z.mul_assoc Z.mul_comm Z.mul_1_l Z.mul_add_distr_r isT.

(** The determinant of the [n] x [n] matrix of the entries [G i j]. *)
Definition det (n : nat) (G : mat) : Z :=
  \det (\matrix_(i < n, j < n) G (nat_of_ord i) (nat_of_ord j) : 'M[Z]_n).

Lemma det_ext n (A B : mat) : mat_eq n n A B -> det n A = det n B.
Proof.
move=> H; rewrite /det; congr (\det _).
apply/matrixP => i j; rewrite !mxE; apply: H; apply/ltP; exact: ltn_ord.
Qed.

Lemma det_identity n : det n identity_mat = 1%Z.
Proof.
rewrite /det.
have -> : (\matrix_(i < n, j < n) identity_mat i j : 'M[Z]_n) = 1%:M.
  apply/matrixP => i j; rewrite !mxE /identity_mat.
  case: (Nat.eqb_spec i j) => [/val_inj ->|H]; first by rewrite eqxx.
  by case: eqP => // E; case: H; rewrite E.
by rewrite det1.
Qed.

Section Lines.

Variable n : nat.
Implicit Types (A : 'M[Z]_n) (u v : 'rV[Z]_n) (i k : 'I_n).

(** The matrix [A] with the line [i] replaced by [u]. *)
Definition set_line i u A : 'M[Z]_n :=
  \matrix_(r, j) if r == i then u ord0 j else A r j.

Lemma set_line_row i A : set_line i (row i A) A = A.
Proof.
by apply/matrixP => r j; rewrite !mxE; case: eqP => [->|].
Qed.

Lemma set_lineC i k u v A :
  i != k -> set_line k v (set_line i u A) = set_line i u (set_line k v A).
Proof.
move=> Hik; apply/matrixP => r j; rewrite !mxE.
case: (r =P k) => [->|//]; by rewrite eq_sym (negbTE Hik).
Qed.

Lemma det_set_line_lin i (x y : Z) u v A :
  \det (set_line i (x *: u + y *: v) A)
  = x * \det (set_line i u A) + y * \det (set_line i v A).
Proof.
apply: (determinant_multilinear (i0 := i)).
- by apply/rowP => j; rewrite !mxE eqxx.
- by apply/matrixP => r j; rewrite !mxE eq_sym (negbTE (neq_lift _ _)).
- by apply/matrixP => r j; rewrite !mxE eq_sym (negbTE (neq_lift _ _)).
Qed.

Lemma det_set_line_same i k u A :
  i != k -> \det (set_line k u (set_line i u A)) = 0.
Proof.
move=> Hik; apply: (determinant_alternate Hik) => j.
by rewrite !mxE eqxx (negbTE Hik) eqxx.
Qed.

Lemma det_set_line_swap i k u v A :
  i != k ->
  \det (set_line k u (set_line i v A)) = - \det (set_line k v (set_line i u A)).
Proof.
move=> Hik.
have H := det_set_line_same i k (1 *: u + 1 *: v) A Hik.
move: H; rewrite det_set_line_lin !mul1r.
rewrite !(set_lineC i k _ _ A Hik) !det_set_line_lin !mul1r.
rewrite -!(set_lineC i k _ _ A Hik) !det_set_line_same // addr0 add0r.
by move/eqP; rewrite addr_eq0 => /eqP.
Qed.

Lemma det_pair i k (a b c d : Z) A :
  i != k ->
  \det (set_line k (c *: row i A + d *: row k A)
          (set_line i (a *: row i A + b *: row k A) A))
  = Z.mul (Z.sub (Z.mul a d) (Z.mul b c)) (\det A).
Proof.
move=> Hik.
set u := row i A; set v := row k A.
have EA : set_line k v (set_line i u A) = A.
  apply/matrixP => r j; rewrite !mxE.
  by case: (r =P k) => [->|_] //; case: (r =P i) => [->|].
rewrite det_set_line_lin !(set_lineC i k _ _ A Hik) !det_set_line_lin.
rewrite -!(set_lineC i k _ _ A Hik).
rewrite !det_set_line_same // (det_set_line_swap i k u v A Hik) EA.
move: (\det A) => D.
rewrite /GRing.mul /GRing.add /GRing.opp /GRing.zero /=.
ring.
Qed.

Lemma det_scale_line i (s : Z) A :
  \det (set_line i (s *: row i A) A) = Z.mul s (\det A).
Proof.
have -> : s *: row i A = s *: row i A + 0 *: row i A by rewrite scale0r addr0.
by rewrite det_set_line_lin mul0r addr0 set_line_row.
Qed.

End Lines.

Definition to_matrix (n : nat) (G : mat) : 'M[Z]_n :=
  \matrix_(i < n, j < n) G (nat_of_ord i) (nat_of_ord j).

Lemma det_row_ops n e (A B : mat) :
  row_ops n e A B -> det n B = Z.mul e (det n A).
Proof.
elim=> [{}A {}B H|{}e {}A {}B C i k a b c d _ IH Hi Hk Hik Ci Ck Co
       |{}e {}A {}B C i s _ IH Hi Ci Co].
- by rewrite Z.mul_1_l; apply/esym/det_ext.
- have Hi' : (i < n)%N by apply/ltP.
  have Hk' : (k < n)%N by apply/ltP.
  have Hne : Ordinal Hi' != Ordinal Hk'.
    by apply/eqP => /(congr1 (@nat_of_ord n)).
  have -> : Z.mul (Z.mul e (Z.sub (Z.mul a d) (Z.mul b c))) (det n A)
            = Z.mul (Z.sub (Z.mul a d) (Z.mul b c)) (det n B).
    by rewrite IH; ring.
  rewrite /det -/(to_matrix n C) -/(to_matrix n B).
  rewrite -[RHS](det_pair n (Ordinal Hi') (Ordinal Hk') a b c d (to_matrix n B) Hne).
  congr (\det _); apply/matrixP => r j; rewrite !mxE.
  have Hj : (j < n)%coq_nat by apply/ltP.
  have Hr : (r < n)%coq_nat by apply/ltP.
  case: (r =P Ordinal Hk') => [->|Hrk] /=; first by rewrite Ck.
  case: (r =P Ordinal Hi') => [->|Hri] /=; first by rewrite Ci.
  apply: Co => // E; [apply: Hri|apply: Hrk]; exact: val_inj.
- have Hi' : (i < n)%N by apply/ltP.
  have -> : Z.mul (Z.mul e s) (det n A) = Z.mul s (det n B).
    by rewrite IH; ring.
  rewrite /det -/(to_matrix n C) -/(to_matrix n B).
  rewrite -[RHS](det_scale_line n (Ordinal Hi') s (to_matrix n B)).
  congr (\det _); apply/matrixP => r j; rewrite !mxE.
  have Hj : (j < n)%coq_nat by apply/ltP.
  have Hr : (r < n)%coq_nat by apply/ltP.
  case: (r =P Ordinal Hi') => [->|Hri] /=; first by rewrite Ci.
  apply: Co => // E; apply: Hri; exact: val_inj.
Qed.

Lemma det_unimodular_ops n (G : mat) :
  unimodular_ops n identity_mat G -> det n G = 1%Z \/ det n G = (-1)%Z.
Proof.
case=> e [He /det_row_ops ->]; rewrite det_identity Z.mul_1_r.
exact: He.
Qed.

End DetZ.


(** ** The theorems at concrete inputs *)

(** The value a call returned, or [d] when it did not return. *)
Definition returned_or {A : Type} (d : A) (r : result A) : A :=
  match r with
  | Returned a => a
  | _ => d
  end.

Definition zero_mat : mat := fun _ _ => 0.

Definition diamond_coords : mat :=
  mat_of_list [[1; 0; -1; 0]; [0; 1; 0; -1]].

(** A matrix with an entry above the limit of [palp_cfg]. *)
Definition big_entry : mat := mat_of_list [[2000000]].


(** C6 (as stated) fails: with room for 3 candidates only, the diamond makes
    [Aux_vNF_Line] exceed [SYM_Nmax], and the call of [Make_Poly_NF] ends
    with [exit(0)]: the caller gets no value back, hence no report of the
    failure that it could recover from. *)
Lemma SYM_Nmax_exit_not_reported :
  Make_Poly_NF (Config 6 3) CL_fresh (diamond [0; 1; 2; 3]%nat) zero_mat = Exited /\
  ~ exists out,
      Make_Poly_NF (Config 6 3) CL_fresh (diamond [0; 1; 2; 3]%nat) zero_mat
      = Returned out.
Proof.
  assert (H : Make_Poly_NF (Config 6 3) CL_fresh (diamond [0; 1; 2; 3]%nat)
                zero_mat = Exited) by (vm_compute; reflexivity).
  split; [exact H|]. intros [out Hout]. rewrite H in Hout. discriminate.
Qed.

Definition diamond_VPM : nat -> vec :=
  mat_of_list [[0; 0; 2; 2]; [2; 0; 0; 2]; [0; 2; 2; 0]; [2; 2; 0; 0]].

(** The state of [Make_VPM_NF] on the diamond after [Aux_vNF_Init]. *)
Definition diamond_init : (nat -> PERM) * (nat -> nat) * nat :=
  Aux_vNF_Init 4 4 diamond_VPM CL_fresh (fun _ => 0%nat) 1 0.

Definition diamond_init_state : vNF_state :=
  Build_vNF_state (fst (fst diamond_init)) (snd diamond_init) (fun _ => 0) 0.

Lemma SYM_Nmax_exceeded_exits_witness :
  3 < Line_count (Line_work 1 4 4 diamond_VPM (snd (fst diamond_init))
                            (snd diamond_init - 1) diamond_init_state) /\
  Line_cand (Config 6 3) 1 4 4 diamond_VPM (snd (fst diamond_init))
            (snd diamond_init - 1) diamond_init_state = Exited.
Proof.
  assert (H : 3 < Line_count (Line_work 1 4 4 diamond_VPM (snd (fst diamond_init))
                            (snd diamond_init - 1) diamond_init_state))
    by (vm_compute; reflexivity).
  split; [exact H|].
  apply (proj1 (SYM_Nmax_exceeded_exits (Config 6 3))). exact H.
Defined.

Definition diamond_NF_out : Z * memory * mat :=
  returned_or (0, diamond [0; 1; 2; 3]%nat, zero_mat)
    (Make_Poly_NF palp_cfg CL_fresh (diamond [0; 1; 2; 3]%nat) zero_mat).

Lemma diamond_NF_returns :
  Make_Poly_NF palp_cfg CL_fresh (diamond [0; 1; 2; 3]%nat) zero_mat
  = Returned (fst (fst diamond_NF_out), snd (fst diamond_NF_out),
              snd diamond_NF_out).
Proof. vm_compute. reflexivity. Qed.

Lemma Make_Poly_NF_reflexive_witness :
  Make_Poly_NF palp_cfg CL_fresh (diamond [0; 1; 2; 3]%nat) zero_mat
  = Returned (fst (fst diamond_NF_out), snd (fst diamond_NF_out),
              snd diamond_NF_out) /\
  (fst (fst diamond_NF_out) = 1 <->
   all_c_one (m_F (diamond [0; 1; 2; 3]%nat))).
Proof.
  split; [exact diamond_NF_returns|].
  exact (proj1 (Make_Poly_NF_reflexive _ _ _ _ _ _ _ diamond_NF_returns)).
Defined.

Definition no_perms : nat -> nat -> nat := fun _ _ => 0%nat.

Definition diamond_Sym_out : Z * memory * Z * (nat -> nat -> nat) * mat :=
  returned_or (0, diamond [0; 1; 2; 3]%nat, 0, no_perms, zero_mat)
    (Make_Poly_Sym_NF palp_cfg CL_fresh (diamond [0; 1; 2; 3]%nat) no_perms
                      zero_mat 0).

Lemma diamond_Sym_returns :
  Make_Poly_Sym_NF palp_cfg CL_fresh (diamond [0; 1; 2; 3]%nat) no_perms
                   zero_mat 0
  = Returned (fst (fst (fst (fst diamond_Sym_out))),
              snd (fst (fst (fst diamond_Sym_out))),
              snd (fst (fst diamond_Sym_out)),
              snd (fst diamond_Sym_out), snd diamond_Sym_out).
Proof. vm_compute. reflexivity. Qed.

Lemma entry_points_keep_inputs_witness :
  same_inputs (diamond [0; 1; 2; 3]%nat) (snd (fst diamond_NF_out)) /\
  same_inputs (diamond [0; 1; 2; 3]%nat)
              (snd (fst (fst (fst diamond_Sym_out)))).
Proof.
  split.
  - exact (proj1 (entry_points_keep_inputs palp_cfg CL_fresh _) _ _ _ _
             diamond_NF_returns).
  - exact (proj2 (entry_points_keep_inputs palp_cfg CL_fresh _) _ _ _ _ _ _ _ _
             diamond_Sym_returns).
Defined.

(** The candidates of the diamond, in the order of [New_pNF_Order]. *)
Definition diamond_VPM_out : (nat -> PERM) * nat * mat :=
  returned_or (CL_fresh, 0%nat, zero_mat)
    (Make_VPM_NF palp_cfg 4 4 diamond_VPM CL_fresh).

Definition diamond_CL : nat -> PERM :=
  New_pNF_Order 4 4 (fst (fst diamond_VPM_out)) (snd (fst diamond_VPM_out))
                (snd diamond_VPM_out).

Definition diamond_Triang_out : (nat -> PERM) * mat * Z :=
  returned_or (CL_fresh, zero_mat, 0)
    (Aux_Make_Triang palp_cfg diamond_CL 8 diamond_coords 2 4 (-1)).

Lemma diamond_Triang_returns :
  Aux_Make_Triang palp_cfg diamond_CL 8 diamond_coords 2 4 (-1)
  = Returned (fst (fst diamond_Triang_out), snd (fst diamond_Triang_out),
              snd diamond_Triang_out).
Proof. vm_compute. reflexivity. Qed.


Definition lattice_rows : mat := mat_of_list [[2; 3; 5]; [4; 1; 7]].

Definition lattice_out : Z * mat * mat :=
  returned_or (0, zero_mat, zero_mat)
    (GLZ_Make_Trian_NF palp_cfg lattice_rows 2 3).

Lemma lattice_returns :
  GLZ_Make_Trian_NF palp_cfg lattice_rows 2 3
  = Returned (1, snd (fst lattice_out), snd lattice_out).
Proof. vm_compute. reflexivity. Qed.


Definition sign_rows : mat := mat_of_list [[-1; 0]; [0; 1]].

Definition sign_out : Z * mat * mat :=
  returned_or (0, zero_mat, zero_mat) (SL2Z_Make_Poly_NF palp_cfg sign_rows 2 2).

Lemma sign_returns :
  SL2Z_Make_Poly_NF palp_cfg sign_rows 2 2
  = Returned (1, snd (fst sign_out), snd sign_out).
Proof. vm_compute. reflexivity. Qed.



(** ** The square diamond *)

(** The image of a point of the plane under the matrix [[a b] [c d]]. *)
Definition move (a b c d : Z) (x : list Z) : list Z :=
  [a * nth 0 x 0 + b * nth 1 x 0; c * nth 0 x 0 + d * nth 1 x 0].

(** The diamond moved by an orthogonal matrix: its vertices and the normals
    of its facets are moved alike; [order] is the list of the vertices. *)
Definition moved_diamond (a b c d : Z) (order : list nat) : memory :=
  memory_of (points_of_list 2 (map (move a b c d) diamond_points))
            (vertices_of_list order)
            (equations_of_list
               (map (fun e => (move a b c d (fst e), snd e)) diamond_equations)).

(** What [Make_Poly_Sym_NF] leaves in [*SymNum] and in [NF]. *)
Definition Sym_summary
  (r : result (Z * memory * Z * (nat -> nat -> nat) * mat))
  : option (Z * list (list Z)) :=
  match r with
  | Returned (_, _, SymNum, _, NF) => Some (SymNum, mat_to_list 2 4 NF)
  | _ => None
  end.

Definition diamond_NF : list (list Z) := [[1; 0; 0; -1]; [0; 1; -1; 0]].

Lemma Sym_summary_Some r k l :
  Sym_summary r = Some (k, l) ->
  exists ns m V_perm NF,
    r = Returned (ns, m, k, V_perm, NF) /\ mat_to_list 2 4 NF = l.
Proof.
  destruct r as [[[[[ns m] k'] V_perm] NF]| |]; simpl; [|discriminate|discriminate].
  intros H. injection H as -> <-. now exists ns, m, V_perm, NF.
Qed.

Lemma orthogonal_matrices (a b c d : Z) :
  a * a + c * c = 1 -> b * b + d * d = 1 -> a * b + c * d = 0 ->
  In (a, b, c, d)
     [(1, 0, 0, 1); (1, 0, 0, -1); (-1, 0, 0, 1); (-1, 0, 0, -1);
      (0, 1, 1, 0); (0, 1, -1, 0); (0, -1, 1, 0); (0, -1, -1, 0)].
Proof.
  intros H1 H2 H3.
  assert (-1 <= a <= 1) by nia. assert (-1 <= b <= 1) by nia.
  assert (-1 <= c <= 1) by nia. assert (-1 <= d <= 1) by nia.
  assert (Ha : a = -1 \/ a = 0 \/ a = 1) by lia.
  assert (Hb : b = -1 \/ b = 0 \/ b = 1) by lia.
  assert (Hc : c = -1 \/ c = 0 \/ c = 1) by lia.
  assert (Hd : d = -1 \/ d = 0 \/ d = 1) by lia.
  destruct Ha as [->|[->| ->]], Hb as [->|[->| ->]], Hc as [->|[->| ->]],
           Hd as [->|[->| ->]]; try discriminate; simpl; tauto.
Qed.

Definition orderings : list (list nat) :=
  [[0; 1; 2; 3]; [0; 1; 3; 2]; [0; 2; 1; 3]; [0; 2; 3; 1]; [0; 3; 1; 2];
   [0; 3; 2; 1]; [1; 0; 2; 3]; [1; 0; 3; 2]; [1; 2; 0; 3]; [1; 2; 3; 0];
   [1; 3; 0; 2]; [1; 3; 2; 0]; [2; 0; 1; 3]; [2; 0; 3; 1]; [2; 1; 0; 3];
   [2; 1; 3; 0]; [2; 3; 0; 1]; [2; 3; 1; 0]; [3; 0; 1; 2]; [3; 0; 2; 1];
   [3; 1; 0; 2]; [3; 1; 2; 0]; [3; 2; 0; 1]; [3; 2; 1; 0]]%nat.

Lemma orderings_complete (order : list nat) :
  Permutation order [0; 1; 2; 3]%nat -> In order orderings.
Proof.
  intros H.
  pose proof (Permutation_length H) as Hlen.
  assert (Hnd : NoDup order).
  { apply (Permutation_NoDup (Permutation_sym H)).
    repeat constructor; simpl; intuition lia. }
  assert (Hin : forall x, In x order -> (x < 4)%nat).
  { intros x Hx. apply (Permutation_in _ H) in Hx. simpl in Hx. lia. }
  destruct order as [|w [|x [|y [|z [|]]]]]; try discriminate.
  assert (Hw : (w < 4)%nat) by (apply Hin; simpl; tauto).
  assert (Hx : (x < 4)%nat) by (apply Hin; simpl; tauto).
  assert (Hy : (y < 4)%nat) by (apply Hin; simpl; tauto).
  assert (Hz : (z < 4)%nat) by (apply Hin; simpl; tauto).
  inversion Hnd as [|? ? N1 Hnd1]; subst.
  inversion Hnd1 as [|? ? N2 Hnd2]; subst.
  inversion Hnd2 as [|? ? N3 _]; subst.
  simpl in N1, N2, N3.
  assert (w <> x /\ w <> y /\ w <> z /\ x <> y /\ x <> z /\ y <> z) as Hne
    by (repeat split; intros ->; tauto).
  clear - Hw Hx Hy Hz Hne.
  destruct w as [|[|[|[|]]]]; try lia;
  destruct x as [|[|[|[|]]]]; try lia;
  destruct y as [|[|[|[|]]]]; try lia;
  destruct z as [|[|[|[|]]]]; try lia;
  simpl; tauto.
Qed.

Lemma diamond_Sym_summary (CL0 : nat -> PERM) (V_perm : nat -> nat -> nat)
  (NF0 : mat) (traced : Z) (a b c d : Z) (order : list nat) :
  In (a, b, c, d)
     [(1, 0, 0, 1); (1, 0, 0, -1); (-1, 0, 0, 1); (-1, 0, 0, -1);
      (0, 1, 1, 0); (0, 1, -1, 0); (0, -1, 1, 0); (0, -1, -1, 0)] ->
  In order orderings ->
  Sym_summary (Make_Poly_Sym_NF palp_cfg CL0 (moved_diamond a b c d order)
                                V_perm NF0 traced)
  = Some (8, diamond_NF).
Proof.
  intros HM HO. unfold Make_Poly_Sym_NF.
  destruct (traced =? 0);
  simpl in HM;
  repeat (destruct HM as [HM|HM]; [injection HM as <- <- <- <-|]);
  try contradiction;
  simpl in HO;
  repeat (destruct HO as [<-|HO]; [vm_compute; reflexivity|]);
  contradiction.
Qed.

(** C8: for the square diamond, given with its vertices in any order and
    moved by any matrix with integer entries that keeps lengths and angles
    (the rotations by quarter turns of the plane, and the reflections),
    [Make_Poly_Sym_NF] returns with 8 in [*SymNum] and with the same matrix
    [diamond_NF] in [NF], whatever the buffers contain at the call. *)
Theorem diamond_Sym_NF (CL0 : nat -> PERM) (V_perm : nat -> nat -> nat)
  (NF0 : mat) (traced : Z) (a b c d : Z) (order : list nat) :
  a * a + c * c = 1 -> b * b + d * d = 1 -> a * b + c * d = 0 ->
  Permutation order [0; 1; 2; 3]%nat ->
  exists ns m V_perm' NF,
    Make_Poly_Sym_NF palp_cfg CL0 (moved_diamond a b c d order) V_perm NF0
                     traced
    = Returned (ns, m, 8, V_perm', NF) /\
    mat_to_list 2 4 NF = diamond_NF.
Proof.
  intros H1 H2 H3 HP. apply Sym_summary_Some, diamond_Sym_summary.
  - now apply orthogonal_matrices.
  - now apply orderings_complete.
Qed.

Lemma diamond_Sym_NF_witness :
  exists ns m V_perm' NF,
    Make_Poly_Sym_NF palp_cfg CL_fresh (moved_diamond 0 (-1) 1 0 [2; 0; 3; 1]%nat)
                     no_perms zero_mat 0
    = Returned (ns, m, 8, V_perm', NF) /\
    mat_to_list 2 4 NF = diamond_NF.
Proof.
  apply (diamond_Sym_NF CL_fresh no_perms zero_mat 0 0 (-1) 1 0 [2; 0; 3; 1]%nat);
    try reflexivity.
  apply (perm_trans (l' := [0; 2; 3; 1]%nat)); [apply perm_swap|].
  apply perm_skip.
  apply (perm_trans (l' := [2; 1; 3]%nat)); [apply perm_skip, perm_swap|].
  apply perm_swap.
Defined.

(** * Further properties of the code *)

(** ** The extended Euclidean algorithm *)



(** ** [GL_W_to_GLZ] *)


Definition three_numbers : vec := vec_of_list [6; 10; 15].


(** ** The order of [Aux_XltY_Poly_NF] *)

(** X3: [Aux_XltY_Poly_NF X Y] is 1 when [X] comes before [Y] in the order
    of the entries read line after line, and 0 otherwise; it is 0 in both
    directions exactly for two matrices with the same [n] x [nv] entries. *)
Theorem Aux_XltY_Poly_NF_order (X Y : mat) (n nv : nat) :
  (Aux_XltY_Poly_NF X Y n nv = 1 <-> lex_lt n nv X Y) /\
  (Aux_XltY_Poly_NF X Y n nv = 0 <-> ~ lex_lt n nv X Y) /\
  (Aux_XltY_Poly_NF X Y n nv = 0 /\ Aux_XltY_Poly_NF Y X n nv = 0 <->
   mat_eq n nv X Y).
Proof.
  split; [|split].
  - split; [|apply Aux_XltY_1].
    intros E. destruct (Aux_XltY_Poly_NF_spec X Y n nv) as [[_ H]|[E' _]];
      [assumption|congruence].
  - split; [|apply Aux_XltY_0].
    intros E H. apply Aux_XltY_1 in H. congruence.
  - split.
    + intros [E1 E2].
      destruct (lex_trichotomy n nv X Y) as [H|[H|H]]; [|assumption|].
      * apply Aux_XltY_1 in H. congruence.
      * apply Aux_XltY_1 in H. congruence.
    + intros H. split; apply Aux_XltY_0; intros Hl.
      * now apply lex_lt_not_eq in Hl.
      * apply lex_lt_not_eq in Hl. now apply Hl, mat_eq_sym.
Qed.

(** ** What the two reductions leave in [X] *)

(** X4: [GLZ_Make_Trian_NF] writes no entry of [X] outside the [n] lines and
    [nv] columns. When it returns 0, [X] is a mixture: the entries read
    before the first entry of the normal form beyond [NFX_Limit] hold the
    normal form, that entry and the entries after it hold what they held at
    the call. *)
Theorem GLZ_Make_Trian_NF_leaves (cfg : config) (X : mat) (n nv : nat)
  (r : Z) (X' G : mat) :
  GLZ_Make_Trian_NF cfg X n nv = Returned (r, X', G) ->
  (forall a b, (n <= a \/ nv <= b)%nat -> X' a b = X a b) /\
  (r = 0 ->
   exists NF i j,
     GLZ_reduce X n nv = Returned (NF, G) /\
     (i < n)%nat /\ (j < nv)%nat /\ NFX_Limit cfg < Z.abs (NF i j) /\
     (forall a b, before a b i j -> (b < nv)%nat -> X' a b = NF a b) /\
     (forall a b, ~ before a b i j -> X' a b = X a b)).
Proof.
  unfold GLZ_Make_Trian_NF.
  destruct (GLZ_reduce X n nv) as [[NF G0]| |]; simpl; try discriminate.
  pose proof (GLZ_write_back_spec (NFX_Limit cfg) n nv NF X) as Hw.
  destruct (GLZ_write_back (NFX_Limit cfg) n nv NF X) as [X1|X1];
    intros H; injection H as <- <- <-.
  - destruct Hw as [_ Hout]. split; [exact Hout|discriminate].
  - destruct Hw as (i & j & Hi & Hj & Hbig & Hbefore & Hrest).
    split.
    + intros a b Hab. apply Hrest. destruct Hab as [Ha|Hb]; [|now right].
      left. unfold before. lia.
    + intros _. exists NF, i, j. split; [reflexivity|].
      split; [exact Hi|]. split; [exact Hj|]. split; [exact Hbig|]. split.
      * intros a b Hb Hn. now apply Hbefore.
      * intros a b Hb. apply Hrest. now left.
Qed.

Lemma GLZ_Make_Trian_NF_leaves_witness :
  exists X' G,
    GLZ_Make_Trian_NF palp_cfg big_entry 1 1 = Returned (0, X', G) /\
    (forall a b, (1 <= a \/ 1 <= b)%nat -> X' a b = big_entry a b) /\
    (0 = 0 ->
     exists NF i j,
       GLZ_reduce big_entry 1 1 = Returned (NF, G) /\
       (i < 1)%nat /\ (j < 1)%nat /\ NFX_Limit palp_cfg < Z.abs (NF i j) /\
       (forall a b, before a b i j -> (b < 1)%nat -> X' a b = NF a b) /\
       (forall a b, ~ before a b i j -> X' a b = big_entry a b)).
Proof.
  pose (out := returned_or (0, zero_mat, zero_mat)
                 (GLZ_Make_Trian_NF palp_cfg big_entry 1 1)).
  assert (H : GLZ_Make_Trian_NF palp_cfg big_entry 1 1
              = Returned (0, snd (fst out), snd out))
    by (vm_compute; reflexivity).
  exists (snd (fst out)), (snd out). split; [exact H|].
  exact (GLZ_Make_Trian_NF_leaves palp_cfg big_entry 1 1 0 _ _ H).
Defined.

Lemma SL_write_back_failure lim n nv NF X0 X' :
  SL_write_back lim n nv NF X0 = inr X' ->
  exists i j, (i < n)%nat /\ (j < nv)%nat /\ lim < Z.abs (NF i j) /\
    X' i j = NF i j /\
    (forall a b, before a b i j -> (b < nv)%nat -> X' a b = NF a b) /\
    (forall a b, before i j a b \/ (nv <= b)%nat -> X' a b = X0 a b).
Proof.
  unfold SL_write_back.
  pose (P := fun (i : nat) (X : mat) =>
    (forall a b, (a < i)%nat -> (b < nv)%nat -> X a b = NF a b) /\
    (forall a b, (i <= a \/ nv <= b)%nat -> X a b = X0 a b)).
  pose (Q := fun (X1 : mat) =>
    exists i j, (i < n)%nat /\ (j < nv)%nat /\ lim < Z.abs (NF i j) /\
      X1 i j = NF i j /\
      (forall a b, before a b i j -> (b < nv)%nat -> X1 a b = NF a b) /\
      (forall a b, before i j a b \/ (nv <= b)%nat -> X1 a b = X0 a b)).
  pose proof (for_up_brk_inv P Q (SL_write_back_line lim nv NF) n 0 X0) as H.
  intros E. rewrite E in H. apply H; unfold P, Q; clear H P Q E.
  - split; [intros; lia|reflexivity].
  - intros i X Hi [H1 H2].
    pose proof (SL_write_back_row lim nv NF i X) as Hr.
    destruct (SL_write_back_line lim nv NF i X) as [X1|X1].
    + destruct Hr as [R1 R2]. split.
      * intros a b Ha Hb. destruct (Nat.eq_dec a i) as [->|Hne].
        -- now apply R1.
        -- rewrite R2 by (now left). apply H1; lia.
      * intros a b Hab. rewrite R2 by lia. apply H2. lia.
    + destruct Hr as (j & Hj & Hbig & _ & R1 & R2).
      exists i, j. split; [lia|]. split; [exact Hj|]. split; [exact Hbig|].
      split; [apply R1; lia|]. split.
      * intros a b Hb Hn. unfold before in Hb.
        destruct (Nat.eq_dec a i) as [->|Hne].
        -- apply R1. lia.
        -- rewrite R2 by (now left). apply H1; lia.
      * intros a b Hab. unfold before in Hab.
        destruct (Nat.eq_dec a i) as [->|Hne].
        -- destruct (Nat.lt_ge_cases j b) as [Hlt|Hge].
           ++ rewrite R2 by (now right). apply H2. lia.
           ++ rewrite R2 by lia. apply H2. lia.
        -- rewrite R2 by (now left). apply H2. lia.
Qed.

(** X5: when [SL2Z_Make_Poly_NF] returns 0, the first entry of the normal
    form beyond [NFX_Limit] has been written into [X] with the entries
    before it (the test comes after the assignment); the entries after it,
    and those outside the [nv] columns, hold what they held at the call. *)
Theorem SL2Z_Make_Poly_NF_leaves (cfg : config) (X : mat) (n nv : nat)
  (X' Sm : mat) :
  SL2Z_Make_Poly_NF cfg X n nv = Returned (0, X', Sm) ->
  exists NF i j,
    SL2Z_reduce X n nv = Returned (NF, Sm) /\
    (i < n)%nat /\ (j < nv)%nat /\ NFX_Limit cfg < Z.abs (NF i j) /\
    X' i j = NF i j /\
    (forall a b, before a b i j -> (b < nv)%nat -> X' a b = NF a b) /\
    (forall a b, before i j a b \/ (nv <= b)%nat -> X' a b = X a b).
Proof.
  unfold SL2Z_Make_Poly_NF.
  destruct (SL2Z_reduce X n nv) as [[NF S0]| |]; simpl; try discriminate.
  destruct (SL_write_back (NFX_Limit cfg) n nv NF X) as [X1|X1] eqn:Ew;
    intros H; [discriminate H|]. injection H as <- <-.
  apply SL_write_back_failure in Ew.
  destruct Ew as (i & j & Hi & Hj & Hbig & Hij & Hb & Ha).
  exists NF, i, j. repeat (split; [first [reflexivity|assumption]|]). assumption.
Qed.

Lemma SL2Z_Make_Poly_NF_leaves_witness :
  exists X' Sm,
    SL2Z_Make_Poly_NF palp_cfg big_entry 1 1 = Returned (0, X', Sm) /\
    exists NF i j,
      SL2Z_reduce big_entry 1 1 = Returned (NF, Sm) /\
      (i < 1)%nat /\ (j < 1)%nat /\ NFX_Limit palp_cfg < Z.abs (NF i j) /\
      X' i j = NF i j /\
      (forall a b, before a b i j -> (b < 1)%nat -> X' a b = NF a b) /\
      (forall a b, before i j a b \/ (1 <= b)%nat -> X' a b = big_entry a b).
Proof.
  pose (out := returned_or (0, zero_mat, zero_mat)
                 (SL2Z_Make_Poly_NF palp_cfg big_entry 1 1)).
  assert (H : SL2Z_Make_Poly_NF palp_cfg big_entry 1 1
              = Returned (0, snd (fst out), snd out))
    by (vm_compute; reflexivity).
  exists (snd (fst out)), (snd out). split; [exact H|].
  exact (SL2Z_Make_Poly_NF_leaves palp_cfg big_entry 1 1 _ _ H).
Defined.

(** ** More lines than columns *)

Lemma increasing_bound (n nv : nat) (piv : nat -> nat) :
  (forall k, (k < n)%nat -> (piv k < nv)%nat) ->
  (forall j k, (j < k < n)%nat -> (piv j < piv k)%nat) ->
  (n <= nv)%nat.
Proof.
  intros Hb Hinc.
  assert (H : forall k, (k < n)%nat -> (k <= piv k)%nat).
  { induction k as [|k IH]; intros Hk; [lia|].
    specialize (IH ltac:(lia)). specialize (Hinc k (Datatypes.S k) ltac:(lia)). lia. }
  destruct n as [|m]; [lia|].
  specialize (H m ltac:(lia)). specialize (Hb m ltac:(lia)). lia.
Qed.

Lemma for_upR_not_Exited {S : Type} (body : nat -> S -> result S) cnt :
  forall lo s,
  (forall i s, body i s <> Exited) -> for_upR lo cnt body s <> Exited.
Proof.
  induction cnt as [|k IH]; intros lo s H; simpl; [discriminate|].
  specialize (H lo s) as H0. destruct (body lo s); simpl; try congruence.
  now apply IH.
Qed.


(** ** The limits on the entries at the entry points *)

Lemma mark_loop (c : nat -> bool) (val : nat -> Z) (n : nat) (err0 : Z) :
  (forall j, (j < n)%nat -> c j = true -> val j <> 0) ->
  let err := for_up 0 n (fun j err => if c j then val j else err) err0 in
  (err <> 0 <-> err0 <> 0 \/ exists j, (j < n)%nat /\ c j = true).
Proof.
  intros Hnz. cbv zeta.
  apply (for_up_inv0 (fun k err =>
    (forall j, (j < k)%nat -> c j = true -> val j <> 0) ->
    (err <> 0 <-> err0 <> 0 \/ exists j, (j < k)%nat /\ c j = true))).
  - intros _. split; [now left|]. intros [H|(j & Hj & _)]; [assumption|lia].
  - intros i err Hi IH Hv.
    specialize (IH (fun j Hj => Hv j ltac:(lia))).
    destruct (c i) eqn:Ec.
    + split.
      * intros _. right. exists i. split; [lia|assumption].
      * intros _. apply Hv; [lia|assumption].
    + rewrite IH. split.
      * intros [H|(j & Hj & Hc)]; [now left|]. right. exists j. split; [lia|assumption].
      * intros [H|(j & Hj & Hc)]; [now left|]. right. exists j.
        split; [|assumption]. destruct (Nat.eq_dec j i) as [->|]; [congruence|lia].
  - intros j Hj. now apply Hnz.
Qed.

Lemma limits_positive cfg : 0 < X_Limit cfg /\ 0 < VPM_Limit cfg.
Proof. unfold X_Limit, VPM_Limit. destruct (POLY_Dmax cfg <? 5); lia. Qed.


(** ** One line under [SL2Z_Make_Poly_NF] *)

Lemma SL2Z_reduce_one_line (X : mat) (nv : nat) :
  exists NF Sm : mat,
    SL2Z_reduce X 1 nv = Returned (NF, Sm) /\
    Sm 0%nat 0%nat = 1 /\
    forall c, (c < nv)%nat -> NF 0%nat c = X 0%nat c.
Proof.
  unfold SL2Z_reduce.
  change (1 - 1)%nat with 0%nat. cbn [for_upR bind].
  set (S0 := for_up 0 1 _ _). set (NF0 := for_up 0 1 _ _).
  assert (HS0 : S0 0%nat 0%nat = 1) by reflexivity.
  destruct (fill_spec 1 nv (fun _ _ => 0) (fun _ _ => 0)) as [Z1 Z2].
  cbv zeta in Z1, Z2. fold NF0 in Z1, Z2.
  assert (HNF0 : forall i c, NF0 i c = 0).
  { intros i c. destruct (Nat.lt_ge_cases i 1); [destruct (Nat.lt_ge_cases c nv)|].
    - now apply Z1.
    - apply Z2. lia.
    - apply Z2. lia. }
  rewrite Nat.sub_0_r.
  match goal with |- context [@for_up ?T 0 nv (SL_rest 1 X) ?s] =>
    pose proof (for_up_inv0 (fun (C : nat) (st : T) =>
      let '(L, Sm, NF) := st in
      L = 0%nat /\ Sm 0%nat 0%nat = 1 /\
      (forall c, (c < C)%nat -> NF 0%nat c = X 0%nat c) /\
      (forall c, (C <= c)%nat -> NF 0%nat c = 0))
    (SL_rest 1 X) nv s) as Hrest;
    destruct (@for_up T 0 nv (SL_rest 1 X) s) as [[L1 S1] NF1]
  end.
  destruct Hrest as (_ & HS1 & HNF1 & _).
  { split; [reflexivity|]. split; [exact HS0|]. split; [intros; lia|].
    intros c _. apply HNF0. }
  { intros C [[L Sm] NF] HC (-> & HS & H1 & H2). unfold SL_rest.
    cbn [Nat.eqb negb andb].
    destruct (NF_add_col_spec 1 Sm X C NF) as [A1 A2].
    split; [reflexivity|]. split; [exact HS|]. split.
    - intros c Hc. destruct (Nat.eq_dec c C) as [->|Hne].
      + rewrite A1 by lia. rewrite H2 by lia.
        unfold dot, dot_from. simpl. unfold col. rewrite HS. lia.
      + rewrite A2 by (now right). apply H1. lia.
    - intros c Hc. rewrite A2 by lia. apply H2. lia. }
  exists NF1, S1. split; [reflexivity|]. split; assumption.
Qed.

(** X8: for a matrix of one line [SL2Z_Make_Poly_NF] always returns, with
    [S = (1)] and with [X] as it was: the sign of the line is not touched
    (the column loop after the lines tests [if (L)], and [L = n - 1 = 0]).
    The value is 1 exactly when no entry of the line is beyond
    [NFX_Limit]. *)
Theorem SL2Z_Make_Poly_NF_one_line (cfg : config) (X : mat) (nv : nat) :
  exists r X' Sm,
    SL2Z_Make_Poly_NF cfg X 1 nv = Returned (r, X', Sm) /\
    Sm 0%nat 0%nat = 1 /\
    (forall a b, X' a b = X a b) /\
    (r = 1 <-> forall b, (b < nv)%nat -> Z.abs (X 0%nat b) <= NFX_Limit cfg).
Proof.
  unfold SL2Z_Make_Poly_NF.
  destruct (SL2Z_reduce_one_line X nv) as (NF1 & S1 & -> & HS1 & HNF1).
  cbn [bind].
  pose proof (SL_write_back_spec (NFX_Limit cfg) 1 nv NF1 X) as Hw.
  destruct (SL_write_back (NFX_Limit cfg) 1 nv NF1 X) as [X1|X1] eqn:Ew.
  - destruct Hw as (W1 & W3).
    exists 1, X1, S1. split; [reflexivity|]. split; [exact HS1|]. split.
    + intros a b. destruct (Nat.lt_ge_cases a 1) as [Ha|Ha];
        [destruct (Nat.lt_ge_cases b nv) as [Hb|Hb]|].
      * destruct (W1 a b Ha Hb) as [_ ->]. assert (a = 0)%nat by lia. subst a.
        now apply HNF1.
      * apply W3. lia.
      * apply W3. lia.
    + split; [|reflexivity]. intros _ b Hb.
      rewrite <- HNF1 by assumption. apply W1; [lia|assumption].
  - apply SL_write_back_failure in Ew.
    destruct Ew as (i & j & Hi & Hj & Hbig & Hij & Hb & Ha).
    assert (i = 0)%nat by lia. subst i.
    exists 0, X1, S1. split; [reflexivity|]. split; [exact HS1|]. split.
    + intros a b.
      destruct (Nat.lt_ge_cases b nv) as [Hlt|Hge]; [|apply Ha; now right].
      destruct (Nat.eq_dec a 0) as [->|Hne].
      * destruct (lt_eq_lt_dec b j) as [[Hbj| ->]|Hbj].
        -- rewrite Hb by (unfold before; lia). now apply HNF1.
        -- rewrite Hij. now apply HNF1.
        -- apply Ha. left. unfold before. lia.
      * apply Ha. left. unfold before. lia.
    + split; [discriminate|]. intros H. specialize (H j Hj).
      rewrite <- HNF1 in H by assumption. lia.
Qed.

(** ** Lists of points without repetitions *)

(** Two points with the same [n] coordinates. *)
Definition same_point (n : nat) (a b : vec) : Prop :=
  forall k, (k < n)%nat -> a k = b k.

Lemma XmY_vecdiff_zero X Y n : XmY_vecdiff X Y n = 0 <-> same_point n X Y.
Proof.
  unfold same_point. induction n as [|n IH]; simpl.
  - split; [intros; lia|reflexivity].
  - destruct (Z.eqb_spec (X n - Y n) 0) as [E|E]; simpl.
    + rewrite IH. split.
      * intros H k Hk. destruct (Nat.eq_dec k n) as [->|]; [lia|]. apply H. lia.
      * intros H k Hk. apply H. lia.
    + split; [contradiction|]. intros H. specialize (H n ltac:(lia)). lia.
Qed.

(** X9: [XmY_vecdiff] returns 0 exactly for two vectors with the same [n]
    coordinates; otherwise it returns the difference of the two at the last
    coordinate where they differ. Exchanging the vectors changes the sign. *)
Theorem XmY_vecdiff_last_difference (X Y : vec) (n : nat) :
  (XmY_vecdiff X Y n = 0 <-> forall k, (k < n)%nat -> X k = Y k) /\
  (XmY_vecdiff X Y n <> 0 ->
   exists k, (k < n)%nat /\ XmY_vecdiff X Y n = X k - Y k /\
     forall j, (k < j < n)%nat -> X j = Y j) /\
  XmY_vecdiff Y X n = - XmY_vecdiff X Y n.
Proof.
  split; [apply XmY_vecdiff_zero|]. split.
  - induction n as [|n IH]; simpl; [congruence|].
    destruct (Z.eqb_spec (X n - Y n) 0) as [E|E]; simpl.
    + intros H. destruct (IH H) as (k & Hk & Hd & Hj).
      exists k. split; [lia|]. split; [assumption|].
      intros j Hjn. destruct (Nat.eq_dec j n) as [->|]; [lia|]. apply Hj. lia.
    + intros _. exists n. split; [lia|]. split; [reflexivity|]. intros; lia.
  - induction n as [|n IH]; simpl; [reflexivity|].
    destruct (Z.eqb_spec (X n - Y n) 0) as [E|E];
      destruct (Z.eqb_spec (Y n - X n) 0) as [E'|E']; simpl; lia.
Qed.

Lemma not_seen_spec x n p r :
  not_seen x n p r = true <->
  forall s, (s < r)%nat -> ~ same_point n (x p) (x s).
Proof.
  unfold not_seen.
  pose proof (for_up_brk_inv
    (fun (k : nat) (_ : unit) =>
       forall s, (s < k)%nat -> ~ same_point n (x p) (x s))
    (fun (s : nat) => (s < r)%nat /\ same_point n (x p) (x s))
    (fun s (u : unit) =>
       if 0 =? XmY_vecdiff (x p) (x s) n then inr s else inl u) r 0 tt) as H.
  destruct (for_up_brk 0 r _ tt) as [u|s].
  - split; [intros _|reflexivity]. apply H.
    + intros; lia.
    + intros i u' Hi IH. destruct (Z.eqb_spec 0 (XmY_vecdiff (x p) (x i) n)) as [E|E].
      * split; [lia|]. apply XmY_vecdiff_zero. auto.
      * intros s Hs. destruct (Nat.eq_dec s i) as [->|]; [|apply IH; lia].
        rewrite <- XmY_vecdiff_zero. auto.
  - split; [discriminate|]. intros Hn. exfalso.
    destruct H as [Hs Hsame].
    + intros; lia.
    + intros i u' Hi IH. destruct (Z.eqb_spec 0 (XmY_vecdiff (x p) (x i) n)) as [E|E].
      * split; [lia|]. apply XmY_vecdiff_zero. auto.
      * intros s' Hs. destruct (Nat.eq_dec s' i) as [->|]; [|apply IH; lia].
        rewrite <- XmY_vecdiff_zero. auto.
    + exact (Hn s Hs Hsame).
Qed.

Lemma copy_point_spec (x : nat -> vec) (n r p : nat) :
  r <> p ->
  let x' := for_up 0 n (fun i x => upd2 x r i (x p i)) x in
  (forall k, (k < n)%nat -> x' r k = x p k) /\
  (forall q k, q <> r -> x' q k = x q k).
Proof.
  intros Hrp. cbv zeta.
  apply (for_up_inv0 (fun i (x' : nat -> vec) =>
    (forall k, (k < i)%nat -> x' r k = x p k) /\
    (forall q k, q <> r -> x' q k = x q k))).
  - split; [intros; lia|reflexivity].
  - intros i x' Hi [H1 H2]. split.
    + intros k Hk. destruct (Nat.eq_dec k i) as [->|Hne].
      * rewrite upd2_same. apply H2. auto.
      * rewrite upd2_other by (now right). apply H1. lia.
    + intros q k Hq. rewrite upd2_other by (now left). now apply H2.
Qed.

(** X10: [Remove_Identical_Points] keeps the dimension and leaves a list of
    points that differ from each other, in which every point of the given
    list occurs; the points kept are the first occurrences, in their order.
    A list without repetitions is left as it is. *)
Theorem Remove_Identical_Points_distinct (P : PolyPointList) :
  let P' := Remove_Identical_Points P in
  let n := PPL_n P in
  PPL_n P' = n /\ (PPL_np P' <= PPL_np P)%nat /\
  (forall s t, (s < t < PPL_np P')%nat ->
     ~ same_point n (PPL_x P' s) (PPL_x P' t)) /\
  (forall q, (q < PPL_np P)%nat ->
     exists s, (s < PPL_np P')%nat /\ same_point n (PPL_x P q) (PPL_x P' s)) /\
  (exists f : nat -> nat,
     (forall s, (s < PPL_np P')%nat ->
        (s <= f s < PPL_np P)%nat /\
        same_point n (PPL_x P' s) (PPL_x P (f s)) /\
        forall q, (q < f s)%nat -> ~ same_point n (PPL_x P q) (PPL_x P (f s))) /\
     (forall s t, (s < t < PPL_np P')%nat -> (f s < f t)%nat)) /\
  ((forall a b, (a < b < PPL_np P)%nat ->
      ~ same_point n (PPL_x P a) (PPL_x P b)) ->
   PPL_np P' = PPL_np P /\ PPL_x P' = PPL_x P).
Proof.
  cbv zeta. unfold Remove_Identical_Points.
  set (n := PPL_n P). set (x := PPL_x P). set (np := PPL_np P).
  pose (Inv := fun (p : nat) (st : (nat -> vec) * nat) =>
    let '(x', r) := st in
    (r <= p)%nat /\
    (forall q k, (p <= q)%nat -> x' q k = x q k) /\
    (exists f : nat -> nat,
       (forall s, (s < r)%nat ->
          (s <= f s < p)%nat /\ same_point n (x' s) (x (f s)) /\
          forall q, (q < f s)%nat -> ~ same_point n (x q) (x (f s))) /\
       (forall s t, (s < t < r)%nat -> (f s < f t)%nat)) /\
    (forall q, (q < p)%nat ->
       exists s, (s < r)%nat /\ same_point n (x q) (x' s)) /\
    ((forall a b, (a < b < p)%nat -> ~ same_point n (x a) (x b)) ->
     r = p /\ x' = x)).
  match goal with |- context [for_up 0 np ?b ?s] =>
    pose proof (for_up_inv0 Inv b np s) as H;
    destruct (for_up 0 np b s) as [x' r] end.
  destruct H as (Hr & _ & (f & Hf & Hinc) & Hcov & Hnodup).
  { unfold Inv. split; [lia|]. split; [reflexivity|]. split.
    - exists (fun _ => 0%nat). split; intros; lia.
    - split; [intros; lia|]. intros _. split; reflexivity. }
  { intros p [x1 r1] Hp (I1 & I2 & (f & If & Iinc) & I4 & I5). unfold Inv.
    assert (Hxp : same_point n (x1 p) (x p)) by (intros k _; apply I2; lia).
    destruct (not_seen x1 n p r1) eqn:Ens.
    - rewrite not_seen_spec in Ens.
      set (x2 := if (r1 <? p)%nat
                 then for_up 0 n (fun i x => upd2 x r1 i (x p i)) x1 else x1).
      assert (Hx2 : same_point n (x2 r1) (x p) /\
                    forall q k, q <> r1 -> x2 q k = x1 q k).
      { unfold x2. destruct (Nat.ltb_spec r1 p) as [Hlt|Hge].
        - destruct (copy_point_spec x1 n r1 p ltac:(lia)) as [C1 C2].
          cbv zeta in C1, C2. split; [|exact C2].
          intros k Hk. rewrite C1 by assumption. apply I2. lia.
        - assert (r1 = p) by lia. subst r1. split; [exact Hxp|reflexivity]. }
      destruct Hx2 as [Hnew Hold].
      assert (Hfirst : forall q, (q < p)%nat -> ~ same_point n (x q) (x p)).
      { intros q Hq Hs. destruct (I4 q Hq) as (s & Hs1 & Hs2).
        apply (Ens s Hs1). intros k Hk.
        rewrite (Hxp k Hk), <- (Hs k Hk). now apply Hs2. }
      split; [lia|]. split; [|split; [|split]].
      + intros q k Hq. rewrite Hold by lia. apply I2. lia.
      + exists (upd f r1 p). split.
        * intros s Hs. destruct (Nat.eq_dec s r1) as [->|Hne].
          -- rewrite upd_same. split; [lia|]. split; [exact Hnew|exact Hfirst].
          -- rewrite upd_other by assumption.
             destruct (If s ltac:(lia)) as (F1 & F2 & F3).
             split; [lia|]. split; [|exact F3].
             intros k Hk. rewrite Hold by assumption. now apply F2.
        * intros s t Hst. destruct (Nat.eq_dec t r1) as [->|Hne].
          -- rewrite upd_same, upd_other by lia.
             destruct (If s ltac:(lia)) as (F1 & _). lia.
          -- rewrite !upd_other by lia. apply Iinc. lia.
      + intros q Hq. destruct (Nat.eq_dec q p) as [->|Hne].
        * exists r1. split; [lia|]. intros k Hk. symmetry. now apply Hnew.
        * destruct (I4 q ltac:(lia)) as (s & Hs1 & Hs2).
          exists s. split; [lia|]. intros k Hk. rewrite Hold by lia. now apply Hs2.
      + intros Hnd. destruct I5 as [-> ->]; [intros a b Hab; apply Hnd; lia|].
        split; [reflexivity|]. unfold x2. now rewrite Nat.ltb_irrefl.
    - assert (Hseen : exists s, (s < r1)%nat /\ same_point n (x1 p) (x1 s)).
      { unfold not_seen in Ens.
        pose proof (for_up_brk_inv
          (fun (k : nat) (_ : unit) => True)
          (fun (s : nat) => (s < r1)%nat /\ same_point n (x1 p) (x1 s))
          (fun s (u : unit) =>
             if 0 =? XmY_vecdiff (x1 p) (x1 s) n then inr s else inl u)
          r1 0 tt) as B.
        destruct (for_up_brk 0 r1 _ tt) as [u|s]; [discriminate|].
        exists s. apply B; [exact I|].
        intros i u' Hi _.
        destruct (Z.eqb_spec 0 (XmY_vecdiff (x1 p) (x1 i) n)) as [E|E];
          [|exact I].
        split; [lia|]. apply XmY_vecdiff_zero. auto. }
      destruct Hseen as (s0 & Hs0 & Hsame).
      split; [lia|]. split; [|split; [|split]].
      + intros q k Hq. apply I2. lia.
      + exists f. split; [|exact Iinc].
        intros s Hs. destruct (If s Hs) as (F1 & F2 & F3).
        split; [lia|]. split; assumption.
      + intros q Hq. destruct (Nat.eq_dec q p) as [->|Hne].
        * exists s0. split; [assumption|]. intros k Hk.
          rewrite <- (Hxp k Hk). now apply Hsame.
        * apply I4. lia.
      + intros Hnd. exfalso.
        destruct I5 as [-> ->]; [intros a b Hab; apply Hnd; lia|].
        apply (Hnd s0 p ltac:(lia)). intros k Hk. symmetry. now apply Hsame. }
  simpl. split; [reflexivity|]. split; [exact Hr|]. split; [|split; [|split]].
  - intros s t Hst Hsame.
    destruct (Hf s ltac:(lia)) as (_ & Fs & _).
    destruct (Hf t ltac:(lia)) as (_ & Ft & Ffirst).
    apply (Ffirst (f s) (Hinc s t Hst)). intros k Hk.
    rewrite <- (Fs k Hk), <- (Ft k Hk). now apply Hsame.
  - exact Hcov.
  - exists f. split; [exact Hf|exact Hinc].
  - exact Hnodup.
Qed.

(** ** Permutations as text *)

(** The codes of the digits and letters. *)
Definition alphanumeric (c : Z) : Prop :=
  char_code "0" <= c <= char_code "9" \/
  char_code "a" <= c <= char_code "z" \/
  char_code "A" <= c <= char_code "Z".

Lemma PermChar_value n :
  0 <= n < 62 ->
  exists c, PermChar n = Returned c /\ alphanumeric c /\
    (n < 10 -> c = 48 + n) /\ (10 <= n < 36 -> c = 87 + n) /\
    (36 <= n -> c = 29 + n).
Proof.
  intros Hn. unfold PermChar, alphanumeric.
  change (char_code "0") with 48. change (char_code "9") with 57.
  change (char_code "a") with 97. change (char_code "z") with 122.
  change (char_code "A") with 65. change (char_code "Z") with 90.
  destruct (Z.ltb_spec n 10); [|destruct (Z.ltb_spec n 36);
    [|destruct (Z.ltb_spec n 62); [|lia]]];
    eexists; (split; [reflexivity|]); (split; [lia|]); repeat split; lia.
Qed.

(** X11: [PermChar] gives the 62 numbers from 0 to 61 different characters,
    all of them digits or letters: the digits, then the small letters, then
    the capitals. From 62 on it ends the process; a negative number is not
    refused, it gives the character that many places before the digit 0. *)
Theorem PermChar_injective :
  (forall n, 0 <= n < 62 ->
     exists c, PermChar n = Returned c /\ alphanumeric c) /\
  (forall n m, 0 <= n < 62 -> 0 <= m < 62 -> PermChar n = PermChar m -> n = m) /\
  (forall n, 62 <= n -> PermChar n = Exited) /\
  (forall n, n < 0 -> PermChar n = Returned (char_code "0" + n)).
Proof.
  split; [|split; [|split]].
  - intros n Hn. destruct (PermChar_value n Hn) as (c & E & A & _).
    exists c. split; assumption.
  - intros n m Hn Hm E.
    destruct (PermChar_value n Hn) as (c & En & _ & N1 & N2 & N3).
    destruct (PermChar_value m Hm) as (c' & Em & _ & M1 & M2 & M3).
    rewrite En, Em in E. injection E as <-. lia.
  - intros n Hn. unfold PermChar.
    destruct (Z.ltb_spec n 10); [lia|]. destruct (Z.ltb_spec n 36); [lia|].
    destruct (Z.ltb_spec n 62); [lia|]. reflexivity.
  - intros n Hn. unfold PermChar. destruct (Z.ltb_spec n 10); [reflexivity|lia].
Qed.

Lemma Perm_String_loop (p : nat -> Z) (s : nat -> Z) (cnt : nat) :
  (forall i, (i < cnt)%nat -> 0 <= p i < 62) ->
  exists s', for_upR 0 cnt (fun i s =>
               do c <- PermChar (p i); Returned (upd s i c)) s = Returned s' /\
    (forall i, (i < cnt)%nat -> PermChar (p i) = Returned (s' i)) /\
    (forall i, (cnt <= i)%nat -> s' i = s i).
Proof.
  induction cnt as [|k IH]; intros Hp.
  - exists s. split; [reflexivity|]. split; [intros; lia|reflexivity].
  - destruct IH as (s1 & E1 & H1 & H2); [intros i Hi; apply Hp; lia|].
    destruct (PermChar_value (p k) (Hp k ltac:(lia))) as (c & Ec & _).
    exists (upd s1 k c). split; [|split].
    + rewrite (for_upR_split _ k 0 (Datatypes.S k) s) by lia.
      rewrite E1. replace (Datatypes.S k - k)%nat with 1%nat by lia.
      simpl. rewrite Ec. reflexivity.
    + intros i Hi. destruct (Nat.eq_dec i k) as [->|Hne].
      * now rewrite upd_same.
      * rewrite upd_other by assumption. apply H1. lia.
    + intros i Hi. rewrite upd_other by lia. apply H2. lia.
Qed.

Lemma Perm_String_loop_exit (p : nat -> Z) (cnt : nat) : forall lo (s : nat -> Z),
  (forall i, (lo <= i < lo + cnt)%nat -> 0 <= p i) ->
  (exists i, (lo <= i < lo + cnt)%nat /\ 62 <= p i) ->
  for_upR lo cnt (fun i s =>
    do c <- PermChar (p i); Returned (upd s i c)) s = Exited.
Proof.
  induction cnt as [|k IH]; intros lo s Hp (i & Hi & Hbig); [lia|].
  simpl. unfold PermChar at 1.
  pose proof (Hp lo ltac:(lia)) as H0.
  destruct (Z.ltb_spec (p lo) 10); simpl.
  { apply IH; [intros j Hj; apply Hp; lia|].
    exists i. split; [|assumption]. destruct (Nat.eq_dec i lo) as [->|]; lia. }
  destruct (Z.ltb_spec (p lo) 36); simpl.
  { apply IH; [intros j Hj; apply Hp; lia|].
    exists i. split; [|assumption]. destruct (Nat.eq_dec i lo) as [->|]; lia. }
  destruct (Z.ltb_spec (p lo) 62); simpl; [|reflexivity].
  apply IH; [intros j Hj; apply Hp; lia|].
  exists i. split; [|assumption]. destruct (Nat.eq_dec i lo) as [->|]; lia.
Qed.

(** X12: for [v < 62] numbers between 0 and 61, [Perm_String] writes their
    [v] characters, none of them 0, and a closing 0, and returns [v]; the
    rest of [s] is left. For [v >= 62] it writes the empty string and
    returns 0, although [PermChar] has a character for each of 62 numbers.
    With a number from 62 on among the [v < 62] it ends the process. *)
Theorem Perm_String_length (p : nat -> Z) (v : Z) (s : nat -> Z) :
  (62 <= v -> Perm_String p v s = Returned (0, upd s 0 0)) /\
  (v < 62 -> (forall i, (i < Z.to_nat v)%nat -> 0 <= p i < 62) ->
   exists s', Perm_String p v s = Returned (Z.max 0 v, s') /\
     (forall i, (i < Z.to_nat v)%nat ->
        PermChar (p i) = Returned (s' i) /\ s' i <> 0) /\
     s' (Z.to_nat v) = 0 /\
     (forall i, (Z.to_nat v < i)%nat -> s' i = s i)) /\
  (v < 62 -> (forall i, (i < Z.to_nat v)%nat -> 0 <= p i) ->
   (exists i, (i < Z.to_nat v)%nat /\ 62 <= p i) ->
   Perm_String p v s = Exited).
Proof.
  unfold Perm_String. split; [|split].
  - intros Hv. destruct (Z.ltb_spec v 62); [lia|]. reflexivity.
  - intros Hv Hp. destruct (Z.ltb_spec v 62); [|lia].
    destruct (Perm_String_loop p s (Z.to_nat v) Hp) as (s1 & E & H1 & H2).
    rewrite E. simpl. eexists. split; [f_equal; f_equal; lia|].
    split; [|split].
    + intros i Hi. rewrite upd_other by lia. split; [now apply H1|].
      destruct (PermChar_value (p i) (Hp i Hi)) as (c & Ec & Ha & _).
      rewrite (H1 i Hi) in Ec. injection Ec as <-.
      unfold alphanumeric in Ha.
      change (char_code "0") with 48 in Ha. change (char_code "a") with 97 in Ha.
      change (char_code "A") with 65 in Ha. lia.
    + apply upd_same.
    + intros i Hi. rewrite upd_other by lia. apply H2. lia.
  - intros Hv Hp Hbig. destruct (Z.ltb_spec v 62); [|lia].
    rewrite Perm_String_loop_exit; [reflexivity| |].
    + intros i Hi. apply Hp. lia.
    + destruct Hbig as (i & Hi & Hb). exists i. split; [lia|assumption].
Qed.

(** ** The normal form of [SL2Z_Make_Poly_NF] *)

Lemma GX_comb n X (G G' : mat) r r1 r2 (x y : Z) c :
  (forall j, (j < n)%nat -> G' r j = x * G r1 j + y * G r2 j) ->
  GX n X G' r c = x * GX n X G r1 c + y * GX n X G r2 c.
Proof.
  intros H. unfold GX. rewrite <- dot_lin. apply dot_ext; [assumption|reflexivity].
Qed.

Lemma GX_neg n X (G G' : mat) r c :
  (forall j, (j < n)%nat -> G' r j = - G r j) ->
  GX n X G' r c = - GX n X G r c.
Proof.
  intros H. rewrite (GX_comb n X G G' r r r (-1) 0 c); [lia|].
  intros j Hj. rewrite H by assumption. lia.
Qed.

Section SL_Line.

Variables (n nv : nat) (X : mat).

(** The loop [while (++i < n) if (NF[i][C]) ...] for the line [L] and the
    column [C]. *)
Lemma SL_clear_loop L C (N0 : nat) (Sm NF1 : mat) :
  (L < n)%nat ->
  (forall r, (r < n)%nat -> NF1 r C = GX n X Sm r C) ->
  ((N0 = 0%nat -> NF1 L C = 0) /\ (N0 <> 0%nat -> NF1 L C <> 0)) ->
  forall N2 Sm2 NF2,
  for_up (L + 1) (n - (L + 1)) (SL_clear n L C) (N0, Sm, NF1) = (N2, Sm2, NF2) ->
  (forall r, (r < n)%nat -> NF2 r C = GX n X Sm2 r C) /\
  (forall r, (L < r < n)%nat -> NF2 r C = 0) /\
  (forall r c, c <> C \/ (r < L)%nat \/ (n <= r)%nat -> NF2 r c = NF1 r c) /\
  (forall c, (forall r, (L <= r < n)%nat -> GX n X Sm r c = 0) ->
     forall r, (r < n)%nat -> GX n X Sm2 r c = GX n X Sm r c) /\
  (forall r j, (r < L)%nat -> Sm2 r j = Sm r j) /\
  ((N2 = 0%nat -> NF2 L C = 0) /\ (N2 <> 0%nat -> NF2 L C <> 0)).
Proof.
  intros HL H1 H6 N2 Sm2 NF2 Eloop.
  pose (Inv := fun (i : nat) (st : nat * mat * mat) =>
    let '(N2, Sm2, NF2) := st in
    (forall r, (r < n)%nat -> NF2 r C = GX n X Sm2 r C) /\
    (forall r, (L < r < i)%nat -> NF2 r C = 0) /\
    (forall r c, c <> C \/ (r < L)%nat \/ (n <= r)%nat -> NF2 r c = NF1 r c) /\
    (forall c, (forall r, (L <= r < n)%nat -> GX n X Sm r c = 0) ->
       forall r, (r < n)%nat -> GX n X Sm2 r c = GX n X Sm r c) /\
    (forall r j, (r < L)%nat -> Sm2 r j = Sm r j) /\
    ((N2 = 0%nat -> NF2 L C = 0) /\ (N2 <> 0%nat -> NF2 L C <> 0))).
  pose proof (for_up_inv Inv (SL_clear n L C) (n - (L + 1)) (L + 1)
                (N0, Sm, NF1)) as H.
  replace (L + 1 + (n - (L + 1)))%nat with n in H by lia.
  rewrite Eloop in H. apply H; clear H Eloop.
  - unfold Inv. split; [exact H1|]. split; [intros; lia|].
    split; [reflexivity|]. split; [reflexivity|]. split; [reflexivity|exact H6].
  - intros i [[N' Sm'] NF'] Hi (I1 & I2 & I3 & I4 & I5 & I6 & I7).
    unfold SL_clear, Inv.
    destruct (Z.eqb_spec (NF' i C) 0) as [E|E]; cbn [negb].
    { split; [exact I1|]. split.
      - intros r Hr. destruct (Nat.eq_dec r i) as [->|]; [exact E|apply I2; lia].
      - split; [exact I3|]. split; [exact I4|]. split; [exact I5|].
        split; assumption. }
    destruct (Z.eqb_spec (NF' L C) 0) as [EL|EL]; cbn [negb].
    + (* the exchange *)
      destruct (swap_lines_spec n L i Sm') as (W1 & W2 & W3).
      destruct (GX_swap_lines n X L i Sm' C) as (G1 & G2 & G3).
      split; [|split; [|split; [|split; [|split; [|split]]]]].
      * intros r Hr. destruct (Nat.eq_dec r i) as [->|Hri];
          [|destruct (Nat.eq_dec r L) as [->|HrL]].
        -- rewrite upd2_same, G2. now apply I1.
        -- rewrite upd2_other by lia. rewrite upd2_same, G1. apply I1. lia.
        -- rewrite !upd2_other by lia. rewrite G3 by assumption. now apply I1.
      * intros r Hr. destruct (Nat.eq_dec r i) as [->|Hri].
        -- rewrite upd2_same. exact EL.
        -- rewrite !upd2_other by lia. apply I2. lia.
      * intros r c Hrc. rewrite !upd2_other by lia. now apply I3.
      * intros c Hz r Hr.
        destruct (GX_swap_lines n X L i Sm' c) as (Z1 & Z2 & Z3).
        destruct (Nat.eq_dec r i) as [->|Hri];
          [|destruct (Nat.eq_dec r L) as [->|HrL]].
        -- rewrite Z2, (I4 c Hz) by lia. rewrite !Hz by lia. reflexivity.
        -- rewrite Z1, (I4 c Hz) by lia. rewrite !Hz by lia. reflexivity.
        -- rewrite Z3 by assumption. now apply I4.
      * intros r j Hr. rewrite W3 by lia. now apply I5.
      * intros; lia.
      * intros _. rewrite upd2_other by lia. now rewrite upd2_same.
    + (* the combination of the two lines *)
      rewrite SL_Egcd_eq.
      pose proof (GL_Egcd_spec (NF' L C) (NF' i C) E) as Hegcd.
      destruct (GL_Egcd (NF' L C) (NF' i C)) as [[g a] b].
      destruct Hegcd as (Hg & Hbez & DL & Di).
      destruct (SL_pair_spec n L i a b (Z.quot (NF' L C) g) (Z.quot (NF' i C) g)
                  Sm' ltac:(lia)) as (P1 & P2 & P3).
      cbv zeta in P1, P2, P3.
      match type of P3 with forall r j, _ -> ?t r j = _ =>
        set (Sm3 := t) in * end.
      pose proof (quot_exact_l (NF' L C) g Hg DL) as Q0.
      pose proof (quot_exact_l (NF' i C) g Hg Di) as Q1.
      assert (GL_ : forall c, GX n X Sm3 L c
                      = a * GX n X Sm' L c + b * GX n X Sm' i c).
      { intros c. apply GX_comb. exact P1. }
      assert (Gi_ : forall c, GX n X Sm3 i c
                      = Z.quot (NF' L C) g * GX n X Sm' i c
                        + (- Z.quot (NF' i C) g) * GX n X Sm' L c).
      { intros c. apply GX_comb. intros j Hj. rewrite P2 by assumption. ring. }
      assert (Go_ : forall r c, r <> L -> r <> i ->
                      GX n X Sm3 r c = GX n X Sm' r c).
      { intros r c HrL Hri. apply GX_ext. intros j Hj. apply P3. now left. }
      split; [|split; [|split; [|split; [|split; [|split]]]]].
      * intros r Hr. destruct (Nat.eq_dec r i) as [->|Hri];
          [|destruct (Nat.eq_dec r L) as [->|HrL]].
        -- rewrite upd2_same, Gi_, <- !I1 by lia.
           rewrite <- Q0 at 2. rewrite <- Q1 at 1. ring.
        -- rewrite upd2_other by lia. rewrite upd2_same, GL_, <- !I1 by lia.
           symmetry. exact Hbez.
        -- rewrite !upd2_other by lia. rewrite Go_ by assumption. now apply I1.
      * intros r Hr. destruct (Nat.eq_dec r i) as [->|Hri].
        -- now rewrite upd2_same.
        -- rewrite !upd2_other by lia. apply I2. lia.
      * intros r c Hrc. rewrite !upd2_other by lia. now apply I3.
      * intros c Hz r Hr.
        destruct (Nat.eq_dec r i) as [->|Hri];
          [|destruct (Nat.eq_dec r L) as [->|HrL]].
        -- rewrite Gi_, !(I4 c Hz) by lia. rewrite !Hz by lia. lia.
        -- rewrite GL_, !(I4 c Hz) by lia. rewrite !Hz by lia. lia.
        -- rewrite Go_ by assumption. now apply I4.
      * intros r j Hr. rewrite P3 by lia. now apply I5.
      * intros; lia.
      * intros _. rewrite upd2_other by lia. now rewrite upd2_same.
Qed.


(** The change of sign of the line [L]. *)
Lemma SL_sign_step L C (Sm2 NF2 Sm3 NF3 : mat) :
  (L < n)%nat -> NF2 L C <> 0 ->
  (forall i c, (i < n)%nat -> (c <= C)%nat -> NF2 i c = GX n X Sm2 i c) ->
  (forall c, (c < C)%nat -> NF2 L c = 0) ->
  (if NF2 L C <? 0
   then (negate_line n L Sm2, upd2 NF2 L C (NF2 L C * -1))
   else (Sm2, NF2)) = (Sm3, NF3) ->
  0 < NF3 L C /\
  (forall i c, (i < n)%nat -> (c <= C)%nat -> NF3 i c = GX n X Sm3 i c) /\
  (forall i c, i <> L \/ c <> C -> NF3 i c = NF2 i c) /\
  (forall r j, (r < L)%nat -> Sm3 r j = Sm2 r j).
Proof.
  intros HL Hnz Hprod Hrow H.
  destruct (Z.ltb_spec (NF2 L C) 0) as [Hneg|Hpos]; injection H as <- <-.
  - destruct (negate_line_spec n L Sm2) as [N1 N2].
    split; [rewrite upd2_same; lia|]. split; [|split].
    + intros i c Hi Hc. destruct (Nat.eq_dec i L) as [->|Hne].
      * rewrite (GX_neg n X Sm2 _ L c N1), <- Hprod by assumption.
        destruct (Nat.eq_dec c C) as [->|Hc'].
        -- rewrite upd2_same. lia.
        -- rewrite upd2_other by (now right). rewrite Hrow by lia. reflexivity.
      * rewrite upd2_other by (now left). rewrite Hprod by assumption.
        apply GX_ext. intros j Hj. symmetry. apply N2. now left.
    + intros i c Hic. apply upd2_other. exact Hic.
    + intros r j Hr. apply N2. left. lia.
  - split; [lia|]. split; [exact Hprod|]. split; reflexivity.
Qed.

(** The reduction of the entries above [NF[L][C]]. *)
Lemma SL_reduce_step L C (Sm3 NF3 Sm4 NF4 : mat) :
  (L < n)%nat -> 0 < NF3 L C ->
  (forall i c, (i < n)%nat -> (c <= C)%nat -> NF3 i c = GX n X Sm3 i c) ->
  (forall c, (c < C)%nat -> NF3 L c = 0) ->
  reduce_above n L C (NF3, Sm3) = (NF4, Sm4) ->
  (forall i c, (i < n)%nat -> (c <= C)%nat -> NF4 i c = GX n X Sm4 i c) /\
  (forall i c, (L <= i)%nat \/ c <> C -> NF4 i c = NF3 i c) /\
  (forall i, (i < L)%nat -> 0 <= NF4 i C < NF4 L C).
Proof.
  intros HL Hpos Hprod Hrow H.
  pose proof (reduce_above_spec n L C NF3 Sm3 Hpos) as Hred.
  rewrite H in Hred. destruct Hred as (R1 & R2 & R3 & R4).
  split; [|split].
  - intros r c Hr Hc. destruct (Nat.lt_ge_cases r L) as [Hlt|Hge].
    + rewrite (GX_sub_line n X Sm3 Sm4 r L (NF3 r C / NF3 L C) c)
        by (intros j Hj; apply R3; assumption).
      rewrite <- !Hprod by lia.
      destruct (Nat.eq_dec c C) as [->|Hne].
      * rewrite R1 by assumption. rewrite Z.mod_eq by lia. lia.
      * rewrite R2 by (now right). rewrite (Hrow c) by lia. lia.
    + rewrite R2 by (now left). rewrite Hprod by assumption.
      apply GX_ext. intros j Hj. symmetry. apply R4. now left.
  - exact R2.
  - intros i Hi. rewrite R1 by assumption. rewrite (R2 L C) by (now left).
    apply Z.mod_pos_bound. assumption.
Qed.

(** The loop [while (!N)] for the line [L]: it stops at the first column
    from [C] on in which a line [L <= i < n] of [S X] is not 0. *)
Lemma SL_find_col_inv L : forall fuel C (Sm NF : mat) C' (Sm' NF' : mat),
  (L < n)%nat ->
  (forall i c, (i < n)%nat -> (c < C)%nat -> NF i c = GX n X Sm i c) ->
  (forall i c, (C <= c)%nat -> NF i c = 0) ->
  (forall i c, (L <= i < n)%nat -> (c < C)%nat -> NF i c = 0) ->
  SL_find_col fuel n L X C Sm NF = Some (C', Sm', NF') ->
  (C <= C' < C + fuel)%nat /\
  (forall i c, (i < n)%nat -> (c <= C')%nat -> NF' i c = GX n X Sm' i c) /\
  (forall i c, (C' < c)%nat -> NF' i c = 0) /\
  (forall i c, (L < i < n)%nat -> (c <= C')%nat -> NF' i c = 0) /\
  (forall c, (c < C')%nat -> NF' L c = 0) /\
  0 < NF' L C' /\
  (forall i, (i < L)%nat -> 0 <= NF' i C' < NF' L C') /\
  (forall i c, (c < C)%nat -> NF' i c = NF i c).
Proof.
  induction fuel as [|k IH]; intros C Sm NF C' Sm' NF' HL A B Cz H;
    [discriminate|].
  simpl in H.
  destruct (NF_add_col_spec n Sm X C NF) as [A1 A2].
  set (NF1 := NF_add_col n Sm X C NF) in *.
  assert (H1 : forall r, (r < n)%nat -> NF1 r C = GX n X Sm r C).
  { intros r Hr. rewrite A1 by assumption. rewrite B by lia. unfold GX. lia. }
  set (N0 := if negb (NF1 L C =? 0) then 1%nat else 0%nat) in *.
  assert (H6 : (N0 = 0%nat -> NF1 L C = 0) /\ (N0 <> 0%nat -> NF1 L C <> 0)).
  { unfold N0. destruct (Z.eqb_spec (NF1 L C) 0); simpl; split; intros; lia. }
  match type of H with context [@for_up ?T (L + 1) ?cnt ?b ?s] =>
    destruct (@for_up T (L + 1) cnt b s) as [[N2 Sm2] NF2] eqn:Ec end.
  pose proof (SL_clear_loop L C N0 Sm NF1 HL H1 H6 N2 Sm2 NF2 Ec) as Hclear.
  destruct Hclear as (K1 & K2 & K3 & K4 & K5 & K6 & K7).
  assert (Hz : forall c, (c < C)%nat ->
                 forall r, (L <= r < n)%nat -> GX n X Sm r c = 0).
  { intros c Hc r Hr. rewrite <- A by lia. apply Cz; assumption. }
  assert (P2 : forall i c, (i < n)%nat -> (c <= C)%nat ->
                 NF2 i c = GX n X Sm2 i c).
  { intros i c Hi Hc. destruct (Nat.eq_dec c C) as [->|Hne].
    - now apply K1.
    - rewrite K3 by (now left). rewrite A2 by (now right).
      rewrite A by lia. symmetry. apply K4; [apply Hz; lia|assumption]. }
  assert (Hold : forall i c, c <> C -> NF2 i c = NF i c).
  { intros i c Hc. rewrite K3 by (now left). apply A2. now right. }
  destruct (Nat.eqb_spec N2 0) as [EN|EN].
  - (* the column is 0 from the line [L] on *)
    specialize (K6 EN). simpl in H.
    destruct (Z.ltb_spec (NF2 L C) 0) as [?|_]; [lia|].
    apply IH in H; try assumption.
    + destruct H as (B1 & B2 & B3 & B4 & B5 & B6 & B7 & B8).
      split; [lia|]. split; [exact B2|]. split; [exact B3|].
      split; [exact B4|]. split; [exact B5|]. split; [exact B6|].
      split; [exact B7|].
      intros i c Hc. rewrite B8 by lia. apply Hold. lia.
    + intros i c Hi Hc. apply P2; [assumption|lia].
    + intros i c Hc. rewrite Hold by lia. apply B. lia.
    + intros i c Hi Hc. destruct (Nat.eq_dec c C) as [->|Hne].
      * destruct (Nat.eq_dec i L) as [->|]; [exact K6|apply K2; lia].
      * rewrite Hold by assumption. apply Cz; [assumption|lia].
  - specialize (K7 EN). simpl in H.
    assert (Hrow : forall c, (c < C)%nat -> NF2 L c = 0).
    { intros c Hc. rewrite Hold by lia. apply Cz; lia. }
    destruct (if NF2 L C <? 0
              then (negate_line n L Sm2, upd2 NF2 L C (NF2 L C * -1))
              else (Sm2, NF2)) as [Sm3 NF3] eqn:Esign.
    destruct (SL_sign_step L C Sm2 NF2 Sm3 NF3 HL K7 P2 Hrow Esign)
      as (S1 & S2 & S3 & _).
    destruct (reduce_above n L C (NF3, Sm3)) as [NF4 Sm4] eqn:Ered.
    injection H as <- <- <-.
    assert (Hrow3 : forall c, (c < C)%nat -> NF3 L c = 0).
    { intros c Hc. rewrite S3 by (right; lia). now apply Hrow. }
    destruct (SL_reduce_step L C Sm3 NF3 Sm4 NF4 HL S1 S2 Hrow3 Ered)
      as (R1 & R2 & R3).
    split; [lia|]. split; [exact R1|]. split; [|split; [|split; [|split; [|split]]]].
    + intros i c Hc. rewrite R2, S3, Hold by lia. apply B. lia.
    + intros i c Hi Hc. rewrite R2, S3 by lia.
      destruct (Nat.eq_dec c C) as [->|Hne]; [apply K2; lia|].
      rewrite Hold by assumption. apply Cz; lia.
    + intros c Hc. rewrite R2 by (now left). now apply Hrow3.
    + rewrite R2 by (now left). exact S1.
    + exact R3.
    + intros i c Hc. rewrite R2, S3, Hold by lia. reflexivity.
Qed.

End SL_Line.

Lemma echelon_upto_cols n L C C' (NF NF' : mat) piv :
  echelon_upto n L C NF piv -> (C <= C')%nat ->
  (forall i c, (c < C)%nat -> NF' i c = NF i c) ->
  echelon_upto n L C' NF' piv.
Proof.
  intros (E1 & E2 & E3) HC Hsame. split; [|split].
  - intros k Hk. specialize (E1 k Hk). lia.
  - exact E2.
  - intros k Hk. destruct (E3 k Hk) as (Q1 & Q2 & Q3 & Q4).
    specialize (E1 k Hk). split; [|split; [|split]].
    + rewrite Hsame by assumption. assumption.
    + intros c Hc. rewrite Hsame by lia. now apply Q2.
    + intros i Hi. rewrite Hsame by assumption. now apply Q3.
    + intros i Hi. rewrite !Hsame by assumption. now apply Q4.
Qed.

Lemma echelon_upto_lines n L L' C (NF : mat) piv :
  echelon_upto n L' C NF piv -> (L <= L')%nat -> echelon_upto n L C NF piv.
Proof.
  intros (E1 & E2 & E3) HL. split; [|split].
  - intros k Hk. apply E1. lia.
  - intros j k Hjk. apply E2. lia.
  - intros k Hk. apply E3. lia.
Qed.

(** A new pivot in the line [L] and the column [C']. *)
Lemma echelon_upto_next n L C C' (NF NF' : mat) piv :
  echelon_upto n L C NF piv -> (C <= C')%nat ->
  (forall i c, (c < C)%nat -> NF' i c = NF i c) ->
  0 < NF' L C' ->
  (forall c, (c < C')%nat -> NF' L c = 0) ->
  (forall i, (L < i < n)%nat -> NF' i C' = 0) ->
  (forall i, (i < L)%nat -> 0 <= NF' i C' < NF' L C') ->
  echelon_upto n (Datatypes.S L) (Datatypes.S C') NF' (upd piv L C').
Proof.
  intros He HC Hsame Hpos Hrow Hbelow Habove.
  pose proof (echelon_upto_cols n L C (Datatypes.S C') NF NF' piv He
                ltac:(lia) Hsame) as (E1 & E2 & E3).
  destruct He as (E1' & _).
  split; [|split].
  - intros k Hk. destruct (Nat.eq_dec k L) as [->|Hne].
    + rewrite upd_same. lia.
    + rewrite upd_other by assumption. apply E1. lia.
  - intros j k Hjk. destruct (Nat.eq_dec k L) as [->|Hne].
    + rewrite upd_same, upd_other by lia. specialize (E1' j ltac:(lia)). lia.
    + rewrite !upd_other by lia. apply E2. lia.
  - intros k Hk. destruct (Nat.eq_dec k L) as [->|Hne].
    + rewrite upd_same. split; [assumption|]. split; [assumption|].
      split; assumption.
    + rewrite upd_other by assumption. apply E3. lia.
Qed.

(** The state of [SL2Z_Make_Poly_NF] before the line [L]. *)
Definition sl_inv (n : nat) (X : mat) (L C : nat) (Sm NF : mat)
  (piv : nat -> nat) : Prop :=
  (forall i c, (i < n)%nat -> (c < C)%nat -> NF i c = GX n X Sm i c) /\
  (forall i c, (C <= c)%nat -> NF i c = 0) /\
  (forall i c, (L <= i < n)%nat -> (c < C)%nat -> NF i c = 0) /\
  echelon_upto n L C NF piv.

Lemma SL_line_inv n nv X L C (Sm NF : mat) piv C2 (Sm2 NF2 : mat) :
  (L < n)%nat -> (C <= nv)%nat -> sl_inv n X L C Sm NF piv ->
  SL_line n nv X L (C, Sm, NF) = Returned (C2, Sm2, NF2) ->
  (C2 <= nv)%nat /\
  sl_inv n X (Datatypes.S L) C2 Sm2 NF2 (upd piv L (C2 - 1)%nat).
Proof.
  intros HL HC (A & B & Cz & He) H. unfold SL_line in H.
  destruct (SL_find_col (nv - C) n L X C Sm NF) as [[[C' Sm' ] NF']|] eqn:Ef;
    [|discriminate].
  injection H as <- <- <-.
  apply (SL_find_col_inv n X L) in Ef; try assumption.
  destruct Ef as (F1 & F2 & F3 & F4 & F5 & F6 & F7 & F8).
  split; [lia|]. simpl. rewrite Nat.sub_0_r.
  split; [|split; [|split]].
  - intros i c Hi Hc. apply F2; [assumption|lia].
  - intros i c Hc. apply F3. lia.
  - intros i c Hi Hc. apply F4; lia.
  - apply (echelon_upto_next n L C C' NF); try assumption; [lia|].
    intros i Hi. apply F4; lia.
Qed.

(** The columns after the pivots of the lines before the last one. *)
Lemma SL_rest_inv n nv X C1 (S1 NF1 : mat) piv1 :
  (2 <= n)%nat -> (C1 <= nv)%nat ->
  sl_inv n X (n - 1) C1 S1 NF1 piv1 ->
  forall L2 (S2 NF2 : mat),
  for_up C1 (nv - C1) (SL_rest n X) ((n - 1)%nat, S1, NF1) = (L2, S2, NF2) ->
  (forall i c, (i < n)%nat -> (c < nv)%nat -> NF2 i c = GX n X S2 i c) /\
  exists piv, echelon_upto n (n - 1) nv NF2 piv /\
    ((forall c, (c < nv)%nat -> NF2 (n - 1)%nat c = 0) \/
     echelon_upto n n nv NF2 piv).
Proof.
  intros Hn HC (A & B & Cz & He) L2 S2 NF2 E.
  pose (Inv := fun (C : nat) (st : nat * mat * mat) =>
    let '(Lr, Sm, NF) := st in
    (forall i c, (i < n)%nat -> (c < C)%nat -> NF i c = GX n X Sm i c) /\
    (forall i c, (C <= c)%nat -> NF i c = 0) /\
    exists piv, echelon_upto n (n - 1) C NF piv /\
      ((Lr = (n - 1)%nat /\ forall c, (c < C)%nat -> NF (n - 1)%nat c = 0) \/
       (Lr = 0%nat /\ echelon_upto n n C NF piv))).
  pose proof (for_up_inv Inv (SL_rest n X) (nv - C1) C1
                ((n - 1)%nat, S1, NF1)) as H.
  rewrite E in H. replace (C1 + (nv - C1))%nat with nv in H by lia.
  destruct H as (R1 & _ & piv & R3 & R4).
  - unfold Inv. split; [exact A|]. split; [exact B|].
    exists piv1. split; [exact He|]. left. split; [reflexivity|].
    intros c Hc. apply Cz; lia.
  - clear E. intros C [[Lr Sm] NF] HCr (I1 & I2 & piv & I3 & I4).
    unfold Inv, SL_rest.
    destruct (NF_add_col_spec n Sm X C NF) as [A1 A2].
    set (NFa := NF_add_col n Sm X C NF) in *.
    assert (Pa : forall i c, (i < n)%nat -> (c <= C)%nat ->
                   NFa i c = GX n X Sm i c).
    { intros i c Hi Hc. destruct (Nat.eq_dec c C) as [->|Hne].
      - rewrite A1 by assumption. rewrite I2 by lia. unfold GX. lia.
      - rewrite A2 by (now right). apply I1; [assumption|lia]. }
    assert (Ba : forall i c, (C < c)%nat -> NFa i c = 0).
    { intros i c Hc. rewrite A2 by (right; lia). apply I2. lia. }
    assert (Olda : forall i c, (c < C)%nat -> NFa i c = NF i c).
    { intros i c Hc. apply A2. right. lia. }
    destruct I4 as [[-> Hzero]|[-> Hfull]].
    + destruct (Nat.eqb_spec (n - 1) 0) as [?|_]; [lia|]. cbn [negb andb].
      destruct (Z.eqb_spec (NFa (n - 1)%nat C) 0) as [Ez|Enz]; cbn [negb].
      * split; [intros i c Hi Hc; apply Pa; [assumption|lia]|].
        split; [intros i c Hc; apply Ba; lia|].
        exists piv. split.
        -- apply (echelon_upto_cols n (n - 1) C _ NF); [assumption|lia|assumption].
        -- left. split; [reflexivity|]. intros c Hc.
           destruct (Nat.eq_dec c C) as [->|Hne]; [exact Ez|].
           rewrite Olda by lia. apply Hzero. lia.
      * assert (Hrow : forall c, (c < C)%nat -> NFa (n - 1)%nat c = 0).
        { intros c Hc. rewrite Olda by assumption. now apply Hzero. }
        destruct (if NFa (n - 1)%nat C <? 0
                  then (negate_line n (n - 1) Sm,
                        upd2 NFa (n - 1) C (NFa (n - 1)%nat C * -1))
                  else (Sm, NFa)) as [Sm3 NF3] eqn:Esign.
        destruct (SL_sign_step n X (n - 1) C Sm NFa Sm3 NF3 ltac:(lia) Enz Pa
                    Hrow Esign) as (S1' & S2' & S3' & _).
        destruct (reduce_above n (n - 1) C (NF3, Sm3)) as [NF4 Sm4] eqn:Ered.
        assert (Hrow3 : forall c, (c < C)%nat -> NF3 (n - 1)%nat c = 0).
        { intros c Hc. rewrite S3' by (right; lia). now apply Hrow. }
        destruct (SL_reduce_step n X (n - 1) C Sm3 NF3 Sm4 NF4 ltac:(lia) S1' S2'
                    Hrow3 Ered) as (R1 & R2 & R3).
        assert (Old4 : forall i c, c <> C -> NF4 i c = NF i c).
        { intros i c Hc. rewrite R2, S3', A2 by (right; lia). reflexivity. }
        split; [intros i c Hi Hc; apply R1; [assumption|lia]|].
        split; [intros i c Hc; rewrite Old4 by lia; apply I2; lia|].
        exists (upd piv (n - 1)%nat C).
        assert (Hnew : echelon_upto n n (Datatypes.S C) NF4
                         (upd piv (n - 1)%nat C)).
        { replace n with (Datatypes.S (n - 1)) at 2 by lia.
          apply (echelon_upto_next n (n - 1) C C NF); try assumption; try lia.
          - intros i c Hc. apply Old4. lia.
          - rewrite R2 by (now left). exact S1'.
          - intros c Hc. rewrite R2 by (now left). now apply Hrow3. }
        split; [|right; split; [reflexivity|exact Hnew]].
        apply (echelon_upto_lines n (n - 1) n); [exact Hnew|lia].
    + cbn [Nat.eqb negb andb].
      split; [intros i c Hi Hc; apply Pa; [assumption|lia]|].
      split; [intros i c Hc; apply Ba; lia|].
      exists piv. split.
      * apply (echelon_upto_cols n (n - 1) C _ NF); [assumption|lia|assumption].
      * right. split; [reflexivity|].
        apply (echelon_upto_cols n n C _ NF); [assumption|lia|assumption].
  - split; [exact R1|]. exists piv. split; [exact R3|].
    destruct R4 as [[_ Hz]|[_ Hf]]; [left; exact Hz|right; exact Hf].
Qed.

Lemma SL2Z_reduce_spec X n nv (NF Sm : mat) :
  (2 <= n)%nat ->
  SL2Z_reduce X n nv = Returned (NF, Sm) ->
  (forall i c, (i < n)%nat -> (c < nv)%nat -> NF i c = GX n X Sm i c) /\
  exists piv, echelon_upto n (n - 1) nv NF piv /\
    ((forall c, (c < nv)%nat -> NF (n - 1)%nat c = 0) \/
     echelon_upto n n nv NF piv).
Proof.
  intros Hn. unfold SL2Z_reduce.
  destruct (fill_spec n nv (fun _ _ => 0) (fun _ _ => 0)) as [Z1 Z2].
  cbv zeta in Z1, Z2.
  set (S0 := for_up 0 n _ _). set (NF0 := for_up 0 n _ _) in *.
  assert (HNF0 : forall i c, NF0 i c = 0).
  { intros i c. destruct (Nat.lt_ge_cases i n); [destruct (Nat.lt_ge_cases c nv)|].
    - now apply Z1.
    - apply Z2. lia.
    - apply Z2. lia. }
  pose proof (for_upR_inv (fun (L : nat) (st : nat * mat * mat) =>
                 let '(C, Sm, NF) := st in
                 (C <= nv)%nat /\ exists piv, sl_inv n X L C Sm NF piv)
                (SL_line n nv X) (n - 1) 0 (0%nat, S0, NF0)) as Hloop.
  destruct (for_upR 0 (n - 1) (SL_line n nv X) (0%nat, S0, NF0))
    as [[[C1 S1] NF1]| |]; [|discriminate|discriminate].
  simpl in Hloop. simpl.
  destruct Hloop as (HC1 & piv1 & Hinv).
  { split; [lia|]. exists (fun _ => 0%nat). split; [intros; lia|].
    split; [intros; apply HNF0|]. split; [intros; lia|].
    split; [intros; lia|]. split; intros; lia. }
  { intros L [[C Sm0] NF'] HL (HC & piv & Hinv).
    destruct (SL_line n nv X L (C, Sm0, NF')) as [[[C2 Sm2] NF2]| |] eqn:El;
      [|exact I|exact I].
    destruct (SL_line_inv n nv X L C Sm0 NF' piv C2 Sm2 NF2 ltac:(lia) HC Hinv El)
      as [HC2 Hnext].
    split; [exact HC2|]. eexists. exact Hnext. }
  destruct (for_up C1 (nv - C1) (SL_rest n X) ((n - 1)%nat, S1, NF1))
    as [[L2 S2] NF2] eqn:Erest.
  intros H. injection H as <- <-.
  exact (SL_rest_inv n nv X C1 S1 NF1 piv1 Hn HC1 Hinv L2 S2 NF2 Erest).
Qed.

Lemma SL2Z_reduce_product X n nv (NF Sm : mat) :
  SL2Z_reduce X n nv = Returned (NF, Sm) ->
  forall i c, (i < n)%nat -> (c < nv)%nat -> NF i c = GX n X Sm i c.
Proof.
  intros H. destruct (Nat.le_gt_cases 2 n) as [Hn|Hn].
  - exact (proj1 (SL2Z_reduce_spec X n nv NF Sm Hn H)).
  - intros i c Hi Hc. assert (n = 1)%nat by lia. subst n.
    assert (i = 0)%nat by lia. subst i.
    destruct (SL2Z_reduce_one_line X nv) as (NF1 & S1 & E & HS & HNF).
    rewrite E in H. injection H as <- <-.
    rewrite HNF by assumption. unfold GX, dot, dot_from. simpl.
    unfold col. rewrite HS. lia.
Qed.

Lemma echelon_upto_window n L nv (NF X' : mat) piv :
  echelon_upto n L nv NF piv -> (L <= n)%nat ->
  (forall i c, (i < n)%nat -> (c < nv)%nat -> X' i c = NF i c) ->
  echelon_upto n L nv X' piv.
Proof.
  intros (E1 & E2 & E3) HL Hw. split; [exact E1|]. split; [exact E2|].
  intros k Hk. destruct (E3 k Hk) as (Q1 & Q2 & Q3 & Q4).
  specialize (E1 k Hk). split; [|split; [|split]].
  - rewrite Hw by lia. assumption.
  - intros c Hc. rewrite Hw by lia. now apply Q2.
  - intros i Hi. rewrite Hw by lia. now apply Q3.
  - intros i Hi. rewrite !Hw by lia. now apply Q4.
Qed.


(** Two lines of rank 1: the second line of the normal form is 0. *)
Definition parallel_rows : mat := mat_of_list [[2; 4; 6]; [3; 6; 9]].

Definition parallel_out : Z * mat * mat :=
  returned_or (0, zero_mat, zero_mat)
    (SL2Z_Make_Poly_NF palp_cfg parallel_rows 2 3).

Lemma parallel_returns :
  SL2Z_Make_Poly_NF palp_cfg parallel_rows 2 3
  = Returned (1, snd (fst parallel_out), snd parallel_out).
Proof. vm_compute. reflexivity. Qed.


(** ** New coordinates for the points *)

Lemma sum_down (m : nat) (a b : vec) (i : nat) (X : vec) :
  let X' := for_down m (fun k X =>
              upd X i (X i + a (k - 1)%nat * b (k - 1)%nat)) X in
  X' i = X i + dot m b a /\ (forall q, q <> i -> X' q = X q).
Proof.
  cbv zeta.
  pose proof (for_down_inv (fun k (X' : vec) =>
    X' i = X i + (dot m b a - dot k b a) /\ (forall q, q <> i -> X' q = X q))
    (fun k X => upd X i (X i + a (k - 1)%nat * b (k - 1)%nat)) m X) as H.
  cbv beta in H. rewrite dot_0, Z.sub_0_r in H. apply H; clear H.
  - split; [lia|reflexivity].
  - intros k X' Hk [H1 H2]. split.
    + rewrite upd_same, H1.
      assert (E : dot k b a
                  = dot (k - 1) b a + b (k - 1)%nat * a (k - 1)%nat).
      { replace k with (Datatypes.S (k - 1)) at 1 by lia. apply dot_S. }
      lia.
    + intros q Hq. rewrite upd_other by assumption. now apply H2.
Qed.

Lemma transform_points_spec n np (Sm : mat) (x : nat -> vec) (X0 : vec) :
  let x' := transform_points n np Sm x X0 in
  (forall j i, (j < np)%nat -> (i < n)%nat -> x' j i = dot n (Sm i) (x j)) /\
  (forall j i, (np <= j)%nat \/ (n <= i)%nat -> x' j i = x j i).
Proof.
  cbv zeta. unfold transform_points.
  pose (Inv := fun (j : nat) (st : (nat -> vec) * vec) =>
    (forall q i, (q < j)%nat -> (i < n)%nat ->
       fst st q i = dot n (Sm i) (x q)) /\
    (forall q i, (j <= q)%nat \/ (n <= i)%nat -> fst st q i = x q i)).
  match goal with |- context [@for_up ?T 0 np ?b ?s] =>
    apply (for_up_inv0 Inv b np s) end; unfold Inv; clear Inv.
  - split; [intros; lia|reflexivity].
  - intros j [x1 X1] Hj [H1 H2]. cbn [fst] in *.
    match goal with |- context [@for_up ?T 0 n ?b X1] =>
      set (X2 := @for_up T 0 n b X1) end.
    assert (HX2 : forall i, (i < n)%nat -> X2 i = dot n (Sm i) (x j)).
    { assert (H : (forall i, (i < n)%nat -> X2 i = dot n (Sm i) (x j)) /\ True);
        [|exact (proj1 H)].
      unfold X2.
      apply (for_up_inv0 (fun k (X' : vec) =>
        (forall i, (i < k)%nat -> X' i = dot n (Sm i) (x j)) /\ True)).
      - split; [intros; lia|exact I].
      - intros k X' Hk [K1 _]. split; [|exact I]. intros i Hi.
        destruct (sum_down n (x1 j) (Sm k) k (upd X' k 0)) as [D1 D2].
        cbv zeta in D1, D2.
        destruct (Nat.eq_dec i k) as [->|Hne].
        + rewrite D1, upd_same. rewrite Z.add_0_l.
          apply dot_ext; [reflexivity|]. intros q Hq. apply H2. left. lia.
        + rewrite D2, upd_other by assumption. apply K1. lia. }
    assert (Hcopy :
      (forall i, (i < n)%nat ->
         for_up 0 n (fun i x => upd2 x j i (X2 i)) x1 j i = X2 i) /\
      (forall q i, q <> j \/ (n <= i)%nat ->
         for_up 0 n (fun i x => upd2 x j i (X2 i)) x1 q i = x1 q i)).
    { apply (for_up_inv0 (fun k (x' : nat -> vec) =>
        (forall i, (i < k)%nat -> x' j i = X2 i) /\
        (forall q i, q <> j \/ (k <= i)%nat -> x' q i = x1 q i))).
      - split; [intros; lia|reflexivity].
      - intros k x' Hk [C1 C2]. split.
        + intros i Hi. destruct (Nat.eq_dec i k) as [->|Hne].
          * now rewrite upd2_same.
          * rewrite upd2_other by (now right). apply C1. lia.
        + intros q i Hq. rewrite upd2_other by lia. apply C2. lia. }
    destruct Hcopy as [C1 C2]. split.
    + intros q i Hq Hi. destruct (Nat.eq_dec q j) as [->|Hne].
      * rewrite C1 by assumption. now apply HX2.
      * rewrite C2 by (now left). apply H1; [lia|assumption].
    + intros q i Hq. rewrite C2 by lia. apply H2. lia.
Qed.

(** What [SL2Z_Make_Poly_NF] has done when its value is not 0. *)
Lemma SL2Z_Make_Poly_NF_done cfg (Vm : mat) n nv r (X1 Sm : mat) :
  SL2Z_Make_Poly_NF cfg Vm n nv = Returned (r, X1, Sm) -> r <> 0 ->
  r = 1 /\
  unimodular_ops n identity_mat Sm /\
  (forall i c, (i < n)%nat -> (c < nv)%nat ->
     Z.abs (dot n (Sm i) (col Vm c)) <= NFX_Limit cfg) /\
  ((2 <= n)%nat ->
   exists piv, echelon_upto n (n - 1) nv (GX n Vm Sm) piv /\
     ((forall c, (c < nv)%nat -> GX n Vm Sm (n - 1)%nat c = 0) \/
      echelon_upto n n nv (GX n Vm Sm) piv)).
Proof.
  unfold SL2Z_Make_Poly_NF.
  destruct (SL2Z_reduce Vm n nv) as [[NF S0]| |] eqn:Er;
    [|discriminate|discriminate].
  simpl.
  pose proof (SL_write_back_spec (NFX_Limit cfg) n nv NF Vm) as Hw.
  destruct (SL_write_back (NFX_Limit cfg) n nv NF Vm) as [X2|X2];
    intros H Hr; injection H as <- <- <-; [|contradiction].
  destruct Hw as [Hw _].
  pose proof (SL2Z_reduce_product Vm n nv NF S0 Er) as Hprod.
  split; [reflexivity|]. split; [exact (SL2Z_reduce_ops Vm n nv NF S0 Er)|].
  split.
  - intros i c Hi Hc. change (dot n (S0 i) (col Vm c)) with (GX n Vm S0 i c).
    rewrite <- Hprod by assumption. now apply Hw.
  - intros Hn.
    destruct (SL2Z_reduce_spec Vm n nv NF S0 Hn Er) as (_ & piv & E1 & E2).
    assert (Hsame : forall i c, (i < n)%nat -> (c < nv)%nat ->
                      GX n Vm S0 i c = NF i c).
    { intros i c Hi Hc. symmetry. now apply Hprod. }
    exists piv. split.
    + apply (echelon_upto_window n (n - 1) nv NF); [assumption|lia|assumption].
    + destruct E2 as [Hz|Hf].
      * left. intros c Hc. rewrite Hsame by lia. now apply Hz.
      * right. apply (echelon_upto_window n n nv NF); [assumption|lia|assumption].
Qed.

(** The matrix of the coordinates of the vertices: the vertex [c] is the
    column [c]. *)
Definition vertex_matrix (P : PolyPointList) (V : VertexNumList) : mat :=
  fun i c => PPL_x P (VNL_v V c) i.


(** A triangle with a point inside. *)
Definition triangle_points : PolyPointList :=
  points_of_list 2 [[3; 1]; [1; 4]; [-2; -3]; [1; 1]].

Definition triangle_vertices : VertexNumList := vertices_of_list [0; 1; 2]%nat.

Definition triangle_out : Z * PolyPointList :=
  returned_or (0, triangle_points)
    (Improve_Coords palp_cfg triangle_points triangle_vertices zero_mat
       (fun _ => 0)).

Lemma triangle_returns :
  Improve_Coords palp_cfg triangle_points triangle_vertices zero_mat (fun _ => 0)
  = Returned (1, snd triangle_out).
Proof. vm_compute. reflexivity. Qed.



Definition triangle_coords : mat := mat_of_list [[3; 1; -2]; [1; 4; -3]].

Definition triangle_NF_out : PolyPointList :=
  returned_or triangle_points
    (Aux_NF_Coord palp_cfg triangle_points triangle_coords
       (idx_of_list [2; 0; 1]%nat) 2 4 3 zero_mat (fun _ => 0)).

Lemma triangle_NF_returns :
  Aux_NF_Coord palp_cfg triangle_points triangle_coords
    (idx_of_list [2; 0; 1]%nat) 2 4 3 zero_mat (fun _ => 0)
  = Returned triangle_NF_out.
Proof. vm_compute. reflexivity. Qed.


(** ** Matrices that are in normal form already *)

Lemma for_upR_progress {S : Type} (P : nat -> S -> Prop)
  (body : nat -> S -> result S) cnt : forall lo s,
  P lo s ->
  (forall i s, (lo <= i < lo + cnt)%nat -> P i s ->
     exists s', body i s = Returned s' /\ P (Datatypes.S i) s') ->
  exists s', for_upR lo cnt body s = Returned s' /\ P (lo + cnt)%nat s'.
Proof.
  induction cnt as [|k IH]; intros lo s H0 Hstep.
  - exists s. rewrite Nat.add_0_r. split; [reflexivity|assumption].
  - destruct (Hstep lo s ltac:(lia) H0) as (s1 & E1 & H1).
    destruct (IH (Datatypes.S lo) s1 H1) as (s2 & E2 & H2).
    { intros i s' Hi. apply Hstep. lia. }
    exists s2. simpl. rewrite E1. simpl. split; [exact E2|].
    now rewrite <- Nat.add_succ_comm.
Qed.

(** [find_col] finds a column when one of the columns left has a non-zero
    entry in a line from [L] on. *)
Lemma find_col_progress n L X G fuel : forall C (NF : mat) W p,
  (exists c i, (C <= c < C + fuel)%nat /\ (L <= i < n)%nat /\
     NF i c + dot n (G i) (col X c) <> 0) ->
  find_col fuel n L X G C NF W p <> None.
Proof.
  induction fuel as [|k IH]; intros C NF W p (c & i & Hc & Hi & Hnz); [lia|].
  simpl.
  destruct (NF_add_col_spec n G X C NF) as [A1 A2].
  pose proof (scan_col_spec n L C (NF_add_col n G X C NF) W p) as Hs.
  destruct (scan_col n L C (NF_add_col n G X C NF) W p) as [[N1 W1] p1].
  destruct Hs as [(_ & _ & Hs3) _].
  destruct (Nat.eqb_spec N1 0) as [E|E]; [|discriminate].
  apply IH. exists c, i.
  destruct (Nat.eq_dec c C) as [->|Hne].
  - exfalso. rewrite <- A1 in Hnz by lia.
    destruct (Hs3 i Hi Hnz) as (j & Hj & _). lia.
  - split; [lia|]. split; [assumption|]. rewrite A2 by (now right). assumption.
Qed.

Lemma GX_identity n X (G : mat) i c :
  (i < n)%nat ->
  (forall j, (j < n)%nat -> G i j = identity_mat i j) ->
  GX n X G i c = X i c.
Proof.
  intros Hi HG. unfold GX. rewrite (dot_unit_l n i); [reflexivity|assumption|].
  intros k Hk. rewrite HG by assumption. unfold identity_mat.
  now rewrite Nat.eqb_sym.
Qed.

Section Fixed.

Variables (n nv : nat) (X : mat) (piv : nat -> nat).
Hypothesis Hech : echelon_upto n n nv X piv.

(** The state of [GLZ_Make_Trian_NF] before the line [L], for a matrix [X]
    in echelon form: [G] is the identity and [NF] is [X] up to the column
    [C]. *)
Definition fixed_inv (L : nat) (st : GLZ_state) : Prop :=
  (forall k, (L <= k < n)%nat -> (gl_C st <= piv k)%nat) /\
  (forall i j, (i < n)%nat -> (j < n)%nat -> gl_G st i j = identity_mat i j) /\
  (forall i c, (i < n)%nat -> (c < gl_C st)%nat -> gl_NF st i c = X i c) /\
  (forall i c, (gl_C st <= c)%nat -> gl_NF st i c = 0).

Lemma echelon_left L i c :
  (L <= i < n)%nat -> (c < piv L)%nat -> X i c = 0.
Proof.
  destruct Hech as (_ & E2 & E3). intros Hi Hc.
  destruct (E3 i ltac:(lia)) as (_ & Q2 & _). apply Q2.
  destruct (Nat.eq_dec i L) as [->|Hne]; [assumption|].
  specialize (E2 L i ltac:(lia)). lia.
Qed.

Lemma GLZ_line_fixed L st :
  (L < n)%nat -> fixed_inv L st ->
  exists st', GLZ_line n nv X L st = Returned st' /\
              fixed_inv (Datatypes.S L) st'.
Proof.
  intros HL (J1 & J2 & J3 & J4).
  destruct Hech as (E1 & E2 & E3).
  destruct (E3 L HL) as (Qpos & Qleft & Qbelow & Qabove).
  pose proof (E1 L HL) as HpL. pose proof (J1 L ltac:(lia)) as HCL.
  set (G := gl_G st) in *. set (NF := gl_NF st) in *. set (C := gl_C st) in *.
  assert (HGX : forall i c, (i < n)%nat -> dot n (G i) (col X c) = X i c).
  { intros i c Hi. apply (GX_identity n X G i c Hi). intros j Hj. now apply J2. }
  unfold GLZ_line. fold G NF C.
  destruct (find_col (nv - C) n L X G C NF (gl_W st) (fun _ => 0%nat))
    as [[[[[C' NF1] N] W1] p]|] eqn:Ef.
  2:{ exfalso. revert Ef. apply find_col_progress.
      exists (piv L), L. split; [lia|]. split; [lia|].
      rewrite HGX, J4 by lia. lia. }
  apply find_col_spec in Ef as (F1 & F2 & (S1 & S2 & S3) & F4 & F5 & F6).
  assert (K0 : forall i c, (i < n)%nat -> (c <= C')%nat -> NF1 i c = X i c).
  { intros i c Hi Hc. destruct (Nat.lt_ge_cases c C) as [Hlt|Hge].
    - rewrite F5 by lia. apply J3; assumption.
    - rewrite F4, HGX, J4 by lia. lia. }
  assert (HC' : C' = piv L).
  { destruct (lt_eq_lt_dec C' (piv L)) as [[Hlt|Heq]|Hgt]; [|assumption|].
    - exfalso. destruct (S1 0%nat F2) as (Hp0 & _ & Hw).
      destruct (S1 0%nat F2) as (_ & Hw0 & _). rewrite Hw0 in Hw.
      apply Hw. rewrite K0 by lia. apply (echelon_left L); [lia|assumption].
    - exfalso. specialize (F6 L (piv L) ltac:(lia) ltac:(lia)).
      rewrite F4, HGX, J4 in F6 by lia. lia. }
  subst C'.
  assert (Hp : forall j, (j < N)%nat -> p j = L).
  { intros j Hj. destruct (S1 j Hj) as (Hpj & Hw & Hnz).
    rewrite Hw, K0 in Hnz by lia.
    destruct (Nat.eq_dec (p j) L) as [|Hne]; [assumption|].
    exfalso. apply Hnz. apply Qbelow. lia. }
  assert (HN : N = 1%nat).
  { destruct (Nat.le_gt_cases N 1) as [|Hgt]; [lia|].
    specialize (S2 0%nat 1%nat ltac:(lia)).
    rewrite (Hp 0%nat), (Hp 1%nat) in S2 by lia. lia. }
  subst N. pose proof (Hp 0%nat ltac:(lia)) as Hp0.
  assert (HW : W1 0%nat = X L (piv L)).
  { destruct (S1 0%nat ltac:(lia)) as (_ & Hw & _).
    rewrite Hw, Hp0. apply K0; lia. }
  unfold GLZ_combine. cbn [Nat.eqb].
  destruct (Z.ltb_spec (W1 0%nat) 0) as [?|_]; [lia|].
  set (M := upd2 (gl_NG st) 0 0 1).
  destruct (NF_set_pivot_spec n L (piv L) (W1 0%nat) NF1 HL) as (P1 & P2 & P3).
  set (NF3 := NF_set_pivot n L (piv L) (W1 0%nat) NF1) in *.
  assert (Hinj : forall j k, (j < k < 1)%nat -> p j <> p k) by (intros; lia).
  destruct (apply_block_spec n 1 p M G Hinj) as [B1 B2].
  set (G1 := apply_block n 1 p M G) in *.
  rewrite Hp0, Nat.eqb_refl.
  assert (HG1 : forall i j, (i < n)%nat -> (j < n)%nat ->
                  G1 i j = identity_mat i j).
  { intros i j Hi Hj. destruct (Nat.eq_dec i L) as [->|Hne].
    - rewrite <- Hp0 at 1. rewrite B1 by lia.
      rewrite (dot_S 0), dot_0. unfold M. rewrite upd2_same, Hp0.
      rewrite J2 by assumption. lia.
    - rewrite B2; [now apply J2|]. left. intros k Hk.
      assert (k = 0)%nat by lia. subst k. lia. }
  assert (Hpiv : 0 < NF3 L (piv L)) by (rewrite P1, HW; assumption).
  pose proof (reduce_above_spec n L (piv L) NF3 G1 Hpiv) as Hred.
  destruct (reduce_above n L (piv L) (NF3, G1)) as [NF4 G3] eqn:Ered.
  destruct Hred as (R1 & R2 & R3 & R4).
  eexists. split; [reflexivity|].
  assert (HNF3 : forall i, (i < n)%nat -> NF3 i (piv L) = X i (piv L)).
  { intros i Hi. destruct (lt_eq_lt_dec i L) as [[Hlt| ->]|Hgt].
    - rewrite P3 by lia. apply K0; lia.
    - now rewrite P1.
    - rewrite P2 by lia. symmetry. apply Qbelow. lia. }
  unfold fixed_inv. simpl. split; [|split; [|split]].
  - intros k Hk. specialize (E2 L k ltac:(lia)). lia.
  - intros i j Hi Hj. destruct (Nat.lt_ge_cases i L) as [Hlt|Hge].
    + rewrite R3 by assumption. rewrite !HNF3 by lia.
      rewrite Z.div_small by (apply Qabove; assumption).
      rewrite HG1 by assumption. lia.
    + rewrite R4 by (now left). now apply HG1.
  - intros i c Hi Hc. destruct (Nat.eq_dec c (piv L)) as [->|Hne].
    + destruct (Nat.lt_ge_cases i L) as [Hlt|Hge].
      * rewrite R1 by assumption. rewrite !HNF3 by lia.
        apply Z.mod_small. now apply Qabove.
      * rewrite R2 by (now left). now apply HNF3.
    + rewrite R2 by (now right). rewrite P3 by (now right). apply K0; lia.
  - intros i c Hc. rewrite R2 by (right; lia). rewrite P3 by (right; lia).
    rewrite F5 by lia. apply J4. lia.
Qed.

End Fixed.

Lemma GLZ_reduce_fixed (X : mat) (n nv : nat) (piv : nat -> nat) :
  echelon_upto n n nv X piv ->
  exists NF G : mat,
    GLZ_reduce X n nv = Returned (NF, G) /\
    (forall i c, (i < n)%nat -> (c < nv)%nat -> NF i c = X i c) /\
    (forall i j, (i < n)%nat -> (j < n)%nat -> G i j = identity_mat i j).
Proof.
  intros Hech. unfold GLZ_reduce, GLZ_reduce_from.
  destruct (fill_spec n n (fun i j => if Nat.eqb i j then 1 else 0)
              (fun _ _ => 0)) as [I1 _].
  destruct (fill_spec n nv (fun _ _ => 0) (fun _ _ => 0)) as [Z1 Z2].
  cbv zeta in I1, Z1, Z2.
  match type of I1 with forall i j, _ -> _ -> ?t i j = _ =>
    set (G0 := t) in * end.
  match type of Z1 with forall i j, _ -> _ -> ?t i j = _ =>
    set (NF0 := t) in * end.
  assert (HNF0 : forall i c, NF0 i c = 0).
  { intros i c. destruct (Nat.lt_ge_cases i n); [destruct (Nat.lt_ge_cases c nv)|].
    - now apply Z1.
    - apply Z2. lia.
    - apply Z2. lia. }
  destruct (for_upR_progress (fixed_inv n X piv) (GLZ_line n nv X) n 0
              (GLZ_State 0 G0 NF0 (fun _ => 0) (fun _ _ => 0)))
    as (st & E & J1 & J2 & J3 & J4).
  { unfold fixed_inv. simpl. split; [intros; lia|]. split; [exact I1|].
    split; [intros; lia|]. intros i c _. apply HNF0. }
  { intros L st HL Hinv. apply (GLZ_line_fixed n nv X piv Hech L st); [lia|exact Hinv]. }
  rewrite E. simpl.
  destruct (add_cols_spec n (gl_G st) X (gl_C st) (nv - gl_C st) (gl_NF st))
    as [A1 A2].
  cbv zeta in A1, A2.
  eexists. eexists. split; [reflexivity|]. split; [|exact J2].
  intros i c Hi Hc. destruct (Nat.lt_ge_cases c (gl_C st)) as [Hlt|Hge].
  - rewrite A2 by lia. now apply J3.
  - rewrite A1 by lia. rewrite J4 by assumption.
    change (dot n (gl_G st i) (col X c)) with (GX n X (gl_G st) i c).
    rewrite GX_identity; [lia|assumption|]. intros j Hj. now apply J2.
Qed.

(** What the last double loop of [GLZ_Make_Trian_NF] leaves when [NF] is
    the matrix [X] itself. *)
Lemma GLZ_write_back_same lim n nv (NF X : mat) :
  (forall i c, (i < n)%nat -> (c < nv)%nat -> NF i c = X i c) ->
  match GLZ_write_back lim n nv NF X with
  | inl X' =>
      (forall a b, X' a b = X a b) /\
      (forall i c, (i < n)%nat -> (c < nv)%nat -> Z.abs (X i c) <= lim)
  | inr X' =>
      (forall a b, X' a b = X a b) /\
      exists i c, (i < n)%nat /\ (c < nv)%nat /\ lim < Z.abs (X i c)
  end.
Proof.
  intros Hsame.
  pose proof (GLZ_write_back_spec lim n nv NF X) as Hw.
  destruct (GLZ_write_back lim n nv NF X) as [X1|X1].
  - destruct Hw as [W1 W2]. split.
    + intros a b. destruct (Nat.lt_ge_cases a n) as [Ha|Ha];
        [destruct (Nat.lt_ge_cases b nv) as [Hb|Hb]|].
      * destruct (W1 a b Ha Hb) as [_ ->]. now apply Hsame.
      * apply W2. lia.
      * apply W2. lia.
    + intros i c Hi Hc. rewrite <- Hsame by assumption. now apply W1.
  - destruct Hw as (i & j & Hi & Hj & Hbig & Hb & Ha). split.
    + intros a b. destruct (Nat.lt_ge_cases b nv) as [Hlt|Hge];
        [|apply Ha; now right].
      destruct (Nat.lt_ge_cases a i) as [Hai|Hai].
      * destruct (Hb a b) as [_ ->]; [left; lia|assumption|].
        apply Hsame; lia.
      * destruct (Nat.eq_dec a i) as [->|Hne];
          [destruct (Nat.lt_ge_cases b j) as [Hbj|Hbj]|].
        -- destruct (Hb i b) as [_ ->]; [right; lia|assumption|].
           apply Hsame; lia.
        -- apply Ha. left. unfold before. lia.
        -- apply Ha. left. unfold before. lia.
    + exists i, j. split; [assumption|]. split; [assumption|].
      rewrite <- Hsame by assumption. assumption.
Qed.

(** X16: a matrix that is in echelon form already, with a pivot in every
    line, is left as it is by [GLZ_Make_Trian_NF], and the transformation
    is the identity. The value is 1 exactly when no entry is beyond
    [NFX_Limit]. *)
Theorem GLZ_Make_Trian_NF_fixed (cfg : config) (X : mat) (n nv : nat)
  (piv : nat -> nat) :
  echelon_upto n n nv X piv ->
  exists r X' G,
    GLZ_Make_Trian_NF cfg X n nv = Returned (r, X', G) /\
    (forall a b, X' a b = X a b) /\
    (forall i j, (i < n)%nat -> (j < n)%nat -> G i j = identity_mat i j) /\
    (r = 1 <->
     forall i c, (i < n)%nat -> (c < nv)%nat -> Z.abs (X i c) <= NFX_Limit cfg).
Proof.
  intros Hech. unfold GLZ_Make_Trian_NF.
  destruct (GLZ_reduce_fixed X n nv piv Hech) as (NF & G & -> & Hsame & HG).
  cbn [bind].
  pose proof (GLZ_write_back_same (NFX_Limit cfg) n nv NF X Hsame) as Hw.
  destruct (GLZ_write_back (NFX_Limit cfg) n nv NF X) as [X1|X1].
  - destruct Hw as [W1 W2]. exists 1, X1, G.
    split; [reflexivity|]. split; [exact W1|]. split; [exact HG|].
    split; [intros _; exact W2|reflexivity].
  - destruct Hw as [W1 (i & c & Hi & Hc & Hbig)]. exists 0, X1, G.
    split; [reflexivity|]. split; [exact W1|]. split; [exact HG|].
    split; [discriminate|]. intros H. specialize (H i c Hi Hc). lia.
Qed.

Definition staircase : mat := mat_of_list [[2; 1; 7]; [0; 3; -4]].

Lemma staircase_echelon : echelon_upto 2 2 3 staircase (idx_of_list [0; 1]%nat).
Proof.
  unfold echelon_upto, staircase, mat_of_list, idx_of_list.
  split; [|split].
  - intros k Hk. destruct k as [|[|k]]; simpl; lia.
  - intros j k Hjk. destruct j as [|j]; destruct k as [|[|k]]; simpl; lia.
  - intros k Hk. destruct k as [|[|k]]; [| |lia]; simpl.
    + split; [lia|]. split; [intros; lia|]. split; [|intros; lia].
      intros i Hi. assert (i = 1)%nat by lia. subst i. reflexivity.
    + split; [lia|]. split; [|split; [intros; lia|]].
      * intros c Hc. assert (c = 0)%nat by lia. subst c. reflexivity.
      * intros i Hi. assert (i = 0)%nat by lia. subst i. simpl. lia.
Qed.

Lemma GLZ_Make_Trian_NF_fixed_witness :
  exists r X' G,
    GLZ_Make_Trian_NF palp_cfg staircase 2 3 = Returned (r, X', G) /\
    (forall a b, X' a b = staircase a b) /\
    (forall i j, (i < 2)%nat -> (j < 2)%nat -> G i j = identity_mat i j) /\
    (r = 1 <->
     forall i c, (i < 2)%nat -> (c < 3)%nat ->
       Z.abs (staircase i c) <= NFX_Limit palp_cfg).
Proof.
  exact (GLZ_Make_Trian_NF_fixed palp_cfg staircase 2 3 _ staircase_echelon).
Defined.

(** X17: [GLZ_Make_Trian_NF] gives the same matrix when it is applied a
    second time: after a call that returned 1, a call on the matrix left in
    [X] returns 1 again, leaves [X] as it is, and its transformation is the
    identity. *)
Theorem GLZ_Make_Trian_NF_idempotent (cfg : config) (X : mat) (n nv : nat)
  (X' G : mat) :
  GLZ_Make_Trian_NF cfg X n nv = Returned (1, X', G) ->
  exists X'' G',
    GLZ_Make_Trian_NF cfg X' n nv = Returned (1, X'', G') /\
    (forall a b, X'' a b = X' a b) /\
    (forall i j, (i < n)%nat -> (j < n)%nat -> G' i j = identity_mat i j).
Proof.
  intros H.
  assert (Hfirst : exists piv, echelon_upto n n nv X' piv /\
            forall i c, (i < n)%nat -> (c < nv)%nat ->
              Z.abs (X' i c) <= NFX_Limit cfg).
  { revert H. unfold GLZ_Make_Trian_NF, GLZ_reduce.
    destruct (GLZ_reduce_from (fun _ => 0) (fun _ _ => 0) X n nv)
      as [[NF G0]| |] eqn:Er; [|discriminate|discriminate].
    simpl.
    pose proof (GLZ_write_back_spec (NFX_Limit cfg) n nv NF X) as Hw.
    destruct (GLZ_write_back (NFX_Limit cfg) n nv NF X) as [X1|X1];
      [|discriminate].
    intros H. injection H as -> ->. destruct Hw as [Hw _].
    apply GLZ_reduce_from_spec in Er as [_ (piv & Hech)].
    exists piv. split.
    - apply (echelon_upto_window n n nv NF); [assumption|lia|].
      intros i c Hi Hc. now apply Hw.
    - intros i c Hi Hc. destruct (Hw i c Hi Hc) as [Hl ->]. exact Hl. }
  destruct Hfirst as (piv & Hech & Hlim).
  unfold GLZ_Make_Trian_NF.
  destruct (GLZ_reduce_fixed X' n nv piv Hech) as (NF & G2 & -> & Hsame & HG).
  cbn [bind].
  pose proof (GLZ_write_back_same (NFX_Limit cfg) n nv NF X' Hsame) as Hw.
  destruct (GLZ_write_back (NFX_Limit cfg) n nv NF X') as [X2|X2].
  - destruct Hw as [W1 _]. exists X2, G2.
    split; [reflexivity|]. split; [exact W1|exact HG].
  - destruct Hw as [_ (i & c & Hi & Hc & Hbig)].
    specialize (Hlim i c Hi Hc). lia.
Qed.

Lemma GLZ_Make_Trian_NF_idempotent_witness :
  exists X'' G',
    GLZ_Make_Trian_NF palp_cfg (snd (fst lattice_out)) 2 3
    = Returned (1, X'', G') /\
    (forall a b, X'' a b = snd (fst lattice_out) a b) /\
    (forall i j, (i < 2)%nat -> (j < 2)%nat -> G' i j = identity_mat i j).
Proof.
  exact (GLZ_Make_Trian_NF_idempotent palp_cfg lattice_rows 2 3 _ _
           lattice_returns).
Defined.

(** ** The triangular form of a list of points *)

(** Filling a matrix column by column. *)
Lemma fill_columns_spec (np n : nat) (f : nat -> nat -> Z) (B : mat) :
  let M := for_up 0 np (fun i U =>
             for_up 0 n (fun j U => upd2 U j i (f i j)) U) B in
  (forall j i, (j < n)%nat -> (i < np)%nat -> M j i = f i j) /\
  (forall j i, (n <= j \/ np <= i)%nat -> M j i = B j i).
Proof.
  cbv zeta.
  apply (for_up_inv0 (fun k (U : mat) =>
    (forall j i, (j < n)%nat -> (i < k)%nat -> U j i = f i j) /\
    (forall j i, (n <= j \/ k <= i)%nat -> U j i = B j i))).
  - split; [intros; lia|reflexivity].
  - intros k U Hk [H1 H2].
    assert (Hcol :
      (forall j, (j < n)%nat ->
         for_up 0 n (fun j U => upd2 U j k (f k j)) U j k = f k j) /\
      (forall j i, (n <= j)%nat \/ i <> k ->
         for_up 0 n (fun j U => upd2 U j k (f k j)) U j i = U j i)).
    { apply (for_up_inv0 (fun m (U' : mat) =>
        (forall j, (j < m)%nat -> U' j k = f k j) /\
        (forall j i, (m <= j)%nat \/ i <> k -> U' j i = U j i))).
      - split; [intros; lia|reflexivity].
      - intros m U' Hm [R1 R2]. split.
        + intros j Hj. destruct (Nat.eq_dec j m) as [->|].
          * now rewrite upd2_same.
          * rewrite upd2_other by lia. apply R1. lia.
        + intros j i Hji. rewrite upd2_other by lia. apply R2. lia. }
    destruct Hcol as [R1 R2]. split.
    + intros j i Hj Hi. destruct (Nat.eq_dec i k) as [->|].
      * now apply R1.
      * rewrite R2 by (now right). apply H1; lia.
    + intros j i Hji. rewrite R2 by lia. apply H2. lia.
Qed.


Definition triangle_UT_out : PolyPointList :=
  returned_or triangle_points
    (Make_Poly_UTriang palp_cfg 64 triangle_points zero_mat).

Lemma triangle_UT_returns :
  Make_Poly_UTriang palp_cfg 64 triangle_points zero_mat
  = Returned triangle_UT_out.
Proof. vm_compute. reflexivity. Qed.


(** ** Inverse matrices *)

Lemma is_identity_spec d (X : mat) u :
  is_identity d X = inl u ->
  forall x y, (x < d)%nat -> (y < d)%nat -> X x y = identity_mat x y.
Proof.
  unfold is_identity. intros H.
  pose proof (for_up_brk_inv
    (fun (k : nat) (_ : unit) =>
       forall x y, (x < k)%nat -> (y < d)%nat -> X x y = identity_mat x y)
    (fun _ : unit => True)
    (fun x u => for_up_brk 0 d (fun y u =>
       if negb (X x y =? (if Nat.eqb x y then 1 else 0)) then inr tt else inl u)
       u) d 0 tt) as Hout.
  rewrite H in Hout. apply Hout; clear Hout H.
  - intros; lia.
  - intros x u' Hx IH.
    pose proof (for_up_brk_inv
      (fun (k : nat) (_ : unit) =>
         forall y, (y < k)%nat -> X x y = identity_mat x y)
      (fun _ : unit => True)
      (fun y u => if negb (X x y =? (if Nat.eqb x y then 1 else 0))
                  then inr tt else inl u) d 0 u') as Hin.
    destruct (for_up_brk 0 d _ u') as [u''|[]].
    + intros a b Ha Hb. destruct (Nat.eq_dec a x) as [->|Hne].
      * apply Hin; [intros; lia| |assumption].
        intros y u3 Hy IHy.
        destruct (Z.eqb_spec (X x y) (if Nat.eqb x y then 1 else 0)) as [E|E];
          simpl; [|exact I].
        intros c Hc. destruct (Nat.eq_dec c y) as [->|]; [exact E|apply IHy; lia].
      * apply IH; [lia|assumption].
    + exact I.
Qed.

Definition shear : mat := mat_of_list [[2; 1]; [1; 1]].

Definition shear_inverse : mat :=
  match INV_GLZmatrix palp_cfg shear 2 zero_mat with
  | Returned (Some Ginv) => Ginv
  | _ => zero_mat
  end.

Lemma shear_returns :
  INV_GLZmatrix palp_cfg shear 2 zero_mat = Returned (Some shear_inverse).
Proof. vm_compute. reflexivity. Qed.

(** ** The order of the vertices in [New_pNF_Order] *)

(** A permutation of the numbers below [n]. *)
Definition is_perm (n : nat) (f : nat -> nat) : Prop :=
  (forall j, (j < n)%nat -> (f j < n)%nat) /\
  (forall i j, (i < n)%nat -> (j < n)%nat -> f i = f j -> i = j).

Lemma swap_cells {A : Type} (a : nat -> A) i j k :
  upd (upd a i (a j)) j (a i) k
  = if Nat.eqb k j then a i else if Nat.eqb k i then a j else a k.
Proof. reflexivity. Qed.

Lemma is_perm_swap n f i j :
  is_perm n f -> (i < n)%nat -> (j < n)%nat -> is_perm n (swap f i j).
Proof.
  intros [Hr Hinj] Hi Hj. unfold swap. split.
  - intros k Hk. rewrite swap_cells.
    destruct (Nat.eqb k j); [auto|]. destruct (Nat.eqb k i); auto.
  - intros a b Ha Hb. rewrite !swap_cells.
    destruct (Nat.eqb_spec a j) as [Eaj|Naj], (Nat.eqb_spec b j) as [Ebj|Nbj],
             (Nat.eqb_spec a i) as [Eai|Nai], (Nat.eqb_spec b i) as [Ebi|Nbi];
      intros E; try congruence; apply Hinj in E; try assumption; congruence.
Qed.

(** The sum of the column [i] of the [f] lines of [M]. *)
Definition col_sum (f : nat) (M : mat) (i : nat) : Z :=
  for_up 0 f (fun j s => s + M j i) 0.

(** The order of [New_pNF_Order] on the pairs of a maximum and a sum. *)
Definition key_le (maxP sumP : vec) (a b : nat) : Prop :=
  maxP a < maxP b \/ (maxP a = maxP b /\ sumP a <= sumP b).

Lemma key_le_refl maxP sumP a : key_le maxP sumP a a.
Proof. right. split; [reflexivity|lia]. Qed.

Lemma key_le_trans maxP sumP a b c :
  key_le maxP sumP a b -> key_le maxP sumP b c -> key_le maxP sumP a c.
Proof. unfold key_le. lia. Qed.

(** The first loop: the maximum (or 0) and the sum of every column. *)
Lemma pNF_keys_spec (v f : nat) (M : mat) (st0 : vec * vec * (nat -> nat))
  (maxP sumP : vec) (pi : nat -> nat) :
    for_up 0 v (fun i '(maxP, sumP, pi) =>
      let pi := upd pi i i in
      let sumP := upd sumP i 0 in
      let maxP := upd maxP i 0 in
      let '(maxP, sumP) :=
        for_up 0 f (fun j '(maxP, sumP) =>
          let sumP := upd sumP i (sumP i + M j i) in
          let maxP := if M j i >? maxP i then upd maxP i (M j i)
                      else maxP in
          (maxP, sumP)) (maxP, sumP) in
      (maxP, sumP, pi)) st0 = (maxP, sumP, pi) ->
  forall i, (i < v)%nat ->
    pi i = i /\ sumP i = col_sum f M i /\
    0 <= maxP i /\ (forall j, (j < f)%nat -> M j i <= maxP i) /\
    (maxP i = 0 \/ exists j, (j < f)%nat /\ M j i = maxP i).
Proof.
  pose (Good := fun (maxP sumP : vec) (pi : nat -> nat) (i : nat) =>
    pi i = i /\ sumP i = col_sum f M i /\
    0 <= maxP i /\ (forall j, (j < f)%nat -> M j i <= maxP i) /\
    (maxP i = 0 \/ exists j, (j < f)%nat /\ M j i = maxP i)).
  intros E.
  match type of E with @for_up ?T 0 v ?b ?s = _ =>
    pose proof (for_up_inv0 (fun (k : nat) (st : T) =>
      let '(maxP, sumP, pi) := st in
      forall i, (i < k)%nat -> Good maxP sumP pi i) b v s) as H
  end.
  rewrite E in H. apply H; clear H E.
  - destruct st0 as [[? ?] ?]. intros; lia.
  - intros k [[maxP1 sumP1] pi1] Hk IH. cbv beta iota zeta.
    match goal with |- context [@for_up ?T 0 f ?bd ?ini] =>
      pose proof (for_up_inv0 (fun (m : nat) (st : T) =>
        let '(maxP2, sumP2) := st in
        sumP2 k = for_up 0 m (fun j s => s + M j k) 0 /\
        0 <= maxP2 k /\ (forall j, (j < m)%nat -> M j k <= maxP2 k) /\
        (maxP2 k = 0 \/ exists j, (j < m)%nat /\ M j k = maxP2 k) /\
        (forall i, i <> k -> maxP2 i = maxP1 i /\ sumP2 i = sumP1 i)) bd f ini)
        as Hin;
      destruct (@for_up T 0 f bd ini) as [maxP2 sumP2]
    end.
    destruct Hin as (I1 & I2 & I3 & I4 & I5).
    + rewrite !upd_same. split; [reflexivity|]. split; [lia|].
      split; [intros; lia|]. split; [now left|].
      intros i Hi. now rewrite !upd_other by assumption.
    + intros m [maxP3 sumP3] Hm (K1 & K2 & K3 & K4 & K5).
      assert (Hsum : upd sumP3 k (sumP3 k + M m k) k
                     = for_up 0 (Datatypes.S m) (fun j s => s + M j k) 0).
      { rewrite upd_same, for_up_last, K1. reflexivity. }
      destruct (Z.gtb_spec (M m k) (maxP3 k)) as [Hgt|Hle].
      * split; [exact Hsum|]. rewrite upd_same. split; [lia|]. split; [|split].
        -- intros j Hj. destruct (Nat.eq_dec j m) as [->|]; [lia|].
           specialize (K3 j ltac:(lia)). lia.
        -- right. exists m. split; [lia|reflexivity].
        -- intros i Hi. rewrite !upd_other by assumption. now apply K5.
      * split; [exact Hsum|]. split; [exact K2|]. split; [|split].
        -- intros j Hj. destruct (Nat.eq_dec j m) as [->|]; [lia|].
           apply K3. lia.
        -- destruct K4 as [|(j & Hj & E)]; [now left|].
           right. exists j. split; [lia|assumption].
        -- intros i Hi. rewrite upd_other by assumption. now apply K5.
    + intros i Hi. destruct (Nat.eq_dec i k) as [->|Hne].
      * unfold Good. rewrite upd_same. split; [reflexivity|].
        split; [exact I1|]. split; [exact I2|]. split; assumption.
      * destruct (IH i ltac:(lia)) as (G1 & G2 & G3 & G4 & G5).
        destruct (I5 i Hne) as [Em Es].
        unfold Good. rewrite upd_other, Em, Es by assumption.
        split; [exact G1|]. split; [exact G2|]. split; [exact G3|].
        split; assumption.
Qed.

(** The inner loop of the sort: the place of a least pair from [i] on. *)
Lemma pNF_pick_spec (v i : nat) (maxP sumP : vec) :
  (i < v)%nat ->
  (i <= pNF_pick v i maxP sumP < v)%nat /\
  forall j, (i <= j < v)%nat -> key_le maxP sumP (pNF_pick v i maxP sumP) j.
Proof.
  intros Hi. unfold pNF_pick.
  pose proof (for_up_inv (fun (j n : nat) =>
      (i <= n < j)%nat /\ forall k, (i <= k < j)%nat -> key_le maxP sumP n k)
    (fun j n =>
       if maxP j <? maxP n then j
       else if maxP j =? maxP n then (if sumP j <? sumP n then j else n)
       else n) (v - (i + 1)) (i + 1) i) as H.
  replace (i + 1 + (v - (i + 1)))%nat with v in H by lia.
  apply H; clear H.
  - split; [lia|]. intros k Hk. assert (k = i) by lia. subst k.
    apply key_le_refl.
  - intros j n Hj [Hn Hmin].
    destruct (Z.ltb_spec (maxP j) (maxP n)) as [Hlt|Hge].
    + split; [lia|]. intros k Hk. destruct (Nat.eq_dec k j) as [->|Hne].
      * apply key_le_refl.
      * apply (key_le_trans _ _ j n k); [left; assumption|apply Hmin; lia].
    + destruct (Z.eqb_spec (maxP j) (maxP n)) as [Heq|Hne].
      * destruct (Z.ltb_spec (sumP j) (sumP n)) as [Hs|Hs].
        -- split; [lia|]. intros k Hk. destruct (Nat.eq_dec k j) as [->|Hnk].
           ++ apply key_le_refl.
           ++ apply (key_le_trans _ _ j n k); [right; lia|apply Hmin; lia].
        -- split; [lia|]. intros k Hk. destruct (Nat.eq_dec k j) as [->|Hnk].
           ++ right. lia.
           ++ apply Hmin. lia.
      * split; [lia|]. intros k Hk. destruct (Nat.eq_dec k j) as [->|Hnk].
        -- left. lia.
        -- apply Hmin. lia.
Qed.

(** The sort: the three arrays are permuted alike, and the pairs end in
    increasing order. *)
Lemma pNF_sort_spec (v : nat) (maxP0 sumP0 : vec) (pi0 : nat -> nat)
  (maxP sumP : vec) (pi : nat -> nat) :
  (forall k, (k < v)%nat -> pi0 k = k) ->
  pNF_sort v (maxP0, sumP0, pi0) = (maxP, sumP, pi) ->
  is_perm v pi /\
  (forall k, (k < v)%nat -> maxP k = maxP0 (pi k) /\ sumP k = sumP0 (pi k)) /\
  (forall a b, (a < b < v)%nat -> key_le maxP sumP a b).
Proof.
  intros Hid E. unfold pNF_sort in E.
  match type of E with @for_up ?T 0 _ ?bd ?ini = _ =>
    pose proof (for_up_inv0 (fun (i : nat) (st : T) =>
      let '(maxP, sumP, pi) := st in
      is_perm v pi /\
      (forall k, (k < v)%nat ->
         maxP k = maxP0 (pi k) /\ sumP k = sumP0 (pi k)) /\
      (forall a b, (a < i)%nat -> (a < b < v)%nat -> key_le maxP sumP a b))
      bd (v - 1) ini) as H
  end.
  rewrite E in H. destruct H as (H1 & H2 & H3).
  - split; [|split].
    + split; [intros j Hj; now rewrite Hid|].
      intros i j Hi Hj. rewrite !Hid by assumption. auto.
    + intros k Hk. rewrite Hid by assumption. split; reflexivity.
    + intros; lia.
  - clear E. intros i [[maxP1 sumP1] pi1] Hi (I1 & I2 & I3).
    destruct (pNF_pick_spec v i maxP1 sumP1 ltac:(lia)) as [Hn Hmin].
    set (n := pNF_pick v i maxP1 sumP1) in *.
    destruct (Nat.eqb_spec n i) as [En|En].
    + split; [exact I1|]. split; [exact I2|].
      intros a b Ha Hab. destruct (Nat.eq_dec a i) as [->|Hne].
      * rewrite <- En. apply Hmin. lia.
      * apply I3; lia.
    + split; [apply is_perm_swap; [assumption|lia|lia]|]. split.
      * intros k Hk. unfold swapZ, swap. rewrite !swap_cells.
        destruct (Nat.eqb k n); [apply I2; lia|].
        destruct (Nat.eqb k i); apply I2; lia.
      * intros a b Ha Hab. unfold key_le, swapZ. rewrite !swap_cells.
        destruct (Nat.eqb_spec a n) as [Ean|Nan]; [lia|].
        destruct (Nat.eqb_spec a i) as [Eai|Nai].
        -- subst a. destruct (Nat.eqb_spec b n) as [Ebn|Nbn].
           ++ apply (Hmin i). lia.
           ++ destruct (Nat.eqb_spec b i) as [?|_]; [lia|]. apply Hmin. lia.
        -- assert (Hlt : (a < i)%nat) by lia.
           destruct (Nat.eqb_spec b n) as [Ebn|Nbn].
           ++ apply (I3 a i); lia.
           ++ destruct (Nat.eqb_spec b i) as [Ebi|Nbi].
              ** apply (I3 a n); lia.
              ** apply I3; lia.
  - split; [exact H1|]. split; [exact H2|].
    intros a b Hab. apply H3; lia.
Qed.

(** X20: [New_pNF_Order] applies one permutation [pi] of the vertices to the
    column order [C] of every candidate: [C[j]] becomes [C[pi[j]]]. The
    permutation puts the columns of [VPM_NF] in increasing order of their
    greatest entry (0 for a column without a positive entry) and, among
    columns with the same greatest entry, of the sum of their entries. *)
Theorem New_pNF_Order_sorted (v f : nat) (CL : nat -> PERM) (ns : nat)
  (VPM_NF : mat) :
  exists (maxP : vec) (pi : nat -> nat),
    (forall i, (i < v)%nat ->
       0 <= maxP i /\ (forall j, (j < f)%nat -> VPM_NF j i <= maxP i) /\
       (maxP i = 0 \/ exists j, (j < f)%nat /\ VPM_NF j i = maxP i)) /\
    is_perm v pi /\
    (forall a b, (a < b < v)%nat ->
       key_le maxP (col_sum f VPM_NF) (pi a) (pi b)) /\
    (forall i j, (i < ns)%nat ->
       PERM_C (New_pNF_Order v f CL ns VPM_NF i) j
       = if (j <? v)%nat then PERM_C (CL i) (pi j) else PERM_C (CL i) j) /\
    (forall i, (i < ns)%nat ->
       PERM_L (New_pNF_Order v f CL ns VPM_NF i) = PERM_L (CL i) /\
       PERM_s (New_pNF_Order v f CL ns VPM_NF i) = PERM_s (CL i)) /\
    (forall i, (ns <= i)%nat -> New_pNF_Order v f CL ns VPM_NF i = CL i).
Proof.
  unfold New_pNF_Order.
  match goal with |- context [@for_up ?T 0 v ?bd ?ini] =>
    destruct (@for_up T 0 v bd ini) as [[maxP0 sumP0] pi0] eqn:Ek
  end.
  pose proof (pNF_keys_spec v f VPM_NF _ maxP0 sumP0 pi0 Ek) as Hkeys.
  destruct (pNF_sort v (maxP0, sumP0, pi0)) as [[maxP sumP] pi] eqn:Es.
  destruct (pNF_sort_spec v maxP0 sumP0 pi0 maxP sumP pi
              (fun k Hk => proj1 (Hkeys k Hk)) Es) as (Hperm & Hval & Hsorted).
  exists maxP0, pi.
  split; [intros i Hi; apply Hkeys; assumption|]. split; [exact Hperm|]. split.
  - intros a b Hab. specialize (Hsorted a b Hab). unfold key_le in *.
    destruct (Hval a ltac:(lia)) as [Ma Sa].
    destruct (Hval b ltac:(lia)) as [Mb Sb].
    destruct Hperm as [Hr _].
    rewrite <- (proj1 (proj2 (Hkeys (pi a) (Hr a ltac:(lia))))).
    rewrite <- (proj1 (proj2 (Hkeys (pi b) (Hr b ltac:(lia))))).
    lia.
  - match goal with |- context [@for_up ?T 0 ns ?bd CL] =>
      pose proof (for_up_inv0 (fun (k : nat) (CL' : T) =>
        (forall i j, (i < k)%nat ->
           PERM_C (CL' i) j
           = if (j <? v)%nat then PERM_C (CL i) (pi j) else PERM_C (CL i) j) /\
        (forall i, (i < k)%nat ->
           PERM_L (CL' i) = PERM_L (CL i) /\ PERM_s (CL' i) = PERM_s (CL i)) /\
        (forall i, (k <= i)%nat -> CL' i = CL i)) bd ns CL) as H
    end.
    apply H; clear H.
    + split; [intros; lia|]. split; [intros; lia|reflexivity].
    + intros k CL' Hk (I1 & I2 & I3).
      assert (Hc : forall j, (j < v)%nat ->
        for_up 0 v (fun j c => upd c j (PERM_C (CL' k) (pi j)))
          (fun _ => 0%nat) j = PERM_C (CL' k) (pi j)).
      { assert (H : forall m,
          forall j, (j < m)%nat ->
            for_up 0 m (fun j c => upd c j (PERM_C (CL' k) (pi j)))
              (fun _ => 0%nat) j = PERM_C (CL' k) (pi j)).
        { intros m. apply (for_up_inv0 (fun (m : nat) (c : nat -> nat) =>
            forall j, (j < m)%nat -> c j = PERM_C (CL' k) (pi j))).
          - intros; lia.
          - intros m' c Hm IH j Hj. destruct (Nat.eq_dec j m') as [->|Hne].
            + apply upd_same.
            + rewrite upd_other by assumption. apply IH. lia. }
        apply H. }
      set (c := for_up 0 v _ (fun _ => 0%nat)) in *.
      assert (HC : forall j,
        for_up 0 v (fun j C => upd C j (c j)) (PERM_C (CL' k)) j
        = if (j <? v)%nat then c j else PERM_C (CL' k) j).
      { assert (H : forall m j,
          for_up 0 m (fun j C => upd C j (c j)) (PERM_C (CL' k)) j
          = if (j <? m)%nat then c j else PERM_C (CL' k) j).
        { intros m. apply (for_up_inv0 (fun (m : nat) (C : nat -> nat) =>
            forall j, C j = if (j <? m)%nat then c j else PERM_C (CL' k) j)).
          - intros j. reflexivity.
          - intros m' C Hm IH j. destruct (Nat.eq_dec j m') as [->|Hne].
            + rewrite upd_same. destruct (Nat.ltb_spec m' (Datatypes.S m')); [reflexivity|lia].
            + rewrite upd_other, IH by assumption.
              destruct (Nat.ltb_spec j m'), (Nat.ltb_spec j (Datatypes.S m'));
                try reflexivity; lia. }
        apply H. }
      split; [|split].
      * intros i j Hi. destruct (Nat.eq_dec i k) as [->|Hne].
        -- rewrite upd_same. simpl. rewrite HC.
           destruct (Nat.ltb_spec j v) as [Hj|Hj].
           ++ rewrite Hc by assumption. now rewrite I3 by lia.
           ++ now rewrite I3 by lia.
        -- rewrite upd_other by assumption. apply I1. lia.
      * intros i Hi. destruct (Nat.eq_dec i k) as [->|Hne].
        -- rewrite upd_same. simpl. now rewrite I3 by lia.
        -- rewrite upd_other by assumption. apply I2. lia.
      * intros i Hi. rewrite upd_other by lia. apply I3. lia.
Qed.

(** ** Triangular matrices *)

Module DetTri.
Import ssreflect ssrfun ssrbool eqtype ssrnat seq choice fintype bigop ssralg matrix.
Import GRing.Theory.
Import DetZ.
Local Open Scope ring_scope.

Lemma prod_positive (n : nat) (F : nat -> Z) :
  (forall k, (k < n)%coq_nat -> Z.lt 0 (F k)) ->
  Z.le 1 (\prod_(i < n) F (nat_of_ord i)).
Proof.
elim: n => [|n IH] H; first by rewrite big_ord0.
rewrite big_ord_recr /=.
have H1 : Z.le 1 (\prod_(i < n) F (nat_of_ord i)).
  by apply: IH => k Hk; apply: H; lia.
have H2 : Z.lt 0 (F n) by apply: H; lia.
move: H1 H2; rewrite /GRing.mul /=.
move: (\prod_(i < n) F (nat_of_ord i)) (F n) => a b; nia.
Qed.

Lemma prod_ones (n : nat) (F : nat -> Z) :
  (forall k, (k < n)%coq_nat -> Z.lt 0 (F k)) ->
  \prod_(i < n) F (nat_of_ord i) = 1%Z \/ \prod_(i < n) F (nat_of_ord i) = (-1)%Z ->
  forall k, (k < n)%coq_nat -> F k = 1%Z.
Proof.
elim: n => [|n IH] H; first by move=> _ k Hk; lia.
rewrite big_ord_recr /=.
have H1 : Z.le 1 (\prod_(i < n) F (nat_of_ord i)).
  by apply: prod_positive => k Hk; apply: H; lia.
have H2 : Z.lt 0 (F n) by apply: H; lia.
move=> Hp k Hk.
have [E1 E2] : \prod_(i < n) F (nat_of_ord i) = 1%Z /\ F n = 1%Z.
  move: H1 H2 Hp; rewrite /GRing.mul /=.
  move: (\prod_(i < n) F (nat_of_ord i)) (F n) => a b; nia.
case: (Nat.eq_dec k n) => [->//|Hne].
apply: IH => //; [move=> j Hj; apply: H; lia|by left|lia].
Qed.

(** The determinant of a matrix that is 0 below its diagonal is the product
    of the entries of the diagonal. *)
Lemma det_upper (n : nat) (M : mat) :
  (forall i j, (j < i)%coq_nat -> (i < n)%coq_nat -> M i j = 0%Z) ->
  det n M = \prod_(i < n) M (nat_of_ord i) (nat_of_ord i).
Proof.
move=> H; rewrite /det -det_tr det_trig; last first.
  by apply: eq_bigr => i _; rewrite !mxE.
apply/is_trig_mxP => i j Hij; rewrite !mxE; apply: H; first exact/ltP.
apply/ltP; exact: ltn_ord.
Qed.

Lemma det_upper_ones (n : nat) (M : mat) :
  (forall i j, (j < i)%coq_nat -> (i < n)%coq_nat -> M i j = 0%Z) ->
  (forall k, (k < n)%coq_nat -> Z.lt 0 (M k k)) ->
  det n M = 1%Z \/ det n M = (-1)%Z ->
  forall k, (k < n)%coq_nat -> M k k = 1%Z.
Proof.
move=> Hz Hpos; rewrite (det_upper n M Hz) => Hd.
exact: (prod_ones n (fun k => M k k) Hpos Hd).
Qed.

End DetTri.

(** ** Square matrices of determinant not 0 *)

(** The operations on the lines of [G] are operations on the lines of the
    product [G X]. *)
Lemma row_ops_mul n e (A B X : mat) :
  row_ops n e A B -> row_ops n e (GX n X A) (GX n X B).
Proof.
  intros H. induction H as [A B H|e A B C i k a b c d H IH Hi Hk Hik Ci Ck Co
                           |e A B C i s H IH Hi Ci Co].
  - apply row_ops_refl. intros i c Hi Hc. apply GX_ext.
    intros j Hj. now apply H.
  - apply (row_ops_pair n e _ (GX n X B) _ i k a b c d); try assumption.
    + intros j Hj. apply GX_comb. exact Ci.
    + intros j Hj. apply GX_comb. exact Ck.
    + intros r j Hr Hj Hri Hrk. apply GX_ext. intros j' Hj'. now apply Co.
  - apply (row_ops_scale n e _ (GX n X B) _ i s); try assumption.
    + intros j Hj. rewrite (GX_comb n X B C i i i s 0 j); [lia|].
      intros j' Hj'. rewrite Ci by assumption. lia.
    + intros r j Hr Hj Hri. apply GX_ext. intros j' Hj'. now apply Co.
Qed.

Lemma det_zero_line n (M : mat) L :
  (L < n)%nat -> (forall c, (c < n)%nat -> M L c = 0) -> DetZ.det n M = 0.
Proof.
  intros HL Hz.
  rewrite (DetZ.det_row_ops n (1 * 0) M M); [lia|].
  apply (row_ops_scale n 1 M M M L 0); [apply row_ops_refl, mat_eq_refl|exact HL| |].
  - intros j Hj. rewrite Hz by assumption. lia.
  - reflexivity.
Qed.

Lemma det_product n (G X : mat) :
  unimodular_ops n identity_mat G ->
  DetZ.det n (GX n X G) = DetZ.det n X \/ DetZ.det n (GX n X G) = - DetZ.det n X.
Proof.
  intros (e & He & Hops).
  apply (row_ops_mul n e _ _ X) in Hops.
  rewrite (DetZ.det_row_ops n e _ _ Hops).
  rewrite (DetZ.det_ext n (GX n X identity_mat) X).
  - destruct He as [-> | ->]; [left|right]; lia.
  - intros i c Hi Hc. apply GX_identity; [assumption|reflexivity].
Qed.

(** When [find_col] finds no column, the lines from [L] on are 0 in all the
    columns left. *)
Lemma find_col_None n L X G fuel : forall C (NF : mat) W p,
  find_col fuel n L X G C NF W p = None ->
  forall c i, (C <= c < C + fuel)%nat -> (L <= i < n)%nat ->
    NF i c + dot n (G i) (col X c) = 0.
Proof.
  induction fuel as [|k IH]; intros C NF W p H c i Hc Hi; [lia|].
  simpl in H.
  destruct (NF_add_col_spec n G X C NF) as [A1 A2].
  pose proof (scan_col_spec n L C (NF_add_col n G X C NF) W p) as Hs.
  destruct (scan_col n L C (NF_add_col n G X C NF) W p) as [[N1 W1] p1].
  destruct Hs as [(_ & _ & Hs3) _].
  destruct (Nat.eqb_spec N1 0) as [E|E]; [|discriminate].
  destruct (Nat.eq_dec c C) as [->|Hne].
  - rewrite <- A1 by lia.
    destruct (Z.eq_dec (NF_add_col n G X C NF i C) 0) as [|Hnz]; [assumption|].
    destruct (Hs3 i Hi Hnz) as (j & Hj & _). lia.
  - rewrite <- (A2 i c) by (now right). apply (IH _ _ _ _ H); lia.
Qed.

Section Square.

Variables (n : nat) (X : mat).
Hypothesis Hdet : DetZ.det n X <> 0.

Lemma GLZ_line_progress L st piv :
  (L < n)%nat -> line_inv n n X L st piv ->
  unimodular_ops n identity_mat (gl_G st) ->
  exists st', GLZ_line n n X L st = Returned st'.
Proof.
  intros HL (I0 & I1 & I2 & I3 & I5 & _) Hops.
  unfold GLZ_line.
  destruct (find_col (n - gl_C st) n L X (gl_G st) (gl_C st) (gl_NF st)
               (gl_W st) (fun _ => 0%nat))
    as [[[[[C' NF1] N] W1] p]|] eqn:Ef.
  - destruct (GLZ_combine W1 N (gl_NG st)) as [g M].
    destruct (reduce_above n L C' _) as [NF4 G3]. eexists. reflexivity.
  - exfalso. pose proof (find_col_None _ _ _ _ _ _ _ _ _ Ef) as Hz.
    assert (Hrow : forall c, (c < n)%nat -> GX n X (gl_G st) L c = 0).
    { intros c Hc. destruct (Nat.lt_ge_cases c (gl_C st)) as [Hlt|Hge].
      - rewrite <- I2 by lia. apply I5; lia.
      - specialize (Hz c L ltac:(lia) ltac:(lia)).
        rewrite I3 in Hz by assumption. unfold GX. lia. }
    pose proof (det_zero_line n (GX n X (gl_G st)) L HL Hrow) as H0.
    destruct (det_product n (gl_G st) X Hops) as [E|E]; rewrite H0 in E; lia.
Qed.

Lemma GLZ_reduce_square W0 NG0 :
  exists NF G : mat, GLZ_reduce_from W0 NG0 X n n = Returned (NF, G).
Proof.
  unfold GLZ_reduce_from.
  destruct (fill_spec n n (fun i j => if Nat.eqb i j then 1 else 0)
              (fun _ _ => 0)) as [I1 _].
  destruct (fill_spec n n (fun _ _ => 0) (fun _ _ => 0)) as [Z1 Z2].
  cbv zeta in I1, Z1, Z2.
  match type of I1 with forall i j, _ -> _ -> ?t i j = _ =>
    set (G0 := t) in * end.
  match type of Z1 with forall i j, _ -> _ -> ?t i j = _ =>
    set (NF0 := t) in * end.
  destruct (for_upR_progress
              (fun L st => (exists piv, line_inv n n X L st piv) /\
                           unimodular_ops n identity_mat (gl_G st))
              (GLZ_line n n X) n 0 (GLZ_State 0 G0 NF0 W0 NG0))
    as (st & E & _).
  - split.
    + exists (fun _ => 0%nat). unfold line_inv, echelon_upto. simpl.
      split; [lia|]. split; [lia|]. split; [intros; lia|].
      split; [|split; [intros; lia|]].
      * intros i c _.
        destruct (Nat.lt_ge_cases i n) as [Hi|Hi];
          [destruct (Nat.lt_ge_cases c n) as [Hc|Hc]|].
        -- apply Z1; assumption.
        -- rewrite Z2 by lia. reflexivity.
        -- rewrite Z2 by lia. reflexivity.
      * split; [intros; lia|]. split; intros; lia.
    + simpl. apply unimodular_ops_refl. intros r c Hr Hc. symmetry. now apply I1.
  - intros L st HL [(piv & Hinv) Hops].
    destruct (GLZ_line_progress L st piv ltac:(lia) Hinv Hops) as (st' & El).
    exists st'. split; [exact El|]. split.
    + destruct (GLZ_line_inv n n X L st st' piv ltac:(lia) Hinv El) as [_ Hnext].
      eexists. exact Hnext.
    + eapply unimodular_ops_trans; [exact Hops|].
      apply (GLZ_line_ops n n X L); [lia|exact El].
  - rewrite E. simpl. eexists. eexists. reflexivity.
Qed.

End Square.

(** Pivots in [n] columns for [n] lines are on the diagonal. *)
Lemma pivots_diagonal n (piv : nat -> nat) :
  (forall k, (k < n)%nat -> (piv k < n)%nat) ->
  (forall j k, (j < k < n)%nat -> (piv j < piv k)%nat) ->
  forall k, (k < n)%nat -> piv k = k.
Proof.
  intros Hb Hinc.
  assert (Hge : forall k, (k < n)%nat -> (k <= piv k)%nat).
  { induction k as [|k IH]; intros Hk; [lia|].
    specialize (IH ltac:(lia)). specialize (Hinc k (Datatypes.S k) ltac:(lia)). lia. }
  assert (Hle : forall m k, (k + m = n - 1)%nat -> (k < n)%nat -> (piv k <= k)%nat).
  { induction m as [|m IH]; intros k Hkm Hk.
    - specialize (Hb k Hk). lia.
    - specialize (IH (Datatypes.S k) ltac:(lia) ltac:(lia)).
      specialize (Hinc k (Datatypes.S k) ltac:(lia)). lia. }
  intros k Hk. specialize (Hge k Hk).
  specialize (Hle (n - 1 - k)%nat k ltac:(lia) Hk). lia.
Qed.

(** What [GLZ_reduce] returns for a square matrix: an upper triangular
    matrix. *)
Lemma GLZ_reduce_triangular (X : mat) (n : nat) (NF G : mat) :
  GLZ_reduce X n n = Returned (NF, G) ->
  unimodular_ops n identity_mat G /\
  (forall i c, (i < n)%nat -> (c < n)%nat -> NF i c = GX n X G i c) /\
  (forall i j, (j < i < n)%nat -> NF i j = 0) /\
  (forall k, (k < n)%nat -> 0 < NF k k) /\
  (forall i k, (i < k < n)%nat -> 0 <= NF i k < NF k k) /\
  (DetZ.det n NF = DetZ.det n X \/ DetZ.det n NF = - DetZ.det n X).
Proof.
  unfold GLZ_reduce. intros Er.
  pose proof (GLZ_reduce_from_ops _ _ _ _ _ _ _ Er) as Hops.
  apply GLZ_reduce_from_spec in Er as [Hprod (piv & E1 & E2 & E3)].
  pose proof (pivots_diagonal n piv E1 E2) as Hd.
  split; [exact Hops|]. split; [exact Hprod|]. split; [|split; [|split]].
  - intros i j Hij. destruct (E3 i ltac:(lia)) as (_ & Q2 & _).
    apply Q2. rewrite Hd by lia. lia.
  - intros k Hk. destruct (E3 k Hk) as (Q1 & _). now rewrite Hd in Q1.
  - intros i k Hik. destruct (E3 k ltac:(lia)) as (_ & _ & _ & Q4).
    rewrite Hd in Q4 by lia. apply Q4. lia.
  - rewrite (DetZ.det_ext n NF (GX n X G)) by exact Hprod.
    now apply det_product.
Qed.

Lemma GLZ_write_back_result lim n nv (NF X : mat) :
  match GLZ_write_back lim n nv NF X with
  | inl X' =>
      (forall i j, (i < n)%nat -> (j < nv)%nat -> X' i j = NF i j) /\
      (forall i j, (i < n)%nat -> (j < nv)%nat -> Z.abs (NF i j) <= lim)
  | inr _ => exists i j, (i < n)%nat /\ (j < nv)%nat /\ lim < Z.abs (NF i j)
  end.
Proof.
  pose proof (GLZ_write_back_spec lim n nv NF X) as Hw.
  destruct (GLZ_write_back lim n nv NF X) as [X1|X1].
  - destruct Hw as [W1 _]. split; intros i j Hi Hj; now apply W1.
  - destruct Hw as (i & j & Hi & Hj & Hbig & _). exists i, j. auto.
Qed.


Lemma shear_det : DetZ.det 2 shear = 1.
Proof.
  rewrite (DetZ.det_row_ops 2 (1 * (2 * 1 - 1 * 1)) identity_mat shear).
  - now rewrite DetZ.det_identity.
  - apply (row_ops_pair 2 1 identity_mat identity_mat shear 0 1 2 1 1 1);
      [apply row_ops_refl, mat_eq_refl|lia|lia|discriminate| | |].
    + intros j Hj. destruct j as [|[|j]]; [reflexivity|reflexivity|lia].
    + intros j Hj. destruct j as [|[|j]]; [reflexivity|reflexivity|lia].
    + intros r j Hr Hj H0 H1. lia.
Qed.


Lemma is_identity_complete d (X : mat) :
  (forall x y, (x < d)%nat -> (y < d)%nat -> X x y = identity_mat x y) ->
  is_identity d X = inl tt.
Proof.
  intros H. unfold is_identity.
  assert (Hin : forall x, (x < d)%nat -> forall cnt lo, (lo + cnt <= d)%nat ->
    for_up_brk lo cnt (fun y (u : unit) =>
      if negb (X x y =? (if Nat.eqb x y then 1 else 0)) then inr tt else inl u)
      tt = inl tt).
  { intros x Hx. induction cnt as [|k IH]; intros lo Hlo; [reflexivity|].
    simpl. rewrite (H x lo) by lia. unfold identity_mat.
    rewrite Z.eqb_refl. simpl. apply IH. lia. }
  assert (Hout : forall cnt lo, (lo + cnt <= d)%nat ->
    for_up_brk lo cnt (fun x (u : unit) =>
      for_up_brk 0 d (fun y (u : unit) =>
        if negb (X x y =? (if Nat.eqb x y then 1 else 0)) then inr tt else inl u)
        u) tt = inl tt).
  { induction cnt as [|k IH]; intros lo Hlo; [reflexivity|].
    simpl. rewrite (Hin lo) by lia. apply IH. lia. }
  apply Hout. lia.
Qed.



(** ** The local arrays [W] and [_G] of [GLZ_Make_Trian_NF]

    The source does not initialise them. What they hold at entry has no
    effect on the result. *)

(** Two loops that run side by side. *)
Lemma for_up_rel {S T : Type} (R : nat -> S -> T -> Prop)
  (f : nat -> S -> S) (g : nat -> T -> T) cnt : forall lo s t,
  R lo s t ->
  (forall i s t, (lo <= i < lo + cnt)%nat -> R i s t ->
     R (Datatypes.S i) (f i s) (g i t)) ->
  R (lo + cnt)%nat (for_up lo cnt f s) (for_up lo cnt g t).
Proof.
  induction cnt as [|k IH]; intros lo s t H0 Hstep.
  - now rewrite Nat.add_0_r.
  - simpl. rewrite <- Nat.add_succ_comm. apply IH.
    + apply Hstep; [lia|assumption].
    + intros i s' t' Hi. apply Hstep. lia.
Qed.

Lemma for_down_rel {S T : Type} (R : nat -> S -> T -> Prop)
  (f : nat -> S -> S) (g : nat -> T -> T) cnt : forall s t,
  R cnt s t ->
  (forall j s t, (0 < j <= cnt)%nat -> R j s t ->
     R (j - 1)%nat (f j s) (g j t)) ->
  R 0%nat (for_down cnt f s) (for_down cnt g t).
Proof.
  induction cnt as [|k IH]; intros s t H0 Hstep; [assumption|].
  simpl. apply IH.
  - specialize (Hstep (Datatypes.S k) s t). simpl in Hstep.
    rewrite Nat.sub_0_r in Hstep. apply Hstep; [lia|assumption].
  - intros j s' t' Hj. apply Hstep. lia.
Qed.

(** [scan_col] writes the entries [W[0..N-1]] it returns. *)
Lemma scan_col_locals n L C (NF : mat) (W W' : vec) p :
  let '(N, W1, p1) := scan_col n L C NF W p in
  let '(N', W1', p1') := scan_col n L C NF W' p in
  N = N' /\ p1 = p1' /\ forall k, (k < N)%nat -> W1 k = W1' k.
Proof.
  unfold scan_col.
  pose proof (for_up_rel
    (fun (_ : nat) (s t : nat * vec * (nat -> nat)) =>
       let '(N, W1, p1) := s in
       let '(N', W1', p1') := t in
       N = N' /\ p1 = p1' /\ forall k, (k < N)%nat -> W1 k = W1' k)
    (fun i '(N, W, p) =>
       if NF i C =? 0 then (N, W, p)
       else (Datatypes.S N, upd W N (NF i C), upd p N i))
    (fun i '(N, W, p) =>
       if NF i C =? 0 then (N, W, p)
       else (Datatypes.S N, upd W N (NF i C), upd p N i))
    (n - L) L (0%nat, W, p) (0%nat, W', p)) as H.
  apply H; clear H.
  - split; [reflexivity|]. split; [reflexivity|]. intros; lia.
  - intros i [[N W1] p1] [[N' W1'] p1'] _ (-> & -> & Hw).
    destruct (NF i C =? 0).
    + split; [reflexivity|]. split; [reflexivity|exact Hw].
    + split; [reflexivity|]. split; [reflexivity|].
      intros k Hk. destruct (Nat.eq_dec k N') as [->|Hne].
      * now rewrite !upd_same.
      * rewrite !upd_other by assumption. apply Hw. lia.
Qed.

Lemma find_col_locals n L X G fuel : forall C (NF : mat) (W W' : vec) p,
  match find_col fuel n L X G C NF W p, find_col fuel n L X G C NF W' p with
  | Some (C1, NF1, N, W1, p1), Some (C1', NF1', N', W1', p1') =>
      C1 = C1' /\ NF1 = NF1' /\ N = N' /\ p1 = p1' /\
      forall k, (k < N)%nat -> W1 k = W1' k
  | None, None => True
  | _, _ => False
  end.
Proof.
  induction fuel as [|k IH]; intros C NF W W' p; [exact I|].
  simpl.
  pose proof (scan_col_locals n L C (NF_add_col n G X C NF) W W' p) as Hs.
  destruct (scan_col n L C (NF_add_col n G X C NF) W p) as [[N W1] p1].
  destruct (scan_col n L C (NF_add_col n G X C NF) W' p) as [[N' W1'] p1'].
  destruct Hs as (<- & <- & Hw).
  destruct (Nat.eqb N 0); [apply IH|].
  split; [reflexivity|]. split; [reflexivity|]. split; [reflexivity|].
  split; [reflexivity|exact Hw].
Qed.

(** The lines of [GLZ] that [GL_W_to_GLZ] has written before the round [i]:
    the lines from 1 on, and the line 0 up to the entry [i - 1]. *)
Definition GLZ_written (d i : nat) (s t : Z * (nat -> vec)) : Prop :=
  fst s = fst t /\
  (forall r c, (1 <= r < d)%nat -> (c < d)%nat -> snd s r c = snd t r c) /\
  (forall c, (c < i)%nat -> snd s 0%nat c = snd t 0%nat c).

Lemma GLZ_first_locals (W W' : vec) (d : nat) (GLZ GLZ' : nat -> vec) :
  (2 <= d)%nat -> (forall k, (k < d)%nat -> W k = W' k) ->
  GLZ_written d 2 (GLZ_first W d GLZ) (GLZ_first W' d GLZ').
Proof.
  intros Hd HW. unfold GLZ_first.
  destruct (GLZ_zeroed d GLZ) as [Z1 _]. destruct (GLZ_zeroed d GLZ') as [Z1' _].
  rewrite <- (HW 0%nat), <- (HW 1%nat) by lia.
  destruct (GL_Egcd (W 0%nat) (W 1%nat)) as [[G e0] e1].
  split; [reflexivity|]. simpl. split.
  - intros r c Hr Hc. destruct (Nat.eq_dec r 1) as [->|Hne].
    + rewrite !upd_same.
      destruct (Nat.eq_dec c 1) as [->|Hc1]; [now rewrite !upd_same|].
      rewrite !(upd_other _ 1) by assumption.
      destruct (Nat.eq_dec c 0) as [->|Hc0]; [now rewrite !upd_same|].
      rewrite !upd_other by assumption. rewrite Z1, Z1' by lia. reflexivity.
    + rewrite !(upd_other _ 1), !(upd_other _ 0) by lia.
      rewrite Z1, Z1' by lia. reflexivity.
  - intros c Hc. rewrite !(upd_other _ 1), !upd_same by lia.
    destruct c as [|[|c]]; [| |lia].
    + rewrite !(upd_other _ 1), !upd_same by lia. reflexivity.
    + now rewrite !upd_same.
Qed.

Lemma GLZ_round_locals (W W' : vec) (d i : nat) (s t : Z * (nat -> vec)) :
  (2 <= i < d)%nat -> (forall k, (k < d)%nat -> W k = W' k) ->
  GLZ_written d i s t ->
  GLZ_written d (Datatypes.S i) (GLZ_round W i s) (GLZ_round W' i t).
Proof.
  intros Hi HW. destruct s as [G GLZ], t as [G' GLZ'].
  intros (HG & Hlines & Hline0). simpl in HG, Hlines, Hline0. subst G'.
  unfold GLZ_round. rewrite <- (HW i) by lia.
  destruct (GL_Egcd G (W i)) as [[g a] b].
  set (B1 := for_up 0 i (fun j B => upd B j (- GLZ 0%nat j * Z.quot (W i) g))
               (upd (GLZ i) i (Z.quot G g))).
  set (B1' := for_up 0 i (fun j B => upd B j (- GLZ' 0%nat j * Z.quot (W i) g))
                (upd (GLZ' i) i (Z.quot G g))).
  set (E2 := upd (for_up 0 i (fun j E => upd E j (E j * a)) (GLZ 0%nat)) i b).
  set (E2' := upd (for_up 0 i (fun j E => upd E j (E j * a)) (GLZ' 0%nat)) i b).
  assert (HB1 : forall c, (c < d)%nat -> B1 c = B1' c).
  { intros c Hc. unfold B1, B1'.
    rewrite (fill_prefix_spec (fun j _ => - GLZ 0%nat j * Z.quot (W i) g)).
    rewrite (fill_prefix_spec (fun j _ => - GLZ' 0%nat j * Z.quot (W i) g)).
    destruct (Nat.ltb_spec c i) as [Hlt|Hge].
    - now rewrite Hline0.
    - destruct (Nat.eq_dec c i) as [->|Hne]; [now rewrite !upd_same|].
      rewrite !upd_other by assumption. apply Hlines; lia. }
  assert (HE2 : forall c, (c <= i)%nat -> E2 c = E2' c).
  { intros c Hc. unfold E2, E2'.
    destruct (Nat.eq_dec c i) as [->|Hne]; [now rewrite !upd_same|].
    rewrite !upd_other by assumption.
    rewrite !(fill_prefix_spec (fun _ x => x * a)).
    destruct (Nat.ltb_spec c i); [|lia]. rewrite Hline0 by lia. reflexivity. }
  pose proof (for_down_rel
    (fun (_ : nat) (s t : vec * vec) =>
       (forall c, (c < d)%nat -> fst s c = fst t c) /\
       (forall c, (c <= i)%nat -> snd s c = snd t c))
    (GLZ_improve GLZ) (GLZ_improve GLZ') (i - 1) (B1, E2) (B1', E2')) as Hdown.
  destruct (for_down (i - 1) (GLZ_improve GLZ) (B1, E2)) as [B E].
  destruct (for_down (i - 1) (GLZ_improve GLZ') (B1', E2')) as [B' E'].
  destruct Hdown as [HB HE].
  - split; assumption.
  - intros j [Bj Ej] [Bj' Ej'] Hj [K1 K2]. simpl in K1, K2.
    unfold GLZ_improve. simpl.
    rewrite <- (K1 j), <- (K2 j), <- (Hlines j j) by lia.
    split.
    + intros c Hc. rewrite !row_sub_upto_spec.
      destruct (Nat.leb_spec c j);
        [rewrite (K1 c), (Hlines j c) by lia; reflexivity|now apply K1].
    + intros c Hc. rewrite !row_sub_upto_spec.
      destruct (Nat.leb_spec c j);
        [rewrite (K2 c), (Hlines j c) by lia; reflexivity|now apply K2].
  - simpl in HB, HE. split; [reflexivity|]. simpl. split.
    + intros r c Hr Hc. rewrite !(upd_other _ 0) by lia.
      destruct (Nat.eq_dec r i) as [->|Hne].
      * rewrite !upd_same. now apply HB.
      * rewrite !upd_other by assumption. now apply Hlines.
    + intros c Hc. rewrite !upd_same. apply HE. lia.
Qed.

Lemma GL_W_to_GLZ_locals (W W' : vec) (d : nat) (GLZ GLZ' : nat -> vec) :
  (2 <= d)%nat -> (forall k, (k < d)%nat -> W k = W' k) ->
  GLZ_written d d (GL_W_to_GLZ W d GLZ) (GL_W_to_GLZ W' d GLZ').
Proof.
  intros Hd HW. unfold GL_W_to_GLZ.
  pose proof (for_up_rel (fun i s t => GLZ_written d i s t)
                (GLZ_round W) (GLZ_round W') (d - 2) 2
                (GLZ_first W d GLZ) (GLZ_first W' d GLZ')) as H.
  replace (2 + (d - 2))%nat with d in H by lia.
  apply H.
  - now apply GLZ_first_locals.
  - intros i s t Hi Hr. apply GLZ_round_locals; [lia|assumption|assumption].
Qed.

Lemma GLZ_combine_locals (W W' : vec) (N : nat) (NG NG' : nat -> vec) :
  (0 < N)%nat -> (forall k, (k < N)%nat -> W k = W' k) ->
  fst (GLZ_combine W N NG) = fst (GLZ_combine W' N NG') /\
  forall r c, (r < N)%nat -> (c < N)%nat ->
    snd (GLZ_combine W N NG) r c = snd (GLZ_combine W' N NG') r c.
Proof.
  intros HN HW. unfold GLZ_combine.
  assert (H : let s := if Nat.eqb N 1 then (W 0%nat, upd2 NG 0 0 1)
                       else GL_W_to_GLZ W N NG in
              let t := if Nat.eqb N 1 then (W' 0%nat, upd2 NG' 0 0 1)
                       else GL_W_to_GLZ W' N NG' in
              fst s = fst t /\
              forall r c, (r < N)%nat -> (c < N)%nat -> snd s r c = snd t r c).
  { cbv zeta. destruct (Nat.eqb_spec N 1) as [->|Hne].
    - simpl. split; [apply HW; lia|].
      intros r c Hr Hc. assert (r = 0)%nat by lia. assert (c = 0)%nat by lia.
      subst r c. now rewrite !upd2_same.
    - destruct (GL_W_to_GLZ_locals W W' N NG NG' ltac:(lia) HW)
        as (H1 & H2 & H3).
      split; [exact H1|]. intros r c Hr Hc.
      destruct (Nat.eq_dec r 0) as [->|Hr0]; [now apply H3|apply H2; lia]. }
  cbv zeta in H.
  destruct (if Nat.eqb N 1 then (W 0%nat, upd2 NG 0 0 1) else GL_W_to_GLZ W N NG)
    as [g M].
  destruct (if Nat.eqb N 1 then (W' 0%nat, upd2 NG' 0 0 1)
            else GL_W_to_GLZ W' N NG') as [g' M'].
  destruct H as [Hg HM]. simpl in Hg, HM. subst g'.
  destruct (g <? 0); simpl; (split; [reflexivity|]); [|exact HM].
  intros r c Hr Hc. destruct (Nat.eq_dec r 0) as [->|Hr0].
  - rewrite !upd_same. rewrite !(fill_prefix_spec (fun _ x => x * -1)).
    destruct (Nat.ltb_spec c N); [|lia]. now rewrite HM.
  - rewrite !upd_other by assumption. now apply HM.
Qed.

Lemma apply_block_locals n N p (M M' : nat -> vec) (G : mat) :
  (forall r c, (r < N)%nat -> (c < N)%nat -> M r c = M' r c) ->
  apply_block n N p M G = apply_block n N p M' G.
Proof.
  intros HM. unfold apply_block. apply for_up_ext. intros i G1 _.
  apply for_up_ext. intros j G2 Hj. f_equal.
  change (dot N (M j) (for_up 0 N (fun j Cp => upd Cp j (G1 (p j) i)) (fun _ => 0))
          = dot N (M' j) (for_up 0 N (fun j Cp => upd Cp j (G1 (p j) i)) (fun _ => 0))).
  apply dot_ext; [|reflexivity]. intros k Hk. apply HM; lia.
Qed.

(** Two states of [GLZ_Make_Trian_NF] that differ in [W] and [_G] only. *)
Definition same_but_locals (st st' : GLZ_state) : Prop :=
  gl_C st = gl_C st' /\ gl_G st = gl_G st' /\ gl_NF st = gl_NF st'.

Lemma GLZ_line_locals n nv X L st st' :
  same_but_locals st st' ->
  match GLZ_line n nv X L st, GLZ_line n nv X L st' with
  | Returned s, Returned s' => same_but_locals s s'
  | OutOfRange, OutOfRange => True
  | _, _ => False
  end.
Proof.
  intros (HC & HG & HNF). unfold GLZ_line. rewrite <- HC, <- HG, <- HNF.
  pose proof (find_col_locals n L X (gl_G st) (nv - gl_C st) (gl_C st) (gl_NF st)
                (gl_W st) (gl_W st') (fun _ => 0%nat)) as Hf.
  pose proof (fun C' NF' N W p =>
                find_col_spec n L X (gl_G st) (nv - gl_C st) (gl_C st) (gl_NF st)
                  (gl_W st) (fun _ => 0%nat) C' NF' N W p) as Hspec.
  destruct (find_col (nv - gl_C st) n L X (gl_G st) (gl_C st) (gl_NF st)
              (gl_W st) (fun _ => 0%nat)) as [[[[[C1 NF1] N] W1] p1]|];
    destruct (find_col (nv - gl_C st) n L X (gl_G st) (gl_C st) (gl_NF st)
                (gl_W st') (fun _ => 0%nat)) as [[[[[C1' NF1'] N'] W1'] p1']|];
    try contradiction; [|exact I].
  destruct Hf as (<- & <- & <- & <- & HW).
  destruct (Hspec C1 NF1 N W1 p1 eq_refl) as (_ & HN & _).
  destruct (GLZ_combine_locals W1 W1' N (gl_NG st) (gl_NG st') HN HW)
    as [Hg HM].
  destruct (GLZ_combine W1 N (gl_NG st)) as [g M].
  destruct (GLZ_combine W1' N (gl_NG st')) as [g' M'].
  simpl in Hg, HM. subst g'.
  rewrite (apply_block_locals n N p1 M M' (gl_G st) HM).
  destruct (reduce_above n L C1 _) as [NF4 G3].
  split; [reflexivity|]. split; reflexivity.
Qed.

Lemma GLZ_lines_locals n nv X cnt : forall lo st st',
  same_but_locals st st' ->
  match for_upR lo cnt (GLZ_line n nv X) st,
        for_upR lo cnt (GLZ_line n nv X) st' with
  | Returned s, Returned s' => same_but_locals s s'
  | OutOfRange, OutOfRange => True
  | Exited, Exited => True
  | _, _ => False
  end.
Proof.
  induction cnt as [|k IH]; intros lo st st' H; [exact H|].
  simpl. pose proof (GLZ_line_locals n nv X lo st st' H) as Hl.
  destruct (GLZ_line n nv X lo st) as [s| |],
           (GLZ_line n nv X lo st') as [s'| |]; try contradiction; simpl.
  - now apply IH.
  - exact I.
Qed.

(** X23: what the arrays [W] and [_G] of [GLZ_Make_Trian_NF] hold at entry
    (the source does not initialise them) has no effect: the part of the
    function before its last double loop, which alone uses them, gives the
    same normal form and the same transformation [G], or fails alike, for
    all contents of the two arrays. *)
Theorem GLZ_Make_Trian_NF_locals (W0 : vec) (NG0 : nat -> vec) (X : mat)
  (n nv : nat) :
  GLZ_reduce_from W0 NG0 X n nv = GLZ_reduce X n nv.
Proof.
  unfold GLZ_reduce, GLZ_reduce_from.
  match goal with |- context [GLZ_State 0 ?G0 ?NF0 W0 NG0] =>
    pose proof (GLZ_lines_locals n nv X n 0
                  (GLZ_State 0 G0 NF0 W0 NG0)
                  (GLZ_State 0 G0 NF0 (fun _ => 0) (fun _ _ => 0))) as H;
    destruct (for_upR 0 n (GLZ_line n nv X) (GLZ_State 0 G0 NF0 W0 NG0))
      as [s| |];
    destruct (for_upR 0 n (GLZ_line n nv X)
                (GLZ_State 0 G0 NF0 (fun _ => 0) (fun _ _ => 0))) as [s'| |]
  end; simpl; try reflexivity;
    try (exfalso; apply H; split; [reflexivity|split; reflexivity]).
  destruct H as (HC & HG & HNF); [split; [reflexivity|split; reflexivity]|].
  now rewrite HC, HG, HNF.
Qed.

(** ** The lines of a matrix as combinations of the lines of another *)

Lemma dot_zero_terms n (u v : vec) :
  (forall t, (t < n)%nat -> u t * v t = 0) -> dot n u v = 0.
Proof.
  induction n as [|n IH]; intros H; [reflexivity|].
  rewrite dot_S, IH, (H n) by (try lia; intros; apply H; lia). reflexivity.
Qed.

Lemma dot_single n (u v : vec) m :
  (m < n)%nat -> (forall t, (t < n)%nat -> t <> m -> u t * v t = 0) ->
  dot n u v = u m * v m.
Proof.
  induction n as [|n IH]; intros Hm H; [lia|].
  rewrite dot_S. destruct (Nat.eq_dec m n) as [->|Hne].
  - rewrite dot_zero_terms; [lia|]. intros t Ht. apply H; lia.
  - rewrite IH, (H n) by (try lia; intros; apply H; lia). lia.
Qed.

Lemma dot_pair n (v : vec) i k (x y : Z) :
  (i < n)%nat -> (k < n)%nat -> i <> k ->
  dot n (fun t => if Nat.eqb t i then x else if Nat.eqb t k then y else 0) v
  = x * v i + y * v k.
Proof.
  intros Hi Hk Hik.
  rewrite (dot_ext n _ (fun t => x * (if Nat.eqb t i then 1 else 0)
                                 + y * (if Nat.eqb t k then 1 else 0)) v v).
  - rewrite dot_lin, (dot_unit_l n i), (dot_unit_l n k) by auto. reflexivity.
  - intros t Ht. destruct (Nat.eqb_spec t i) as [E1|E1];
      destruct (Nat.eqb_spec t k) as [E2|E2]; lia.
  - reflexivity.
Qed.

Lemma unit_product (x y : Z) :
  x * y = 1 \/ x * y = -1 -> (x = 1 \/ x = -1) /\ (y = 1 \/ y = -1).
Proof.
  intros H.
  assert (Hx : x <> 0) by (intros ->; lia).
  assert (Hy : y <> 0) by (intros ->; lia).
  assert (H1 : Z.abs x * Z.abs y = 1) by (rewrite <- Z.abs_mul; lia).
  assert (Z.abs x = 1) by nia. assert (Z.abs y = 1) by nia. lia.
Qed.

(** Operations on the lines with factors 1 and -1 can be undone: the lines
    of the matrix they start from are combinations, with integer
    coefficients [U], of the lines of the matrix they end with. *)
Lemma row_ops_back n e (A B : mat) :
  row_ops n e A B -> e = 1 \/ e = -1 ->
  exists U : mat, forall r c, (r < n)%nat -> (c < n)%nat ->
    A r c = dot n (U r) (col B c).
Proof.
  intros H. induction H as [A B H|e A B C i k a b c d H IH Hi Hk Hik Ci Ck Co
                           |e A B C i s H IH Hi Ci Co]; intros He.
  - exists identity_mat. intros r c Hr Hc.
    rewrite (dot_unit_l n r); [now apply H|assumption|].
    intros t Ht. unfold identity_mat. now rewrite Nat.eqb_sym.
  - apply unit_product in He as [He Heps].
    destruct (IH He) as (U & HU).
    set (eps := a * d - b * c) in *.
    set (V := fun m t : nat =>
      if Nat.eqb m i then
        (if Nat.eqb t i then eps * d else if Nat.eqb t k then - eps * b else 0)
      else if Nat.eqb m k then
        (if Nat.eqb t i then - eps * c else if Nat.eqb t k then eps * a else 0)
      else (if Nat.eqb t m then 1 else 0)).
    assert (HV : forall m c', (m < n)%nat -> (c' < n)%nat ->
                   B m c' = dot n (V m) (col C c')).
    { intros m c' Hm Hc'. unfold V.
      destruct (Nat.eqb_spec m i) as [->|Hmi];
        [|destruct (Nat.eqb_spec m k) as [->|Hmk]].
      - rewrite dot_pair by assumption. unfold col.
        rewrite Ci, Ck by assumption.
        transitivity (eps * eps * B i c'); [|ring_simplify; unfold eps; ring].
        assert (eps * eps = 1) by nia. nia.
      - rewrite dot_pair by assumption. unfold col.
        rewrite Ci, Ck by assumption.
        transitivity (eps * eps * B k c'); [|ring_simplify; unfold eps; ring].
        assert (eps * eps = 1) by nia. nia.
      - rewrite (dot_unit_l n m) by auto. unfold col. symmetry.
        now apply Co. }
    exists (fun r t => dot n (U r) (fun m => V m t)).
    intros r c' Hr Hc'. rewrite HU by assumption.
    rewrite dot_exchange.
    apply dot_ext; [reflexivity|]. intros m Hm. unfold col at 1.
    now apply HV.
  - apply unit_product in He as [He Hs].
    destruct (IH He) as (U & HU).
    set (V := fun m t : nat =>
      if Nat.eqb m i then (if Nat.eqb t i then s else 0)
      else (if Nat.eqb t m then 1 else 0)).
    assert (HV : forall m c', (m < n)%nat -> (c' < n)%nat ->
                   B m c' = dot n (V m) (col C c')).
    { intros m c' Hm Hc'. unfold V.
      destruct (Nat.eqb_spec m i) as [->|Hmi].
      - rewrite (dot_single n _ _ i Hi).
        + rewrite Nat.eqb_refl. unfold col. rewrite Ci by assumption.
          assert (s * s = 1) by nia. nia.
        + intros t Ht Hne. destruct (Nat.eqb_spec t i); [contradiction|lia].
      - rewrite (dot_unit_l n m) by auto. unfold col. symmetry.
        now apply Co. }
    exists (fun r t => dot n (U r) (fun m => V m t)).
    intros r c' Hr Hc'. rewrite HU by assumption.
    rewrite dot_exchange.
    apply dot_ext; [reflexivity|]. intros m Hm. unfold col at 1.
    now apply HV.
Qed.

(** The matrix that [GLZ_reduce] was given, from its normal form. *)
Lemma GLZ_reduce_back (X : mat) (n : nat) (NF G : mat) :
  GLZ_reduce X n n = Returned (NF, G) ->
  exists U : mat, forall r c, (r < n)%nat -> (c < n)%nat ->
    X r c = dot n (U r) (col NF c).
Proof.
  intros Er.
  destruct (GLZ_reduce_triangular X n NF G Er) as ((e & He & Hops) & Hprod & _).
  apply (row_ops_back n e); [|exact He].
  apply (row_ops_eq_l n e (GX n X identity_mat)).
  - intros r c Hr Hc. symmetry. apply GX_identity; [assumption|reflexivity].
  - apply (row_ops_eq_r n e _ (GX n X G)); [now apply row_ops_mul|].
    intros r c Hr Hc. symmetry. now apply Hprod.
Qed.

(** An upper triangular normal form with an entry beyond 1 is not mixed up
    with the identity by the last double loop of [GLZ_Make_Trian_NF]. *)
Lemma mixture_not_identity (lim : Z) (n : nat) (X NF U X1 : mat) (i j : nat) :
  1 <= lim ->
  (forall r c, (r < n)%nat -> (c < n)%nat -> X r c = dot n (U r) (col NF c)) ->
  (forall a b, (b < a < n)%nat -> NF a b = 0) ->
  (forall k, (k < n)%nat -> 0 < NF k k) ->
  (forall a k, (a < k < n)%nat -> 0 <= NF a k < NF k k) ->
  (i < n)%nat -> (j < n)%nat -> lim < Z.abs (NF i j) ->
  (forall a b, before a b i j -> (b < n)%nat -> X1 a b = NF a b) ->
  (forall a b, ~ before a b i j -> X1 a b = X a b) ->
  (forall a b, (a < n)%nat -> (b < n)%nat -> X1 a b = identity_mat a b) ->
  False.
Proof.
  intros Hlim HU T1 T2 T3 Hi Hj Hbig Hb Ha HI.
  assert (P1 : forall a b, before a b i j -> (b < n)%nat ->
                 NF a b = identity_mat a b).
  { intros a b Hab Hbn. rewrite <- Hb by assumption. apply HI; [|assumption].
    unfold before in Hab. lia. }
  assert (P2 : forall a b, ~ before a b i j -> (a < n)%nat -> (b < n)%nat ->
                 X a b = identity_mat a b).
  { intros a b Hab Han Hbn. rewrite <- Ha by assumption. now apply HI. }
  destruct (lt_eq_lt_dec j i) as [[Hlt|Heq]|Hgt].
  - rewrite T1 in Hbig by lia. simpl in Hbig. lia.
  - subst j.
    assert (E : X i i = U i i * NF i i).
    { rewrite HU by assumption. rewrite (dot_single n _ _ i Hi); [reflexivity|].
      intros t Ht Hne. unfold col.
      destruct (Nat.lt_ge_cases t i) as [Hti|Hti].
      - rewrite (P1 t i) by (unfold before; lia).
        rewrite identity_other by lia. lia.
      - rewrite T1 by lia. lia. }
    rewrite P2, identity_same in E by (unfold before; lia).
    specialize (T2 i Hi). rewrite Z.abs_eq in Hbig by lia.
    destruct (unit_product (U i i) (NF i i)) as [_ [H1|H1]]; [left; lia| |]; lia.
  - assert (Hrow : forall c, (c < n)%nat -> X j c = identity_mat j c).
    { intros c Hc. apply P2; [unfold before; lia|assumption|assumption]. }
    assert (HU0 : forall m, (m <= j)%nat -> forall t, (t < m)%nat -> U j t = 0).
    { induction m as [|m IH]; intros Hm t Ht; [lia|].
      destruct (Nat.eq_dec t m) as [->|Hne]; [|apply IH; lia].
      assert (E : X j m = U j m * NF m m).
      { rewrite HU by lia. rewrite (dot_single n _ _ m ltac:(lia)); [reflexivity|].
        intros t Ht' Hne. unfold col.
        destruct (Nat.lt_ge_cases t m) as [Htm|Htm].
        - rewrite (IH ltac:(lia) t Htm). lia.
        - rewrite T1 by lia. lia. }
      rewrite Hrow, identity_other in E by lia.
      specialize (T2 m ltac:(lia)). nia. }
    assert (E : X j j = U j j * NF j j).
    { rewrite HU by assumption. rewrite (dot_single n _ _ j Hj); [reflexivity|].
      intros t Ht Hne. unfold col.
      destruct (Nat.lt_ge_cases t j) as [Htj|Htj].
      - rewrite (HU0 j (Nat.le_refl j) t Htj). lia.
      - rewrite T1 by lia. lia. }
    rewrite Hrow, identity_same in E by assumption.
    specialize (T2 j Hj). specialize (T3 i j ltac:(lia)).
    destruct (unit_product (U j j) (NF j j)) as [_ [H1|H1]]; [left; lia| |];
      [|lia].
    rewrite H1 in T3. replace (NF i j) with 0 in Hbig by lia. simpl in Hbig. lia.
Qed.


